(** * Content processor of apple-hig-mcp: a shallow embedding

    The development follows [src/services/content/content-processor.service.ts].
    JavaScript strings are modelled as [string]: every [ascii] is one UTF-16
    code unit of the Latin-1 range (0..255).  JavaScript numbers are IEEE 754
    binary64 values, modelled by the primitive [float].  A thrown exception is
    the [Throw] case of [result].  The one effect of the pipeline, the reading
    of the system clock in [generateFrontMatter], is an explicit argument. *)

From Stdlib Require Import List String Ascii NArith ZArith Lia Bool Arith.
From Stdlib Require Import Floats.
Import ListNotations.

Set Implicit Arguments.
Set Warnings "-inexact-float".

Local Open Scope string_scope.

(** ** JavaScript strings *)

Module JS.

Definition code (c : ascii) : N := N_of_ascii c.

Definition between (lo hi : N) (c : ascii) : bool :=
  (N.leb lo (code c) && N.leb (code c) hi)%bool.

Definition chr (n : N) : ascii := ascii_of_N n.

Definition NL : ascii := chr 10.
Definition CR : ascii := chr 13.
Definition TAB : ascii := chr 9.
Definition QUOTE : ascii := chr 34.

Definition nl : string := String NL EmptyString.

Definition isLower (c : ascii) : bool := between 97 122 c.
Definition isUpper (c : ascii) : bool := between 65 90 c.
Definition isDigit (c : ascii) : bool := between 48 57 c.
Definition isLetter (c : ascii) : bool := (isLower c || isUpper c)%bool.

(** [\w] *)
Definition isWordChar (c : ascii) : bool :=
  (isLetter c || isDigit c || N.eqb (code c) 95)%bool.

(** ECMAScript WhiteSpace and LineTerminator code units below 256: the set
    of [\s] and of [String.prototype.trim]. *)
Definition isSpace (c : ascii) : bool :=
  (between 9 13 c || N.eqb (code c) 32 || N.eqb (code c) 160)%bool.

Definition isLineTerminator (c : ascii) : bool :=
  (N.eqb (code c) 10 || N.eqb (code c) 13)%bool.

Definition isBlank (c : ascii) : bool :=
  (N.eqb (code c) 32 || N.eqb (code c) 9)%bool.

(** [String.prototype.toLowerCase] on one Latin-1 code unit. *)
Definition toLowerChar (c : ascii) : ascii :=
  if (isUpper c || between 192 214 c || between 216 222 c)%bool
  then chr (code c + 32) else c.

(** The Canonicalize operation of case-insensitive matching (upper case);
    the micro sign and y-diaeresis, whose upper case lies outside Latin-1,
    stay as they are: no other Latin-1 unit shares their canonical form. *)
Definition canonicalize (c : ascii) : ascii :=
  if (isLower c || between 224 246 c || between 248 254 c)%bool
  then chr (code c - 32) else c.

Fixpoint smap (f : ascii -> ascii) (s : string) : string :=
  match s with
  | EmptyString => EmptyString
  | String c t => String (f c) (smap f t)
  end.

Definition toLowerCase (s : string) : string := smap toLowerChar s.

Fixpoint startsWith (s p : string) : bool :=
  match p, s with
  | EmptyString, _ => true
  | String a p', String b s' => (Ascii.eqb a b && startsWith s' p')%bool
  | String _ _, EmptyString => false
  end.

(** [s.includes(p)] *)
Fixpoint includes (s p : string) : bool :=
  (startsWith s p ||
   match s with
   | EmptyString => false
   | String _ t => includes t p
   end)%bool.

Fixpoint trimStart (s : string) : string :=
  match s with
  | String c t => if isSpace c then trimStart t else s
  | EmptyString => EmptyString
  end.

Fixpoint trimEnd (s : string) : string :=
  match s with
  | EmptyString => EmptyString
  | String c t =>
      match trimEnd t with
      | EmptyString => if isSpace c then EmptyString else String c EmptyString
      | t' => String c t'
      end
  end.

Definition trim (s : string) : string := trimEnd (trimStart s).

(** [s.split('\n')]: never empty, one piece more than there are separators. *)
Fixpoint splitLines (s : string) : list string :=
  match s with
  | EmptyString => [EmptyString]
  | String c t =>
      if Ascii.eqb c NL then EmptyString :: splitLines t
      else match splitLines t with
           | l :: ls => String c l :: ls
           | [] => [String c EmptyString]
           end
  end.

(** [a.join(sep)] *)
Fixpoint join (sep : string) (l : list string) : string :=
  match l with
  | [] => EmptyString
  | [x] => x
  | x :: r => x ++ sep ++ join sep r
  end.

Fixpoint take (n : nat) (s : string) : string :=
  match n, s with
  | S n', String c t => String c (take n' t)
  | _, _ => EmptyString
  end.

Fixpoint drop (n : nat) (s : string) : string :=
  match n, s with
  | S n', String _ t => drop n' t
  | _, _ => s
  end.

(** [s.slice(1, -1)] *)
Definition sliceInner (s : string) : string :=
  take (String.length s - 2) (drop 1 s).

(** ['#'.repeat(n)] and the like *)
Fixpoint repeat (s : string) (n : nat) : string :=
  match n with
  | 0 => EmptyString
  | S n' => s ++ repeat s n'
  end.

(** Every code unit of [s] satisfies [p]. *)
Fixpoint allChars (p : ascii -> bool) (s : string) : bool :=
  match s with
  | EmptyString => true
  | String c t => (p c && allChars p t)%bool
  end.

(** [s.charAt(i)]: the code unit at [i], or the empty string. *)
Definition charAt (i : nat) (s : string) : string := take 1 (drop i s).

(** The value of a digit of [parseInt], letters standing for 10 to 35; the
    letters used here are the six of radix 16. *)
Definition digitValue (c : ascii) : option Z :=
  if isDigit c then Some (Z.of_N (code c) - 48)%Z
  else if between 97 102 c then Some (Z.of_N (code c) - 87)%Z
  else if between 65 70 c then Some (Z.of_N (code c) - 55)%Z
  else None.

(** The longest prefix of digits of the radix, as a number; [acc] is the
    number read so far, [None] before the first digit. *)
Fixpoint parseDigits (radix : Z) (s : string) (acc : option Z) : option Z :=
  match s with
  | String c t =>
      match digitValue c with
      | Some d =>
          if Z.ltb d radix
          then parseDigits radix t
                 (Some (match acc with Some a => a * radix + d | None => d end)%Z)
          else acc
      | None => acc
      end
  | EmptyString => acc
  end.

(** [parseInt(s)] without a radix: leading white space, a sign, [0x] or
    [0X] for radix 16, then digits; [None] is NaN.  (A result beyond 2^53 is
    the nearest Number; the service reads one code unit.) *)
Definition parseInt (s : string) : option Z :=
  let s := trimStart s in
  let (sign, s) :=
    match s with
    | String "-" t => ((-1)%Z, t)
    | String "+" t => (1%Z, t)
    | _ => (1%Z, s)
    end in
  let (radix, s) :=
    match s with
    | String "0" (String x t) =>
        if (Ascii.eqb x "x" || Ascii.eqb x "X")%bool then (16%Z, t) else (10%Z, s)
    | _ => (10%Z, s)
    end in
  match parseDigits radix s None with
  | Some v => Some (sign * v)%Z
  | None => None
  end.

End JS.

(** ** Exceptions *)

Inductive result (A : Type) : Type :=
| Ok (a : A)
| Throw (e : string).

Arguments Ok {A} a.
Arguments Throw {A} e.

Definition bind {A B : Type} (r : result A) (f : A -> result B) : result B :=
  match r with
  | Ok a => f a
  | Throw e => Throw e
  end.

Notation "x <- c ;; k" := (bind c (fun x => k))
  (at level 61, c at next level, right associativity).

(** ** Regular expressions

    A backtracking matcher in continuation-passing style, after the
    ECMAScript specification of RegExp pattern semantics. *)

Module Regex.
Import JS.

Record flags : Type := Flags {
  ignoreCase : bool;   (* i *)
  multiline : bool;    (* m *)
  dotAll : bool        (* s *)
}.

Inductive regex : Type :=
| Eps
| Chr (inv : bool) (p : ascii -> bool)   (* a character, a class or a negated class *)
| Dot                                    (* . *)
| Seq (a b : regex)
| Alt (a b : regex)
| Star (greedy : bool) (a : regex)       (* a* and a*? *)
| Grp (i : nat) (a : regex)              (* capturing group number i *)
| Bol                                    (* ^ *)
| Eol                                    (* $ *)
| WordB                                  (* \b *)
| NLook (a : regex).                     (* (?!a) *)

(** Matcher state: the end index, the code unit before it, the input from
    it on, and the captures so far. *)
Record mstate : Type := MState {
  pos : nat;
  prev : option ascii;
  rest : string;
  caps : list (nat * string)
}.

Definition cont : Type := mstate -> option mstate.

Definition advance (c : ascii) (t : string) (x : mstate) : mstate :=
  MState (S (pos x)) (Some c) t (caps x).

Fixpoint removeCap (i : nat) (l : list (nat * string)) : list (nat * string) :=
  match l with
  | [] => []
  | (j, s) :: r => if Nat.eqb i j then removeCap i r else (j, s) :: removeCap i r
  end.

Definition setCap (i : nat) (s : string) (x : mstate) : mstate :=
  MState (pos x) (prev x) (rest x) ((i, s) :: removeCap i (caps x)).

Definition clearCaps (gs : list nat) (x : mstate) : mstate :=
  MState (pos x) (prev x) (rest x) (fold_right removeCap (caps x) gs).

Fixpoint getCap (i : nat) (l : list (nat * string)) : option string :=
  match l with
  | [] => None
  | (j, s) :: r => if Nat.eqb i j then Some s else getCap i r
  end.

Fixpoint groups (r : regex) : list nat :=
  match r with
  | Seq a b | Alt a b => groups a ++ groups b
  | Star _ a | NLook a => groups a
  | Grp i a => i :: groups a
  | _ => []
  end.

(** CharacterSetMatcher: with the i flag a code unit is in the class when
    some member has its canonical form. *)
Definition inClass (f : flags) (inv : bool) (p : ascii -> bool) (c : ascii) : bool :=
  xorb inv
    (p c || (ignoreCase f && (p (toLowerChar c) || p (canonicalize c))))%bool.

Definition dotMatches (f : flags) (c : ascii) : bool :=
  (dotAll f || negb (isLineTerminator c))%bool.

Definition atBol (f : flags) (x : mstate) : bool :=
  match prev x with
  | None => true
  | Some c => (multiline f && isLineTerminator c)%bool
  end.

Definition atEol (f : flags) (x : mstate) : bool :=
  match rest x with
  | EmptyString => true
  | String c _ => (multiline f && isLineTerminator c)%bool
  end.

Definition isWordOpt (o : option ascii) : bool :=
  match o with
  | Some c => isWordChar c
  | None => false
  end.

Definition peek (x : mstate) : option ascii :=
  match rest x with
  | EmptyString => None
  | String c _ => Some c
  end.

Definition atWordB (x : mstate) : bool :=
  xorb (isWordOpt (prev x)) (isWordOpt (peek x)).

Definition orElse (a b : option mstate) : option mstate :=
  match a with
  | Some y => Some y
  | None => b
  end.

(** The iterations of a star whose body is matched by [body]: [k] is tried
    after as many iterations as possible (greedy) or as few as possible.  An
    iteration that consumes nothing is rejected, so at most
    [length (rest x)] iterations succeed and the counter [n], which starts
    there, never cuts a match short.  The captures of the body are reset
    when an iteration starts. *)
Fixpoint starLoop (body : mstate -> cont -> option mstate) (greedy : bool)
    (gs : list nat) (k : cont) (n : nat) (x : mstate) {struct n} : option mstate :=
  let again :=
    match n with
    | 0 => None
    | S n' =>
        body (clearCaps gs x)
          (fun y => if Nat.eqb (pos y) (pos x) then None else starLoop body greedy gs k n' y)
    end in
  if greedy then orElse again (k x) else orElse (k x) again.

(** [m f r x k]: match [r] at [x], then continue with [k]; backtrack into
    [r] when [k] fails. *)
Fixpoint m (f : flags) (r : regex) (x : mstate) (k : cont) {struct r} : option mstate :=
  match r with
  | Eps => k x
  | Chr inv p =>
      match rest x with
      | String c t => if inClass f inv p c then k (advance c t x) else None
      | EmptyString => None
      end
  | Dot =>
      match rest x with
      | String c t => if dotMatches f c then k (advance c t x) else None
      | EmptyString => None
      end
  | Seq a b => m f a x (fun y => m f b y k)
  | Alt a b => orElse (m f a x k) (m f b x k)
  | Star greedy a => starLoop (m f a) greedy (groups a) k (String.length (rest x)) x
  | Grp i a =>
      m f a x (fun y => k (setCap i (take (pos y - pos x) (rest x)) y))
  | Bol => if atBol f x then k x else None
  | Eol => if atEol f x then k x else None
  | WordB => if atWordB x then k x else None
  | NLook a =>
      match m f a x (fun y => Some y) with
      | Some _ => None
      | None => k x
      end
  end.

(** *** What a successful match has done

    [steps f r x y]: [r] can take the matcher from state [x] to state [y].
    The matcher only ever continues from such states ([m_sound] below). *)
Inductive steps (f : flags) : regex -> mstate -> mstate -> Prop :=
| st_eps x : steps f Eps x x
| st_chr inv p x c t :
    rest x = String c t -> inClass f inv p c = true ->
    steps f (Chr inv p) x (advance c t x)
| st_dot x c t :
    rest x = String c t -> dotMatches f c = true ->
    steps f Dot x (advance c t x)
| st_seq a b x y z : steps f a x y -> steps f b y z -> steps f (Seq a b) x z
| st_alt_l a b x y : steps f a x y -> steps f (Alt a b) x y
| st_alt_r a b x y : steps f b x y -> steps f (Alt a b) x y
| st_star_stop g a x : steps f (Star g a) x x
| st_star_more g a x y z :
    steps f a (clearCaps (groups a) x) y -> pos y <> pos x ->
    steps f (Star g a) y z -> steps f (Star g a) x z
| st_grp i a x y :
    steps f a x y -> steps f (Grp i a) x (setCap i (take (pos y - pos x) (rest x)) y)
| st_bol x : atBol f x = true -> steps f Bol x x
| st_eol x : atEol f x = true -> steps f Eol x x
| st_wordb x : atWordB x = true -> steps f WordB x x
| st_nlook a x : steps f (NLook a) x x.

(** [sets i r]: every match of [r] leaves capture [i] defined. *)
Fixpoint sets (i : nat) (r : regex) : bool :=
  match r with
  | Grp j a => (Nat.eqb i j || sets i a)%bool
  | Seq a b => (sets i b || (sets i a && negb (existsb (Nat.eqb i) (groups b))))%bool
  | Alt a b => (sets i a && sets i b)%bool
  | _ => false
  end.

(** *** Pattern constructors *)

Definition isChar (a : ascii) : ascii -> bool := Ascii.eqb a.

Definition ch (a : ascii) : regex := Chr false (isChar a).
Definition cls (p : ascii -> bool) : regex := Chr false p.
Definition ncls (p : ascii -> bool) : regex := Chr true p.

(** a literal string *)
Fixpoint lit (s : string) : regex :=
  match s with
  | EmptyString => Eps
  | String c EmptyString => ch c
  | String c t => Seq (ch c) (lit t)
  end.

Fixpoint seq (l : list regex) : regex :=
  match l with
  | [] => Eps
  | [r] => r
  | r :: t => Seq r (seq t)
  end.

Definition star (a : regex) : regex := Star true a.       (* a*  *)
Definition lazy (a : regex) : regex := Star false a.      (* a*? *)
Definition plus (a : regex) : regex := Seq a (Star true a).  (* a+ *)
Definition opt (a : regex) : regex := Alt a Eps.          (* a?  *)

(** a{n,} *)
Fixpoint atLeast (n : nat) (a : regex) : regex :=
  match n with
  | 0 => Star true a
  | S n' => Seq a (atLeast n' a)
  end.

Definition ws : regex := cls isSpace.            (* \s *)
Definition blank : regex := cls isBlank.         (* [ \t] *)
Definition notNL : regex := ncls (isChar NL).    (* [^\n] *)

(** *** exec, match and replace *)

(** One match: the index it starts at, the text and the captures. *)
Record mres : Type := MRes {
  mstart : nat;
  mtext : string;
  mcaps : list (nat * string)
}.

Definition group (i : nat) (r : mres) : option string := getCap i (mcaps r).

(** [$i] in a replacement string: empty when the group did not take part. *)
Definition groupOrEmpty (i : nat) (r : mres) : string :=
  match group i r with
  | Some s => s
  | None => EmptyString
  end.

(** A match attempt at index [i], where [s] is the input from [i] on. *)
Definition matchAt (f : flags) (r : regex) (i : nat) (pv : option ascii) (s : string)
  : option mres :=
  match m f r (MState i pv s []) (fun y => Some y) with
  | Some y => Some (MRes i (take (pos y - i) s) (caps y))
  | None => None
  end.

(** The pieces of a global scan (lastIndex loop): the code units no match
    covers and the matches, in order.  After an empty match the scan resumes
    one code unit further; [skip] counts the code units of the input still
    covered by the last match. *)
Fixpoint scan (f : flags) (r : regex) (i : nat) (pv : option ascii) (s : string)
    (skip : nat) {struct s} : list (ascii + mres) :=
  match skip with
  | S k =>
      match s with
      | String c t => scan f r (S i) (Some c) t k
      | EmptyString => []
      end
  | 0 =>
      match matchAt f r i pv s with
      | Some mr =>
          inr mr ::
          match s with
          | String c t =>
              match String.length (mtext mr) with
              | 0 => inl c :: scan f r (S i) (Some c) t 0
              | S k => scan f r (S i) (Some c) t k
              end
          | EmptyString => []
          end
      | None =>
          match s with
          | String c t => inl c :: scan f r (S i) (Some c) t 0
          | EmptyString => []
          end
      end
  end.

Definition scanAll (f : flags) (r : regex) (s : string) : list (ascii + mres) :=
  scan f r 0 None s 0.

Fixpoint matchesOf (l : list (ascii + mres)) : list mres :=
  match l with
  | [] => []
  | inl _ :: t => matchesOf t
  | inr mr :: t => mr :: matchesOf t
  end.

(** [s.match(/r/g) || []] *)
Definition matchAll (f : flags) (r : regex) (s : string) : list string :=
  map mtext (matchesOf (scanAll f r s)).

Fixpoint render (rep : mres -> string) (l : list (ascii + mres)) : string :=
  match l with
  | [] => EmptyString
  | inl c :: t => String c (render rep t)
  | inr mr :: t => rep mr ++ render rep t
  end.

(** [s.replace(/r/g, rep)] *)
Definition replaceAll (f : flags) (r : regex) (rep : mres -> string) (s : string) : string :=
  render rep (scanAll f r s).

Fixpoint renderM (rep : mres -> result string) (l : list (ascii + mres)) : result string :=
  match l with
  | [] => Ok EmptyString
  | inl c :: t => t' <- renderM rep t ;; Ok (String c t')
  | inr mr :: t => x <- rep mr ;; t' <- renderM rep t ;; Ok (x ++ t')
  end.

(** [s.replace(/r/g, callback)] for a callback that may throw. *)
Definition replaceAllM (f : flags) (r : regex) (rep : mres -> result string) (s : string)
  : result string :=
  renderM rep (scanAll f r s).

(** The first match at or after index [i] together with the input before
    and after it: [exec] of a regex without the g flag. *)
Fixpoint search (f : flags) (r : regex) (i : nat) (pv : option ascii) (s : string)
    {struct s} : option (string * mres * string) :=
  match matchAt f r i pv s with
  | Some mr => Some (EmptyString, mr, drop (String.length (mtext mr)) s)
  | None =>
      match s with
      | String c t =>
          match search f r (S i) (Some c) t with
          | Some (before, mr, after) => Some (String c before, mr, after)
          | None => None
          end
      | EmptyString => None
      end
  end.

(** [s.match(/r/)] *)
Definition exec (f : flags) (r : regex) (s : string) : option mres :=
  match search f r 0 None s with
  | Some (_, mr, _) => Some mr
  | None => None
  end.

(** [s.replace(/r/, rep)]: the first match only. *)
Definition replaceFirst (f : flags) (r : regex) (rep : mres -> string) (s : string) : string :=
  match search f r 0 None s with
  | Some (before, mr, after) => before ++ rep mr ++ after
  | None => s
  end.

Definition noFlags : flags := Flags false false false.
Definition fI : flags := Flags true false false.
Definition fM : flags := Flags false true false.
Definition fIS : flags := Flags true false true.
Definition fIM : flags := Flags true true false.

(** *** Measures of a pattern *)

(** A lower bound on the number of code units a match consumes. *)
Fixpoint minLen (r : regex) : nat :=
  match r with
  | Chr _ _ | Dot => 1
  | Seq a b => minLen a + minLen b
  | Alt a b => Nat.min (minLen a) (minLen b)
  | Grp _ a => minLen a
  | _ => 0
  end.

(** The pattern ends with [$]: without the m flag a match ends where the
    input ends. *)
Fixpoint anchoredEnd (r : regex) : bool :=
  match r with
  | Eol => true
  | Seq _ b => anchoredEnd b
  | Alt a b => (anchoredEnd a && anchoredEnd b)%bool
  | Grp _ a => anchoredEnd a
  | _ => false
  end.

End Regex.

(** ** Numbers *)

Module Num.
Import JS.
Local Open Scope float_scope.

(** A length or a count as a Number (exact below 2^53). *)
Definition ofNat (n : nat) : float := PrimFloat.of_uint63 (Uint63.of_Z (Z.of_nat n)).

Definition negZero : float := PrimFloat.opp 0.

(** [Math.min(a, b)] *)
Definition mathMin (a b : float) : float :=
  if (PrimFloat.is_nan a || PrimFloat.is_nan b)%bool then PrimFloat.nan
  else if PrimFloat.ltb a b then a
  else if PrimFloat.ltb b a then b
  else if (PrimFloat.is_zero a && PrimFloat.get_sign b)%bool then b
  else a.

(** The exact value of a finite Number as [num / den], [den] a power of two. *)
Definition toFraction (x : float) : option (Z * Z) :=
  match Prim2SF x with
  | S754_zero _ => Some (0, 1)%Z
  | S754_finite sg mant e =>
      let sm := if sg then Z.neg mant else Z.pos mant in
      Some (if Z.leb 0 e then (sm * 2 ^ e, 1) else (sm, 2 ^ (- e)))%Z
  | _ => None
  end.

(** The integer nearest to [x * 10^j], ties towards plus infinity. *)
Definition scaledRound (x : float) (j : nat) : option Z :=
  match toFraction x with
  | Some (n, d) => Some (Z.div (2 * n * 10 ^ Z.of_nat j + d) (2 * d))
  | None => None
  end.

Definition ofZ (z : Z) : float :=
  if Z.ltb z 0 then PrimFloat.opp (PrimFloat.of_uint63 (Uint63.of_Z (- z)))
  else PrimFloat.of_uint63 (Uint63.of_Z z).

(** [Math.round(x)]: the nearest integer, the upper one of two; a Number
    of magnitude 2^52 or more is an integer already. *)
Definition mathRound (x : float) : float :=
  if PrimFloat.leb 4503599627370496 (PrimFloat.abs x) then x
  else
    match scaledRound x 0 with
    | Some z =>
        if (Z.eqb z 0 && (PrimFloat.get_sign x || PrimFloat.ltb x 0))%bool
        then negZero else ofZ z
    | None => x
    end.

Definition digit (n : Z) : ascii := chr (Z.to_N (48 + n)).

Fixpoint digitsAux (fuel : nat) (n : Z) (acc : string) : string :=
  match fuel with
  | 0 => acc
  | S fuel' =>
      let acc' := String (digit (Z.modulo n 10)) acc in
      if Z.ltb n 10 then acc' else digitsAux fuel' (Z.div n 10) acc'
  end.

(** The decimal digits of a non-negative integer. *)
Definition digits (n : Z) : string := digitsAux (S (Z.to_nat (Z.log2 n))) n EmptyString.

(** Decimal digits padded with zeros on the left to [w] places. *)
Definition pad (w : nat) (n : Z) : string :=
  let d := digits n in JS.repeat "0" (w - String.length d) ++ d.

Definition natToString (n : nat) : string := digits (Z.of_nat n).

(** The significand of a finite Number is even. *)
Definition evenSignificand (x : float) : bool :=
  match Prim2SF x with
  | S754_finite _ mant _ => Z.even (Z.pos mant)
  | _ => true
  end.

(** [lessFrac a b]: the fraction [a] is below the fraction [b]
    (denominators positive). *)
Definition lessFrac (a b : Z * Z) : bool := Z.ltb (fst a * snd b) (fst b * snd a).

Definition midFrac (a b : Z * Z) : Z * Z :=
  (fst a * snd b + fst b * snd a, 2 * snd a * snd b)%Z.

(** The decimal [n / d] reads back as the positive finite Number [x]: it lies
    between the midpoints of [x] and its two neighbours, a midpoint included
    when the significand of [x] is even (round to nearest, ties to even).
    Above the largest Number the neighbour is where the next one would be. *)
Definition readsBackAs (x : float) (n d : Z) : bool :=
  match toFraction x, toFraction (PrimFloat.next_down x) with
  | Some fx, Some fd =>
      let fu :=
        match toFraction (PrimFloat.next_up x) with
        | Some fu => fu
        | None => (2 * fst fx * snd fd - fst fd * snd fx, snd fx * snd fd)%Z
        end in
      let hi := midFrac fx fu in
      let lo := midFrac fd fx in
      ((lessFrac (n, d) hi || (evenSignificand x && negb (lessFrac hi (n, d)))) &&
       (lessFrac lo (n, d) || (evenSignificand x && negb (lessFrac (n, d) lo))))%bool
  | _, _ => false
  end.

(** [x * 10^e] as a fraction, for a fraction [x]. *)
Definition scale10 (x : Z * Z) (e : Z) : Z * Z :=
  if Z.leb 0 e then (fst x * 10 ^ e, snd x)%Z else (fst x, snd x * 10 ^ (- e))%Z.

(** The integer nearest to a fraction, the even one of two. *)
Definition nearestInteger (x : Z * Z) : Z :=
  let q := Z.div (fst x) (snd x) in
  let r := Z.modulo (fst x) (snd x) in
  if Z.ltb (2 * r) (snd x) then q
  else if Z.ltb (snd x) (2 * r) then (q + 1)%Z
  else if Z.even q then q else (q + 1)%Z.

(** The least [n] from [n0] on with [x < 10^n], for a positive fraction [x]. *)
Fixpoint magnitude (fuel : nat) (n0 : Z) (x : Z * Z) : Z :=
  if lessFrac x (scale10 (1, 1)%Z n0) then n0
  else match fuel with
       | 0 => n0
       | S fuel' => magnitude fuel' (n0 + 1)%Z x
       end.

(** The [n] with [10^(n-1) <= x < 10^n]: the search starts below it, at an
    estimate from the binary logarithms. *)
Definition decimalExponent (x : Z * Z) : Z :=
  let l2 := (Z.log2 (fst x) - Z.log2 (snd x))%Z in
  magnitude 8 (Z.div (l2 * 30103) 100000 - 2)%Z x.

(** The digits [s], their number [k] and the exponent [n] of Number::toString:
    [k] is the least number of digits for which [s * 10^(n-k)] reads back as
    [x]. *)
Fixpoint shortest (fuel k : nat) (n : Z) (x : float) (fx : Z * Z) : nat * Z * Z :=
  let e := (n - Z.of_nat k)%Z in
  let sk := nearestInteger (scale10 fx (- e)) in
  let d := scale10 (sk, 1%Z) e in
  let found := if Z.eqb sk (10 ^ Z.of_nat k) then (k, 10 ^ (Z.of_nat k - 1), n + 1)%Z
               else (k, sk, n) in
  if readsBackAs x (fst d) (snd d) then found
  else match fuel with
       | 0 => found
       | S fuel' => shortest fuel' (S k) n x fx
       end.

(** Number::toString of a positive finite Number, from [s], [k] and [n]. *)
Definition formatDigits (k : nat) (sd : Z) (n : Z) : string :=
  let ds := pad k sd in
  if (Z.leb (Z.of_nat k) n && Z.leb n 21)%bool
  then ds ++ JS.repeat "0" (Z.to_nat n - k)
  else if (Z.ltb 0 n && Z.leb n 21)%bool
  then take (Z.to_nat n) ds ++ "." ++ drop (Z.to_nat n) ds
  else if (Z.ltb (-6) n && Z.leb n 0)%bool
  then "0." ++ JS.repeat "0" (Z.to_nat (- n)) ++ ds
  else
    let e := (n - 1)%Z in
    let ex := (if Z.ltb e 0 then "-" else "+") ++ digits (Z.abs e) in
    if Nat.eqb k 1 then ds ++ "e" ++ ex
    else take 1 ds ++ "." ++ drop 1 ds ++ "e" ++ ex.

(** Number::toString *)
Definition numberToString (x : float) : string :=
  if PrimFloat.is_nan x then "NaN"
  else if PrimFloat.is_zero x then "0"
  else if PrimFloat.is_infinity x
  then (if PrimFloat.get_sign x then "-Infinity" else "Infinity")
  else
    let ax := PrimFloat.abs x in
    match toFraction ax with
    | Some fx =>
        let '(k, sd, n) := shortest 20 1 (decimalExponent fx) ax fx in
        (if PrimFloat.ltb x 0 then "-" else EmptyString) ++ formatDigits k sd n
    | None => "NaN"
    end.

End Num.

(** ** The HTML-to-Markdown converter

    [processContent] calls the third-party package turndown, configured by
    [configureTurndownRules].  The pipeline below takes the converter as a
    parameter; [Turndown.turndown] is a model of it for the documents the
    examples need: text free of Markdown punctuation inside headings,
    paragraphs, code spans, images, nav/footer/header and generic block
    containers.  The rules are those of [configureTurndownRules], looked up
    latest-added first; paragraphs and the joining of blocks follow the
    package's defaults. *)

Module Turndown.
Import JS Regex.

Inductive token : Type :=
| TText (s : string)
| TOpen (name attrs : string)
| TClose (name : string).

Fixpoint revOnto (s acc : string) : string :=
  match s with
  | EmptyString => acc
  | String c t => revOnto t (String c acc)
  end.

Definition rev (s : string) : string := revOnto s EmptyString.

Fixpoint spanName (s : string) : string * string :=
  match s with
  | String c t =>
      if (isSpace c || Ascii.eqb c "/")%bool then (EmptyString, s)
      else let (n, r) := spanName t in (String c n, r)
  | EmptyString => (EmptyString, EmptyString)
  end.

Definition tagOf (body : string) : token :=
  match body with
  | String "/" t => TClose (toLowerCase (fst (spanName t)))
  | _ => let (n, a) := spanName body in TOpen (toLowerCase n) a
  end.

Definition textTok (buf : string) : list token :=
  match buf with
  | EmptyString => []
  | _ => [TText (rev buf)]
  end.

(** [inTag] tells whether the scan is between [<] and [>]; [buf] holds the
    code units of the current piece, last first. *)
Fixpoint tokenize (s : string) (inTag : bool) (buf : string) : list token :=
  match s with
  | EmptyString => if inTag then textTok (buf ++ "<") else textTok buf
  | String c t =>
      if inTag then
        if Ascii.eqb c ">" then tagOf (rev buf) :: tokenize t false EmptyString
        else tokenize t true (String c buf)
      else
        if Ascii.eqb c "<" then textTok buf ++ tokenize t true EmptyString
        else tokenize t false (String c buf)
  end.

(** [class="..."] of a start tag *)
Definition className (attrs : string) : string :=
  match exec fI (seq [lit "class="; ch QUOTE; Grp 1 (star (ncls (isChar QUOTE))); ch QUOTE])
          attrs with
  | Some mr => groupOrEmpty 1 mr
  | None => EmptyString
  end.

Definition isVoid (name : string) : bool :=
  existsb (String.eqb name) ["img"; "br"; "hr"; "input"; "meta"; "link"].

Definition isBlock (name : string) : bool :=
  existsb (String.eqb name)
    ["article"; "aside"; "blockquote"; "body"; "div"; "footer"; "h1"; "h2"; "h3";
     "h4"; "h5"; "h6"; "header"; "html"; "li"; "main"; "nav"; "ol"; "p"; "pre";
     "section"; "table"; "ul"].

Definition headingLevel (name : string) : option nat :=
  match name with
  | "h1" => Some 1 | "h2" => Some 2 | "h3" => Some 3
  | "h4" => Some 4 | "h5" => Some 5 | "h6" => Some 6
  | _ => None
  end.

Definition isContainer (name : string) : bool :=
  existsb (String.eqb name) ["div"; "section"; "article"; "aside"; "main"].

Definition isNavigation (name : string) : bool :=
  existsb (String.eqb name) ["nav"; "footer"; "header"].

(** The replacement of an element with converted content [content]. *)
Definition replacement (name attrs content : string) : string :=
  let cn := className attrs in
  if (negb (isVoid name) && String.eqb (trim content) EmptyString)%bool
  then (if isBlock name then nl ++ nl else EmptyString)                 (* blank rule *)
  else
  match headingLevel name with
  | Some level =>                                                       (* headerSpacing *)
      let trimmedContent := trim content in
      if String.eqb trimmedContent EmptyString then EmptyString
      else nl ++ nl ++ JS.repeat "#" level ++ " " ++ trimmedContent ++ nl ++ nl
  | None =>
      if String.eqb name "code" then "`" ++ content ++ "`"              (* preserveCode *)
      else if isContainer name then                                     (* blockElementSpacing *)
        let trimmedContent := trim content in
        if String.eqb trimmedContent EmptyString then EmptyString
        else if (includes cn "content" || includes cn "section" || includes cn "main")%bool
             then nl ++ nl ++ trimmedContent ++ nl ++ nl
             else trimmedContent
      else if (includes cn "navigation" || includes cn "breadcrumb")%bool
           then nl                                                      (* removeByClass *)
      else if isNavigation name then nl ++ nl                           (* removeNavigation *)
      else if String.eqb name "img" then EmptyString                    (* removeImages *)
      else if isBlock name then nl ++ nl ++ content ++ nl ++ nl
      else content
  end.

Fixpoint dropWhile (p : ascii -> bool) (s : string) : string :=
  match s with
  | String c t => if p c then dropWhile p t else s
  | EmptyString => EmptyString
  end.

Definition dropWhileEnd (p : ascii -> bool) (s : string) : string :=
  rev (dropWhile p (rev s)).

Definition isNL (c : ascii) : bool := Ascii.eqb c NL.

(** The package's [join]: at most two line breaks between two pieces. *)
Definition joinOutput (output replacement : string) : string :=
  let s1 := dropWhileEnd isNL output in
  let s2 := dropWhile isNL replacement in
  let nls := Nat.max (String.length output - String.length s1)
                     (String.length replacement - String.length s2) in
  s1 ++ take nls (nl ++ nl) ++ s2.

Definition endsLine (s : string) : bool :=
  match rev s with
  | EmptyString => true
  | String c _ => isNL c
  end.

(** White space collapses at the borders of blocks. *)
Definition addText (output text : string) : string :=
  joinOutput output (if endsLine output then dropWhile isSpace text else text).

Definition addElement (output rep : string) : string :=
  match rep with
  | String c _ => if isNL c then joinOutput (dropWhileEnd isSpace output) rep
                  else joinOutput output rep
  | EmptyString => output
  end.

(** The open elements, innermost first, each with its start tag and the
    output converted so far inside it. *)
Definition frame : Type := (string * string * string)%type.

Fixpoint closeAll (out : string) (stack : list frame) : string :=
  match stack with
  | [] => out
  | (n, a, parentOut) :: r => closeAll (addElement parentOut (replacement n a out)) r
  end.

Fixpoint walk (toks : list token) (out : string) (stack : list frame) : string :=
  match toks with
  | [] => closeAll out stack
  | TText s :: r => walk r (addText out s) stack
  | TOpen n a :: r =>
      if isVoid n then walk r (addElement out (replacement n a EmptyString)) stack
      else walk r EmptyString ((n, a, out) :: stack)
  | TClose n :: r =>
      match stack with
      | (n', a, parentOut) :: stack' =>
          if String.eqb n n'
          then walk r (addElement parentOut (replacement n' a out)) stack'
          else walk r out stack
      | [] => walk r out stack
      end
  end.

Definition isOuterSpace (c : ascii) : bool :=
  (Ascii.eqb c TAB || Ascii.eqb c CR || Ascii.eqb c NL)%bool.

Definition turndown (html : string) : string :=
  dropWhileEnd isSpace (dropWhile isOuterSpace (walk (tokenize html false EmptyString) EmptyString [])).

End Turndown.

(** ** The content processor service *)

Module ContentProcessor.
Import JS Regex Num.

(** Modelled from the spec: [HIGSection] of [types.ts], which is not among
    the sources; section 3 gives its fields.  [platform] and [category] are
    string enumerations, kept as strings. *)
Record HIGSection : Type := {
  id : string;
  title : string;
  url : string;
  platform : string;
  category : string
}.

Record ContentQualityMetrics : Type := {
  score : float;
  length : nat;
  structureScore : float;
  appleTermsScore : float;
  codeExamplesCount : float;
  imageReferencesCount : nat;
  headingCount : nat;
  isFallbackContent : bool;
  extractionMethod : string;
  confidence : float
}.

Record ProcessedContent : Type := {
  cleanedMarkdown : string;
  frontMatter : string;
  quality : ContentQualityMetrics;
  keywords : list string;
  relatedSections : list string
}.

Definition appleDesignTerms : list string :=
  ["accessibility"; "animation"; "branding"; "buttons"; "color"; "controls";
   "design"; "feedback"; "gestures"; "haptics"; "icons"; "images"; "input";
   "interface"; "layout"; "materials"; "motion"; "navigation"; "presentation";
   "selection"; "status"; "system"; "typography"; "visual"; "widgets";
   "human interface guidelines"; "user experience"; "user interface";
   "touch target"; "dynamic type"; "voiceover"; "dark mode"; "light mode"].

Definition fallbackIndicators : list string :=
  ["this page requires javascript";
   "please turn on javascript";
   "javascript is required";
   "single page application";
   "content not available";
   "loading...";
   "page not found";
   "skip navigation";
   "refresh the page to view"].

Definition appleSPAIndicators : list string :=
  ["skip navigation";
   "current page is";
   "supported platforms";
   "change log";
   "platform considerations";
   "additional considerations for";
   "no additional considerations for"].

Definition empty (_ : mres) : string := EmptyString.
Definition space (_ : mres) : string := " ".

(** *** configureTurndownRules *)

(** What the rules read of a DOM node; [className] is [undefined] on a node
    that is not an element. *)
Record Node : Type := {
  nodeType : Z;
  nodeName : string;
  className : option string
}.

(** ['#'.repeat(count)]: a count that is not a number counts as 0, a
    negative one is a RangeError. *)
Definition repeatCount (s : string) (count : option Z) : result string :=
  match count with
  | None => Ok EmptyString
  | Some n =>
      if Z.ltb n 0 then Throw "RangeError: Invalid count value"
      else Ok (repeat s (Z.to_nat n))
  end.

Definition removeImages (content : string) (node : Node) : string := EmptyString.

(* Add spacing to prevent word concatenation *)
Definition removeNavigation (content : string) (node : Node) : string := nl ++ nl.

(** The filter of the rule [removeByClass]. *)
Definition removeByClassFilter (node : Node) : bool :=
  if Z.eqb (nodeType node) 1 then
    match className node with
    | Some cn => (includes cn "navigation" || includes cn "breadcrumb")%bool
    | None => false
    end
  else false.

(* Add line break to prevent concatenation *)
Definition removeByClass (content : string) (node : Node) : string := nl.

Definition blockElementSpacing (content : string) (node : Node) : string :=
  (* Only add spacing if the element actually contains content *)
  let trimmedContent := trim content in
  if String.eqb trimmedContent EmptyString then EmptyString
  else
    (* Check if this is likely a content container *)
    let hasContentClass :=
      match className node with
      | Some cn =>
          (negb (String.eqb cn EmptyString) &&
           (includes cn "content" || includes cn "section" || includes cn "main"))%bool
      | None => false
      end in
    (* Add spacing around content blocks *)
    if hasContentClass then nl ++ nl ++ trimmedContent ++ nl ++ nl else trimmedContent.

Definition preserveCode (content : string) (node : Node) : string :=
  "`" ++ content ++ "`".

(** The filter of the rule [smartWhitespace]: the text nodes. *)
Definition smartWhitespaceFilter (node : Node) : bool := Z.eqb (nodeType node) 3.

(** The replacement of the rule [smartWhitespace]: [/[ \t]+/g] to a space,
    then [/\n[ \t]+/g] and [/[ \t]+\n/g] to a line feed. *)
Definition smartWhitespace (content : string) : string :=
  let content := replaceAll noFlags (plus blank) space content in
  let content := replaceAll noFlags (Seq (ch NL) (plus blank)) (fun _ => nl) content in
  let content := replaceAll noFlags (Seq (plus blank) (ch NL)) (fun _ => nl) content in
  content.

Definition headerSpacing (content : string) (node : Node) : result string :=
  let level := parseInt (charAt 1 (nodeName node)) in
  headerPrefix <- repeatCount "#" level ;;
  let trimmedContent := trim content in
  if String.eqb trimmedContent EmptyString then Ok EmptyString
  else
    (* Add spacing around headers *)
    Ok (nl ++ nl ++ headerPrefix ++ " " ++ trimmedContent ++ nl ++ nl).

(** *** cleanHtml *)

(** The pattern of lines 200 and 201, for [script] and [style]: the start
    tag up to the first [<], then any number of pieces that begin with a
    [<] not opening the end tag, then the end tag; flags gi. *)
Definition rawTextElement (name : string) : regex :=
  seq [lit ("<" ++ name); WordB; star (ncls (isChar "<"));
       star (seq [NLook (lit ("</" ++ name ++ ">")); ch "<"; star (ncls (isChar "<"))]);
       lit ("</" ++ name ++ ">")].

(** [/<name\b[^>]*>.*?<\/name>/gi] *)
Definition spanElement (name : string) : regex :=
  seq [lit ("<" ++ name); WordB; star (ncls (isChar ">")); ch ">"; lazy Dot;
       lit ("</" ++ name ++ ">")].

(** The patterns of lines 209 and 210: a double-quoted class attribute
    whose value contains [word]; flags gi. *)
Definition classAttribute (word : string) : regex :=
  seq [lit "class="; ch QUOTE; star (ncls (isChar QUOTE)); lit word;
       star (ncls (isChar QUOTE)); ch QUOTE].

Definition cleanHtml (html : string) : string :=
  let cleaned := html in
  (* Remove script and style tags *)
  let cleaned := replaceAll fI (rawTextElement "script") space cleaned in
  let cleaned := replaceAll fI (rawTextElement "style") space cleaned in
  (* Remove navigation elements with spacing to prevent word concatenation *)
  let cleaned := replaceAll fI (spanElement "nav") space cleaned in
  let cleaned := replaceAll fI (spanElement "footer") space cleaned in
  let cleaned := replaceAll fI (spanElement "header") space cleaned in
  (* Remove common UI elements that aren't content *)
  let cleaned := replaceAll fI (classAttribute "breadcrumb") empty cleaned in
  let cleaned := replaceAll fI (classAttribute "navigation") empty cleaned in
  (* Clean up multiple spaces that might have been introduced *)
  let cleaned := replaceAll noFlags (plus ws) space cleaned in
  cleaned.

(** *** removeAppleSPAMetadata *)

(** [/platform considerations\s*no additional considerations for.*?\./gi] *)
Definition noConsiderationsRe : regex :=
  seq [lit "platform considerations"; star ws; lit "no additional considerations for";
       lazy Dot; ch "."].

(** [/current page is \w+\s*/gi] *)
Definition currentPageRe : regex :=
  seq [lit "current page is "; plus (cls isWordChar); star ws].

(** [/supported platforms.*$/gi] *)
Definition supportedPlatformsRe : regex :=
  seq [lit "supported platforms"; star Dot; Eol].

Definition removeAppleSPAMetadata (content : string) : string :=
  let cleaned := content in
  let cleaned := replaceAll fI noConsiderationsRe empty cleaned in
  let cleaned := replaceAll fI currentPageRe empty cleaned in
  let cleaned := replaceAll fI supportedPlatformsRe empty cleaned in
  cleaned.

(** *** removeRepeatedTitles *)

(** [/^#+\s*(.+)$/] *)
Definition titleRe : regex :=
  seq [Bol; plus (ch "#"); star ws; Grp 1 (plus Dot); Eol].

(** [titleCounts]: a [Map] from titles to counts. *)
Definition titleMap : Type := list (string * nat).

Fixpoint mapGet (k : string) (mp : titleMap) : option nat :=
  match mp with
  | [] => None
  | (k', v) :: r => if String.eqb k k' then Some v else mapGet k r
  end.

Fixpoint mapSet (k : string) (v : nat) (mp : titleMap) : titleMap :=
  match mp with
  | [] => [(k, v)]
  | (k', v') :: r => if String.eqb k k' then (k, v) :: r else (k', v') :: mapSet k v r
  end.

(** [x.toLowerCase()] and the like on a value that may be [undefined]. *)
Definition defined (o : option string) : result string :=
  match o with
  | Some x => Ok x
  | None => Throw "TypeError: Cannot read properties of undefined"
  end.

(** The [filter] callback, run over the lines in order with the map it
    updates. *)
Fixpoint filterTitles (lines : list string) (titleCounts : titleMap) : result (list string) :=
  match lines with
  | [] => Ok []
  | line :: r =>
      match exec noFlags titleRe line with
      | Some titleMatch =>
          g1 <- defined (group 1 titleMatch) ;;
          let title := trim (toLowerCase g1) in
          let count := match mapGet title titleCounts with Some n => n | None => 0 end in
          kept <- filterTitles r (mapSet title (count + 1) titleCounts) ;;
          (* Keep first occurrence and any with more structure (longer headers) *)
          Ok (if (Nat.eqb count 0 || Nat.ltb 20 (String.length line))%bool
              then line :: kept else kept)
      | None =>
          kept <- filterTitles r titleCounts ;;
          Ok (line :: kept)
      end
  end.

Definition removeRepeatedTitles (content : string) : result string :=
  let lines := splitLines content in
  kept <- filterTitles lines [] ;;
  Ok (join nl kept).

(** *** fixWordConcatenation *)

Definition higTerms : list string :=
  ["Best practices"; "Guidelines"; "When to use"; "How to use";
   "iOS"; "macOS"; "watchOS"; "tvOS"; "visionOS";
   "Tab bar"; "Navigation bar"; "Button"; "Picker"; "Slider";
   "Action sheet"; "Alert"; "Popover"; "Sheet";
   "Accessibility"; "VoiceOver"; "Dynamic Type";
   "SF Symbols"; "App Store"].

(** ['$1' + sep + '$2'] *)
Definition between12 (sep : string) (mr : mres) : string :=
  groupOrEmpty 1 mr ++ sep ++ groupOrEmpty 2 mr.

(** [new RegExp(`([a-z]{2,})${termNoSpaces}`, 'gi')] *)
Definition prefixedTermRe (termNoSpaces : string) : regex :=
  Seq (Grp 1 (atLeast 2 (cls isLower))) (lit termNoSpaces).

(** [new RegExp(`${termNoSpaces}([A-Z][a-z]{2,})`, 'gi')] *)
Definition suffixedTermRe (termNoSpaces : string) : regex :=
  Seq (lit termNoSpaces) (Grp 1 (Seq (cls isUpper) (atLeast 2 (cls isLower)))).

(** [new RegExp(`${termNoSpaces}(.+)`, 'i')] *)
Definition termSuffixRe (termNoSpaces : string) : regex :=
  Seq (lit termNoSpaces) (Grp 1 (plus Dot)).

Definition fixTerm (fixed : string) (term : string) : result string :=
  (* Only fix clear concatenation cases to avoid false positives *)
  let termNoSpaces := replaceAll noFlags (plus ws) empty term in
  (* Fix cases where lowercase word is concatenated before the term *)
  fixed <- replaceAllM fI (prefixedTermRe termNoSpaces)
             (fun mr =>
                prefix <- defined (group 1 mr) ;;
                (* Avoid splitting compound words that should stay together *)
                if Nat.ltb (String.length prefix) 3 then Ok (mtext mr)
                else Ok (prefix ++ " " ++ term))
             fixed ;;
  (* Fix cases where the term is concatenated before an uppercase word *)
  replaceAllM fI (suffixedTermRe termNoSpaces)
    (fun mr =>
       match exec fI (termSuffixRe termNoSpaces) (mtext mr) with
       | Some suffixMatch =>
           suffix <- defined (group 1 suffixMatch) ;;
           if Nat.ltb 2 (String.length suffix) then Ok (term ++ " " ++ suffix)
           else Ok (mtext mr)
       | None => Ok (mtext mr)
       end)
    fixed.

Fixpoint fixTerms (fixed : string) (terms : list string) : result string :=
  match terms with
  | [] => Ok fixed
  | term :: r => fixed <- fixTerm fixed term ;; fixTerms fixed r
  end.

Definition fixWordConcatenation (content : string) : result string :=
  let fixed := content in
  (* Fix concatenated sentences (lowercase letter followed by uppercase letter) *)
  let fixed := replaceAll noFlags (Seq (Grp 1 (cls isLower)) (Grp 2 (cls isUpper)))
                 (between12 " ") fixed in
  (* Fix concatenated words with common Apple HIG terms *)
  fixed <- fixTerms fixed higTerms ;;
  (* Fix common concatenation patterns *)
  let fixed := replaceAll noFlags (seq [Grp 1 (cls isLower); ch "."; Grp 2 (cls isUpper)])
                 (between12 ". ") fixed in
  let fixed := replaceAll noFlags (seq [Grp 1 (cls isLower); ch "!"; Grp 2 (cls isUpper)])
                 (between12 "! ") fixed in
  let fixed := replaceAll noFlags (seq [Grp 1 (cls isLower); ch "?"; Grp 2 (cls isUpper)])
                 (between12 "? ") fixed in
  (* Fix number concatenations *)
  let fixed := replaceAll noFlags (Seq (Grp 1 (cls isDigit)) (Grp 2 (cls isLetter)))
                 (between12 " ") fixed in
  let fixed := replaceAll noFlags (Seq (Grp 1 (cls isLetter)) (Grp 2 (cls isDigit)))
                 (between12 " ") fixed in
  Ok fixed.

(** *** removeTrailingMetadata *)

Definition trailingSections : list regex :=
  [ (* resources?\s*related.*?change log.*$ *)
    seq [lit "resource"; opt (ch "s"); star ws; lit "related"; lazy Dot; lit "change log";
         star Dot; Eol];
    (* change log\s*date\s*changes.*$ *)
    seq [lit "change log"; star ws; lit "date"; star ws; lit "changes"; star Dot; Eol];
    (* videos\s*discoverable design.*$ *)
    seq [lit "videos"; star ws; lit "discoverable design"; star Dot; Eol];
    (* platform considerations.*?resources.*$ *)
    seq [lit "platform considerations"; lazy Dot; lit "resources"; star Dot; Eol] ].

Definition removeTrailingMetadata (content : string) : string :=
  let cleaned := content in
  let cleaned := fold_left (fun cleaned pattern => replaceAll fIS pattern empty cleaned)
                   trailingSections cleaned in
  trim cleaned.

(** *** cleanMarkdown *)

Definition jsBanner : string := "this page requires javascript".

(** [/^.*?this page requires javascript.*?refresh the page to view its content\.?\s*/is] *)
Definition leadingBannerRe : regex :=
  seq [Bol; lazy Dot; lit jsBanner; lazy Dot; lit "refresh the page to view its content";
       opt (ch "."); star ws].

(** [/^#\s*this page requires javascript\.?\s*please turn on javascript.*?\s*/is] *)
Definition standaloneBannerRe : regex :=
  seq [Bol; ch "#"; star ws; lit jsBanner; opt (ch "."); star ws;
       lit "please turn on javascript"; lazy Dot; star ws].

(** [/^#\s*this page requires javascript\.?\s*/gim] *)
Definition bannerHeaderRe : regex :=
  seq [Bol; ch "#"; star ws; lit jsBanner; opt (ch "."); star ws].

(** [/please turn on javascript.*?content\.\s*/gim] *)
Definition turnOnRe : regex :=
  seq [lit "please turn on javascript"; lazy Dot; lit "content."; star ws].

(** [/skip navigation\s*/gi] *)
Definition skipNavigationRe : regex := Seq (lit "skip navigation") (star ws).

(** [/([^\n])(#+\s)/g] *)
Definition beforeHeaderRe : regex :=
  Seq (Grp 1 notNL) (Grp 2 (Seq (plus (ch "#")) ws)).

(** [/(#+\s[^\n]+)([^\n])/g] *)
Definition afterHeaderRe : regex :=
  Seq (Grp 1 (seq [plus (ch "#"); ws; plus notNL])) (Grp 2 notNL).

(** The pattern of line 250: a bracketed text without [\]], captured,
    followed by an empty pair of parentheses; flag g. *)
Definition emptyLinkRe : regex :=
  seq [ch "["; Grp 1 (star (ncls (isChar "]"))); lit "]()"].

(** [/^#+\s*$/gm] *)
Definition emptyHeaderRe : regex := seq [Bol; plus (ch "#"); star ws; Eol].

Definition isBullet (c : ascii) : bool := (Ascii.eqb c "*" || Ascii.eqb c "+")%bool.

(** [/^\s*[*+]\s/gm] *)
Definition bulletRe : regex := seq [Bol; star ws; cls isBullet; ws].

Definition cleanMarkdown (markdown : string) : result string :=
  let cleaned := markdown in
  (* Remove JavaScript fallback content at the beginning (more aggressive pattern) *)
  let cleaned := replaceFirst fIS leadingBannerRe empty cleaned in
  (* Also remove the standalone JavaScript warning if it appears *)
  let cleaned := replaceFirst fIS standaloneBannerRe empty cleaned in
  (* Remove any remaining JavaScript-related headers and content *)
  let cleaned := replaceAll fIM bannerHeaderRe empty cleaned in
  let cleaned := replaceAll fIM turnOnRe empty cleaned in
  (* Remove "Skip Navigation" and navigation elements *)
  let cleaned := replaceAll fI skipNavigationRe empty cleaned in
  (* Remove Apple SPA metadata sections *)
  let cleaned := removeAppleSPAMetadata cleaned in
  (* Clean up repeated section titles (common in Apple's SPA output) *)
  cleaned <- removeRepeatedTitles cleaned ;;
  (* Clean up spacing while preserving word boundaries *)
  let cleaned := replaceAll noFlags (atLeast 3 (ch NL)) (fun _ => nl ++ nl) cleaned in
  let cleaned := replaceAll fM (Seq (plus blank) Eol) empty cleaned in
  let cleaned := replaceAll noFlags (plus blank) space cleaned in
  (* Ensure spacing around headers *)
  let cleaned := replaceAll noFlags beforeHeaderRe (between12 (nl ++ nl)) cleaned in
  let cleaned := replaceAll noFlags afterHeaderRe (between12 (nl ++ nl)) cleaned in
  (* Clean up malformed links *)
  let cleaned := replaceAll noFlags emptyLinkRe (groupOrEmpty 1) cleaned in
  (* Remove empty headers *)
  let cleaned := replaceAll fM emptyHeaderRe empty cleaned in
  (* Standardize list formatting *)
  let cleaned := replaceAll fM bulletRe (fun _ => "- ") cleaned in
  (* Fix common word concatenation issues from Apple's SPA *)
  cleaned <- fixWordConcatenation cleaned ;;
  (* Remove trailing metadata sections *)
  let cleaned := removeTrailingMetadata cleaned in
  Ok (trim cleaned).

(** *** extractKeywords and extractRelatedSections *)

(** [Set.prototype.add] on a set kept in insertion order. *)
Definition setAdd (x : string) (st : list string) : list string :=
  if existsb (String.eqb x) st then st else st ++ [x].

(** [/\b[a-z]{3,}\b/g] *)
Definition wordRe : regex := seq [WordB; atLeast 3 (cls isLower); WordB].

(** [terms.includes(word)] *)
Definition arrayIncludes (terms : list string) (word : string) : bool :=
  existsb (String.eqb word) terms.

Definition extractKeywords (content : string) (section : HIGSection) : list string :=
  let keywords := [] in
  (* Add section title and platform *)
  let keywords := setAdd (toLowerCase (title section)) keywords in
  let keywords := setAdd (toLowerCase (platform section)) keywords in
  let keywords := setAdd (toLowerCase (category section)) keywords in
  (* Extract from content *)
  let words := matchAll noFlags wordRe (toLowerCase content) in
  let keywords :=
    fold_left (fun keywords word =>
                 if arrayIncludes appleDesignTerms word then setAdd word keywords
                 else keywords)
      words keywords in
  firstn 20 keywords.   (* Limit to 20 keywords *)

Definition isColonOrSpace (c : ascii) : bool := (Ascii.eqb c ":" || isSpace c)%bool.

(** [/see also[:\s]+(.*?)(?:\n|$)/i] *)
Definition seeAlsoRe : regex :=
  seq [lit "see also"; plus (cls isColonOrSpace); Grp 1 (lazy Dot); Alt (ch NL) Eol].

(** [/\[([^\]]+)\]/g] *)
Definition bracketRe : regex :=
  seq [ch "["; Grp 1 (plus (ncls (isChar "]"))); ch "]"].

Definition extractRelatedSections (content : string) (_section : HIGSection)
  : result (list string) :=
  let related := [] in
  (* Simple pattern matching for "See also" sections *)
  related <-
    match exec fI seeAlsoRe content with
    | Some seeAlsoMatch =>
        g1 <- defined (group 1 seeAlsoMatch) ;;
        let links := matchAll noFlags bracketRe g1 in
        Ok (fold_left (fun related link => setAdd (sliceInner link) related) links related)
    | None => Ok related
    end ;;
  Ok (firstn 5 related).

(** *** detectFallbackContent *)

Definition some {A : Type} (l : list A) (p : A -> bool) : bool := existsb p l.

Definition detectFallbackContent (content : string) (originalContent : option string) : bool :=
  let contentLower := toLowerCase content in
  let originalLower :=
    match originalContent with
    | Some o => match toLowerCase o with
                | EmptyString => contentLower
                | ol => ol
                end
    | None => contentLower
    end in
  (* Check if content has substantial guidelines/practices (indicating real content) *)
  let hasSubstantialRealContent :=
    (Nat.ltb 500 (String.length content) &&
     (includes contentLower "best practices" ||
      includes contentLower "guideline" ||
      includes contentLower "accessibility" ||
      includes contentLower "consider" ||
      includes contentLower "ensure" ||
      includes contentLower "avoid"))%bool in
  (* If we have substantial real content, it's not fallback even if it has JS warnings *)
  if hasSubstantialRealContent then false
  else
    (* Primary fallback indicators (check both cleaned and original content) *)
    let hasFallbackIndicators :=
      some fallbackIndicators (fun indicator =>
        includes contentLower indicator || includes originalLower indicator)%bool in
    (* Secondary indicators: very short content with SPA artifacts *)
    let isTooShort := Nat.ltb (String.length content) 200 in
    let hasOnlySPAIndicators :=
      some appleSPAIndicators (fun indicator =>
        includes contentLower indicator || includes originalLower indicator)%bool in
    (* If content mentions JavaScript issues but has little real content *)
    let hasJavaScriptIssues :=
      ((includes contentLower "javascript" || includes originalLower "javascript") &&
       (includes contentLower "required" || includes contentLower "turn on" ||
        includes originalLower "required" || includes originalLower "turn on"))%bool in
    (hasFallbackIndicators || (hasJavaScriptIssues && negb hasSubstantialRealContent) ||
     (isTooShort && hasOnlySPAIndicators))%bool.

(** *** calculateQualityMetrics *)

(** [/^#+/gm] *)
Definition headingRe : regex := Seq Bol (plus (ch "#")).

Definition fence : string := "```".

(** [/!\[.*?\]/g] *)
Definition imageRe : regex := seq [lit "!["; lazy Dot; ch "]"].

Definition countMatches (f : flags) (r : regex) (content : string) : nat :=
  List.length (matchAll f r content).

Definition hasAppleSPAIssues (content : string) : bool :=
  some appleSPAIndicators (fun indicator => includes (toLowerCase content) indicator).

Definition hasGuidelines (content : string) : bool :=
  (includes (toLowerCase content) "best practices" ||
   includes (toLowerCase content) "guideline" ||
   includes (toLowerCase content) "consider" ||
   includes (toLowerCase content) "avoid" ||
   includes (toLowerCase content) "should" ||
   includes (toLowerCase content) "when")%bool.

Definition calculateQualityMetrics (content : string) (originalContent : option string)
  : ContentQualityMetrics :=
  let length := String.length content in
  let headingCount := countMatches fM headingRe content in
  let codeExamplesCount := (ofNat (countMatches noFlags (lit fence) content) / 2)%float in
  let imageReferencesCount := countMatches noFlags imageRe content in
  (* Enhanced fallback detection (check original content for better detection) *)
  let isFallbackContent := detectFallbackContent content originalContent in
  (* Check for Apple SPA issues (malformed content that isn't complete fallback) *)
  let hasAppleSPAIssues := hasAppleSPAIssues content in
  (* Calculate structure score *)
  let structureScore :=
    mathMin 1.0 (ofNat headingCount * 0.1 + codeExamplesCount * 0.2)%float in
  (* Calculate Apple terms score *)
  let appleTermsFound :=
    List.length (filter (fun term => includes (toLowerCase content) term) appleDesignTerms) in
  let appleTermsScore := mathMin 1.0 (ofNat appleTermsFound / 10)%float in
  (* Calculate content quality indicators *)
  let hasSubstantialContent := Nat.ltb 400 length in
  let hasGuidelines := hasGuidelines content in
  (* Calculate guideline quality score *)
  let guidelineScore := (if hasGuidelines then 0.4 else 0)%float in
  (* Bonus for well-structured content *)
  let structureBonus := (if Nat.leb 2 headingCount then 0.2 else 0)%float in
  (* Overall quality score with enhanced detection *)
  let score :=
    if isFallbackContent then 0.1%float
    else if (hasAppleSPAIssues && negb hasSubstantialContent)%bool then 0.3%float
    else
      let lengthScore := mathMin 1.0 (ofNat length / 800)%float in
      (lengthScore * 0.2 + structureScore * 0.15 + appleTermsScore * 0.15 +
       guidelineScore * 0.35 + structureBonus * 0.15)%float in
  {| score := mathMin 1.0 score;
     length := length;
     structureScore := structureScore;
     appleTermsScore := appleTermsScore;
     codeExamplesCount := codeExamplesCount;
     imageReferencesCount := imageReferencesCount;
     headingCount := headingCount;
     isFallbackContent := isFallbackContent;
     extractionMethod := "turndown-enhanced";
     confidence := if isFallbackContent then 0.1%float
                   else mathMin 1.0 (score + 0.1)%float |}.

(** *** generateFrontMatter *)

Definition hexDigit (n : N) : ascii :=
  if N.ltb n 10 then chr (48 + n) else chr (87 + n).

(** QuoteJSONString on one code unit. *)
Definition jsonEscape (c : ascii) : string :=
  let n := code c in
  if N.eqb n 34 then String "\" (String QUOTE EmptyString)
  else if N.eqb n 92 then "\\"
  else if N.eqb n 8 then "\b"
  else if N.eqb n 12 then "\f"
  else if N.eqb n 10 then "\n"
  else if N.eqb n 13 then "\r"
  else if N.eqb n 9 then "\t"
  else if N.ltb n 32
       then "\u00" ++ String (hexDigit (N.div n 16)) (String (hexDigit (N.modulo n 16)) EmptyString)
  else String c EmptyString.

Fixpoint jsonEscapeAll (s : string) : string :=
  match s with
  | EmptyString => EmptyString
  | String c t => jsonEscape c ++ jsonEscapeAll t
  end.

Definition jsonString (s : string) : string :=
  String QUOTE (jsonEscapeAll s ++ String QUOTE EmptyString).

(** [JSON.stringify] of an array of strings. *)
Definition jsonStringify (l : list string) : string :=
  "[" ++ join "," (map jsonString l) ++ "]".

(** [Date.prototype.toISOString] of the time value [tv], in milliseconds
    since the epoch. *)
Definition toISOString (tv : Z) : string :=
  let days := Z.div tv 86400000 in
  let ms := Z.modulo tv 86400000 in
  let z := (days + 719468)%Z in
  let era := Z.div z 146097 in
  let doe := (z - era * 146097)%Z in
  let yoe := Z.div (doe - Z.div doe 1460 + Z.div doe 36524 - Z.div doe 146096) 365 in
  let doy := (doe - (365 * yoe + Z.div yoe 4 - Z.div yoe 100))%Z in
  let mp := Z.div (5 * doy + 2) 153 in
  let day := (doy - Z.div (153 * mp + 2) 5 + 1)%Z in
  let month := if Z.ltb mp 10 then (mp + 3)%Z else (mp - 9)%Z in
  let year := (yoe + era * 400 + (if Z.leb month 2 then 1 else 0))%Z in
  let yyyy :=
    if (Z.leb 0 year && Z.leb year 9999)%bool then pad 4 year
    else (if Z.ltb year 0 then "-" else "+") ++ pad 6 (Z.abs year) in
  yyyy ++ "-" ++ pad 2 month ++ "-" ++ pad 2 day ++ "T" ++
  pad 2 (Z.div ms 3600000) ++ ":" ++ pad 2 (Z.modulo (Z.div ms 60000) 60) ++ ":" ++
  pad 2 (Z.modulo (Z.div ms 1000) 60) ++ "." ++ pad 3 (Z.modulo ms 1000) ++ "Z".

Definition boolToString (b : bool) : string := if b then "true" else "false".

(** [now] is the time value that [new Date()] reads from the clock. *)
Definition generateFrontMatter (now : Z) (section : HIGSection)
    (quality : ContentQualityMetrics) (keywords : list string) : string :=
  let frontMatter :=
    [ ("title", title section);
      ("platform", platform section);
      ("category", category section);
      ("url", url section);
      ("quality_score", numberToString (mathRound (score quality * 100) / 100)%float);
      ("content_length", natToString (length quality));
      ("last_updated", toISOString now);
      ("keywords", jsonStringify keywords);
      ("has_code_examples", boolToString (PrimFloat.ltb 0 (codeExamplesCount quality)));
      ("has_images", boolToString (Nat.ltb 0 (imageReferencesCount quality)));
      ("is_fallback", boolToString (isFallbackContent quality)) ] in
  "---" ++ nl ++
  join nl (map (fun kv => fst kv ++ ": " ++ snd kv) frontMatter) ++
  nl ++ "---" ++ nl ++ nl.

(** *** processContent *)

Section Pipeline.

(** [this.turndown.turndown], the configured converter. *)
Variable turndown : string -> string.

Definition processContent (now : Z) (html : string) (section : HIGSection)
  : result ProcessedContent :=
  (* Clean the HTML *)
  let cleanedHtml := cleanHtml html in
  (* Convert to markdown *)
  let rawMarkdown := turndown cleanedHtml in
  (* Clean and normalize markdown *)
  cleanedMarkdown <- cleanMarkdown rawMarkdown ;;
  (* Extract keywords *)
  let keywords := extractKeywords cleanedMarkdown section in
  (* Find related sections (simplified) *)
  relatedSections <- extractRelatedSections cleanedMarkdown section ;;
  (* Calculate quality metrics (pass original for better fallback detection) *)
  let quality := calculateQualityMetrics cleanedMarkdown (Some rawMarkdown) in
  (* Generate front matter *)
  let frontMatter := generateFrontMatter now section quality keywords in
  Ok {| cleanedMarkdown := cleanedMarkdown;
        frontMatter := frontMatter;
        quality := quality;
        keywords := keywords;
        relatedSections := relatedSections |}.

End Pipeline.

End ContentProcessor.

(** ** Notions used to state the properties *)

Module Notions.
Import JS Regex Num ContentProcessor.

(** The loop of [extractKeywords] over the words of the content. *)
Definition addTerms (words keywords : list string) : list string :=
  fold_left (fun keywords word =>
               if arrayIncludes appleDesignTerms word then setAdd word keywords
               else keywords) words keywords.

(** The keyword set after the three seeds are added. *)
Definition seeds (section : HIGSection) : list string :=
  setAdd (toLowerCase (category section))
    (setAdd (toLowerCase (platform section))
       (setAdd (toLowerCase (title section)) [])).

(** The entries of the domain vocabulary made of several words. *)
Definition multiWordTerms : list string :=
  filter (fun term => includes term " ") appleDesignTerms.

(** The phrases of section 4.6 of the specification. *)
Definition specGuidelineSignals : list string :=
  ["best practices"; "guideline"; "accessibility"; "consider"; "ensure"; "avoid"].

(** The phrases [calculateQualityMetrics] looks for (lines 434 to 439). *)
Definition scoredGuidelineSignals : list string :=
  ["best practices"; "guideline"; "consider"; "avoid"; "should"; "when"].

(** Some phrase of the list occurs in the content, whatever its case. *)
Definition containsAny (phrases : list string) (content : string) : bool :=
  existsb (includes (toLowerCase content)) phrases.

(** The second branch of the score: SPA phrases and at most 400 code units. *)
Definition spaBranch (content : string) : bool :=
  (hasAppleSPAIssues content && negb (Nat.ltb 400 (String.length content)))%bool.

(** The weighted sum of section 4.6 over the sub-scores of [q], clamped,
    for a given guideline score. *)
Definition weightedScore (q : ContentQualityMetrics) (guidelineScore : float) : float :=
  let lengthScore := mathMin 1 (ofNat (length q) / 800)%float in
  let structureBonus := (if Nat.leb 2 (headingCount q) then 0.2 else 0)%float in
  mathMin 1 (lengthScore * 0.2 + structureScore q * 0.15 + appleTermsScore q * 0.15 +
             guidelineScore * 0.35 + structureBonus * 0.15)%float.

Definition guidelineScoreOf (phrases : list string) (content : string) : float :=
  (if containsAny phrases content then 0.4 else 0)%float.

(** The occurrences of the fence, left to right and not overlapping;
    [skip] code units at the front belong to the occurrence before. *)
Fixpoint countFences (s : string) (skip : nat) : nat :=
  match s with
  | EmptyString => 0
  | String _ t =>
      match skip with
      | S k => countFences t k
      | 0 => if startsWith s fence then S (countFences t 2) else countFences t 0
      end
  end.

(** A Number that is a whole number. *)
Definition isInteger (x : float) : bool := PrimFloat.eqb (mathRound x) x.

(** The longest prefix of [s] whose code units satisfy [q], and the rest. *)
Fixpoint spanRun (q : ascii -> bool) (s : string) : string * string :=
  match s with
  | String c t =>
      if q c then let (w, r) := spanRun q t in (String c w, r) else (EmptyString, s)
  | EmptyString => (EmptyString, EmptyString)
  end.

(** Every maximal run of code units that satisfy [q] replaced by one space;
    [inRun] tells that the code unit before belongs to such a run. *)
Fixpoint collapseRuns (q : ascii -> bool) (s : string) (inRun : bool) : string :=
  match s with
  | EmptyString => EmptyString
  | String c t =>
      if q c then (if inRun then collapseRuns q t true else String " " (collapseRuns q t true))
      else String c (collapseRuns q t false)
  end.

(** The only white space of [s] is the space, and no two spaces are adjacent;
    [afterSpace] tells that a space comes just before [s]. *)
Fixpoint wellSpaced (afterSpace : bool) (s : string) : bool :=
  match s with
  | EmptyString => true
  | String c t =>
      if isSpace c then (Ascii.eqb c " " && negb afterSpace && wellSpaced true t)%bool
      else wellSpaced false t
  end.

(** [Subseq k l]: [k] is [l] with some entries left out, the order kept. *)
Inductive Subseq : list string -> list string -> Prop :=
| sub_nil : Subseq [] []
| sub_keep x k l : Subseq k l -> Subseq (x :: k) (x :: l)
| sub_drop x k l : Subseq k l -> Subseq k (x :: l).

(** The title that [removeRepeatedTitles] counts for a line, if the line is
    a heading. *)
Definition titleOf (line : string) : option string :=
  match exec noFlags titleRe line with
  | Some titleMatch =>
      match group 1 titleMatch with
      | Some g1 => Some (trim (toLowerCase g1))
      | None => None
      end
  | None => None
  end.

(** A text without its spaces and in lower case. *)
Fixpoint squash (s : string) : string :=
  match s with
  | EmptyString => EmptyString
  | String c t => if Ascii.eqb c " " then squash t else String (toLowerChar c) (squash t)
  end.

(** No control character: every code unit is 32 or more. *)
Definition isPrintable (c : ascii) : bool := N.leb 32 (code c).

(** [r] does not go on the run of code units that satisfy [q]. *)
Definition endsRun (q : ascii -> bool) (r : string) : Prop :=
  match r with
  | String c _ => q c = false
  | EmptyString => True
  end.

(** [needs f r p]: the input of every match of [r] contains [p] up to case,
    from the index where the match starts. *)
Definition needs (f : flags) (r : regex) (p : string) : Prop :=
  forall x y, steps f r x y -> includes (toLowerCase (rest x)) p = true.

(** [titleCounts.get(title) || 0] *)
Definition countOf (t : string) (titleCounts : titleMap) : nat :=
  match mapGet t titleCounts with
  | Some n => n
  | None => 0
  end.

(** A heading of at most 20 code units: the lines [removeRepeatedTitles]
    may drop. *)
Definition shortHeading (line : string) : bool :=
  match titleOf line with
  | Some _ => Nat.leb (String.length line) 20
  | None => false
  end.

Definition noNL (line : string) : bool := allChars (fun c => negb (Ascii.eqb c NL)) line.

(** The code units a pattern of one code unit matches. *)
Definition unitOf (f : flags) (a : regex) : option (ascii -> bool) :=
  match a with
  | Chr inv p => Some (inClass f inv p)
  | Dot => Some (dotMatches f)
  | _ => None
  end.

(** The lines that begin with a number sign: [atStart] tells that [s]
    begins a line (the start of the text or the unit after a line break). *)
Fixpoint countHeadings (s : string) (atStart : bool) : nat :=
  match s with
  | EmptyString => 0
  | String c t =>
      (if (atStart && Ascii.eqb c "#")%bool then 1 else 0) +
      countHeadings t (isLineTerminator c)
  end.

Definition isHash : ascii -> bool := isChar "#".

(** The index after [pv] begins a line: the start of the text ([None]) or
    the code unit after a line break. *)
Definition lineStart (pv : option ascii) : bool :=
  match pv with
  | None => true
  | Some c => isLineTerminator c
  end.

(** The last code unit of [w], or [pv] when [w] is empty: what comes just
    before the index reached after [w]. *)
Fixpoint lastOr (pv : option ascii) (w : string) : option ascii :=
  match w with
  | EmptyString => pv
  | String c t => lastOr (Some c) t
  end.

Definition firstChar (s : string) : option ascii :=
  match s with
  | EmptyString => None
  | String c _ => Some c
  end.

(** [Erased out s]: [out] is [s] with some code units taken out, the others
    in their order. *)
Inductive Erased : string -> string -> Prop :=
| er_nil : Erased EmptyString EmptyString
| er_keep c out s : Erased out s -> Erased (String c out) (String c s)
| er_drop c out s : Erased out s -> Erased out (String c s).

(** [s] without the blanks that directly follow a line feed; [afterNL]
    tells that [s] follows a line feed and the blanks after it. *)
Fixpoint dropAfterNL (afterNL : bool) (s : string) : string :=
  match s with
  | EmptyString => EmptyString
  | String c t =>
      if (afterNL && isBlank c)%bool then dropAfterNL true t
      else String c (dropAfterNL (Ascii.eqb c NL) t)
  end.

(** [s] begins with blanks, none or more, and a line feed after them. *)
Fixpoint blanksThenNL (s : string) : bool :=
  match s with
  | EmptyString => false
  | String c t => if isBlank c then blanksThenNL t else Ascii.eqb c NL
  end.

(** [s] without the blanks that directly precede a line feed. *)
Fixpoint dropBeforeNL (s : string) : string :=
  match s with
  | EmptyString => EmptyString
  | String c t =>
      if (isBlank c && blanksThenNL t)%bool then dropBeforeNL t
      else String c (dropBeforeNL t)
  end.

(** The only code unit of the class [q] in [s] is the space, and no two
    units of the class are adjacent; [after] tells that one comes just
    before [s]. *)
Fixpoint spaced (q : ascii -> bool) (after : bool) (s : string) : bool :=
  match s with
  | EmptyString => true
  | String c t =>
      if q c then (Ascii.eqb c " " && negb after && spaced q true t)%bool
      else spaced q false t
  end.

(** No blank directly follows a line feed; [afterNL] tells that [s]
    follows one. *)
Fixpoint noBlankAfterNL (afterNL : bool) (s : string) : bool :=
  match s with
  | EmptyString => true
  | String c t => (negb (afterNL && isBlank c) && noBlankAfterNL (Ascii.eqb c NL) t)%bool
  end.

(** No blank directly precedes a line feed. *)
Fixpoint noBlankBeforeNL (s : string) : bool :=
  match s with
  | EmptyString => true
  | String c t =>
      (negb (isBlank c && match t with String d _ => Ascii.eqb d NL | EmptyString => false end)
       && noBlankBeforeNL t)%bool
  end.

(** Every capture of the list satisfies [p] throughout. *)
Definition capsAll (p : ascii -> bool) (cs : list (nat * string)) : Prop :=
  forall i g, getCap i cs = Some g -> allChars p g = true.

Definition notTab (c : ascii) : bool := negb (Ascii.eqb c TAB).

(** A text without its white space and in lower case. *)
Fixpoint squashW (s : string) : string :=
  match s with
  | EmptyString => EmptyString
  | String c t => if isSpace c then squashW t else String (toLowerChar c) (squashW t)
  end.

(** The marks and phrases, white space and case aside, that the passes of
    [cleanMarkdown] about banners, boilerplate, headings, empty links and
    trailing sections look for. *)
Definition markers : list string :=
  ["#"; "]()"; "thispagerequiresjavascript"; "pleaseturnonjavascript";
   "skipnavigation"; "platformconsiderations"; "currentpageis";
   "supportedplatforms"; "changelog"; "discoverabledesign"].

Definition markerFree (s : string) : bool :=
  forallb (fun p => negb (includes (squashW s) p)) markers.

Fixpoint prefixes (s : string) : list string :=
  match s with
  | EmptyString => [EmptyString]
  | String c t => EmptyString :: map (String c) (prefixes t)
  end.

Fixpoint suffixes (s : string) : list string :=
  s :: match s with
       | EmptyString => []
       | String _ t => suffixes t
       end.

(** No substring of [s] is one that [bad] recognises. *)
Definition avoids (bad : string -> bool) (s : string) : Prop :=
  forall pre u post, s = pre ++ u ++ post -> bad u = false.

Definition avoidsB (bad : string -> bool) (s : string) : bool :=
  forallb (fun t => forallb (fun u => negb (bad u)) (prefixes t)) (suffixes s).

(** Two code units, the first of [p] and the second of [q]. *)
Definition isPair (p q : ascii -> bool) (u : string) : bool :=
  match u with
  | String c (String d EmptyString) => (p c && q d)%bool
  | _ => false
  end.

(** Three code units: one of [p], the unit [d], one of [q]. *)
Definition isTriple (p : ascii -> bool) (d : ascii) (q : ascii -> bool) (u : string) : bool :=
  match u with
  | String a (String b (String c EmptyString)) => (p a && Ascii.eqb b d && q c)%bool
  | _ => false
  end.

(** The terms of [fixWordConcatenation] as its patterns spell them. *)
Definition termsNoSpaces : list string :=
  map (fun term => replaceAll noFlags (plus ws) empty term) higTerms.

(** Two letters or more, then the term [t], case aside. *)
Definition afterLetters (t u : string) : bool :=
  let n := String.length u - String.length t in
  (Nat.leb 2 n && allChars isLetter (take n u) &&
   String.eqb (toLowerCase (drop n u)) (toLowerCase t))%bool.

(** The term [t], case aside, then three letters or more. *)
Definition beforeLetters (t u : string) : bool :=
  let g := drop (String.length t) u in
  (String.eqb (toLowerCase (take (String.length t) u)) (toLowerCase t) &&
   Nat.leb 3 (String.length g) && allChars isLetter g)%bool.

(** The places where [fixWordConcatenation] finds words run together: a
    lower-case letter before an upper-case one, with nothing or with a full
    stop, an exclamation mark or a question mark between them; a digit next
    to a letter; a term with letters run into it. *)
Definition splitPlace (u : string) : bool :=
  (isPair isLower isUpper u ||
   isTriple isLower "." isUpper u || isTriple isLower "!" isUpper u ||
   isTriple isLower "?" isUpper u ||
   isPair isDigit isLetter u || isPair isLetter isDigit u ||
   existsb (fun t => afterLetters t u || beforeLetters t u) termsNoSpaces)%bool.

(** An asterisk or a plus sign directly before white space. *)
Definition bulletPlace : string -> bool := isPair isBullet isSpace.

(** A space or a tab directly before a line break. *)
Definition blankAtEol : string -> bool := isPair isBlank isLineTerminator.

(** The text ends with a space or a tab. *)
Definition endsBlank (s : string) : bool :=
  match lastOr None s with
  | Some c => isBlank c
  | None => false
  end.

(** [a] is the unit [b], or a space or tab that became the space [b]. *)
Definition collapsesTo (a b : ascii) : Prop :=
  a = b \/ (isBlank a = true /\ b = " "%char).

(** The texts in which the passes find only runs of spaces and tabs to
    collapse and white space to trim at the ends. *)
Definition onlySpacing (s : string) : Prop :=
  markerFree s = true /\ avoids splitPlace s /\ avoids bulletPlace s /\
  avoids blankAtEol s /\ includes s (nl ++ nl ++ nl) = false /\ endsBlank s = false.

(** [s] with every run of three line feeds or more cut down to two; [n]
    line feeds come just before [s]. *)
Fixpoint squeezeNL (s : string) (n : nat) : string :=
  match s with
  | EmptyString => EmptyString
  | String c t =>
      if Ascii.eqb c NL
      then (if Nat.ltb n 2 then String c (squeezeNL t (S n)) else squeezeNL t (S n))
      else String c (squeezeNL t 0)
  end.

(** [s] begins with spaces and tabs, none or more, and ends there or goes
    on with a line break. *)
Fixpoint blanksThenEol (s : string) : bool :=
  match s with
  | EmptyString => true
  | String c t => if isBlank c then blanksThenEol t else isLineTerminator c
  end.

(** [s] without the spaces and tabs at the ends of its lines. *)
Fixpoint stripEol (s : string) : string :=
  match s with
  | EmptyString => EmptyString
  | String c t =>
      if (isBlank c && blanksThenEol t)%bool then stripEol t else String c (stripEol t)
  end.

(** No three line feeds in a row, [n] line feeds coming just before [s]. *)
Fixpoint noTripleNL (n : nat) (s : string) : bool :=
  match s with
  | EmptyString => true
  | String c t =>
      if Ascii.eqb c NL then (Nat.ltb n 2 && noTripleNL (S n) t)%bool else noTripleNL 0 t
  end.

(** No line of spaces and tabs only between two line feeds; [afterNL]
    tells that a line feed comes just before [s]. *)
Fixpoint noBlankLine (afterNL : bool) (s : string) : bool :=
  match s with
  | EmptyString => true
  | String c t =>
      (negb (afterNL && isBlank c && blanksThenNL t) && noBlankLine (Ascii.eqb c NL) t)%bool
  end.

(** The texts whose words the passes leave alone: no marker, no words run
    together, no list marker. *)
Definition separateWords (s : string) : Prop :=
  markerFree s = true /\ avoids splitPlace s /\ avoids bulletPlace s.

(** [s] is empty or begins with a line break. *)
Definition atEolOf (s : string) : bool :=
  match s with
  | EmptyString => true
  | String c _ => isLineTerminator c
  end.

(** The page of the example in section 8 of the specification. *)
Definition buttonHtml : string :=
  "<nav>Skip</nav><h1>Button</h1><p>Use buttons to let people take actions. Best practices: avoid tiny targets and consider touch target size.</p>".

Definition buttonParagraph : string :=
  "Use buttons to let people take actions. Best practices: avoid tiny targets and consider touch target size.".

(** What the converter makes of the sanitized page with the rule
    [headerSpacing]: the heading, a blank line, the paragraph. *)
Definition buttonMarkdown : string := "# Button" ++ nl ++ nl ++ buttonParagraph.

End Notions.

(** * Properties *)

Unset Implicit Arguments.

Import JS Regex Num ContentProcessor Notions.

(** ** The matcher continues only from states the pattern can reach *)

Section MatcherSoundness.

Variable f : flags.

Lemma orElse_some (a b : option mstate) (y : mstate) :
  orElse a b = Some y -> a = Some y \/ (a = None /\ b = Some y).
Proof. destruct a; simpl; intros H; [left | right]; auto. Qed.

Lemma starLoop_sound (a : regex) (g : bool) (k : cont) (y : mstate) :
  (forall x k', m f a x k' = Some y -> exists x', steps f a x x' /\ k' x' = Some y) ->
  forall n x, starLoop (m f a) g (groups a) k n x = Some y ->
              exists x', steps f (Star g a) x x' /\ k x' = Some y.
Proof.
  intros IHa.
  assert (more : forall x n,
    (forall x0, starLoop (m f a) g (groups a) k n x0 = Some y ->
                exists x', steps f (Star g a) x0 x' /\ k x' = Some y) ->
    m f a (clearCaps (groups a) x)
      (fun y0 => if Nat.eqb (pos y0) (pos x) then None
                 else starLoop (m f a) g (groups a) k n y0) = Some y ->
    exists x', steps f (Star g a) x x' /\ k x' = Some y).
  { intros x n IHn E.
    destruct (IHa _ _ E) as (x1 & S1 & K1).
    destruct (Nat.eqb_spec (pos x1) (pos x)) as [|ne]; [discriminate|].
    destruct (IHn _ K1) as (x' & S2 & K2).
    exists x'; split; [eapply st_star_more; eauto | exact K2]. }
  induction n as [|n IHn]; intros x H; simpl in H.
  - assert (k x = Some y) by (destruct g; simpl in H; [|destruct (k x)]; auto; discriminate).
    exists x; split; [constructor | assumption].
  - destruct g; apply orElse_some in H; destruct H as [H | [H1 H2]].
    + eapply more; eauto.
    + exists x; split; [constructor | assumption].
    + exists x; split; [constructor | assumption].
    + eapply more; eauto.
Qed.

Lemma m_sound (r : regex) :
  forall x k y, m f r x k = Some y -> exists x', steps f r x x' /\ k x' = Some y.
Proof.
  induction r as [ | inv p | | a IHa b IHb | a IHa b IHb | g a IHa | i a IHa | | | | a IHa];
    intros x k y H; simpl in H.
  - exists x; split; [constructor | assumption].
  - destruct (rest x) as [|c t] eqn:R; [discriminate|].
    destruct (inClass f inv p c) eqn:C; [|discriminate].
    exists (advance c t x); split; [constructor; assumption | assumption].
  - destruct (rest x) as [|c t] eqn:R; [discriminate|].
    destruct (dotMatches f c) eqn:C; [|discriminate].
    exists (advance c t x); split; [constructor; assumption | assumption].
  - destruct (IHa _ _ _ H) as (x1 & S1 & H1).
    destruct (IHb _ _ _ H1) as (x2 & S2 & H2).
    exists x2; split; [econstructor; eauto | assumption].
  - apply orElse_some in H; destruct H as [H | [_ H]].
    + destruct (IHa _ _ _ H) as (x1 & S1 & H1). exists x1; split; [apply st_alt_l|]; assumption.
    + destruct (IHb _ _ _ H) as (x1 & S1 & H1). exists x1; split; [apply st_alt_r|]; assumption.
  - eapply starLoop_sound; [|exact H]. intros x0 k' E. exact (IHa _ _ _ E).
  - destruct (IHa _ _ _ H) as (x1 & S1 & H1).
    exists (setCap i (take (pos x1 - pos x) (rest x)) x1); split; [constructor|]; assumption.
  - destruct (atBol f x) eqn:C; [|discriminate]. exists x; split; [constructor|]; assumption.
  - destruct (atEol f x) eqn:C; [|discriminate]. exists x; split; [constructor|]; assumption.
  - destruct (atWordB x) eqn:C; [|discriminate]. exists x; split; [constructor|]; assumption.
  - destruct (m f a x (fun y0 => Some y0)); [discriminate|].
    exists x; split; [constructor | assumption].
Qed.

End MatcherSoundness.

(** ** What a match consumes and captures *)

Section StepsFacts.

Variable f : flags.

Lemma append_assoc (a b c : string) : (a ++ b) ++ c = a ++ (b ++ c).
Proof. induction a as [|x a IH]; simpl; [reflexivity | rewrite IH; reflexivity]. Qed.

Lemma append_nil_r (a : string) : a ++ EmptyString = a.
Proof. induction a as [|x a IH]; simpl; [reflexivity | rewrite IH; reflexivity]. Qed.

Lemma length_append (a b : string) :
  String.length (a ++ b) = String.length a + String.length b.
Proof. induction a as [|x a IH]; simpl; [reflexivity | rewrite IH; reflexivity]. Qed.

Lemma take_append (w t : string) : take (String.length w) (w ++ t) = w.
Proof. induction w as [|c w IH]; simpl; [destruct t; reflexivity | rewrite IH; reflexivity]. Qed.

(** A match consumes a prefix of the input and moves the index by its length. *)
Lemma steps_consumes (r : regex) (x y : mstate) :
  steps f r x y ->
  exists w, rest x = w ++ rest y /\ pos y = pos x + String.length w.
Proof.
  induction 1 as [ x | inv p x c t R C | x c t R C | a b x y z _ IH1 _ IH2
                 | a b x y _ IH | a b x y _ IH | g a x | g a x y z _ IH1 ne _ IH2
                 | i a x y _ IH | x | x | x | a x ];
    try (exists EmptyString; simpl; split; [reflexivity | lia]).
  - exists (String c EmptyString); simpl; split; [assumption | lia].
  - exists (String c EmptyString); simpl; split; [assumption | lia].
  - destruct IH1 as (w1 & R1 & P1), IH2 as (w2 & R2 & P2).
    exists (w1 ++ w2). rewrite append_assoc, <- R2, <- R1, length_append. split; [reflexivity | lia].
  - exact IH.
  - exact IH.
  - destruct IH1 as (w1 & R1 & P1), IH2 as (w2 & R2 & P2). simpl in R1, P1.
    exists (w1 ++ w2). rewrite append_assoc, <- R2, <- R1, length_append. split; [reflexivity | lia].
  - exact IH.
Qed.

Lemma getCap_removeCap_neq (i j : nat) (l : list (nat * string)) :
  i <> j -> getCap i (removeCap j l) = getCap i l.
Proof.
  intros ne. induction l as [|[k s] l IH]; simpl; [reflexivity|].
  destruct (Nat.eqb_spec j k) as [->|njk]; simpl.
  - rewrite IH. destruct (Nat.eqb_spec i k); [contradiction | reflexivity].
  - rewrite IH. reflexivity.
Qed.

Lemma getCap_clear (i : nat) (gs : list nat) (l : list (nat * string)) :
  ~ In i gs -> getCap i (fold_right removeCap l gs) = getCap i l.
Proof.
  induction gs as [|j gs IH]; simpl; intros nin; [reflexivity|].
  rewrite getCap_removeCap_neq by (intros ->; apply nin; left; reflexivity).
  apply IH. intros H; apply nin; right; exact H.
Qed.

(** A pattern changes only the captures of its own groups. *)
Lemma steps_keeps (i : nat) (r : regex) (x y : mstate) :
  steps f r x y -> ~ In i (groups r) -> getCap i (caps y) = getCap i (caps x).
Proof.
  induction 1 as [ x | inv p x c t R C | x c t R C | a b x y z _ IH1 _ IH2
                 | a b x y _ IH | a b x y _ IH | g a x | g a x y z _ IH1 ne _ IH2
                 | j a x y _ IH | x | x | x | a x ];
    simpl; intros nin; try reflexivity.
  - rewrite IH2, IH1; [reflexivity | |]; intros H; apply nin; apply in_or_app; auto.
  - apply IH. intros H; apply nin; apply in_or_app; auto.
  - apply IH. intros H; apply nin; apply in_or_app; auto.
  - rewrite (IH2 nin), (IH1 nin). simpl. apply getCap_clear; exact nin.
  - destruct (Nat.eqb_spec i j) as [->|nij]; [exfalso; apply nin; left; reflexivity|].
    rewrite getCap_removeCap_neq by exact nij.
    apply IH. intros H; apply nin; right; exact H.
Qed.

Lemma existsb_eqb_false (i : nat) (l : list nat) :
  existsb (Nat.eqb i) l = false -> ~ In i l.
Proof.
  induction l as [|j l IH]; simpl; intros H; [tauto|].
  apply orb_false_iff in H; destruct H as [H1 H2].
  intros [->|Hin]; [rewrite Nat.eqb_refl in H1; discriminate | exact (IH H2 Hin)].
Qed.

(** After a match of a pattern that [sets i], capture [i] is defined. *)
Lemma steps_sets (i : nat) (r : regex) (x y : mstate) :
  steps f r x y -> sets i r = true -> exists v, getCap i (caps y) = Some v.
Proof.
  induction 1 as [ x | inv p x c t R C | x c t R C | a b x y z S1 IH1 S2 IH2
                 | a b x y _ IH | a b x y _ IH | g a x | g a x y z _ IH1 ne _ IH2
                 | j a x y _ IH | x | x | x | a x ];
    simpl; intros E; try discriminate.
  - apply orb_true_iff in E; destruct E as [E | E]; [exact (IH2 E)|].
    apply andb_true_iff in E; destruct E as [Ea Eb].
    apply negb_true_iff in Eb. apply existsb_eqb_false in Eb.
    destruct (IH1 Ea) as (v & Hv). exists v.
    rewrite (steps_keeps i _ _ _ S2 Eb). exact Hv.
  - apply andb_true_iff in E; destruct E as [Ea _]. exact (IH Ea).
  - apply andb_true_iff in E; destruct E as [_ Eb]. exact (IH Eb).
  - destruct (Nat.eqb_spec i j) as [->|nij]; [eexists; reflexivity|].
    simpl in E. rewrite getCap_removeCap_neq by exact nij. exact (IH E).
Qed.

(** [matchAt] reports what some run of the pattern has done. *)
Lemma matchAt_steps (r : regex) (i : nat) (pv : option ascii) (s : string) (mr : mres) :
  matchAt f r i pv s = Some mr ->
  exists y w, steps f r (MState i pv s []) y /\ s = w ++ rest y /\
              pos y = i + String.length w /\ mr = MRes i w (caps y).
Proof.
  unfold matchAt. intros H.
  destruct (m f r (MState i pv s []) (fun y => Some y)) as [y|] eqn:E; [|discriminate].
  destruct (m_sound _ _ _ _ _ E) as (y' & St & K). injection K as ->.
  destruct (steps_consumes _ _ _ St) as (w & R & P). simpl in R, P.
  exists y, w. split; [exact St|]. split; [exact R|]. split; [exact P|].
  injection H as <-. f_equal.
  replace (pos y - i) with (String.length w) by lia.
  rewrite R. apply take_append.
Qed.

(** Every match a scan reports is a match at some index. *)
Lemma scan_matchAt (r : regex) (mr : mres) :
  forall s i pv skip,
    In mr (matchesOf (scan f r i pv s skip)) ->
    exists i' pv' s', matchAt f r i' pv' s' = Some mr.
Proof.
  induction s as [|c t IH]; intros i pv skip H.
  - destruct skip; simpl in H; [|contradiction].
    destruct (matchAt f r i pv EmptyString) as [mr0|] eqn:E; simpl in H; [|contradiction].
    destruct H as [<-|[]]. eauto.
  - destruct skip as [|k]; simpl in H; [|eapply IH; exact H].
    destruct (matchAt f r i pv (String c t)) as [mr0|] eqn:E.
    + simpl in H. destruct H as [<-|H]; [eauto|].
      destruct (String.length (mtext mr0)); simpl in H; eapply IH; exact H.
    + simpl in H. eapply IH; exact H.
Qed.

Lemma search_matchAt (r : regex) (mr : mres) :
  forall s i pv before after,
    search f r i pv s = Some (before, mr, after) ->
    exists i' pv' s', matchAt f r i' pv' s' = Some mr.
Proof.
  induction s as [|c t IH]; intros i pv before after H; simpl in H.
  - destruct (matchAt f r i pv EmptyString) as [mr0|] eqn:E; [|discriminate].
    injection H as _ <- _. eauto.
  - destruct (matchAt f r i pv (String c t)) as [mr0|] eqn:E.
    + injection H as _ <- _. eauto.
    + destruct (search f r (S i) (Some c) t) as [[[b m0] a0]|] eqn:E2; [|discriminate].
      injection H as _ <- _. eapply IH; exact E2.
Qed.

Lemma exec_matchAt (r : regex) (s : string) (mr : mres) :
  exec f r s = Some mr -> exists i' pv' s', matchAt f r i' pv' s' = Some mr.
Proof.
  unfold exec. destruct (search f r 0 None s) as [[[b m0] a0]|] eqn:E; [|discriminate].
  intros H; injection H as <-. eapply search_matchAt; exact E.
Qed.

Lemma matchAt_group (r : regex) (g : nat) (i : nat) (pv : option ascii) (s : string) (mr : mres) :
  sets g r = true -> matchAt f r i pv s = Some mr -> exists v, group g mr = Some v.
Proof.
  intros Hs H. destruct (matchAt_steps _ _ _ _ _ H) as (y & w & St & _ & _ & ->).
  unfold group; simpl. eapply steps_sets; eauto.
Qed.

(** When no index matches, a global replace returns its input. *)
Lemma render_scan_nomatch (r : regex) (rep : mres -> string) :
  forall s i pv, matchesOf (scan f r i pv s 0) = [] -> render rep (scan f r i pv s 0) = s.
Proof.
  induction s as [|c t IH]; intros i pv H; simpl in *.
  - destruct (matchAt f r i pv EmptyString); [discriminate | reflexivity].
  - destruct (matchAt f r i pv (String c t)); [discriminate|].
    simpl in *. rewrite IH by exact H. reflexivity.
Qed.

End StepsFacts.

(** ** The counter of the star loop is never the limit *)

Section StarCounter.

Variable f : flags.

Lemma m_none (r : regex) (x : mstate) (k : cont) :
  (forall y, steps f r x y -> k y = None) -> m f r x k = None.
Proof.
  intros H. destruct (m f r x k) as [z|] eqn:E; [|reflexivity].
  destruct (m_sound f r x k z E) as (y & St & K). rewrite (H y St) in K. discriminate.
Qed.

Lemma starLoop_ext (a : regex) (g : bool) :
  (forall x k1 k2, (forall y, steps f a x y -> k1 y = k2 y) -> m f a x k1 = m f a x k2) ->
  forall n x k1 k2,
    (forall y, steps f (Star g a) x y -> k1 y = k2 y) ->
    starLoop (m f a) g (groups a) k1 n x = starLoop (m f a) g (groups a) k2 n x.
Proof.
  intros IHa. induction n as [|n IH]; intros x k1 k2 H; cbn [starLoop].
  - rewrite (H x (st_star_stop f g a x)). reflexivity.
  - rewrite (H x (st_star_stop f g a x)).
    rewrite (IHa (clearCaps (groups a) x)
               (fun y => if Nat.eqb (pos y) (pos x) then None
                         else starLoop (m f a) g (groups a) k1 n y)
               (fun y => if Nat.eqb (pos y) (pos x) then None
                         else starLoop (m f a) g (groups a) k2 n y)); [reflexivity|].
    intros y Sy. destruct (Nat.eqb_spec (pos y) (pos x)) as [|ne]; [reflexivity|].
    apply IH. intros z Sz. apply H. eapply st_star_more; eauto.
Qed.

(** The result of [m] depends on the continuation only at the states the
    pattern can reach. *)
Lemma m_ext (r : regex) :
  forall x k1 k2, (forall y, steps f r x y -> k1 y = k2 y) -> m f r x k1 = m f r x k2.
Proof.
  induction r as [ | inv p | | a IHa b IHb | a IHa b IHb | g a IHa | i a IHa | | | | a IHa];
    intros x k1 k2 H; cbn [m].
  - apply H. constructor.
  - destruct (rest x) as [|c t] eqn:R; [reflexivity|].
    destruct (inClass f inv p c) eqn:C; [|reflexivity]. apply H. constructor; assumption.
  - destruct (rest x) as [|c t] eqn:R; [reflexivity|].
    destruct (dotMatches f c) eqn:C; [|reflexivity]. apply H. constructor; assumption.
  - apply IHa. intros y Sa. apply IHb. intros z Sb. apply H. econstructor; eauto.
  - rewrite (IHa x k1 k2), (IHb x k1 k2); [reflexivity | |];
      intros y Sy; apply H; [apply st_alt_r | apply st_alt_l]; exact Sy.
  - apply starLoop_ext; assumption.
  - apply IHa. intros y Sy. apply H. constructor. exact Sy.
  - destruct (atBol f x) eqn:C; [|reflexivity]. apply H. constructor; assumption.
  - destruct (atEol f x) eqn:C; [|reflexivity]. apply H. constructor; assumption.
  - destruct (atWordB x) eqn:C; [|reflexivity]. apply H. constructor; assumption.
  - destruct (m f a x (fun y => Some y)); [reflexivity|]. apply H. constructor.
Qed.

Lemma empty_append (w t : string) : EmptyString = w ++ t -> w = EmptyString.
Proof. destruct w; [reflexivity | discriminate]. Qed.

(** An iteration from a state with nothing left to read consumes nothing
    and is rejected. *)
Lemma no_iteration_at_end (a : regex) (x : mstate) (k : cont) :
  String.length (rest x) = 0 ->
  m f a (clearCaps (groups a) x)
    (fun y => if Nat.eqb (pos y) (pos x) then None else k y) = None.
Proof.
  intros L. apply m_none. intros y Sy.
  destruct (steps_consumes f a _ y Sy) as (w & R & P). cbn [clearCaps rest pos] in R, P.
  destruct (rest x); [|discriminate]. apply empty_append in R. subst w.
  simpl in P. replace (pos y) with (pos x) by lia. rewrite Nat.eqb_refl. reflexivity.
Qed.

(** Any counter from the length of the remaining input on gives the same
    result: the loop of [Star] stops for lack of input, never for lack of
    fuel. *)
Lemma starLoop_counter (a : regex) (g : bool) (k : cont) :
  forall n1 n2 x,
    String.length (rest x) <= n1 -> String.length (rest x) <= n2 ->
    starLoop (m f a) g (groups a) k n1 x = starLoop (m f a) g (groups a) k n2 x.
Proof.
  induction n1 as [|n1 IH]; intros n2 x L1 L2.
  - destruct n2 as [|n2]; [reflexivity|]. cbn [starLoop].
    rewrite no_iteration_at_end by lia. reflexivity.
  - destruct n2 as [|n2]; cbn [starLoop].
    + rewrite no_iteration_at_end by lia. reflexivity.
    + rewrite (m_ext a (clearCaps (groups a) x)
                 (fun y => if Nat.eqb (pos y) (pos x) then None
                           else starLoop (m f a) g (groups a) k n1 y)
                 (fun y => if Nat.eqb (pos y) (pos x) then None
                           else starLoop (m f a) g (groups a) k n2 y)); [reflexivity|].
      intros y Sy. destruct (Nat.eqb_spec (pos y) (pos x)) as [|ne]; [reflexivity|].
      destruct (steps_consumes f a _ y Sy) as (w & R & P). cbn [clearCaps rest pos] in R, P.
      assert (String.length (rest x) = String.length w + String.length (rest y))
        by (rewrite R; apply length_append).
      apply IH; lia.
Qed.

End StarCounter.

(** ** No stage throws *)

Section Totality.

Lemma groups_lit (s : string) : groups (lit s) = [].
Proof.
  induction s as [|c t IH]; [reflexivity|].
  destruct t; [reflexivity|]. simpl in *. exact IH.
Qed.

Lemma sets_prefixedTermRe (t : string) : sets 1 (prefixedTermRe t) = true.
Proof.
  unfold prefixedTermRe. simpl. rewrite groups_lit. simpl. apply orb_true_r.
Qed.

Lemma sets_termSuffixRe (t : string) : sets 1 (termSuffixRe t) = true.
Proof. reflexivity. Qed.

Lemma defined_group (f : flags) (r : regex) (i : nat) (pv : option ascii) (s : string)
    (mr : mres) :
  sets 1 r = true -> matchAt f r i pv s = Some mr ->
  exists v, defined (group 1 mr) = Ok v.
Proof.
  intros Hs H. destruct (matchAt_group _ _ _ _ _ _ _ Hs H) as (v & ->). exists v; reflexivity.
Qed.

Lemma filterTitles_ok (lines : list string) :
  forall titleCounts, exists kept, filterTitles lines titleCounts = Ok kept.
Proof.
  induction lines as [|line r IH]; intros tc; simpl; [eexists; reflexivity|].
  destruct (exec noFlags titleRe line) as [tm|] eqn:E.
  - destruct (exec_matchAt _ _ _ _ E) as (i & pv & s & M).
    destruct (defined_group _ _ _ _ _ _ (eq_refl : sets 1 titleRe = true) M) as (v & ->).
    simpl. destruct (IH (mapSet (trim (toLowerCase v))
                          (match mapGet (trim (toLowerCase v)) tc with
                           | Some n => n | None => 0 end + 1) tc)) as (kept & ->).
    simpl. eexists; reflexivity.
  - destruct (IH tc) as (kept & ->). simpl. eexists; reflexivity.
Qed.

Lemma removeRepeatedTitles_ok (content : string) :
  exists y, removeRepeatedTitles content = Ok y.
Proof.
  unfold removeRepeatedTitles.
  destruct (filterTitles_ok (splitLines content) []) as (kept & ->).
  simpl. eexists; reflexivity.
Qed.

Lemma renderM_ok (rep : mres -> result string) (l : list (ascii + mres)) :
  (forall mr, In mr (matchesOf l) -> exists v, rep mr = Ok v) ->
  exists v, renderM rep l = Ok v.
Proof.
  induction l as [|[c|mr] l IH]; intros H; simpl.
  - eexists; reflexivity.
  - destruct (IH H) as (v & ->). simpl. eexists; reflexivity.
  - destruct (H mr (or_introl eq_refl)) as (v1 & ->).
    destruct (IH (fun mr' Hin => H mr' (or_intror Hin))) as (v & ->).
    simpl. eexists; reflexivity.
Qed.

Lemma replaceAllM_ok (f : flags) (r : regex) (rep : mres -> result string) (s : string) :
  (forall i pv s' mr, matchAt f r i pv s' = Some mr -> exists v, rep mr = Ok v) ->
  exists v, replaceAllM f r rep s = Ok v.
Proof.
  intros H. apply renderM_ok. intros mr Hin.
  destruct (scan_matchAt _ _ _ _ _ _ _ Hin) as (i & pv & s' & M). eauto.
Qed.

Lemma fixTerm_ok (fixed term : string) : exists y, fixTerm fixed term = Ok y.
Proof.
  unfold fixTerm.
  set (tns := replaceAll noFlags (plus ws) empty term).
  match goal with |- context [replaceAllM fI (prefixedTermRe tns) ?rep fixed] =>
    destruct (replaceAllM_ok fI (prefixedTermRe tns) rep fixed) as (v1 & ->) end.
  { intros i pv s' mr M.
    destruct (defined_group _ _ _ _ _ _ (sets_prefixedTermRe tns) M) as (v & ->). simpl.
    destruct (Nat.ltb (String.length v) 3); eexists; reflexivity. }
  simpl. apply replaceAllM_ok. intros i pv s' mr _.
  destruct (exec fI (termSuffixRe tns) (mtext mr)) as [sm|] eqn:E; [|eexists; reflexivity].
  destruct (exec_matchAt _ _ _ _ E) as (i' & pv' & s'' & M).
  destruct (defined_group _ _ _ _ _ _ (sets_termSuffixRe tns) M) as (v & ->). simpl.
  destruct (Nat.ltb 2 (String.length v)); eexists; reflexivity.
Qed.

Lemma fixTerms_ok (terms : list string) :
  forall fixed, exists y, fixTerms fixed terms = Ok y.
Proof.
  induction terms as [|t r IH]; intros fixed; simpl; [eexists; reflexivity|].
  destruct (fixTerm_ok fixed t) as (y & ->). simpl. apply IH.
Qed.

Lemma fixWordConcatenation_ok (content : string) :
  exists y, fixWordConcatenation content = Ok y.
Proof.
  unfold fixWordConcatenation.
  match goal with |- context [fixTerms ?x higTerms] =>
    destruct (fixTerms_ok higTerms x) as (y & ->) end.
  cbn [bind]. eexists; reflexivity.
Qed.

Lemma cleanMarkdown_ok (markdown : string) : exists y, cleanMarkdown markdown = Ok y.
Proof.
  unfold cleanMarkdown.
  match goal with |- context [removeRepeatedTitles ?x] =>
    destruct (removeRepeatedTitles_ok x) as (y1 & ->) end.
  cbn [bind].
  match goal with |- context [fixWordConcatenation ?x] =>
    destruct (fixWordConcatenation_ok x) as (y2 & ->) end.
  cbn [bind]. eexists; reflexivity.
Qed.

Lemma extractRelatedSections_ok (content : string) (section : HIGSection) :
  exists l, extractRelatedSections content section = Ok l.
Proof.
  unfold extractRelatedSections.
  destruct (exec fI seeAlsoRe content) as [sm|] eqn:E.
  - destruct (exec_matchAt _ _ _ _ E) as (i & pv & s & M).
    destruct (defined_group _ _ _ _ _ _ (eq_refl : sets 1 seeAlsoRe = true) M) as (v & ->).
    cbn [bind]. eexists; reflexivity.
  - cbn [bind]. eexists; reflexivity.
Qed.

(** The pipeline returns, and what it returns is built from the stages. *)
Lemma processContent_ok (turndown : string -> string) (now : Z) (html : string)
    (section : HIGSection) :
  exists md related,
    cleanMarkdown (turndown (cleanHtml html)) = Ok md /\
    extractRelatedSections md section = Ok related /\
    processContent turndown now html section =
      Ok {| cleanedMarkdown := md;
            frontMatter :=
              generateFrontMatter now section
                (calculateQualityMetrics md (Some (turndown (cleanHtml html))))
                (extractKeywords md section);
            quality := calculateQualityMetrics md (Some (turndown (cleanHtml html)));
            keywords := extractKeywords md section;
            relatedSections := related |}.
Proof.
  unfold processContent.
  destruct (cleanMarkdown_ok (turndown (cleanHtml html))) as (md & E1).
  destruct (extractRelatedSections_ok md section) as (related & E2).
  exists md, related. rewrite E1. cbn [bind]. rewrite E2. cbn [bind]. auto.
Qed.

End Totality.

(** ** Steps that find nothing change nothing *)

Section NoMatch.

Lemma matchesOf_nil (l : list (ascii + mres)) :
  map mtext (matchesOf l) = [] -> matchesOf l = [].
Proof. destruct (matchesOf l); [reflexivity | discriminate]. Qed.

Lemma replaceAll_nomatch (f : flags) (r : regex) (rep : mres -> string) (s : string) :
  matchAll f r s = [] -> replaceAll f r rep s = s.
Proof.
  unfold matchAll, replaceAll, scanAll. intros H.
  apply render_scan_nomatch, matchesOf_nil, H.
Qed.

Lemma renderM_scan_nomatch (f : flags) (r : regex) (rep : mres -> result string) :
  forall s i pv, matchesOf (scan f r i pv s 0) = [] ->
                 renderM rep (scan f r i pv s 0) = Ok s.
Proof.
  induction s as [|c t IH]; intros i pv H; simpl in *.
  - destruct (matchAt f r i pv EmptyString); [discriminate | reflexivity].
  - destruct (matchAt f r i pv (String c t)); [discriminate|].
    simpl in *. rewrite IH by exact H. reflexivity.
Qed.

Lemma replaceAllM_nomatch (f : flags) (r : regex) (rep : mres -> result string) (s : string) :
  matchAll f r s = [] -> replaceAllM f r rep s = Ok s.
Proof.
  unfold matchAll, replaceAllM, scanAll. intros H.
  apply renderM_scan_nomatch, matchesOf_nil, H.
Qed.

Lemma replaceFirst_nomatch (f : flags) (r : regex) (rep : mres -> string) (s : string) :
  exec f r s = None -> replaceFirst f r rep s = s.
Proof.
  unfold exec, replaceFirst.
  destruct (search f r 0 None s) as [[[b m0] a]|]; [discriminate | reflexivity].
Qed.

Lemma join_splitLines (s : string) : join nl (splitLines s) = s.
Proof.
  induction s as [|c t IH]; [reflexivity|].
  simpl. destruct (Ascii.eqb_spec c NL) as [->|ne].
  - destruct (splitLines t) as [|l ls] eqn:E; [destruct t; simpl in E; [discriminate|];
      destruct (Ascii.eqb a NL); [discriminate | destruct (splitLines t); discriminate]|].
    change (join nl (EmptyString :: l :: ls)) with (nl ++ join nl (l :: ls)).
    rewrite IH. reflexivity.
  - destruct (splitLines t) as [|l ls] eqn:E.
    + destruct t; simpl in E; [discriminate|].
      destruct (Ascii.eqb a NL); [discriminate | destruct (splitLines t); discriminate].
    + destruct ls as [|l2 ls]; simpl in *; rewrite <- IH; reflexivity.
Qed.

Lemma filterTitles_nomatch (lines : list string) :
  (forall line, In line lines -> exec noFlags titleRe line = None) ->
  forall titleCounts, filterTitles lines titleCounts = Ok lines.
Proof.
  induction lines as [|line r IH]; intros H tc; [reflexivity|].
  simpl. rewrite (H line (or_introl eq_refl)).
  rewrite (IH (fun l Hin => H l (or_intror Hin)) tc). reflexivity.
Qed.

Lemma removeRepeatedTitles_nomatch (content : string) :
  (forall line, In line (splitLines content) -> exec noFlags titleRe line = None) ->
  removeRepeatedTitles content = Ok content.
Proof.
  intros H. unfold removeRepeatedTitles.
  rewrite (filterTitles_nomatch _ H []). cbn [bind]. rewrite join_splitLines. reflexivity.
Qed.

Lemma removeAppleSPAMetadata_nomatch (content : string) :
  matchAll fI noConsiderationsRe content = [] ->
  matchAll fI currentPageRe content = [] ->
  matchAll fI supportedPlatformsRe content = [] ->
  removeAppleSPAMetadata content = content.
Proof.
  intros H1 H2 H3. unfold removeAppleSPAMetadata.
  rewrite (replaceAll_nomatch _ _ _ _ H1), (replaceAll_nomatch _ _ _ _ H2).
  apply replaceAll_nomatch, H3.
Qed.

Lemma fold_replaceAll_nomatch (f : flags) (rep : mres -> string) (content : string)
    (patterns : list regex) :
  (forall pattern, In pattern patterns -> matchAll f pattern content = []) ->
  fold_left (fun cleaned pattern => replaceAll f pattern rep cleaned) patterns content
  = content.
Proof.
  induction patterns as [|pt r IH]; intros H; [reflexivity|].
  cbn [fold_left]. rewrite (replaceAll_nomatch _ _ _ _ (H pt (or_introl eq_refl))).
  apply IH. intros pt' Hin. apply H. right; exact Hin.
Qed.

Lemma removeTrailingMetadata_nomatch (content : string) :
  (forall pattern, In pattern trailingSections -> matchAll fIS pattern content = []) ->
  removeTrailingMetadata content = trim content.
Proof.
  intros H. unfold removeTrailingMetadata.
  rewrite (fold_replaceAll_nomatch _ _ _ _ H). reflexivity.
Qed.

End NoMatch.

(** ** The rules handed to the converter *)

Section RuleCallbacks.

Lemma charAt_unit (i : nat) (s : string) :
  charAt i s = EmptyString \/ exists c, charAt i s = String c EmptyString.
Proof.
  unfold charAt. destruct (drop i s) as [|c t]; [left; reflexivity|].
  right. exists c. reflexivity.
Qed.

(** One code unit is never read as a negative number: a sign alone is not
    a number. *)
Lemma parseInt_unit (c : ascii) :
  match parseInt (String c EmptyString) with
  | Some v => (0 <= v)%Z
  | None => True
  end.
Proof.
  destruct c as [[] [] [] [] [] [] [] []]; vm_compute; try exact I; discriminate.
Qed.

Lemma parseInt_charAt (i : nat) (s : string) :
  match parseInt (charAt i s) with
  | Some v => (0 <= v)%Z
  | None => True
  end.
Proof.
  destruct (charAt_unit i s) as [-> | (c & ->)]; [exact I | apply parseInt_unit].
Qed.

Lemma repeatCount_ok (s : string) (count : option Z) :
  match count with Some v => (0 <= v)%Z | None => True end ->
  exists p, repeatCount s count = Ok p.
Proof.
  unfold repeatCount. destruct count as [v|]; intros H; [|eexists; reflexivity].
  destruct (Z.ltb_spec v 0) as [L|L]; [lia | eexists; reflexivity].
Qed.

Lemma headerSpacing_ok (content : string) (node : Node) :
  exists v, headerSpacing content node = Ok v.
Proof.
  unfold headerSpacing.
  destruct (repeatCount_ok "#" _ (parseInt_charAt 1 (nodeName node))) as (p & ->).
  cbn [bind]. destruct (String.eqb (trim content) EmptyString); eexists; reflexivity.
Qed.

End RuleCallbacks.




(** ** Insertion-ordered sets *)

Section OrderedSets.

Lemma existsb_eqb_In (x : string) (l : list string) :
  existsb (String.eqb x) l = true <-> In x l.
Proof.
  rewrite existsb_exists. split.
  - intros (y & Hin & E). apply String.eqb_eq in E. subst; exact Hin.
  - intros Hin. exists x; split; [exact Hin | apply String.eqb_refl].
Qed.

Lemma setAdd_NoDup (x : string) (st : list string) : NoDup st -> NoDup (setAdd x st).
Proof.
  intros ND. unfold setAdd. destruct (existsb (String.eqb x) st) eqn:E; [exact ND|].
  apply NoDup_app; [exact ND | constructor; [intros [] | constructor] |].
  intros a Ha [<-|[]]. apply existsb_eqb_In in Ha. congruence.
Qed.

Lemma setAdd_extends (x : string) (st : list string) : exists t, setAdd x st = (st ++ t)%list.
Proof.
  unfold setAdd. destruct (existsb (String.eqb x) st).
  - exists []. symmetry; apply app_nil_r.
  - exists [x]. reflexivity.
Qed.

Lemma setAdd_In (x : string) (st : list string) : In x (setAdd x st).
Proof.
  unfold setAdd. destruct (existsb (String.eqb x) st) eqn:E.
  - apply existsb_eqb_In; exact E.
  - apply in_or_app; right; left; reflexivity.
Qed.

Lemma setAdd_inv (x y : string) (st : list string) : In y (setAdd x st) -> y = x \/ In y st.
Proof.
  unfold setAdd. destruct (existsb (String.eqb x) st); [auto|].
  intros H. apply in_app_or in H. destruct H as [H | [<- | []]]; auto.
Qed.

Lemma setAdd_length (x : string) (st : list string) :
  List.length (setAdd x st) <= S (List.length st).
Proof.
  unfold setAdd. destruct (existsb (String.eqb x) st); [lia|].
  rewrite length_app. simpl. lia.
Qed.

Lemma addTerms_cons (w : string) (r keywords : list string) :
  addTerms (w :: r) keywords =
  addTerms r (if arrayIncludes appleDesignTerms w then setAdd w keywords else keywords).
Proof. reflexivity. Qed.

Lemma addTerms_NoDup (words : list string) :
  forall keywords, NoDup keywords -> NoDup (addTerms words keywords).
Proof.
  induction words as [|w r IH]; intros kw ND; [exact ND|].
  rewrite addTerms_cons.
  apply IH. destruct (arrayIncludes appleDesignTerms w); [apply setAdd_NoDup|]; exact ND.
Qed.

Lemma addTerms_extends (words : list string) :
  forall keywords, exists t, addTerms words keywords = (keywords ++ t)%list.
Proof.
  induction words as [|w r IH]; intros kw.
  - exists []. symmetry; apply app_nil_r.
  - rewrite addTerms_cons.
    destruct (arrayIncludes appleDesignTerms w); [|apply IH].
    destruct (setAdd_extends w kw) as (t1 & ->).
    destruct (IH (kw ++ t1)%list) as (t2 & E). exists (t1 ++ t2)%list.
    rewrite E, app_assoc. reflexivity.
Qed.

Lemma addTerms_inv (words : list string) (y : string) :
  forall keywords, In y (addTerms words keywords) ->
    In y keywords \/ (In y words /\ arrayIncludes appleDesignTerms y = true).
Proof.
  induction words as [|w r IH]; intros kw H; [auto|].
  rewrite addTerms_cons in H.
  apply IH in H. destruct H as [H | [H1 H2]]; [|right; split; [right|]; assumption].
  destruct (arrayIncludes appleDesignTerms w) eqn:E; [|auto].
  apply setAdd_inv in H. destruct H as [-> | H]; [right; split; [left|]; auto | auto].
Qed.

Lemma addLinks_NoDup (links : list string) :
  forall related, NoDup related ->
    NoDup (fold_left (fun related link => setAdd (sliceInner link) related) links related).
Proof.
  induction links as [|l r IH]; intros rel ND; simpl; [exact ND|].
  apply IH, setAdd_NoDup, ND.
Qed.

Lemma firstn_NoDup (n : nat) (l : list string) : NoDup l -> NoDup (firstn n l).
Proof.
  intros ND. rewrite <- (firstn_skipn n l) in ND.
  exact (NoDup_app_remove_r _ _ ND).
Qed.

Lemma firstn_keeps (n : nat) (x : string) (l t : list string) :
  In x l -> List.length l <= n -> In x (firstn n (l ++ t)%list).
Proof.
  intros Hin Hle. rewrite firstn_app, (firstn_all2 _ Hle).
  apply in_or_app; left; exact Hin.
Qed.

Lemma firstn_In_inv (n : nat) (x : string) (l : list string) : In x (firstn n l) -> In x l.
Proof.
  intros H. rewrite <- (firstn_skipn n l). apply in_or_app; left; exact H.
Qed.

Lemma extractKeywords_unfold (content : string) (section : HIGSection) :
  extractKeywords content section =
  firstn 20 (addTerms (matchAll noFlags wordRe (toLowerCase content)) (seeds section)).
Proof. reflexivity. Qed.

Lemma seeds_length (section : HIGSection) : List.length (seeds section) <= 20.
Proof.
  unfold seeds.
  pose proof (setAdd_length (toLowerCase (category section))
    (setAdd (toLowerCase (platform section)) (setAdd (toLowerCase (title section)) []))).
  pose proof (setAdd_length (toLowerCase (platform section))
    (setAdd (toLowerCase (title section)) [])).
  pose proof (setAdd_length (toLowerCase (title section)) []).
  simpl in *. lia.
Qed.

Lemma seeds_inv (section : HIGSection) (y : string) :
  In y (seeds section) ->
  y = toLowerCase (title section) \/ y = toLowerCase (platform section) \/
  y = toLowerCase (category section).
Proof.
  unfold seeds. intros H.
  apply setAdd_inv in H. destruct H as [-> | H]; [auto|].
  apply setAdd_inv in H. destruct H as [-> | H]; [auto|].
  apply setAdd_inv in H. destruct H as [-> | []]; auto.
Qed.

Lemma seeds_In (section : HIGSection) :
  In (toLowerCase (title section)) (seeds section) /\
  In (toLowerCase (platform section)) (seeds section) /\
  In (toLowerCase (category section)) (seeds section).
Proof.
  unfold seeds. repeat split.
  - destruct (setAdd_extends (toLowerCase (platform section))
                (setAdd (toLowerCase (title section)) [])) as (t1 & E1).
    destruct (setAdd_extends (toLowerCase (category section))
                (setAdd (toLowerCase (platform section))
                   (setAdd (toLowerCase (title section)) []))) as (t2 & E2).
    rewrite E2, E1. apply in_or_app; left. apply in_or_app; left. apply setAdd_In.
  - destruct (setAdd_extends (toLowerCase (category section))
                (setAdd (toLowerCase (platform section))
                   (setAdd (toLowerCase (title section)) []))) as (t2 & E2).
    rewrite E2. apply in_or_app; left. apply setAdd_In.
  - apply setAdd_In.
Qed.

Lemma extractKeywords_facts (content : string) (section : HIGSection) :
  List.length (extractKeywords content section) <= 20 /\
  NoDup (extractKeywords content section) /\
  In (toLowerCase (title section)) (extractKeywords content section) /\
  In (toLowerCase (platform section)) (extractKeywords content section) /\
  In (toLowerCase (category section)) (extractKeywords content section).
Proof.
  rewrite extractKeywords_unfold.
  set (words := matchAll noFlags wordRe (toLowerCase content)).
  split; [apply firstn_le_length|].
  split.
  { apply firstn_NoDup, addTerms_NoDup. unfold seeds.
    repeat apply setAdd_NoDup. constructor. }
  destruct (addTerms_extends words (seeds section)) as (t & ->).
  destruct (seeds_In section) as (H1 & H2 & H3).
  pose proof (seeds_length section).
  repeat split; apply firstn_keeps; assumption.
Qed.

Lemma Ok_inj (A : Type) (a b : A) : Ok a = Ok b -> a = b.
Proof. intros H; injection H; auto. Qed.

Lemma extractRelatedSections_facts (content : string) (section : HIGSection)
    (l : list string) :
  extractRelatedSections content section = Ok l -> List.length l <= 5 /\ NoDup l.
Proof.
  unfold extractRelatedSections. intros H.
  destruct (exec fI seeAlsoRe content) as [sm|].
  - destruct (defined (group 1 sm)) as [g1|e]; unfold bind in H; [|discriminate].
    apply Ok_inj in H. subst l. split; [apply firstn_le_length|].
    apply firstn_NoDup, addLinks_NoDup. constructor.
  - unfold bind in H. apply Ok_inj in H. subst l. split; [apply firstn_le_length|].
    apply firstn_NoDup. constructor.
Qed.

End OrderedSets.

(** C8: for every input the keywords are at most 20 and the related sections
    at most 5, neither list has a duplicate, and the keywords contain the
    lower-cased section title, platform and category. *)
Theorem keywords_and_related_sections_bounded
    (turndown : string -> string) (now : Z) (html : string) (section : HIGSection) :
  exists pc,
    processContent turndown now html section = Ok pc /\
    List.length (keywords pc) <= 20 /\
    List.length (relatedSections pc) <= 5 /\
    NoDup (keywords pc) /\
    NoDup (relatedSections pc) /\
    In (toLowerCase (title section)) (keywords pc) /\
    In (toLowerCase (platform section)) (keywords pc) /\
    In (toLowerCase (category section)) (keywords pc).
Proof.
  destruct (processContent_ok turndown now html section) as (md & rel & _ & E2 & E).
  eexists; split; [exact E|]. cbn [keywords relatedSections].
  destruct (extractKeywords_facts md section) as (K1 & K2 & K3 & K4 & K5).
  destruct (extractRelatedSections_facts md section rel E2) as (R1 & R2).
  auto 10.
Qed.

(** ** Runs of a character class *)

Section ClassRuns.

Variable f : flags.
Hypothesis caseSensitive : ignoreCase f = false.

Lemma inClass_plain (p : ascii -> bool) (c : ascii) : inClass f false p c = p c.
Proof. unfold inClass. rewrite caseSensitive. simpl. apply orb_false_r. Qed.

Lemma append_same_length (w1 w2 t1 t2 : string) :
  w1 ++ t1 = w2 ++ t2 -> String.length w1 = String.length w2 -> w1 = w2.
Proof.
  revert w2. induction w1 as [|c w1 IH]; intros [|c2 w2] E L; simpl in *; try discriminate.
  - reflexivity.
  - injection E as -> E. f_equal. apply IH; [exact E | lia].
Qed.

Lemma steps_star_cls (g : bool) (p : ascii -> bool) (x y : mstate) :
  steps f (Star g (Chr false p)) x y ->
  exists w, rest x = w ++ rest y /\ pos y = pos x + String.length w /\
            allChars p w = true.
Proof.
  intros H. remember (Star g (Chr false p)) as r eqn:Er.
  induction H as [ x | inv q x c t R C | x c t R C | a b x y z _ IH1 _ IH2
                 | a b x y _ IH | a b x y _ IH | g' a x | g' a x y z S1 _ ne _ IH2
                 | i a x y _ IH | x | x | x | a x ]; try discriminate.
  - exists EmptyString. simpl. repeat split; lia.
  - injection Er as -> ->.
    destruct (IH2 eq_refl) as (w & R2 & P2 & A2).
    inversion S1 as [ | inv q x0 c t R C | | | | | | | | | | | ]; subst.
    rewrite inClass_plain in C. simpl in *.
    exists (String c w). simpl. rewrite R, R2, C, A2. repeat split; lia.
Qed.

Lemma steps_atLeast_cls (p : ascii -> bool) (n : nat) :
  forall x y, steps f (atLeast n (cls p)) x y ->
  exists w, rest x = w ++ rest y /\ pos y = pos x + String.length w /\
            allChars p w = true /\ n <= String.length w.
Proof.
  induction n as [|n IH]; intros x y H; simpl in H.
  - destruct (steps_star_cls _ _ _ _ H) as (w & R & P & A).
    exists w. repeat split; auto; lia.
  - inversion H as [ | | | a b x0 y0 z S1 S2 | | | | | | | | | ]; subst.
    destruct (IH _ _ S2) as (w & R2 & P2 & A2 & L2).
    inversion S1 as [ | inv q x0 c t R C | | | | | | | | | | | ]; subst.
    rewrite inClass_plain in C. simpl in *.
    exists (String c w). simpl. rewrite R, R2, C, A2. repeat split; lia.
Qed.

End ClassRuns.

(** ** The words of the content *)

Section ContentWords.

Lemma steps_seq_inv (f : flags) (a b : regex) (x z : mstate) :
  steps f (Seq a b) x z -> exists y, steps f a x y /\ steps f b y z.
Proof. intros H; inversion H; subst; eauto. Qed.

Lemma steps_wordb_inv (f : flags) (x y : mstate) : steps f WordB x y -> y = x.
Proof. intros H; inversion H; subst; reflexivity. Qed.

Lemma steps_wordRe (x y : mstate) :
  steps noFlags wordRe x y ->
  exists w, rest x = w ++ rest y /\ pos y = pos x + String.length w /\
            allChars isLower w = true /\ 3 <= String.length w.
Proof.
  unfold wordRe. cbn [seq]. intros H.
  apply steps_seq_inv in H. destruct H as (x1 & S1 & H).
  apply steps_wordb_inv in S1. subst x1.
  apply steps_seq_inv in H. destruct H as (x2 & S2 & S3).
  apply steps_wordb_inv in S3. subst x2.
  exact (steps_atLeast_cls noFlags eq_refl isLower 3 _ _ S2).
Qed.

Lemma words_are_lowercase (content word : string) :
  In word (matchAll noFlags wordRe content) ->
  allChars isLower word = true /\ 3 <= String.length word.
Proof.
  unfold matchAll, scanAll. intros H.
  apply in_map_iff in H. destruct H as (mr & <- & Hin).
  destruct (scan_matchAt _ _ _ _ _ _ _ Hin) as (i & pv & s & M).
  destruct (matchAt_steps _ _ _ _ _ _ M) as (y & w & St & R & P & ->).
  destruct (steps_wordRe _ _ St) as (w' & R' & P' & A & L). simpl in *.
  assert (w = w') as -> by (eapply append_same_length; [rewrite <- R, <- R'; reflexivity | lia]).
  auto.
Qed.

Lemma arrayIncludes_In (terms : list string) (word : string) :
  arrayIncludes terms word = true -> In word terms.
Proof. unfold arrayIncludes. apply existsb_eqb_In. Qed.

Lemma multiWord_not_lower (kw : string) :
  In kw multiWordTerms -> allChars isLower kw = false.
Proof.
  intros H. vm_compute in H.
  repeat (destruct H as [<- | H]; [reflexivity|]). destruct H.
Qed.

End ContentWords.

(** C10: every keyword is one of the three seeds (the lower-cased title,
    platform and category) or comes from the content, and a keyword that comes
    from the content is an entry of the domain vocabulary made of lower-case
    letters only, at least three of them: a single word.  So an entry of
    several words, such as "touch target" or "dark mode", is among the
    keywords only as a seed, never from the content. *)
Theorem content_keywords_are_single_words
    (content : string) (section : HIGSection) (kw : string) :
  In kw (extractKeywords content section) ->
  ((kw = toLowerCase (title section) \/ kw = toLowerCase (platform section) \/
    kw = toLowerCase (category section)) \/
   (In kw (matchAll noFlags wordRe (toLowerCase content)) /\
    In kw appleDesignTerms /\ allChars isLower kw = true /\ 3 <= String.length kw)) /\
  (In kw multiWordTerms ->
   kw = toLowerCase (title section) \/ kw = toLowerCase (platform section) \/
   kw = toLowerCase (category section)).
Proof.
  intros H. rewrite extractKeywords_unfold in H.
  apply firstn_In_inv, addTerms_inv in H.
  destruct H as [H | [Hw Ht]].
  - apply seeds_inv in H. split; [left; exact H | intros _; exact H].
  - destruct (words_are_lowercase _ _ Hw) as (A & L).
    split.
    + right. repeat split; auto. apply arrayIncludes_In; exact Ht.
    + intros Hm. apply multiWord_not_lower in Hm. congruence.
Qed.

Lemma content_keywords_are_single_words_witness :
  In "icons" (extractKeywords "Use Icons and a touch target."
                {| id := "m"; title := "Modality"; url := "u"; platform := "iOS";
                   category := "presentation" |}) /\
  In "icons" appleDesignTerms /\ allChars isLower "icons" = true.
Proof.
  assert (Hin : In "icons" (extractKeywords "Use Icons and a touch target."
                {| id := "m"; title := "Modality"; url := "u"; platform := "iOS";
                   category := "presentation" |})).
  { vm_compute. right; right; right; left; reflexivity. }
  split; [exact Hin|].
  destruct (content_keywords_are_single_words _ _ _ Hin) as [[Hs | (_ & Ht & Ha & _)] _].
  - exfalso. simpl in Hs. destruct Hs as [Hs | [Hs | Hs]]; discriminate Hs.
  - split; assumption.
Defined.

(** ** The fallback score *)

Section FallbackScore.

Local Open Scope float_scope.

(** Two Numbers on different sides of 0.15 are different. *)
Ltac differ H :=
  apply (f_equal (fun x => PrimFloat.ltb x 0.15)) in H; vm_compute in H; discriminate H.

Lemma mathMin_one_cases (s : float) :
  mathMin 1 s = PrimFloat.nan \/ mathMin 1 s = 1 \/ mathMin 1 s = s.
Proof.
  unfold mathMin.
  destruct (PrimFloat.is_nan 1 || PrimFloat.is_nan s)%bool; [auto|].
  destruct (PrimFloat.ltb 1 s); [auto|].
  destruct (PrimFloat.ltb s 1); [auto|].
  destruct (PrimFloat.is_zero 1 && PrimFloat.get_sign s)%bool; auto.
Qed.

(** A score of 0.1 outside the fallback branch comes with a confidence of 0.2. *)
Lemma low_score_needs_fallback (s : float) :
  mathMin 1 s = 0.1 -> mathMin 1 (s + 0.1) = 0.1 -> False.
Proof.
  intros H1 H2.
  destruct (mathMin_one_cases s) as [E | [E | E]]; rewrite E in H1.
  - differ H1.
  - differ H1.
  - subst s. differ H2.
Qed.

Lemma fallback_iff (content : string) (originalContent : option string) :
  let q := calculateQualityMetrics content originalContent in
  isFallbackContent q = true <-> (score q = 0.1 /\ confidence q = 0.1).
Proof.
  unfold calculateQualityMetrics. cbn [isFallbackContent score confidence].
  destruct (detectFallbackContent content originalContent).
  - split; [intros _; split; reflexivity | reflexivity].
  - split; [discriminate|]. intros [H1 H2]. exfalso.
    exact (low_score_needs_fallback _ H1 H2).
Qed.

End FallbackScore.

(** C2: for every input (html, section) the metrics returned are flagged as
    fallback content exactly when the score is 0.1 and the confidence is 0.1. *)
Theorem fallback_iff_score_and_confidence_low
    (turndown : string -> string) (now : Z) (html : string) (section : HIGSection) :
  exists pc,
    processContent turndown now html section = Ok pc /\
    (isFallbackContent (quality pc) = true <->
     (score (quality pc) = 0.1%float /\ confidence (quality pc) = 0.1%float)).
Proof.
  destruct (processContent_ok turndown now html section) as (md & rel & _ & _ & E).
  eexists; split; [exact E|]. cbn [quality].
  apply fallback_iff.
Qed.

(** ** The weighted score *)

Section WeightedScore.

Lemma hasGuidelines_containsAny (content : string) :
  hasGuidelines content = containsAny scoredGuidelineSignals content.
Proof.
  unfold hasGuidelines, containsAny, scoredGuidelineSignals. cbn [existsb].
  repeat match goal with
         | |- context [includes ?s ?p] => destruct (includes s p)
         end; reflexivity.
Qed.

End WeightedScore.

(** C4, as the code has it: outside the fallback branch and the SPA branch
    the score is lengthScore*0.2 + structureScore*0.15 + appleTermsScore*0.15
    + guidelineScore*0.35 + structureBonus*0.15, at most 1, with lengthScore =
    min(1, length/800), structureBonus = 0.2 exactly when headingCount >= 2,
    and guidelineScore = 0.4 exactly when the content contains, in any case,
    one of: best practices, guideline, consider, avoid, should, when. *)
Theorem score_is_weighted_sum (content : string) (originalContent : option string) :
  let q := calculateQualityMetrics content originalContent in
  isFallbackContent q = false ->
  spaBranch content = false ->
  score q = weightedScore q (guidelineScoreOf scoredGuidelineSignals content).
Proof.
  unfold calculateQualityMetrics, weightedScore, guidelineScoreOf, spaBranch.
  cbn [isFallbackContent score length structureScore appleTermsScore headingCount].
  intros F S. rewrite F, S, hasGuidelines_containsAny. reflexivity.
Qed.

Lemma score_is_weighted_sum_witness :
  let content := "You should group related controls." in
  isFallbackContent (calculateQualityMetrics content None) = false /\
  spaBranch content = false /\
  score (calculateQualityMetrics content None) =
  weightedScore (calculateQualityMetrics content None)
    (guidelineScoreOf scoredGuidelineSignals content).
Proof.
  split; [reflexivity|]. split; [reflexivity|].
  apply (score_is_weighted_sum "You should group related controls." None); reflexivity.
Defined.

(** C4 as stated fails: "You should group related controls." is neither
    fallback nor in the SPA branch, it contains none of the six phrases of the
    specification, yet its score includes the guideline term. *)
Lemma score_differs_from_spec_phrases :
  let content := "You should group related controls." in
  let q := calculateQualityMetrics content None in
  isFallbackContent q = false /\
  spaBranch content = false /\
  containsAny specGuidelineSignals content = false /\
  score q <> weightedScore q (guidelineScoreOf specGuidelineSignals content).
Proof.
  repeat split; try reflexivity.
  intros H. apply (f_equal (fun x => PrimFloat.ltb x 0.1%float)) in H.
  vm_compute in H. discriminate H.
Qed.

(** ** Counting fences *)

Section Fences.

Lemma matchAt_fence (i : nat) (pv : option ascii) (s : string) :
  matchAt noFlags (lit fence) i pv s =
  if startsWith s fence then Some (MRes i fence []) else None.
Proof.
  unfold matchAt, fence.
  destruct s as [|c1 [|c2 [|c3 t]]]; cbn [lit m ch rest startsWith];
    unfold inClass, isChar; cbn [ignoreCase noFlags andb orb xorb];
    rewrite ?orb_false_r; cbn [advance rest].
  - reflexivity.
  - destruct (Ascii.eqb "`" c1); reflexivity.
  - destruct (Ascii.eqb "`" c1); [|reflexivity].
    cbn [andb]. rewrite ?orb_false_r. destruct (Ascii.eqb "`" c2); reflexivity.
  - destruct (Ascii.eqb_spec "`" c1) as [<-|n1]; [|reflexivity].
    cbn [andb]. rewrite ?orb_false_r.
    destruct (Ascii.eqb_spec "`" c2) as [<-|n2]; [|reflexivity].
    cbn [andb advance rest]. rewrite ?orb_false_r.
    destruct (Ascii.eqb_spec "`" c3) as [<-|n3]; [|reflexivity].
    cbn [andb pos advance caps].
    replace (S (S (S i)) - i) with 3 by lia.
    destruct t; reflexivity.
Qed.

Lemma scan_fences (s : string) :
  forall i pv skip,
    List.length (matchesOf (scan noFlags (lit fence) i pv s skip)) = countFences s skip.
Proof.
  induction s as [|c t IH]; intros i pv skip.
  - destruct skip; [|reflexivity].
    cbn [scan]. rewrite matchAt_fence. reflexivity.
  - destruct skip as [|k]; cbn [scan countFences]; [|apply IH].
    rewrite matchAt_fence.
    destruct (startsWith (String c t) fence).
    + cbn [mtext String.length fence matchesOf List.length]. rewrite IH. reflexivity.
    + cbn [matchesOf]. apply IH.
Qed.

Lemma countMatches_fence (content : string) :
  countMatches noFlags (lit fence) content = countFences content 0.
Proof.
  unfold countMatches, matchAll, scanAll. rewrite length_map. apply scan_fences.
Qed.

End Fences.

(** C9, as the code has it: [codeExamplesCount] is the number of occurrences
    of the fence in the cleaned markdown, counted left to right without
    overlap, divided by two.  The count is a natural number; nothing rounds
    the quotient. *)
Theorem codeExamplesCount_is_half_the_fences
    (content : string) (originalContent : option string) :
  codeExamplesCount (calculateQualityMetrics content originalContent) =
  (ofNat (countFences content 0) / 2)%float.
Proof.
  unfold calculateQualityMetrics. cbn [codeExamplesCount].
  rewrite countMatches_fence. reflexivity.
Qed.

(** C9 as stated fails: a text with one fence has half a code example; so
    has the page with a code span whose text is a fence, which comes out of
    the converter between two backticks, five in a row. *)
Lemma codeExamplesCount_fractional :
  codeExamplesCount (calculateQualityMetrics fence None) = 0.5%float /\
  isInteger (codeExamplesCount (calculateQualityMetrics fence None)) = false /\
  exists pc,
    processContent Turndown.turndown 0 "<p>Use <code>```</code> around code.</p>"
      {| id := "m"; title := "Modality"; url := "u"; platform := "iOS";
         category := "presentation" |} = Ok pc /\
    cleanedMarkdown pc = "Use ````` around code." /\
    codeExamplesCount (quality pc) = 0.5%float /\
    isInteger (codeExamplesCount (quality pc)) = false.
Proof.
  split; [reflexivity|]. split; [reflexivity|].
  eexists. split; [vm_compute; reflexivity|]. repeat split; reflexivity.
Qed.

(** ** Determinism up to the clock *)

Section FrontMatter.

Lemma append_cancel_l (a x y : string) : a ++ x = a ++ y -> x = y.
Proof.
  induction a as [|c a IH]; simpl; intros H; [exact H|].
  injection H as H. exact (IH H).
Qed.

Lemma append_cancel_r (x y b : string) : x ++ b = y ++ b -> x = y.
Proof.
  intros H. apply (append_same_length _ _ _ _ H).
  apply (f_equal String.length) in H. rewrite !length_append in H. lia.
Qed.

(** The front matter is the timestamp between two texts that the clock has
    no part in. *)
Lemma generateFrontMatter_around_timestamp (section : HIGSection)
    (quality : ContentQualityMetrics) (keywords : list string) :
  exists before after, forall now,
    generateFrontMatter now section quality keywords =
    before ++ toISOString now ++ after.
Proof.
  exists ("---" ++ nl ++
          ("title" ++ ": " ++ title section) ++ nl ++
          ("platform" ++ ": " ++ platform section) ++ nl ++
          ("category" ++ ": " ++ category section) ++ nl ++
          ("url" ++ ": " ++ url section) ++ nl ++
          ("quality_score" ++ ": " ++
             numberToString (mathRound (score quality * 100) / 100)%float) ++ nl ++
          ("content_length" ++ ": " ++ natToString (length quality)) ++ nl ++
          "last_updated" ++ ": ").
  exists (nl ++
          ("keywords" ++ ": " ++ jsonStringify keywords) ++ nl ++
          ("has_code_examples" ++ ": " ++
             boolToString (PrimFloat.ltb 0 (codeExamplesCount quality))) ++ nl ++
          ("has_images" ++ ": " ++ boolToString (Nat.ltb 0 (imageReferencesCount quality)))
          ++ nl ++
          ("is_fallback" ++ ": " ++ boolToString (isFallbackContent quality)) ++
          nl ++ "---" ++ nl ++ nl).
  intros now. unfold generateFrontMatter. cbn [map join fst snd].
  repeat rewrite append_assoc. reflexivity.
Qed.

Lemma generateFrontMatter_timestamp (now1 now2 : Z) (section : HIGSection)
    (quality : ContentQualityMetrics) (keywords : list string) :
  generateFrontMatter now1 section quality keywords =
  generateFrontMatter now2 section quality keywords <->
  toISOString now1 = toISOString now2.
Proof.
  destruct (generateFrontMatter_around_timestamp section quality keywords)
    as (before & after & E).
  rewrite (E now1), (E now2). split.
  - intros H. apply append_cancel_l in H. exact (append_cancel_r _ _ _ H).
  - intros ->. reflexivity.
Qed.

End FrontMatter.

(** C7, as the code has it: for a fixed pair (html, section) two runs return
    values, identical in [cleanedMarkdown], [quality], [keywords] and
    [relatedSections] whatever the clock says; the [frontMatter] strings are
    identical exactly when the two clock readings give the same ISO
    timestamp, the only part of the front matter that a run does not derive
    from its input. *)
Theorem runs_agree_up_to_the_timestamp
    (turndown : string -> string) (now1 now2 : Z) (html : string) (section : HIGSection) :
  exists pc1 pc2,
    processContent turndown now1 html section = Ok pc1 /\
    processContent turndown now2 html section = Ok pc2 /\
    cleanedMarkdown pc1 = cleanedMarkdown pc2 /\
    quality pc1 = quality pc2 /\
    keywords pc1 = keywords pc2 /\
    relatedSections pc1 = relatedSections pc2 /\
    frontMatter pc1 = generateFrontMatter now1 section (quality pc1) (keywords pc1) /\
    frontMatter pc2 = generateFrontMatter now2 section (quality pc1) (keywords pc1) /\
    (frontMatter pc1 = frontMatter pc2 <-> toISOString now1 = toISOString now2).
Proof.
  destruct (processContent_ok turndown now1 html section) as (md1 & rel1 & C1 & R1 & E1).
  destruct (processContent_ok turndown now2 html section) as (md2 & rel2 & C2 & R2 & E2).
  assert (md2 = md1) as -> by congruence.
  assert (rel2 = rel1) as -> by congruence.
  eexists; eexists. split; [exact E1|]. split; [exact E2|].
  cbn [cleanedMarkdown quality keywords relatedSections frontMatter].
  repeat split; try reflexivity; apply generateFrontMatter_timestamp.
Qed.

Lemma runs_agree_up_to_the_timestamp_witness :
  toISOString 1751326000123 = toISOString 1751326000123 /\
  exists pc1 pc2,
    processContent Turndown.turndown 1751326000123 "<h1>Modality</h1>"
      {| id := "m"; title := "Modality"; url := "u"; platform := "iOS";
         category := "presentation" |} = Ok pc1 /\
    processContent Turndown.turndown 1751326000123 "<h1>Modality</h1>"
      {| id := "m"; title := "Modality"; url := "u"; platform := "iOS";
         category := "presentation" |} = Ok pc2 /\
    frontMatter pc1 = frontMatter pc2.
Proof.
  split; [reflexivity|].
  destruct (runs_agree_up_to_the_timestamp Turndown.turndown 1751326000123 1751326000123
              "<h1>Modality</h1>"
              {| id := "m"; title := "Modality"; url := "u"; platform := "iOS";
                 category := "presentation" |})
    as (pc1 & pc2 & E1 & E2 & _ & _ & _ & _ & _ & _ & F).
  exists pc1, pc2. split; [exact E1|]. split; [exact E2|]. apply F. reflexivity.
Defined.

(** C7 as stated fails: the same page processed at two instants one
    millisecond apart gets two different front matters, as the same metrics
    and keywords do in [generateFrontMatter]. *)
Lemma front_matter_depends_on_the_clock :
  (exists pc1 pc2,
      processContent Turndown.turndown 1751326000123 "<h1>Modality</h1>"
        {| id := "m"; title := "Modality"; url := "u"; platform := "iOS";
           category := "presentation" |} = Ok pc1 /\
      processContent Turndown.turndown 1751326000124 "<h1>Modality</h1>"
        {| id := "m"; title := "Modality"; url := "u"; platform := "iOS";
           category := "presentation" |} = Ok pc2 /\
      frontMatter pc1 <> frontMatter pc2) /\
  (let section := {| id := "m"; title := "Modality"; url := "u"; platform := "iOS";
                     category := "presentation" |} in
   let quality := calculateQualityMetrics "# Modality" None in
   generateFrontMatter 1751326000123 section quality ["modality"] <>
   generateFrontMatter 1751326000124 section quality ["modality"]).
Proof.
  split.
  - eexists; eexists. split; [vm_compute; reflexivity|]. split; [vm_compute; reflexivity|].
    cbn [frontMatter]. intros H.
    apply (f_equal (fun s => includes s "40.123Z")) in H. vm_compute in H. discriminate H.
  - intros section quality H.
    apply (f_equal (fun s => includes s "40.123Z")) in H. vm_compute in H. discriminate H.
Qed.

(** ** The sanitizer and line breaks *)

(** C5 at its failing input: a [nav] element whose content holds a line break
    stays in the output of [cleanHtml] (only its white space is collapsed),
    while the same element on one line is removed, and so is a [script]
    element that spans lines. *)
Lemma multiline_nav_survives_cleanHtml :
  cleanHtml ("<nav>Skip" ++ nl ++ "Home</nav><h1>Button</h1>") =
    "<nav>Skip Home</nav><h1>Button</h1>" /\
  cleanHtml "<nav>Skip Home</nav><h1>Button</h1>" = " <h1>Button</h1>" /\
  cleanHtml ("<script>let a;" ++ nl ++ "let b;</script><h1>Button</h1>") = " <h1>Button</h1>".
Proof. repeat split; vm_compute; reflexivity. Qed.

(** ** The example page *)

(** C3, as the code has it: for the example page and any section metadata,
    with a converter that turns the sanitized page into the heading line, a
    blank line and the paragraph, the cleaned markdown contains "Best
    practices" and no "Skip", the content is not flagged as fallback, and the
    score lies strictly between 0.2 and 0.3. *)
Theorem button_page_scores_below_threshold
    (turndown : string -> string) (now : Z) (section : HIGSection) :
  turndown (cleanHtml buttonHtml) = buttonMarkdown ->
  exists pc,
    processContent turndown now buttonHtml section = Ok pc /\
    includes (cleanedMarkdown pc) "Best practices" = true /\
    includes (cleanedMarkdown pc) "Skip" = false /\
    includes (toLowerCase (cleanedMarkdown pc)) "skip" = false /\
    isFallbackContent (quality pc) = false /\
    PrimFloat.ltb 0.2 (score (quality pc)) = true /\
    PrimFloat.ltb (score (quality pc)) 0.3 = true.
Proof.
  intros T.
  destruct (processContent_ok turndown now buttonHtml section) as (md & rel & C & _ & E).
  rewrite T in C, E.
  assert (M : md = "# Butto" ++ nl ++ nl ++ "n" ++ nl ++ nl ++ buttonParagraph).
  { apply Ok_inj. rewrite <- C. vm_compute. reflexivity. }
  subst md. eexists; split; [exact E|]. cbn [cleanedMarkdown quality].
  repeat split; vm_compute; reflexivity.
Qed.

Lemma button_page_scores_below_threshold_witness :
  Turndown.turndown (cleanHtml buttonHtml) = buttonMarkdown /\
  exists pc,
    processContent Turndown.turndown 0 buttonHtml
      {| id := "buttons"; title := "Buttons"; url := "u"; platform := "iOS";
         category := "visual-design" |} = Ok pc /\
    PrimFloat.ltb (score (quality pc)) 0.3 = true.
Proof.
  assert (T : Turndown.turndown (cleanHtml buttonHtml) = buttonMarkdown)
    by (vm_compute; reflexivity).
  split; [exact T|].
  destruct (button_page_scores_below_threshold Turndown.turndown 0
              {| id := "buttons"; title := "Buttons"; url := "u"; platform := "iOS";
                 category := "visual-design" |} T)
    as (pc & E & _ & _ & _ & _ & _ & L).
  exists pc. split; assumption.
Defined.

(** C3 as stated fails: the score of the example page is not above 0.3. *)
Lemma button_page_score_not_above_threshold :
  exists pc,
    processContent Turndown.turndown 0 buttonHtml
      {| id := "buttons"; title := "Buttons"; url := "u"; platform := "iOS";
         category := "visual-design" |} = Ok pc /\
    PrimFloat.ltb 0.3 (score (quality pc)) = false.
Proof. eexists. split; [vm_compute; reflexivity | reflexivity]. Qed.

(** The heading of the example page after normalization: the pattern meant to
    put a blank line after a heading takes the last character of the heading
    line as the text that follows it. *)
Lemma heading_loses_its_last_character :
  cleanMarkdown "# Button" = Ok ("# Butto" ++ nl ++ nl ++ "n") /\
  cleanMarkdown ("# Butto" ++ nl ++ nl ++ "n") =
    Ok ("# Butt" ++ nl ++ nl ++ "o" ++ nl ++ nl ++ "n").
Proof. split; vm_compute; reflexivity. Qed.

(** ** Fixed points of the normalizer *)

Section Trimming.

Lemma trimEnd_idempotent (s : string) : trimEnd (trimEnd s) = trimEnd s.
Proof.
  induction s as [|c t IH]; [reflexivity|].
  cbn [trimEnd]. destruct (trimEnd t) as [|d r] eqn:E.
  - destruct (isSpace c) eqn:Sp; [reflexivity|]. cbn [trimEnd]. rewrite Sp. reflexivity.
  - cbn [trimEnd] in *. rewrite IH. reflexivity.
Qed.

Lemma trimEnd_keeps_head (c : ascii) (t : string) :
  isSpace c = false -> exists t', trimEnd (String c t) = String c t'.
Proof.
  intros Sp. cbn [trimEnd]. destruct (trimEnd t); [rewrite Sp|]; eexists; reflexivity.
Qed.

Lemma trimStart_head (s : string) :
  trimStart s = EmptyString \/
  exists c t, trimStart s = String c t /\ isSpace c = false.
Proof.
  induction s as [|c t IH]; [left; reflexivity|].
  cbn [trimStart]. destruct (isSpace c) eqn:Sp; [exact IH|].
  right. exists c, t. split; [reflexivity | exact Sp].
Qed.

Lemma trim_idempotent (s : string) : trim (trim s) = trim s.
Proof.
  unfold trim. destruct (trimStart_head s) as [-> | (c & t & -> & Sp)]; [reflexivity|].
  destruct (trimEnd_keeps_head c t Sp) as (t' & E).
  rewrite E. cbn [trimStart]. rewrite Sp, <- E. apply trimEnd_idempotent.
Qed.

Lemma cleanMarkdown_ends_with_trim (markdown y : string) :
  cleanMarkdown markdown = Ok y -> exists z, y = trim z.
Proof.
  unfold cleanMarkdown.
  match goal with |- context [removeRepeatedTitles ?x] =>
    destruct (removeRepeatedTitles x) as [y1|e] end; cbn [bind]; [|discriminate].
  match goal with |- context [fixWordConcatenation ?x] =>
    destruct (fixWordConcatenation x) as [y2|e] end; cbn [bind]; [|discriminate].
  intros H. apply Ok_inj in H. eexists. symmetry. exact H.
Qed.

End Trimming.


(** * The stages one by one *)

(** * Further properties of the service *)

(** ** Where matches lie in the input *)

Section MatchPlaces.

Variable f : flags.

Lemma scan_matchAt_suffix (r : regex) (mr : mres) :
  forall s i pv skip,
    In mr (matchesOf (scan f r i pv s skip)) ->
    exists pre s' i' pv', s = pre ++ s' /\ matchAt f r i' pv' s' = Some mr.
Proof.
  induction s as [|c t IH]; intros i pv skip H.
  - destruct skip; simpl in H; [|contradiction].
    destruct (matchAt f r i pv EmptyString) as [mr0|] eqn:E; simpl in H; [|contradiction].
    destruct H as [<-|[]]. exists EmptyString, EmptyString, i, pv. auto.
  - assert (tail : forall i0 pv0 skip0,
               In mr (matchesOf (scan f r i0 pv0 t skip0)) ->
               exists pre s' i' pv',
                 String c t = pre ++ s' /\ matchAt f r i' pv' s' = Some mr).
    { intros i0 pv0 skip0 Hin.
      destruct (IH _ _ _ Hin) as (pre & s' & i' & pv' & -> & M).
      exists (String c pre), s', i', pv'. auto. }
    destruct skip as [|k]; simpl in H; [|eapply tail; exact H].
    destruct (matchAt f r i pv (String c t)) as [mr0|] eqn:E.
    + simpl in H. destruct H as [<-|H].
      * exists EmptyString, (String c t), i, pv. auto.
      * destruct (String.length (mtext mr0)); simpl in H; eapply tail; exact H.
    + simpl in H. eapply tail; exact H.
Qed.

Lemma search_parts (r : regex) (mr : mres) :
  forall s i pv before after,
    search f r i pv s = Some (before, mr, after) ->
    exists i' pv', matchAt f r i' pv' (mtext mr ++ after) = Some mr /\
                   s = before ++ mtext mr ++ after.
Proof.
  induction s as [|c t IH]; intros i pv before after H; simpl in H.
  - destruct (matchAt f r i pv EmptyString) as [mr0|] eqn:E; [|discriminate].
    injection H as <- <- <-.
    destruct (matchAt_steps f r i pv _ mr0 E) as (y & w & _ & R & _ & ->). simpl.
    destruct w; [|discriminate]. simpl. exists i, pv. auto.
  - destruct (matchAt f r i pv (String c t)) as [mr0|] eqn:E.
    + injection H as <- <- <-.
      destruct (matchAt_steps f r i pv _ mr0 E) as (y & w & _ & R & _ & ->).
      cbn [mtext]. cbn [mtext] in E.
      assert (D : drop (String.length w) (String c t) = rest y).
      { rewrite R. clear. induction w as [|a w IHw]; [destruct (rest y); reflexivity|].
        simpl. exact IHw. }
      rewrite D. rewrite <- R. exists i, pv. auto.
    + destruct (search f r (S i) (Some c) t) as [[[b m0] a0]|] eqn:E2; [|discriminate].
      injection H as <- <- <-.
      destruct (IH _ _ _ _ E2) as (i' & pv' & M & ->). exists i', pv'. auto.
Qed.

Lemma exec_parts (r : regex) (s : string) (mr : mres) :
  exec f r s = Some mr ->
  exists before after i' pv',
    matchAt f r i' pv' (mtext mr ++ after) = Some mr /\ s = before ++ mtext mr ++ after.
Proof.
  unfold exec. destruct (search f r 0 None s) as [[[b m0] a0]|] eqn:E; [|discriminate].
  intros H; injection H as <-.
  destruct (search_parts _ _ _ _ _ _ _ E) as (i' & pv' & M & R). exists b, a0, i', pv'. auto.
Qed.

(** A match consumes at least [minLen] code units. *)
Lemma steps_minLen (r : regex) (x y : mstate) :
  steps f r x y -> pos x + minLen r <= pos y.
Proof.
  induction 1 as [ x | inv p x c t R C | x c t R C | a b x y z _ IH1 _ IH2
                 | a b x y _ IH | a b x y _ IH | g a x | g a x y z _ IH1 ne _ IH2
                 | i a x y _ IH | x | x | x | a x ]; simpl in *; lia.
Qed.

Lemma matchAt_minLen (r : regex) (i : nat) (pv : option ascii) (s : string) (mr : mres) :
  matchAt f r i pv s = Some mr -> minLen r <= String.length (mtext mr).
Proof.
  intros H. destruct (matchAt_steps f r i pv s mr H) as (y & w & St & _ & P & ->).
  apply steps_minLen in St. simpl in *. lia.
Qed.

Lemma matchAt_prefix (r : regex) (i : nat) (pv : option ascii) (s : string) (mr : mres) :
  matchAt f r i pv s = Some mr -> exists after, s = mtext mr ++ after.
Proof.
  intros H. destruct (matchAt_steps f r i pv s mr H) as (y & w & _ & R & _ & ->).
  exists (rest y). exact R.
Qed.

(** Without the m flag a pattern that ends with [$] matches up to the end. *)
Lemma steps_anchoredEnd (r : regex) (x y : mstate) :
  multiline f = false -> steps f r x y -> anchoredEnd r = true -> rest y = EmptyString.
Proof.
  intros Hm.
  induction 1 as [ x | inv p x c t R C | x c t R C | a b x y z _ IH1 _ IH2
                 | a b x y _ IH | a b x y _ IH | g a x | g a x y z _ IH1 ne _ IH2
                 | i a x y _ IH | x | x E | x | a x ]; simpl; intros A;
    try discriminate; auto.
  - apply andb_true_iff in A. tauto.
  - apply andb_true_iff in A. tauto.
  - unfold atEol in E. rewrite Hm in E. destruct (rest x); [reflexivity | discriminate].
Qed.

Lemma matchAt_anchoredEnd (r : regex) (i : nat) (pv : option ascii) (s : string) (mr : mres) :
  multiline f = false -> anchoredEnd r = true ->
  matchAt f r i pv s = Some mr -> mtext mr = s.
Proof.
  intros Hm A H. destruct (matchAt_steps f r i pv s mr H) as (y & w & St & R & _ & ->).
  rewrite (steps_anchoredEnd _ _ _ Hm St A), append_nil_r in R. simpl. auto.
Qed.

End MatchPlaces.

(** ** Greedy runs of one class *)

Section GreedyRuns.

Variable f : flags.
Variable a : regex.
Variable q : ascii -> bool.

(** [a] matches exactly one code unit, those that satisfy [q], and has no
    group. *)
Hypothesis single : forall x k,
  m f a x k = match rest x with
              | String c t => if q c then k (advance c t x) else None
              | EmptyString => None
              end.
Hypothesis groupless : groups a = [].

Lemma spanRun_spec (s : string) :
  s = fst (spanRun q s) ++ snd (spanRun q s) /\
  allChars q (fst (spanRun q s)) = true /\ endsRun q (snd (spanRun q s)).
Proof.
  induction s as [|c t IH]; simpl; [auto|].
  destruct (q c) eqn:Q.
  - destruct (spanRun q t) as [w r]. simpl in *. destruct IH as (E & A & R).
    rewrite Q, A, <- E. auto.
  - simpl. rewrite Q. auto.
Qed.

Lemma orElse_first (x y : option mstate) : x <> None -> orElse x y = x.
Proof. destruct x; [reflexivity | congruence]. Qed.

Lemma starLoop_run (k : cont) :
  forall w r i pv cs n,
    allChars q w = true -> endsRun q r -> String.length w <= n ->
    k (MState (i + String.length w) (lastOr pv w) r cs) <> None ->
    starLoop (m f a) true (groups a) k n (MState i pv (w ++ r) cs) =
    k (MState (i + String.length w) (lastOr pv w) r cs).
Proof.
  rewrite groupless.
  induction w as [|c w IH]; intros r i pv cs n A R L Hk.
  - simpl. rewrite Nat.add_0_r.
    destruct n as [|n]; cbn [starLoop orElse]; [reflexivity|].
    rewrite single. cbn [clearCaps rest fold_right].
    destruct r as [|c t]; [reflexivity|]. simpl in R. rewrite R. reflexivity.
  - simpl in A. apply andb_true_iff in A. destruct A as [Qc A].
    destruct n as [|n]; [simpl in L; lia|]. simpl in L.
    cbn [String.length lastOr] in *. rewrite Nat.add_succ_r in *.
    pose proof (IH r (S i) (Some c) cs n A R ltac:(lia) Hk) as E.
    cbn [starLoop]. rewrite single.
    cbn [clearCaps rest fold_right append]. rewrite Qc.
    cbn [advance pos caps clearCaps fold_right prev rest].
    assert (N : Nat.eqb (S i) i = false) by (apply Nat.eqb_neq; lia).
    rewrite N. unfold advance, clearCaps. cbn [pos prev rest caps fold_right].
    rewrite E. apply orElse_first, Hk.
Qed.

(** At least [n] units: the greedy match takes the whole run when what
    follows the pattern accepts the state after it. *)
Lemma m_atLeast_run (k : cont) (n : nat) :
  forall w r i pv cs,
    allChars q w = true -> endsRun q r -> n <= String.length w ->
    k (MState (i + String.length w) (lastOr pv w) r cs) <> None ->
    m f (atLeast n a) (MState i pv (w ++ r) cs) k =
    k (MState (i + String.length w) (lastOr pv w) r cs).
Proof.
  induction n as [|n IH]; intros w r i pv cs A R L Hk.
  - cbn [atLeast m rest]. apply starLoop_run; auto. rewrite length_append. lia.
  - destruct w as [|c w]; [simpl in L; lia|].
    cbn [atLeast m]. rewrite single. cbn [rest append].
    simpl in A. apply andb_true_iff in A. destruct A as [Qc A]. rewrite Qc.
    unfold advance. cbn [pos caps String.length lastOr] in *.
    rewrite Nat.add_succ_r in *.
    apply (IH w r (S i) (Some c) cs A R); [lia | exact Hk].
Qed.

Lemma m_atLeast_all (k : cont) (n : nat) (w : string) (i : nat) (pv : option ascii)
    (cs : list (nat * string)) :
  allChars q w = true -> n <= String.length w ->
  k (MState (i + String.length w) (lastOr pv w) EmptyString cs) <> None ->
  m f (atLeast n a) (MState i pv w cs) k =
  k (MState (i + String.length w) (lastOr pv w) EmptyString cs).
Proof.
  intros A L Hk. rewrite <- (append_nil_r w) at 1.
  apply m_atLeast_run; auto. exact I.
Qed.

(** When what follows the pattern cannot start with a unit of the class,
    the greedy match takes the whole run or fails. *)
Lemma starLoop_run_strict (k : cont) :
  (forall y c t, rest y = String c t -> q c = true -> k y = None) ->
  forall w r i pv cs n,
    allChars q w = true -> endsRun q r -> String.length w <= n ->
    starLoop (m f a) true (groups a) k n (MState i pv (w ++ r) cs) =
    k (MState (i + String.length w) (lastOr pv w) r cs).
Proof.
  intros Hk. rewrite groupless.
  induction w as [|c w IH]; intros r i pv cs n A R L.
  - simpl. rewrite Nat.add_0_r.
    destruct n as [|n]; cbn [starLoop orElse]; [reflexivity|].
    rewrite single. cbn [clearCaps rest fold_right].
    destruct r as [|c t]; [reflexivity|]. simpl in R. rewrite R. reflexivity.
  - simpl in A. apply andb_true_iff in A. destruct A as [Qc A].
    destruct n as [|n]; [simpl in L; lia|]. simpl in L.
    cbn [String.length lastOr] in *. rewrite Nat.add_succ_r in *.
    pose proof (IH r (S i) (Some c) cs n A R ltac:(lia)) as E.
    cbn [starLoop]. rewrite single.
    cbn [clearCaps rest fold_right append]. rewrite Qc.
    cbn [advance pos caps clearCaps fold_right prev rest].
    assert (N : Nat.eqb (S i) i = false) by (apply Nat.eqb_neq; lia).
    rewrite N. unfold advance, clearCaps. cbn [pos prev rest caps fold_right].
    rewrite E.
    rewrite (Hk (MState i pv (String c (w ++ r)) cs) c (w ++ r) eq_refl Qc).
    destruct (k _); reflexivity.
Qed.

Lemma m_plus_strict (k : cont) :
  (forall y c t, rest y = String c t -> q c = true -> k y = None) ->
  forall c w r i pv cs,
    q c = true -> allChars q w = true -> endsRun q r ->
    m f (plus a) (MState i pv (String c (w ++ r)) cs) k =
    k (MState (i + S (String.length w)) (lastOr (Some c) w) r cs).
Proof.
  intros Hk c w r i pv cs Qc A R. unfold plus. cbn [m]. rewrite single. cbn [rest].
  rewrite Qc. unfold advance. cbn [pos caps rest].
  rewrite (starLoop_run_strict k Hk w r (S i) (Some c) cs (String.length (w ++ r)) A R)
    by (rewrite length_append; lia).
  rewrite Nat.add_succ_r. reflexivity.
Qed.

Lemma m_plus_none (k : cont) (x : mstate) :
  endsRun q (rest x) -> m f (plus a) x k = None.
Proof.
  intros R. unfold plus. cbn [m]. rewrite single.
  destruct (rest x) as [|c t]; [reflexivity|]. simpl in R. rewrite R. reflexivity.
Qed.

Lemma matchAt_plus_run (i : nat) (pv : option ascii) (s : string) :
  matchAt f (plus a) i pv s =
  match fst (spanRun q s) with
  | EmptyString => None
  | w => Some (MRes i w [])
  end.
Proof.
  unfold matchAt, plus. cbn [m]. rewrite single. cbn [rest].
  destruct s as [|c t]; [reflexivity|]. cbn [spanRun].
  destruct (q c) eqn:Q; [|reflexivity].
  destruct (spanRun_spec t) as (E & A & R).
  destruct (spanRun q t) as [w r]. cbn [fst snd] in *.
  subst t. unfold advance. cbn [pos caps rest prev].
  rewrite (starLoop_run (fun y => Some y) w r (S i) (Some c) []
             (String.length (w ++ r)) A R);
    [|rewrite length_append; lia | discriminate].
  cbn [pos caps].
  replace (S i + String.length w - i) with (S (String.length w)) by lia.
  cbn [take]. rewrite take_append. reflexivity.
Qed.

Lemma drop_append (w r : string) : drop (String.length w) (w ++ r) = r.
Proof. induction w as [|c w IH]; [destruct r; reflexivity | exact IH]. Qed.

Lemma collapseRuns_run (w r : string) :
  allChars q w = true -> endsRun q r ->
  collapseRuns q (w ++ r) true = collapseRuns q r false.
Proof.
  induction w as [|c w IH]; intros A R.
  - destruct r as [|c t]; [reflexivity|]. simpl in *. rewrite R. reflexivity.
  - simpl in A. apply andb_true_iff in A. destruct A as [Qc A].
    simpl. rewrite Qc. apply IH; assumption.
Qed.

(** Replacing every greedy run by one space is [collapseRuns]. *)
Lemma render_scan_plus (s : string) :
  forall i pv skip,
    render space (scan f (plus a) i pv s skip) = collapseRuns q (drop skip s) false.
Proof.
  induction s as [|c t IH]; intros i pv skip.
  - destruct skip; [|reflexivity]. cbn [scan]. rewrite matchAt_plus_run. reflexivity.
  - destruct skip as [|k]; cbn [scan drop]; [|apply IH].
    rewrite matchAt_plus_run. cbn [spanRun collapseRuns].
    destruct (q c) eqn:Q.
    + destruct (spanRun_spec t) as (E & A & R).
      destruct (spanRun q t) as [w r]. cbn [fst snd] in *.
      cbn [mtext String.length render space]. rewrite IH.
      rewrite E at 1 2. rewrite drop_append, collapseRuns_run by assumption. reflexivity.
    + cbn [fst render]. rewrite IH. reflexivity.
Qed.

Lemma replaceAll_plus (s : string) :
  replaceAll f (plus a) space s = collapseRuns q s false.
Proof. unfold replaceAll, scanAll. rewrite render_scan_plus. reflexivity. Qed.

End GreedyRuns.

(** ** Literals and case *)

Section Literals.

Variable f : flags.

Lemma ascii_all (P : ascii -> bool) :
  forallb P (map ascii_of_nat (List.seq 0 256)) = true -> forall c, P c = true.
Proof.
  intros H c. rewrite forallb_forall in H. apply H.
  rewrite <- (ascii_nat_embedding c). apply in_map, in_seq.
  pose proof (nat_ascii_bounded c). lia.
Qed.

Lemma toLowerChar_idempotent (c : ascii) : toLowerChar (toLowerChar c) = toLowerChar c.
Proof.
  apply Ascii.eqb_eq. revert c.
  apply (ascii_all (fun c => Ascii.eqb (toLowerChar (toLowerChar c)) (toLowerChar c))).
  vm_compute. reflexivity.
Qed.

Lemma toLowerChar_canonicalize (c : ascii) : toLowerChar (canonicalize c) = toLowerChar c.
Proof.
  apply Ascii.eqb_eq. revert c.
  apply (ascii_all (fun c => Ascii.eqb (toLowerChar (canonicalize c)) (toLowerChar c))).
  vm_compute. reflexivity.
Qed.

(** Under either case flag a literal code unit matches only code units
    with the same lower case. *)
Lemma inClass_isChar (a c : ascii) :
  inClass f false (isChar a) c = true -> toLowerChar c = toLowerChar a.
Proof.
  unfold inClass, isChar. cbn [xorb]. intros H.
  apply orb_true_iff in H. destruct H as [H | H].
  - apply Ascii.eqb_eq in H. congruence.
  - apply andb_true_iff in H. destruct H as [_ H].
    apply orb_true_iff in H. destruct H as [H | H]; apply Ascii.eqb_eq in H; subst a.
    + symmetry. apply toLowerChar_idempotent.
    + symmetry. apply toLowerChar_canonicalize.
Qed.

Lemma steps_chr_inv (inv : bool) (p : ascii -> bool) (x y : mstate) :
  steps f (Chr inv p) x y ->
  exists c t, rest x = String c t /\ inClass f inv p c = true /\ y = advance c t x.
Proof. intros H; inversion H; subst; eauto. Qed.

Lemma steps_eps_inv (x y : mstate) : steps f Eps x y -> y = x.
Proof. intros H; inversion H; subst; reflexivity. Qed.

Lemma toLowerCase_append (a b : string) :
  toLowerCase (a ++ b) = toLowerCase a ++ toLowerCase b.
Proof.
  unfold toLowerCase. induction a as [|c a IH]; simpl; [reflexivity | rewrite IH; reflexivity].
Qed.

Lemma toLowerCase_length (a : string) : String.length (toLowerCase a) = String.length a.
Proof.
  unfold toLowerCase. induction a as [|c a IH]; simpl; [reflexivity | rewrite IH; reflexivity].
Qed.

(** A match of a literal is the literal up to case, and sets no group. *)
Lemma steps_lit (w : string) :
  forall x y, steps f (lit w) x y ->
  exists w', rest x = w' ++ rest y /\ pos y = pos x + String.length w' /\
             toLowerCase w' = toLowerCase w /\ caps y = caps x.
Proof.
  induction w as [|c t IH]; intros x y H.
  - apply steps_eps_inv in H. subst y. exists EmptyString. simpl. repeat split; lia.
  - destruct t as [|d t].
    + apply steps_chr_inv in H. destruct H as (c' & t' & R & C & ->).
      exists (String c' EmptyString). unfold toLowerCase. cbn [smap advance rest pos caps].
      rewrite (inClass_isChar _ _ C). simpl. repeat split; [exact R | lia].
    + change (lit (String c (String d t))) with (Seq (ch c) (lit (String d t))) in H.
      apply steps_seq_inv in H. destruct H as (z & H1 & H2).
      apply steps_chr_inv in H1. destruct H1 as (c' & t' & R & C & ->).
      destruct (IH _ _ H2) as (w' & R' & P' & L' & K').
      exists (String c' w'). cbn [advance rest pos caps] in *.
      rewrite R, R'. unfold toLowerCase in *. cbn [smap]. rewrite (inClass_isChar _ _ C), L'.
      simpl. repeat split; [lia | exact K'].
Qed.

End Literals.

(** ** Substrings *)

Section Substrings.

Lemma startsWith_append (p r : string) : startsWith (p ++ r) p = true.
Proof.
  induction p as [|c p IH]; simpl; [destruct r; reflexivity|].
  rewrite Ascii.eqb_refl. exact IH.
Qed.

Lemma startsWith_append_r (s p post : string) :
  startsWith s p = true -> startsWith (s ++ post) p = true.
Proof.
  revert s. induction p as [|c p IH]; intros s H.
  - destruct (s ++ post); reflexivity.
  - destruct s as [|d s]; simpl in *; [discriminate|].
    apply andb_true_iff in H. destruct H as [H1 H2]. rewrite H1. simpl. apply IH, H2.
Qed.

Lemma includes_unfold (s p : string) :
  includes s p =
  (startsWith s p || match s with EmptyString => false | String _ t => includes t p end)%bool.
Proof. destruct s; reflexivity. Qed.

Lemma includes_append_l (pre s p : string) :
  includes s p = true -> includes (pre ++ s) p = true.
Proof.
  intros H. induction pre as [|c pre IH]; [exact H|].
  cbn [append]. rewrite includes_unfold, IH. apply orb_true_r.
Qed.

Lemma includes_append_r (s post p : string) :
  includes s p = true -> includes (s ++ post) p = true.
Proof.
  induction s as [|c s IH]; intros H.
  - rewrite includes_unfold in H. rewrite orb_false_r in H.
    destruct p; [|discriminate]. cbn [append]. rewrite includes_unfold.
    destruct post; reflexivity.
  - rewrite includes_unfold in H.
    change (String c s ++ post) with (String c (s ++ post)) at 1.
    rewrite includes_unfold.
    apply orb_true_iff in H. destruct H as [H | H].
    + change (String c (s ++ post)) with (String c s ++ post).
      rewrite (startsWith_append_r (String c s) p post H). reflexivity.
    + rewrite (IH H). apply orb_true_r.
Qed.

Lemma includes_middle (pre p post : string) : includes (pre ++ p ++ post) p = true.
Proof.
  apply includes_append_l. rewrite includes_unfold, startsWith_append. reflexivity.
Qed.

(** [s.includes(p)] holds exactly when [p] lies between two parts of [s]. *)
Lemma includes_parts (s p : string) :
  includes s p = true -> exists pre post, s = pre ++ p ++ post.
Proof.
  assert (SW : forall p s, startsWith s p = true -> exists post, s = p ++ post).
  { clear. induction p as [|c p IH]; intros s H.
    - exists s. reflexivity.
    - destruct s as [|d s]; simpl in H; [discriminate|].
      apply andb_true_iff in H. destruct H as [H1 H2].
      apply Ascii.eqb_eq in H1. subst d.
      destruct (IH _ H2) as (post & ->). exists post. reflexivity. }
  induction s as [|c s IH]; intros H; rewrite includes_unfold in H;
    apply orb_true_iff in H; destruct H as [H | H]; try discriminate.
  - destruct (SW _ _ H) as (post & E). exists EmptyString, post. exact E.
  - destruct (SW _ _ H) as (post & E). exists EmptyString, post. exact E.
  - destruct (IH H) as (pre & post & ->). exists (String c pre), post. reflexivity.
Qed.

End Substrings.

(** ** Patterns that need a marker *)

Section Markers.

Variable f : flags.

Lemma needs_lit (w : string) (b : regex) : needs f (Seq (lit w) b) (toLowerCase w).
Proof.
  intros x z H. apply steps_seq_inv in H. destruct H as (y & H & _).
  destruct (steps_lit f w _ _ H) as (w' & R & _ & L & _).
  rewrite R, toLowerCase_append, L. apply (includes_middle EmptyString).
Qed.

Lemma needs_lit_end (w : string) : needs f (lit w) (toLowerCase w).
Proof.
  intros x y H.
  destruct (steps_lit f w _ _ H) as (w' & R & _ & L & _).
  rewrite R, toLowerCase_append, L. apply (includes_middle EmptyString).
Qed.

Lemma needs_later (a b : regex) (p : string) : needs f b p -> needs f (Seq a b) p.
Proof.
  intros N x z H. apply steps_seq_inv in H. destruct H as (y & H1 & H2).
  destruct (steps_consumes f _ _ _ H1) as (w & R & _).
  rewrite R, toLowerCase_append. apply includes_append_l. exact (N _ _ H2).
Qed.

Lemma matchAll_needs (r : regex) (p s : string) :
  needs f r p -> includes (toLowerCase s) p = false -> matchAll f r s = [].
Proof.
  intros N H. unfold matchAll, scanAll.
  destruct (matchesOf (scan f r 0 None s 0)) as [|mr l] eqn:E; [reflexivity|].
  exfalso.
  destruct (scan_matchAt_suffix f r mr s 0 None 0) as (pre & s' & i' & pv' & -> & M).
  { rewrite E. left. reflexivity. }
  destruct (matchAt_steps f r i' pv' s' mr M) as (y & w & St & _).
  apply N in St. cbn [rest] in St.
  rewrite toLowerCase_append, includes_append_l in H by exact St. discriminate.
Qed.

Lemma exec_needs (r : regex) (p s : string) :
  needs f r p -> includes (toLowerCase s) p = false -> exec f r s = None.
Proof.
  intros N H. destruct (exec f r s) as [mr|] eqn:E; [|reflexivity]. exfalso.
  destruct (exec_parts f r s mr E) as (before & after & i' & pv' & M & ->).
  destruct (matchAt_steps f r i' pv' _ mr M) as (y & w & St & _).
  apply N in St. cbn [rest] in St.
  rewrite toLowerCase_append, includes_append_l in H by exact St. discriminate.
Qed.

End Markers.

(** ** The length of a global replacement *)

Section ReplaceLength.

Variable f : flags.
Variable r : regex.
Variable rep : mres -> string.

Hypothesis shorter : forall i pv s mr,
  matchAt f r i pv s = Some mr -> String.length (rep mr) <= String.length (mtext mr).

Lemma render_scan_length (s : string) :
  forall i pv skip,
    String.length (render rep (scan f r i pv s skip)) <= String.length s - skip.
Proof.
  induction s as [|c t IH]; intros i pv skip.
  - destruct skip; cbn [scan]; [|simpl; lia].
    destruct (matchAt f r i pv EmptyString) as [mr|] eqn:E; [|simpl; lia].
    cbn [render]. rewrite append_nil_r.
    pose proof (shorter _ _ _ _ E) as S1.
    destruct (matchAt_prefix f r _ _ _ _ E) as (after & P).
    destruct (mtext mr); [simpl in *; lia | discriminate].
  - destruct skip as [|k]; cbn [scan].
    + destruct (matchAt f r i pv (String c t)) as [mr|] eqn:E.
      * pose proof (shorter _ _ _ _ E) as S1.
        destruct (matchAt_prefix f r _ _ _ _ E) as (after & P).
        apply (f_equal String.length) in P. rewrite length_append in P.
        cbn [render]. rewrite length_append.
        destruct (String.length (mtext mr)) as [|k] eqn:L.
        -- cbn [render String.length]. specialize (IH (S i) (Some c) 0). lia.
        -- specialize (IH (S i) (Some c) k). simpl in P. simpl. lia.
      * cbn [render String.length]. specialize (IH (S i) (Some c) 0). lia.
    + specialize (IH (S i) (Some c) k). simpl. lia.
Qed.

Lemma replaceAll_length (s : string) :
  String.length (replaceAll f r rep s) <= String.length s.
Proof.
  unfold replaceAll, scanAll. pose proof (render_scan_length s 0 None 0). lia.
Qed.

End ReplaceLength.

(** ** cleanHtml *)

Section CleanHtml.

Lemma ws_single (x : mstate) (k : cont) :
  m noFlags ws x k =
  match rest x with
  | String c t => if isSpace c then k (advance c t x) else None
  | EmptyString => None
  end.
Proof.
  unfold ws, cls. cbn [m]. destruct (rest x) as [|c t]; [reflexivity|].
  rewrite (inClass_plain noFlags eq_refl). reflexivity.
Qed.

Lemma collapse_spaces (s : string) :
  replaceAll noFlags (plus ws) space s = collapseRuns isSpace s false.
Proof. apply replaceAll_plus; [exact ws_single | reflexivity]. Qed.

Lemma wellSpaced_collapseRuns (s : string) :
  forall b, wellSpaced b (collapseRuns isSpace s b) = true.
Proof.
  induction s as [|c t IH]; intros b; [reflexivity|].
  cbn [collapseRuns]. destruct (isSpace c) eqn:Q.
  - destruct b; [apply IH|]. cbn [wellSpaced]. rewrite IH. reflexivity.
  - cbn [wellSpaced]. rewrite Q. apply IH.
Qed.

Lemma collapseRuns_wellSpaced (s : string) :
  forall b, wellSpaced b s = true -> collapseRuns isSpace s b = s.
Proof.
  induction s as [|c t IH]; intros b H; [reflexivity|].
  cbn [collapseRuns wellSpaced] in *. destruct (isSpace c) eqn:Q.
  - apply andb_true_iff in H. destruct H as [H H3].
    apply andb_true_iff in H. destruct H as [H1 H2].
    apply Ascii.eqb_eq in H1. subst c. destruct b; [discriminate|].
    rewrite (IH _ H3). reflexivity.
  - rewrite (IH _ H). reflexivity.
Qed.

Lemma wellSpaced_only_spaces (s : string) :
  forall b, wellSpaced b s = true ->
  allChars (fun c => negb (isSpace c) || Ascii.eqb c " ")%bool s = true.
Proof.
  induction s as [|c t IH]; intros b H; [reflexivity|].
  cbn [wellSpaced allChars] in *. destruct (isSpace c) eqn:Q.
  - apply andb_true_iff in H. destruct H as [H H3].
    apply andb_true_iff in H. destruct H as [H1 _].
    rewrite H1, (IH _ H3). reflexivity.
  - rewrite (IH _ H). reflexivity.
Qed.

Lemma wellSpaced_no_double (s : string) :
  forall b, wellSpaced b s = true -> includes s "  " = false.
Proof.
  induction s as [|c t IH]; intros b H; [reflexivity|].
  rewrite includes_unfold. cbn [wellSpaced] in H. destruct (isSpace c) eqn:Q.
  - apply andb_true_iff in H. destruct H as [H H3].
    rewrite (IH _ H3), orb_false_r.
    cbn [startsWith]. destruct t as [|d u]; [apply andb_false_r|].
    cbn [wellSpaced] in H3. cbn [startsWith].
    destruct (Ascii.eqb " " d) eqn:D.
    + apply Ascii.eqb_eq in D. subst d. discriminate.
    + simpl. apply andb_false_r.
  - rewrite (IH _ H), orb_false_r. cbn [startsWith].
    destruct (Ascii.eqb " " c) eqn:D; [|reflexivity].
    apply Ascii.eqb_eq in D. subst c. discriminate.
Qed.

Lemma space_shorter (f : flags) (r : regex) :
  1 <= minLen r ->
  forall i pv s mr, matchAt f r i pv s = Some mr ->
                    String.length (space mr) <= String.length (mtext mr).
Proof. intros H i pv s mr M. apply matchAt_minLen in M. simpl. lia. Qed.

Lemma empty_shorter (f : flags) (r : regex) :
  forall i pv s mr, matchAt f r i pv s = Some mr ->
                    String.length (empty mr) <= String.length (mtext mr).
Proof. intros. simpl. lia. Qed.

Lemma needs_rawTextElement (name : string) :
  needs fI (rawTextElement name) (toLowerCase ("<" ++ name)).
Proof. apply needs_lit. Qed.

Lemma needs_spanElement (name : string) :
  needs fI (spanElement name) (toLowerCase ("<" ++ name)).
Proof. apply needs_lit. Qed.

Lemma needs_classAttribute (word : string) :
  needs fI (classAttribute word) (toLowerCase word).
Proof. unfold classAttribute. cbn [seq]. do 3 apply needs_later. apply needs_lit. Qed.

End CleanHtml.

(** X1: whatever the input, the white space left by [cleanHtml] is the
    space character alone (no tab, line break or no-break space), and no two
    spaces are adjacent. *)
Theorem cleanHtml_single_spaced (html : string) :
  allChars (fun c => negb (isSpace c) || Ascii.eqb c " ")%bool (cleanHtml html) = true /\
  includes (cleanHtml html) "  " = false.
Proof.
  unfold cleanHtml. rewrite collapse_spaces.
  split; [eapply wellSpaced_only_spaces | eapply wellSpaced_no_double];
    apply wellSpaced_collapseRuns.
Qed.

(** X2: [cleanHtml] never returns more code units than it was given. *)
Theorem cleanHtml_never_longer (html : string) :
  String.length (cleanHtml html) <= String.length html.
Proof.
  unfold cleanHtml.
  repeat match goal with
  | |- String.length (replaceAll ?f ?r space ?s) <= _ =>
      apply Nat.le_trans with (String.length s);
        [apply replaceAll_length, space_shorter; vm_compute; lia|]
  | |- String.length (replaceAll ?f ?r empty ?s) <= _ =>
      apply Nat.le_trans with (String.length s);
        [apply replaceAll_length, empty_shorter|]
  end.
  apply Nat.le_refl.
Qed.

(** X3: markup that has none of the elements and attributes [cleanHtml]
    removes (in any case) comes back with its runs of white space collapsed
    to one space each and nothing else changed; when it is single-spaced
    already it comes back as it is. *)
Theorem cleanHtml_keeps_other_markup (html : string) :
  (forall w, In w ["<script"; "<style"; "<nav"; "<footer"; "<header";
                   "breadcrumb"; "navigation"] ->
             includes (toLowerCase html) w = false) ->
  cleanHtml html = collapseRuns isSpace html false /\
  (wellSpaced false html = true -> cleanHtml html = html).
Proof.
  intros H.
  assert (E : cleanHtml html = collapseRuns isSpace html false).
  { unfold cleanHtml.
    rewrite (replaceAll_nomatch fI (rawTextElement "script") space html)
      by (apply (matchAll_needs fI _ _ _ (needs_rawTextElement "script")), H; vm_compute; auto 10).
    rewrite (replaceAll_nomatch fI (rawTextElement "style") space html)
      by (apply (matchAll_needs fI _ _ _ (needs_rawTextElement "style")), H; vm_compute; auto 10).
    rewrite (replaceAll_nomatch fI (spanElement "nav") space html)
      by (apply (matchAll_needs fI _ _ _ (needs_spanElement "nav")), H; vm_compute; auto 10).
    rewrite (replaceAll_nomatch fI (spanElement "footer") space html)
      by (apply (matchAll_needs fI _ _ _ (needs_spanElement "footer")), H; vm_compute; auto 10).
    rewrite (replaceAll_nomatch fI (spanElement "header") space html)
      by (apply (matchAll_needs fI _ _ _ (needs_spanElement "header")), H; vm_compute; auto 10).
    rewrite (replaceAll_nomatch fI (classAttribute "breadcrumb") empty html)
      by (apply (matchAll_needs fI _ _ _ (needs_classAttribute "breadcrumb")), H;
          vm_compute; auto 10).
    rewrite (replaceAll_nomatch fI (classAttribute "navigation") empty html)
      by (apply (matchAll_needs fI _ _ _ (needs_classAttribute "navigation")), H;
          vm_compute; auto 10).
    apply collapse_spaces. }
  split; [exact E|]. intros W. rewrite E. apply collapseRuns_wellSpaced, W.
Qed.

Lemma cleanHtml_keeps_other_markup_witness :
  cleanHtml "<p>Use   a <b>button</b></p>" =
    collapseRuns isSpace "<p>Use   a <b>button</b></p>" false /\
  (wellSpaced false "<p>Use   a <b>button</b></p>" = true ->
   cleanHtml "<p>Use   a <b>button</b></p>" = "<p>Use   a <b>button</b></p>").
Proof.
  apply (cleanHtml_keeps_other_markup "<p>Use   a <b>button</b></p>").
  intros w H. simpl in H.
  repeat (destruct H as [<- | H]; [vm_compute; reflexivity|]). contradiction.
Defined.

(** ** removeRepeatedTitles *)

Section RepeatedTitles.

Lemma countOf_mapSet_same (t : string) (v : nat) (tc : titleMap) :
  countOf t (mapSet t v tc) = v.
Proof.
  unfold countOf. induction tc as [|[k n] tc IH]; simpl.
  - rewrite String.eqb_refl. reflexivity.
  - destruct (String.eqb t k) eqn:E; simpl; rewrite ?String.eqb_refl, ?E; auto.
Qed.

Lemma countOf_mapSet_other (t t0 : string) (v : nat) (tc : titleMap) :
  t <> t0 -> countOf t (mapSet t0 v tc) = countOf t tc.
Proof.
  intros ne. unfold countOf. induction tc as [|[k n] tc IH]; simpl.
  - destruct (String.eqb_spec t t0); [contradiction | reflexivity].
  - destruct (String.eqb_spec t0 k) as [->|n0]; simpl.
    + destruct (String.eqb_spec t k); [contradiction | reflexivity].
    + destruct (String.eqb_spec t k); [reflexivity | exact IH].
Qed.

(** The filter callback in terms of the title of the line. *)
Lemma filterTitles_cons (line : string) (r : list string) (tc : titleMap) :
  filterTitles (line :: r) tc =
  match titleOf line with
  | Some t =>
      kept <- filterTitles r (mapSet t (countOf t tc + 1) tc) ;;
      Ok (if (Nat.eqb (countOf t tc) 0 || Nat.ltb 20 (String.length line))%bool
          then line :: kept else kept)
  | None => kept <- filterTitles r tc ;; Ok (line :: kept)
  end.
Proof.
  cbn [filterTitles]. unfold titleOf.
  destruct (exec noFlags titleRe line) as [tm|] eqn:E; [|reflexivity].
  destruct (exec_matchAt _ _ _ _ E) as (i & pv & s & M).
  destruct (matchAt_group _ _ 1 _ _ _ _ (eq_refl : sets 1 titleRe = true) M) as (v & ->).
  reflexivity.
Qed.

Lemma Subseq_refl (l : list string) : Subseq l l.
Proof. induction l; constructor; assumption. Qed.

Lemma Subseq_In (k l : list string) (x : string) : Subseq k l -> In x k -> In x l.
Proof. induction 1; simpl; intuition. Qed.

Lemma filterTitles_Subseq (lines : list string) :
  forall tc kept, filterTitles lines tc = Ok kept ->
  Subseq kept lines /\
  Subseq (filter (fun l => negb (shortHeading l)) lines) kept.
Proof.
  induction lines as [|line r IH]; intros tc kept H.
  - injection H as <-. split; constructor.
  - rewrite filterTitles_cons in H. cbn [filter]. unfold shortHeading at 1.
    destruct (titleOf line) as [t|].
    + destruct (filterTitles r _) as [kept'|] eqn:E; [|discriminate].
      destruct (IH _ _ E) as (S1 & S2). cbn [bind] in H. injection H as <-.
      destruct (Nat.eqb (countOf t tc) 0) eqn:C; cbn [orb].
      * split; [constructor; exact S1|].
        destruct (Nat.leb (String.length line) 20); cbn [negb];
          constructor; exact S2.
      * destruct (Nat.ltb_spec 20 (String.length line)) as [L|L].
        -- split; [constructor; exact S1|].
           destruct (Nat.leb_spec (String.length line) 20); [lia|]. cbn [negb].
           constructor; exact S2.
        -- split; [constructor; exact S1|].
           destruct (Nat.leb_spec (String.length line) 20); [|lia]. exact S2.
    + destruct (filterTitles r tc) as [kept'|] eqn:E; [|discriminate].
      destruct (IH _ _ E) as (S1 & S2). cbn [bind] in H. injection H as <-.
      cbn [negb]. split; constructor; assumption.
Qed.

(** Each title of the input that is new to the map is the title of a line
    that is kept. *)
Lemma filterTitles_first (lines : list string) :
  forall tc kept, filterTitles lines tc = Ok kept ->
  forall line t, In line lines -> titleOf line = Some t -> countOf t tc = 0 ->
  exists line', In line' kept /\ titleOf line' = Some t.
Proof.
  induction lines as [|l0 r IH]; intros tc kept H line t Hin T C; [contradiction|].
  rewrite filterTitles_cons in H.
  destruct (titleOf l0) as [t0|] eqn:T0.
  - destruct (filterTitles r _) as [kept'|] eqn:E; [|discriminate].
    cbn [bind] in H. injection H as <-.
    destruct (String.eqb_spec t t0) as [->|ne].
    + rewrite C. cbn [Nat.eqb orb]. exists l0. split; [left; reflexivity | exact T0].
    + destruct Hin as [<-|Hin]; [congruence|].
      destruct (IH _ _ E line t Hin T) as (line' & I' & T').
      { rewrite countOf_mapSet_other by exact ne. exact C. }
      exists line'. split; [|exact T'].
      destruct (_ || _)%bool; [right|]; exact I'.
  - destruct (filterTitles r tc) as [kept'|] eqn:E; [|discriminate].
    cbn [bind] in H. injection H as <-.
    destruct Hin as [<-|Hin]; [congruence|].
    destruct (IH _ _ E line t Hin T C) as (line' & I' & T').
    exists line'. split; [right; exact I' | exact T'].
Qed.

(** A short heading that is kept has a title new to the map and to the
    lines kept before it. *)
Lemma filterTitles_distinct (lines : list string) :
  forall tc kept, filterTitles lines tc = Ok kept ->
  forall pre b post t,
    kept = (pre ++ b :: post)%list -> titleOf b = Some t -> String.length b <= 20 ->
    countOf t tc = 0 /\ forall a, In a pre -> titleOf a <> Some t.
Proof.
  induction lines as [|l0 r IH]; intros tc kept H pre b post t K T L.
  - injection H as <-. destruct pre; discriminate.
  - rewrite filterTitles_cons in H.
    destruct (titleOf l0) as [t0|] eqn:T0.
    + destruct (filterTitles r _) as [kept'|] eqn:E; [|discriminate].
      cbn [bind] in H. injection H as <-.
      assert (Later : forall pre', kept' = (pre' ++ b :: post)%list ->
                countOf t tc = 0 /\ t <> t0 /\ forall a, In a pre' -> titleOf a <> Some t).
      { intros pre' K'. destruct (IH _ _ E pre' b post t K' T L) as (C & N).
        destruct (String.eqb_spec t t0) as [->|ne].
        - rewrite countOf_mapSet_same in C. lia.
        - rewrite countOf_mapSet_other in C by exact ne. auto. }
      destruct (Nat.eqb (countOf t0 tc) 0 || Nat.ltb 20 (String.length l0))%bool eqn:Keep.
      * destruct pre as [|a pre]; cbn [app] in K; injection K as -> K.
        -- split; [|intros a []].
           assert (t0 = t) by congruence. subst t0.
           apply orb_true_iff in Keep. destruct Keep as [Keep | Keep].
           ++ apply Nat.eqb_eq, Keep.
           ++ apply Nat.ltb_lt in Keep. lia.
        -- destruct (Later _ K) as (C & ne & N). split; [exact C|].
           intros a' [<-|I]; [congruence | exact (N _ I)].
      * destruct (Later _ K) as (C & _ & N). auto.
    + destruct (filterTitles r tc) as [kept'|] eqn:E; [|discriminate].
      cbn [bind] in H. injection H as <-.
      destruct pre as [|a pre]; cbn [app] in K; injection K as -> K; [congruence|].
      destruct (IH _ _ E pre b post t K T L) as (C & N). split; [exact C|].
      intros a' [<-|I]; [congruence | exact (N _ I)].
Qed.

Lemma splitLines_nonempty (s : string) : splitLines s <> [].
Proof.
  destruct s as [|c t]; simpl; [discriminate|].
  destruct (Ascii.eqb c NL); [discriminate|]. destruct (splitLines t); discriminate.
Qed.

Lemma splitLines_noNL (s : string) : forall l, In l (splitLines s) -> noNL l = true.
Proof.
  unfold noNL. induction s as [|c t IH]; intros l H; simpl in H.
  - destruct H as [<-|[]]. reflexivity.
  - destruct (Ascii.eqb c NL) eqn:E.
    + destruct H as [<-|H]; [reflexivity | exact (IH _ H)].
    + destruct (splitLines t) as [|l0 ls].
      * destruct H as [<-|[]]. simpl. rewrite E. reflexivity.
      * destruct H as [<-|H].
        -- simpl. rewrite E. simpl. apply IH. left; reflexivity.
        -- apply IH. right; exact H.
Qed.

Lemma splitLines_append (x rest : string) :
  noNL x = true -> splitLines (x ++ String NL rest) = x :: splitLines rest.
Proof.
  unfold noNL. induction x as [|c x IH]; intros H.
  - cbn [append splitLines]. rewrite Ascii.eqb_refl. reflexivity.
  - simpl in H. apply andb_true_iff in H. destruct H as [H1 H2].
    apply negb_true_iff in H1. cbn [append splitLines]. rewrite H1, (IH H2). reflexivity.
Qed.

Lemma splitLines_line (x : string) : noNL x = true -> splitLines x = [x].
Proof.
  unfold noNL. induction x as [|c x IH]; intros H; [reflexivity|].
  simpl in H. apply andb_true_iff in H. destruct H as [H1 H2].
  apply negb_true_iff in H1. cbn [splitLines]. rewrite H1, (IH H2). reflexivity.
Qed.

(** [split] undoes [join] on lines without a line feed. *)
Lemma splitLines_join (l : list string) :
  l <> [] -> (forall x, In x l -> noNL x = true) -> splitLines (join nl l) = l.
Proof.
  induction l as [|x r IH]; intros ne H; [contradiction|].
  destruct r as [|y r].
  - apply splitLines_line, H. left; reflexivity.
  - change (join nl (x :: y :: r)) with (x ++ String NL (join nl (y :: r))).
    rewrite splitLines_append by (apply H; left; reflexivity).
    rewrite IH; [reflexivity | discriminate | intros z Hz; apply H; right; exact Hz].
Qed.

(** The lines of the result are the lines the filter keeps. *)
Lemma removeRepeatedTitles_lines (content : string) :
  exists out, removeRepeatedTitles content = Ok out /\
              filterTitles (splitLines content) [] = Ok (splitLines out).
Proof.
  unfold removeRepeatedTitles.
  destruct (filterTitles_ok (splitLines content) []) as (kept & E). rewrite E. cbn [bind].
  exists (join nl kept). split; [reflexivity|].
  rewrite splitLines_join; [reflexivity | |].
  - destruct (splitLines content) as [|l0 ls] eqn:S; [exact (False_ind _ (splitLines_nonempty _ S))|].
    rewrite filterTitles_cons in E.
    destruct (titleOf l0) as [t|].
    + destruct (filterTitles ls _) as [kept'|]; [|discriminate].
      cbn [bind] in E. change (countOf t []) with 0 in E. cbn [Nat.eqb orb] in E.
      injection E as <-. discriminate.
    + destruct (filterTitles ls []) as [kept'|]; [|discriminate].
      cbn [bind] in E. injection E as <-. discriminate.
  - intros x Hx. apply (splitLines_noNL content).
    eapply Subseq_In; [|exact Hx]. exact (proj1 (filterTitles_Subseq _ _ _ E)).
Qed.

End RepeatedTitles.

(** X4: [removeRepeatedTitles] only leaves lines out: the lines of its
    result are lines of the input in their order, and every line that is not
    a heading of at most 20 code units is among them. *)
Theorem removeRepeatedTitles_drops_only_short_headings (content : string) :
  exists out, removeRepeatedTitles content = Ok out /\
    Subseq (splitLines out) (splitLines content) /\
    Subseq (filter (fun l => negb (shortHeading l)) (splitLines content)) (splitLines out).
Proof.
  destruct (removeRepeatedTitles_lines content) as (out & E & F).
  exists out. split; [exact E|]. exact (filterTitles_Subseq _ _ _ F).
Qed.

(** X5: no title is lost: for each heading of the input, the result has a
    heading with the same title (lower-cased and trimmed). *)
Theorem removeRepeatedTitles_keeps_every_title (content : string) :
  exists out, removeRepeatedTitles content = Ok out /\
    forall line t, In line (splitLines content) -> titleOf line = Some t ->
    exists line', In line' (splitLines out) /\ titleOf line' = Some t.
Proof.
  destruct (removeRepeatedTitles_lines content) as (out & E & F).
  exists out. split; [exact E|]. intros line t Hin T.
  exact (filterTitles_first _ _ _ F line t Hin T eq_refl).
Qed.

(** X6: in the result a heading of at most 20 code units is the first line
    with its title: no line before it is a heading with the same title
    (lower-cased and trimmed). *)
Theorem removeRepeatedTitles_short_headings_unique (content : string) :
  exists out, removeRepeatedTitles content = Ok out /\
    forall pre b post t,
      splitLines out = (pre ++ b :: post)%list ->
      titleOf b = Some t -> String.length b <= 20 ->
      forall a, In a pre -> titleOf a <> Some t.
Proof.
  destruct (removeRepeatedTitles_lines content) as (out & E & F).
  exists out. split; [exact E|]. intros pre b post t K T L.
  exact (proj2 (filterTitles_distinct _ _ _ F pre b post t K T L)).
Qed.

(** ** Runs of one code unit and groups *)

Section UnitRuns.

Variable f : flags.

Lemma steps_dot_inv (x y : mstate) :
  steps f Dot x y ->
  exists c t, rest x = String c t /\ dotMatches f c = true /\ y = advance c t x.
Proof. intros H; inversion H; subst; eauto. Qed.

Lemma steps_grp_inv (i : nat) (a : regex) (x y : mstate) :
  steps f (Grp i a) x y ->
  exists y0, steps f a x y0 /\ y = setCap i (take (pos y0 - pos x) (rest x)) y0.
Proof. intros H; inversion H; subst; eauto. Qed.

Lemma steps_alt_inv (a b : regex) (x y : mstate) :
  steps f (Alt a b) x y -> steps f a x y \/ steps f b x y.
Proof. intros H; inversion H; subst; auto. Qed.

Lemma steps_eol_inv (x y : mstate) : steps f Eol x y -> y = x /\ atEol f x = true.
Proof. intros H; inversion H; subst; auto. Qed.

Lemma steps_bol_inv (x y : mstate) : steps f Bol x y -> y = x /\ atBol f x = true.
Proof. intros H; inversion H; subst; auto. Qed.

Lemma unitOf_groups (a : regex) (q : ascii -> bool) : unitOf f a = Some q -> groups a = [].
Proof. destruct a; simpl; intros H; try discriminate; reflexivity. Qed.

Lemma steps_unit (a : regex) (q : ascii -> bool) (x y : mstate) :
  unitOf f a = Some q -> steps f a x y ->
  exists c t, rest x = String c t /\ q c = true /\ y = advance c t x.
Proof.
  destruct a; simpl; intros U H; try discriminate; injection U as <-.
  - apply steps_chr_inv, H.
  - apply steps_dot_inv, H.
Qed.

(** A star over a pattern of one code unit consumes a run of such units and
    leaves the groups as they are. *)
Lemma steps_star_unit (g : bool) (a : regex) (q : ascii -> bool) (x y : mstate) :
  unitOf f a = Some q -> steps f (Star g a) x y ->
  exists w, rest x = w ++ rest y /\ pos y = pos x + String.length w /\
            allChars q w = true /\ caps y = caps x.
Proof.
  intros U H. remember (Star g a) as r eqn:Er.
  induction H as [ x | inv p x c t R C | x c t R C | a0 b x y z _ IH1 _ IH2
                 | a0 b x y _ IH | a0 b x y _ IH | g' a0 x | g' a0 x y z S1 _ ne _ IH2
                 | i a0 x y _ IH | x | x | x | a0 x ]; try discriminate.
  - exists EmptyString. simpl. repeat split; lia.
  - injection Er as -> ->.
    destruct (IH2 eq_refl) as (w & R2 & P2 & A2 & K2).
    rewrite (unitOf_groups _ _ U) in S1.
    destruct (steps_unit _ _ _ _ U S1) as (c & t & R & Q & ->).
    cbn [clearCaps fold_right advance rest pos caps] in *.
    exists (String c w). simpl. rewrite R, R2, Q, A2. repeat split; [lia | exact K2].
Qed.

Lemma steps_plus_unit (a : regex) (q : ascii -> bool) (x y : mstate) :
  unitOf f a = Some q -> steps f (plus a) x y ->
  exists w, rest x = w ++ rest y /\ pos y = pos x + String.length w /\
            allChars q w = true /\ caps y = caps x /\ w <> EmptyString.
Proof.
  intros U H. apply steps_seq_inv in H. destruct H as (z & H1 & H2).
  destruct (steps_unit _ _ _ _ U H1) as (c & t & R & Q & ->).
  destruct (steps_star_unit _ _ _ _ _ U H2) as (w & R2 & P2 & A2 & K2).
  cbn [advance rest pos caps] in *.
  exists (String c w). simpl. rewrite R, R2, Q, A2.
  repeat split; [lia | exact K2 | discriminate].
Qed.

(** What a group captures is what its body consumes. *)
Lemma steps_grp_text (i : nat) (a : regex) (x y : mstate) :
  steps f (Grp i a) x y ->
  exists y0 w, steps f a x y0 /\ rest x = w ++ rest y0 /\
               pos y0 = pos x + String.length w /\
               y = setCap i w y0.
Proof.
  intros H. apply steps_grp_inv in H. destruct H as (y0 & H & ->).
  destruct (steps_consumes f _ _ _ H) as (w & R & P).
  exists y0, w. repeat split; auto.
  rewrite R, P. replace (pos x + String.length w - pos x) with (String.length w) by lia.
  rewrite take_append. reflexivity.
Qed.

Lemma getCap_setCap (i : nat) (w : string) (y : mstate) :
  getCap i (caps (setCap i w y)) = Some w.
Proof. simpl. rewrite Nat.eqb_refl. reflexivity. Qed.

End UnitRuns.

Section CaseBlind.

Lemma allChars_ext (p q : ascii -> bool) (s : string) :
  (forall c, p c = true -> q c = true) -> allChars p s = true -> allChars q s = true.
Proof.
  intros H. induction s as [|c s IH]; simpl; [reflexivity|]. intros A.
  apply andb_true_iff in A. destruct A as [A1 A2]. rewrite (H _ A1), (IH A2). reflexivity.
Qed.

Lemma allChars_append (p : ascii -> bool) (a b : string) :
  allChars p (a ++ b) = (allChars p a && allChars p b)%bool.
Proof.
  induction a as [|c a IH]; simpl; [reflexivity|]. rewrite IH. apply andb_assoc.
Qed.

(** A class closed under case matches the same code units with and without
    the i flag. *)
Lemma inClass_caseless (f : flags) (p : ascii -> bool) :
  forallb (fun c => implb (p (toLowerChar c) || p (canonicalize c)) (p c))
    (map ascii_of_nat (List.seq 0 256)) = true ->
  forall c, inClass f false p c = p c.
Proof.
  intros H c. unfold inClass. cbn [xorb].
  pose proof (ascii_all _ H c) as I. cbv beta in I.
  destruct (p c); [reflexivity|]. cbn [orb].
  destruct (p (toLowerChar c) || p (canonicalize c))%bool; [discriminate|].
  apply andb_false_r.
Qed.

End CaseBlind.

(** ** extractRelatedSections *)

Section RelatedSections.

Lemma steps_grp_star_unit (f : flags) (i : nat) (g : bool) (a : regex) (q : ascii -> bool)
    (x y : mstate) :
  unitOf f a = Some q -> steps f (Grp i (Star g a)) x y ->
  exists w, rest x = w ++ rest y /\ pos y = pos x + String.length w /\
            allChars q w = true /\ caps y = (i, w) :: removeCap i (caps x).
Proof.
  intros U H. destruct (steps_grp_text f _ _ _ _ H) as (y0 & w & S0 & R & P & ->).
  destruct (steps_star_unit f _ _ _ _ _ U S0) as (w' & R' & P' & A' & K').
  assert (w = w').
  { apply (append_same_length w w' (rest y0) (rest y0)); [congruence | lia]. }
  subst w'. exists w. cbn [setCap rest pos caps]. rewrite K'. auto.
Qed.

Lemma steps_grp_plus_unit (f : flags) (i : nat) (a : regex) (q : ascii -> bool)
    (x y : mstate) :
  unitOf f a = Some q -> steps f (Grp i (plus a)) x y ->
  exists w, rest x = w ++ rest y /\ pos y = pos x + String.length w /\
            allChars q w = true /\ caps y = (i, w) :: removeCap i (caps x) /\
            w <> EmptyString.
Proof.
  intros U H. destruct (steps_grp_text f _ _ _ _ H) as (y0 & w & S0 & R & P & ->).
  destruct (steps_plus_unit f _ _ _ _ U S0) as (w' & R' & P' & A' & K' & N').
  assert (w = w').
  { apply (append_same_length w w' (rest y0) (rest y0)); [congruence | lia]. }
  subst w'. exists w. cbn [setCap rest pos caps]. rewrite K'. auto.
Qed.

Lemma steps_ch (f : flags) (a : ascii) (x y : mstate) :
  ignoreCase f = false -> steps f (ch a) x y ->
  rest x = String a (rest y) /\ pos y = S (pos x) /\ caps y = caps x.
Proof.
  intros F H. apply steps_chr_inv in H. destruct H as (c & t & R & C & ->).
  rewrite (inClass_plain f F) in C. apply Ascii.eqb_eq in C. subst c.
  cbn [advance rest pos caps]. auto.
Qed.

(** A match of the see-also pattern: the words, the separators, the rest
    of the line (captured) and the line end. *)
Lemma seeAlso_match (x y : mstate) :
  steps fI seeAlsoRe x y ->
  exists sa seps g1 tail,
    rest x = sa ++ seps ++ g1 ++ tail ++ rest y /\
    toLowerCase sa = "see also" /\
    allChars isColonOrSpace seps = true /\
    allChars (fun c => negb (isLineTerminator c)) g1 = true /\
    getCap 1 (caps y) = Some g1.
Proof.
  unfold seeAlsoRe. cbn [seq]. intros H.
  apply steps_seq_inv in H. destruct H as (y1 & H1 & H).
  apply steps_seq_inv in H. destruct H as (y2 & H2 & H).
  apply steps_seq_inv in H. destruct H as (y3 & H3 & H4).
  destruct (steps_lit fI _ _ _ H1) as (sa & R1 & _ & L1 & _).
  destruct (steps_plus_unit fI (cls isColonOrSpace) _ _ _ eq_refl H2) as (seps & R2 & _ & A2 & _).
  destruct (steps_grp_star_unit fI 1 false Dot _ _ _ eq_refl H3) as (g1 & R3 & _ & A3 & K3).
  destruct (steps_consumes fI _ _ _ H4) as (tail & R4 & _).
  exists sa, seps, g1, tail. rewrite R1, R2, R3, R4. repeat split.
  - exact L1.
  - revert A2. apply allChars_ext. intros c.
    rewrite (inClass_caseless fI isColonOrSpace); [auto | vm_compute; reflexivity].
  - revert A3. apply allChars_ext. intros c. unfold dotMatches. simpl. auto.
  - rewrite (steps_keeps fI 1 _ _ _ H4) by (simpl; tauto).
    rewrite K3. simpl. reflexivity.
Qed.

(** A match of the link pattern: a non-empty text without a closing
    bracket, between brackets. *)
Lemma bracket_match (x y : mstate) :
  steps noFlags bracketRe x y ->
  exists inner, rest x = "[" ++ inner ++ "]" ++ rest y /\ inner <> EmptyString /\
                allChars (fun c => negb (Ascii.eqb c "]")) inner = true.
Proof.
  unfold bracketRe. cbn [seq]. intros H.
  apply steps_seq_inv in H. destruct H as (y1 & H1 & H).
  apply steps_seq_inv in H. destruct H as (y2 & H2 & H3).
  destruct (steps_ch noFlags _ _ _ eq_refl H1) as (R1 & _).
  destruct (steps_grp_plus_unit noFlags 1 (ncls (isChar "]")) _ _ _ eq_refl H2) as (w & R2 & _ & A2 & _ & N2).
  destruct (steps_ch noFlags _ _ _ eq_refl H3) as (R3 & _).
  exists w. rewrite R1, R2, R3. repeat split; [exact N2|].
  revert A2. apply allChars_ext. intros c. unfold inClass, isChar. simpl.
  rewrite orb_false_r, Ascii.eqb_sym. auto.
Qed.

Lemma sliceInner_brackets (inner : string) : sliceInner ("[" ++ inner ++ "]") = inner.
Proof.
  unfold sliceInner. cbn [append String.length drop]. rewrite length_append.
  cbn [String.length]. replace (S (String.length inner + 1) - 2) with (String.length inner) by lia.
  destruct (inner ++ "]") eqn:E.
  - destruct inner; discriminate.
  - rewrite <- E. apply take_append.
Qed.

Lemma links_of_line (g1 link : string) :
  In link (matchAll noFlags bracketRe g1) ->
  exists pre inner post,
    g1 = pre ++ "[" ++ inner ++ "]" ++ post /\ link = "[" ++ inner ++ "]" /\
    inner <> EmptyString /\ allChars (fun c => negb (Ascii.eqb c "]")) inner = true.
Proof.
  unfold matchAll, scanAll. intros H. apply in_map_iff in H. destruct H as (mr & <- & H).
  destruct (scan_matchAt_suffix noFlags _ _ _ _ _ _ H) as (pre & s' & i' & pv' & -> & M).
  destruct (matchAt_steps noFlags _ _ _ _ _ M) as (y & w & St & R & _ & ->).
  destruct (bracket_match _ _ St) as (inner & R' & N & A). cbn [rest] in R'.
  exists pre, inner, (rest y). cbn [mtext].
  assert (W : w = "[" ++ inner ++ "]").
  { apply (append_cancel_r _ _ (rest y)). rewrite <- R, R'.
    cbn [append]. rewrite append_assoc. reflexivity. }
  rewrite R'. auto.
Qed.

Lemma addLinks_inv (links : list string) :
  forall related t,
    In t (fold_left (fun related link => setAdd (sliceInner link) related) links related) ->
    In t related \/ exists link, In link links /\ t = sliceInner link.
Proof.
  induction links as [|l r IH]; intros rel t H; simpl in H; [auto|].
  destruct (IH _ _ H) as [H1 | (link & I & E)].
  - apply setAdd_inv in H1. destruct H1 as [-> | H1]; [|auto].
    right. exists l. split; [left; reflexivity | reflexivity].
  - right. exists link. split; [right; exact I | exact E].
Qed.

End RelatedSections.

(** X7: every related section returned is a non-empty text without a
    closing bracket or a line break that stands between brackets in the
    content, on the line that follows the words see also (in any case) and
    their colons and white space. *)
Theorem related_sections_are_links_after_see_also
    (content : string) (section : HIGSection) (related : list string) :
  extractRelatedSections content section = Ok related ->
  forall t, In t related ->
    t <> EmptyString /\
    allChars (fun c => negb (Ascii.eqb c "]") && negb (isLineTerminator c))%bool t = true /\
    exists before sa seps line after,
      content = before ++ sa ++ seps ++ line ++ "[" ++ t ++ "]" ++ after /\
      toLowerCase sa = "see also" /\
      allChars isColonOrSpace seps = true /\
      allChars (fun c => negb (isLineTerminator c)) line = true.
Proof.
  unfold extractRelatedSections. intros H t Hin.
  destruct (exec fI seeAlsoRe content) as [sm|] eqn:E.
  2:{ unfold bind in H. apply Ok_inj in H. subst related. destruct Hin. }
  destruct (exec_parts fI _ _ _ E) as (before & after & i' & pv' & M & C).
  destruct (matchAt_steps fI _ _ _ _ _ M) as (y & w & St & R & _ & Emr).
  destruct (seeAlso_match _ _ St) as (sa & seps & g1 & tail & R1 & L & A1 & A2 & G).
  cbn [rest] in R1.
  assert (G1 : group 1 sm = Some g1) by (rewrite Emr; exact G).
  rewrite G1 in H. cbn [defined] in H. unfold bind in H. apply Ok_inj in H. subst related.
  apply firstn_In_inv in Hin. apply addLinks_inv in Hin.
  destruct Hin as [[] | (link & I & ->)].
  destruct (links_of_line _ _ I) as (pre & inner & post & Eg & -> & N & A).
  rewrite sliceInner_brackets. subst g1.
  rewrite allChars_append in A2. apply andb_true_iff in A2. destruct A2 as [Apre A2].
  cbn [append allChars] in A2. apply andb_true_iff in A2. destruct A2 as [_ A2].
  rewrite allChars_append in A2. apply andb_true_iff in A2. destruct A2 as [Ainner _].
  split; [exact N|]. split.
  { clear - A Ainner. induction inner as [|c s IH]; [reflexivity|].
    simpl in *. apply andb_true_iff in A. destruct A as [A1 A2].
    apply andb_true_iff in Ainner. destruct Ainner as [B1 B2].
    rewrite A1, B1, (IH B2 A2). reflexivity. }
  exists before, sa, seps, pre, (post ++ tail ++ rest y).
  repeat split; try assumption.
  rewrite C, R1, ?append_assoc. cbn [append]. rewrite ?append_assoc. reflexivity.
Qed.

Lemma related_sections_are_links_after_see_also_witness :
  "Menus" <> EmptyString /\
  allChars (fun c => negb (Ascii.eqb c "]") && negb (isLineTerminator c))%bool "Menus" = true /\
  exists before sa seps line after,
    "Intro. See also: [Buttons](/b), [Menus](/m)" =
      before ++ sa ++ seps ++ line ++ "[" ++ "Menus" ++ "]" ++ after /\
    toLowerCase sa = "see also" /\
    allChars isColonOrSpace seps = true /\
    allChars (fun c => negb (isLineTerminator c)) line = true.
Proof.
  apply (related_sections_are_links_after_see_also
           "Intro. See also: [Buttons](/b), [Menus](/m)"
           (Build_HIGSection "b" "Buttons" "/b" "iOS" "controls")
           ["Buttons"; "Menus"]).
  - vm_compute. reflexivity.
  - simpl. auto.
Defined.

(** X8: content without the words see also (in any case) has no related
    sections. *)
Theorem no_see_also_no_related_sections (content : string) (section : HIGSection) :
  includes (toLowerCase content) "see also" = false ->
  extractRelatedSections content section = Ok [].
Proof.
  intros H. unfold extractRelatedSections.
  rewrite (exec_needs fI seeAlsoRe "see also" content); [reflexivity | | exact H].
  apply (needs_lit fI "see also").
Qed.

Lemma no_see_also_no_related_sections_witness :
  extractRelatedSections "Use [buttons](/b) sparingly." (Build_HIGSection "b" "Buttons" "/b" "iOS" "controls")
  = Ok [].
Proof.
  apply no_see_also_no_related_sections. vm_compute. reflexivity.
Defined.

(** ** removeTrailingMetadata *)

Section TrailingMetadata.

Variable f : flags.
Variable r : regex.
Variable P : string -> Prop.

(** Every match runs to the end of the input and has the property [P]. *)
Hypothesis toTheEnd : forall i pv s mr,
  matchAt f r i pv s = Some mr -> mtext mr = s /\ P s.

Lemma render_scan_skipped (s : string) :
  forall i pv, render empty (scan f r i pv s (String.length s)) = EmptyString.
Proof.
  induction s as [|c t IH]; intros i pv; cbn [String.length scan].
  - destruct (matchAt f r i pv EmptyString); reflexivity.
  - apply IH.
Qed.

Lemma render_scan_tail (s : string) :
  forall i pv, exists cut,
    s = render empty (scan f r i pv s 0) ++ cut /\ (cut = EmptyString \/ P cut).
Proof.
  induction s as [|c t IH]; intros i pv; cbn [scan].
  - exists EmptyString. destruct (matchAt f r i pv EmptyString); auto.
  - destruct (matchAt f r i pv (String c t)) as [mr|] eqn:E.
    + destruct (toTheEnd _ _ _ _ E) as (T & HP). rewrite T. cbn [String.length render empty].
      rewrite render_scan_skipped. exists (String c t). auto.
    + destruct (IH (S i) (Some c)) as (cut & E1 & E2).
      exists cut. cbn [render append]. rewrite <- E1. auto.
Qed.

Lemma replaceAll_tail (s : string) :
  exists cut, s = replaceAll f r empty s ++ cut /\ (cut = EmptyString \/ P cut).
Proof. apply render_scan_tail. Qed.

End TrailingMetadata.

Section TrailingSections.

(** The words each pattern of [trailingSections] begins with. *)
Lemma trailing_match (w : string) (b : regex) (i : nat) (pv : option ascii) (s : string)
    (mr : mres) :
  anchoredEnd b = true ->
  matchAt fIS (Seq (lit w) b) i pv s = Some mr ->
  mtext mr = s /\ startsWith (toLowerCase s) (toLowerCase w) = true.
Proof.
  intros A M. split.
  - apply (matchAt_anchoredEnd fIS (Seq (lit w) b) _ _ _ _ eq_refl A M).
  - destruct (matchAt_steps fIS _ _ _ _ _ M) as (y & w0 & St & _).
    apply steps_seq_inv in St. destruct St as (z & St & _).
    destruct (steps_lit fIS _ _ _ St) as (w' & R & _ & L & _). cbn [rest] in R.
    rewrite R, toLowerCase_append, L. apply startsWith_append.
Qed.

Lemma tail_step (w : string) (b : regex) (s : string) :
  anchoredEnd b = true ->
  exists cut, s = replaceAll fIS (Seq (lit w) b) empty s ++ cut /\
              (cut = EmptyString \/ startsWith (toLowerCase cut) (toLowerCase w) = true).
Proof.
  intros A.
  apply (replaceAll_tail fIS (Seq (lit w) b)
           (fun s => startsWith (toLowerCase s) (toLowerCase w) = true)).
  intros i pv s0 mr M. exact (trailing_match _ _ _ _ _ _ A M).
Qed.

Lemma tail_join (ws : list string) (w c1 c2 : string) :
  (c1 = EmptyString \/ startsWith (toLowerCase c1) w = true) ->
  (c2 = EmptyString \/ exists w', In w' ws /\ startsWith (toLowerCase c2) w' = true) ->
  c1 ++ c2 = EmptyString \/
  exists w', In w' (w :: ws) /\ startsWith (toLowerCase (c1 ++ c2)) w' = true.
Proof.
  intros [-> | H1] H2.
  - destruct H2 as [-> | (w' & I & H2)]; [left; reflexivity|].
    right. exists w'. split; [right; exact I | exact H2].
  - right. exists w. split; [left; reflexivity|].
    rewrite toLowerCase_append. apply startsWith_append_r, H1.
Qed.

End TrailingSections.

(** X9: [removeTrailingMetadata] only cuts a tail and trims what is left:
    nothing is taken from the middle of the content, and a tail that is cut
    begins (in any case) with one of the words that open a trailing section. *)
Theorem removeTrailingMetadata_cuts_a_tail (content : string) :
  exists kept cut,
    content = kept ++ cut /\
    removeTrailingMetadata content = trim kept /\
    (cut = EmptyString \/
     exists w, In w ["platform considerations"; "videos"; "change log"; "resource"] /\
               startsWith (toLowerCase cut) w = true).
Proof.
  unfold removeTrailingMetadata, trailingSections. cbn [fold_left seq].
  match goal with
  | |- context [replaceAll fIS (Seq (lit ?w) ?b) empty content] =>
      destruct (tail_step w b content eq_refl) as (c1 & E1 & T1);
      set (s1 := replaceAll fIS (Seq (lit w) b) empty content) in *
  end.
  match goal with
  | |- context [replaceAll fIS (Seq (lit ?w) ?b) empty s1] =>
      destruct (tail_step w b s1 eq_refl) as (c2 & E2 & T2);
      set (s2 := replaceAll fIS (Seq (lit w) b) empty s1) in *
  end.
  match goal with
  | |- context [replaceAll fIS (Seq (lit ?w) ?b) empty s2] =>
      destruct (tail_step w b s2 eq_refl) as (c3 & E3 & T3);
      set (s3 := replaceAll fIS (Seq (lit w) b) empty s2) in *
  end.
  match goal with
  | |- context [replaceAll fIS (Seq (lit ?w) ?b) empty s3] =>
      destruct (tail_step w b s3 eq_refl) as (c4 & E4 & T4);
      set (s4 := replaceAll fIS (Seq (lit w) b) empty s3) in *
  end.
  exists s4, (c4 ++ c3 ++ c2 ++ c1). split; [|split; [reflexivity|]].
  - rewrite E1 at 1. rewrite E2 at 1. rewrite E3 at 1. rewrite E4 at 1.
    rewrite !append_assoc. reflexivity.
  - apply tail_join; [exact T4|]. apply tail_join; [exact T3|].
    apply tail_join; [exact T2|].
    destruct T1 as [-> | T1]; [left; reflexivity|].
    right. exists "resource". split; [left; reflexivity | exact T1].
Qed.

(** X10: content that mentions (in any case) neither a change log, nor
    discoverable design, nor platform considerations loses no section: it is
    only trimmed. *)
Theorem removeTrailingMetadata_trims_plain_content (content : string) :
  includes (toLowerCase content) "change log" = false ->
  includes (toLowerCase content) "discoverable design" = false ->
  includes (toLowerCase content) "platform considerations" = false ->
  removeTrailingMetadata content = trim content.
Proof.
  intros H1 H2 H3. apply removeTrailingMetadata_nomatch.
  intros pattern Hin. unfold trailingSections in Hin. cbn [seq In] in Hin.
  destruct Hin as [<- | [<- | [<- | [<- | []]]]].
  - apply (matchAll_needs fIS _ "change log"); [|exact H1].
    do 5 apply needs_later. apply (needs_lit fIS "change log").
  - apply (matchAll_needs fIS _ "change log"); [|exact H1].
    apply (needs_lit fIS "change log").
  - apply (matchAll_needs fIS _ "discoverable design"); [|exact H2].
    do 2 apply needs_later. apply (needs_lit fIS "discoverable design").
  - apply (matchAll_needs fIS _ "platform considerations"); [|exact H3].
    apply (needs_lit fIS "platform considerations").
Qed.

Lemma removeTrailingMetadata_trims_plain_content_witness :
  removeTrailingMetadata "  Use buttons for actions.  " = trim "  Use buttons for actions.  ".
Proof.
  apply removeTrailingMetadata_trims_plain_content; vm_compute; reflexivity.
Defined.

(** ** detectFallbackContent and calculateQualityMetrics *)

Section QualityBranches.

Local Open Scope float_scope.

Lemma existsb_mono (A : Type) (p q : A -> bool) (l : list A) :
  (forall x, p x = true -> q x = true) -> existsb p l = true -> existsb q l = true.
Proof.
  intros H. induction l as [|a l IH]; simpl; [auto|]. intros E.
  apply orb_true_iff in E. destruct E as [E | E].
  - rewrite (H _ E). reflexivity.
  - rewrite (IH E). apply orb_true_r.
Qed.

(** A short text with an SPA phrase is fallback content. *)
Lemma short_spa_is_fallback (content : string) (originalContent : option string) :
  hasAppleSPAIssues content = true -> String.length content < 200 ->
  detectFallbackContent content originalContent = true.
Proof.
  unfold hasAppleSPAIssues, detectFallbackContent, some. intros S L.
  destruct (Nat.ltb_spec 500 (String.length content)) as [B|_]; [lia|].
  cbn [andb negb]. rewrite andb_true_r.
  destruct (Nat.ltb_spec (String.length content) 200) as [_|B]; [|lia].
  cbn [andb]. apply orb_true_iff. right.
  revert S. apply existsb_mono. intros x ->. reflexivity.
Qed.

End QualityBranches.

(** X11: the score 0.3 of the SPA branch belongs to pages of 200 to 400
    code units: when the metrics are not flagged as fallback and the content
    has an SPA phrase and at most 400 code units, the score is 0.3, the
    confidence 0.4, and the content has at least 200 code units (a shorter
    one is fallback content). *)
Theorem spa_score_is_for_medium_pages (content : string) (originalContent : option string) :
  let q := calculateQualityMetrics content originalContent in
  isFallbackContent q = false ->
  spaBranch content = true ->
  score q = 0.3%float /\ confidence q = 0.4%float /\
  200 <= length q /\ length q <= 400.
Proof.
  unfold calculateQualityMetrics, spaBranch.
  cbn [isFallbackContent score confidence length]. intros F S.
  rewrite F, S. apply andb_true_iff in S. destruct S as [S1 S2].
  split; [vm_compute; reflexivity|]. split; [vm_compute; reflexivity|].
  split.
  - destruct (Nat.lt_ge_cases (String.length content) 200) as [L|L]; [|exact L].
    rewrite (short_spa_is_fallback content originalContent S1 L) in F. discriminate.
  - apply negb_true_iff, Nat.ltb_ge in S2. exact S2.
Qed.

Lemma spa_score_is_for_medium_pages_witness :
  let content :=
    "Current page is Buttons. A button starts an action. People tap it. " ++
    "Use a clear title. Keep the title short. Give each screen one primary " ++
    "button. Put it where people expect it. Test it with real people. " ++
    "Make it large. Done." in
  let q := calculateQualityMetrics content None in
  score q = 0.3%float /\ confidence q = 0.4%float /\
  200 <= length q /\ length q <= 400.
Proof.
  apply spa_score_is_for_medium_pages; vm_compute; reflexivity.
Defined.

(** X12: a fallback verdict on the content alone stands whatever original
    content is supplied: the original can add a detection, never clear one. *)
Theorem original_content_only_adds_detections (content original : string) :
  detectFallbackContent content None = true ->
  detectFallbackContent content (Some original) = true.
Proof.
  unfold detectFallbackContent, some.
  set (cl := toLowerCase content).
  set (ol := match toLowerCase original with EmptyString => cl | _ => toLowerCase original end).
  destruct (Nat.ltb 500 (String.length content) && _)%bool; [discriminate|].
  cbn [negb]. rewrite !andb_true_r. intros H.
  apply orb_true_iff in H. destruct H as [H | H].
  - apply orb_true_iff in H. destruct H as [H | H].
    + apply orb_true_iff; left. apply orb_true_iff; left.
      revert H. apply existsb_mono. intros x E.
      apply orb_true_iff in E. apply orb_true_iff. left. destruct E; assumption.
    + apply orb_true_iff; left. apply orb_true_iff; right.
      apply andb_true_iff in H. destruct H as [H1 H2]. apply andb_true_iff. split.
      * apply orb_true_iff. left. apply orb_true_iff in H1. destruct H1; assumption.
      * repeat (apply orb_true_iff in H2; destruct H2 as [H2 | H2]);
          rewrite H2, ?orb_true_r; reflexivity.
  - apply orb_true_iff; right.
    apply andb_true_iff in H. destruct H as [H1 H2]. rewrite H1. cbn [andb].
    revert H2. apply existsb_mono. intros x E.
    apply orb_true_iff in E. apply orb_true_iff. left. destruct E; assumption.
Qed.

Lemma original_content_only_adds_detections_witness :
  detectFallbackContent "Loading..." (Some "<p>Loading...</p>") = true.
Proof.
  apply original_content_only_adds_detections. vm_compute. reflexivity.
Defined.

(** ** The heading count *)

Section HeadingCount.

Lemma hash_single (x : mstate) (k : cont) :
  m fM (ch "#") x k =
  match rest x with
  | String c t => if isHash c then k (advance c t x) else None
  | EmptyString => None
  end.
Proof.
  unfold ch. cbn [m]. destruct (rest x) as [|c t]; [reflexivity|].
  rewrite (inClass_plain fM eq_refl). reflexivity.
Qed.

Lemma matchAt_heading (i : nat) (pv : option ascii) (s : string) :
  matchAt fM headingRe i pv s =
  if lineStart pv then
    match fst (spanRun isHash s) with
    | EmptyString => None
    | w => Some (MRes i w [])
    end
  else None.
Proof.
  rewrite <- (matchAt_plus_run fM (ch "#") isHash hash_single eq_refl i pv s).
  unfold matchAt, headingRe. cbn [m]. unfold atBol. cbn [prev multiline fM andb].
  destruct pv as [c|]; cbn [lineStart]; [|reflexivity].
  destruct (isLineTerminator c); reflexivity.
Qed.

Lemma scan_headings (s : string) :
  forall i pv skip,
    (0 < skip -> pv = Some "#"%char) ->
    allChars isHash (take skip s) = true -> skip <= String.length s ->
    List.length (matchesOf (scan fM headingRe i pv s skip)) = countHeadings s (lineStart pv).
Proof.
  induction s as [|c t IH]; intros i pv skip P A L.
  - cbn [String.length] in L. assert (skip = 0) by lia. subst skip.
    cbn [scan]. rewrite matchAt_heading. cbn [spanRun fst].
    destruct (lineStart pv); reflexivity.
  - destruct skip as [|k].
    + cbn [scan]. rewrite matchAt_heading. cbn [spanRun countHeadings].
      destruct (lineStart pv); cbn [andb].
      * unfold isHash at 1, isChar. rewrite (Ascii.eqb_sym c "#").
        destruct (Ascii.eqb_spec "#"%char c) as [<-|ne].
        -- destruct (spanRun_spec isHash t) as (E & A' & _).
           destruct (spanRun isHash t) as [w r]. cbn [fst snd] in *.
           cbn [matchesOf List.length mtext String.length].
           rewrite (IH (S i) (Some "#"%char) (String.length w)).
           ++ reflexivity.
           ++ reflexivity.
           ++ rewrite E, take_append. exact A'.
           ++ rewrite E, length_append. lia.
        -- cbn [fst matchesOf]. rewrite (IH (S i) (Some c) 0); [reflexivity | lia | | lia].
           destruct t; reflexivity.
      * cbn [matchesOf]. rewrite (IH (S i) (Some c) 0); [reflexivity | lia | | lia].
        destruct t; reflexivity.
    + rewrite (P ltac:(lia)). cbn [scan lineStart countHeadings].
      cbn [take allChars] in A. apply andb_true_iff in A. destruct A as [A1 A2].
      unfold isHash, isChar in A1. apply Ascii.eqb_eq in A1. subst c.
      cbn [String.length] in L.
      rewrite (IH (S i) (Some "#"%char) k); [reflexivity | reflexivity | exact A2 | lia].
Qed.

End HeadingCount.

(** X13: on content of code units below 256, whose line breaks are the
    line feed and the carriage return, [headingCount] is the number of lines
    that begin with a number sign, a line being what follows the start of
    the content or a line break; a run of number signs counts once.  (The
    pattern also begins a line after U+2028 and U+2029, code units that the
    strings of this development do not hold.) *)
Theorem headingCount_counts_heading_lines (content : string) (originalContent : option string) :
  headingCount (calculateQualityMetrics content originalContent) = countHeadings content true.
Proof.
  unfold calculateQualityMetrics. cbn [headingCount].
  unfold countMatches, matchAll, scanAll. rewrite length_map.
  apply (scan_headings content 0 None 0); [lia | destruct content; reflexivity | lia].
Qed.

(** ** extractKeywords *)

Section KeywordsFromContent.

Lemma lower_single (x : mstate) (k : cont) :
  m noFlags (cls isLower) x k =
  match rest x with
  | String c t => if isLower c then k (advance c t x) else None
  | EmptyString => None
  end.
Proof.
  unfold cls. cbn [m]. destruct (rest x) as [|c t]; [reflexivity|].
  rewrite (inClass_plain noFlags eq_refl). reflexivity.
Qed.

Lemma isLower_isWordChar (c : ascii) : isLower c = true -> isWordChar c = true.
Proof. unfold isWordChar, isLetter. intros ->. reflexivity. Qed.

Lemma lastOr_lower (w : string) :
  forall c, allChars isLower (String c w) = true -> isWordOpt (lastOr (Some c) w) = true.
Proof.
  induction w as [|d w IH]; intros c A; simpl in A; apply andb_true_iff in A;
    destruct A as [A1 A2].
  - apply isLower_isWordChar, A1.
  - cbn [lastOr]. apply IH, A2.
Qed.

Lemma lastOr_append (pv : option ascii) (a b : string) :
  lastOr pv (a ++ b) = lastOr (lastOr pv a) b.
Proof. revert pv. induction a as [|c a IH]; intros pv; [reflexivity | apply IH]. Qed.

(** A whole word is matched where it stands. *)
Lemma matchAt_word (word post : string) (i : nat) (pv : option ascii) :
  allChars isLower word = true -> 3 <= String.length word ->
  isWordOpt pv = false -> isWordOpt (firstChar post) = false ->
  matchAt noFlags wordRe i pv (word ++ post) = Some (MRes i word []).
Proof.
  intros A L B1 B2. unfold matchAt, wordRe. cbn [seq m].
  destruct word as [|c w]; [simpl in L; lia|].
  assert (Ac := A). simpl in Ac. apply andb_true_iff in Ac. destruct Ac as [Qc _].
  unfold atWordB at 1, peek. cbn [prev rest append]. rewrite B1.
  cbn [isWordOpt]. rewrite (isLower_isWordChar _ Qc). cbn [xorb].
  change (String c (w ++ post)) with (String c w ++ post).
  assert (E : endsRun isLower post).
  { destruct post as [|d t]; [exact I|]. simpl in *.
    destruct (isLower d) eqn:Qd; [|reflexivity].
    rewrite (isLower_isWordChar _ Qd) in B2. discriminate. }
  assert (K : (fun y : mstate => if atWordB y then Some y else None)
                (MState (i + String.length (String c w)) (lastOr pv (String c w)) post [])
              = Some (MState (i + String.length (String c w)) (lastOr pv (String c w)) post [])).
  { cbv beta. unfold atWordB, peek. cbn [prev rest lastOr].
    rewrite (lastOr_lower _ _ A).
    replace (isWordOpt match post with EmptyString => None | String c0 _ => Some c0 end)
      with false by (destruct post; auto).
    reflexivity. }
  rewrite (m_atLeast_run noFlags (cls isLower) isLower lower_single eq_refl
             (fun y => if atWordB y then Some y else None) 3 (String c w) post i pv []
             A E L) by (rewrite K; discriminate).
  rewrite K. cbn [pos caps].
  replace (i + String.length (String c w) - i) with (String.length (String c w)) by lia.
  rewrite take_append. reflexivity.
Qed.

(** A run of lower-case letters stops before a unit that is not of a word. *)
Lemma lower_prefix_short (w r pre s : string) :
  allChars isLower w = true -> w ++ r = pre ++ s ->
  pre <> EmptyString -> isWordOpt (lastOr None pre) = false ->
  String.length w < String.length pre.
Proof.
  revert w. induction pre as [|c p IH]; intros w A E ne B; [contradiction|].
  destruct w as [|d w]; [simpl; lia|].
  simpl in E. injection E as -> E.
  simpl in A. apply andb_true_iff in A. destruct A as [Qc A].
  destruct p as [|c2 p].
  - simpl in B. rewrite (isLower_isWordChar _ Qc) in B. discriminate.
  - cbn [lastOr] in B. simpl.
    assert (String.length w < String.length (String c2 p)); [|simpl in *; lia].
    apply (IH w A E); [discriminate | exact B].
Qed.

Lemma lastOr_cons_nonempty (pv : option ascii) (c : ascii) (p : string) :
  lastOr pv (String c p) = lastOr None (String c p).
Proof. reflexivity. Qed.

(** The scan reaches a whole word and matches it. *)
Lemma scan_finds_word (word post : string) :
  allChars isLower word = true -> 3 <= String.length word ->
  isWordOpt (firstChar post) = false ->
  forall pre i pv skip,
    isWordOpt (lastOr pv pre) = false ->
    (skip = 0 \/ skip < String.length pre) ->
    In (MRes (i + String.length pre) word [])
       (matchesOf (scan noFlags wordRe i pv (pre ++ word ++ post) skip)).
Proof.
  intros A L B2.
  induction pre as [|c p IH]; intros i pv skip B1 Sk.
  - assert (skip = 0) by (simpl in Sk; lia). subst skip.
    cbn [append String.length lastOr] in *. rewrite Nat.add_0_r.
    destruct (word ++ post) as [|d t] eqn:E.
    { destruct word; [simpl in L; lia | discriminate]. }
    cbn [scan]. rewrite <- E, (matchAt_word word post i pv A L B1 B2).
    left. reflexivity.
  - cbn [append String.length]. rewrite Nat.add_succ_r.
    destruct skip as [|k].
    + cbn [scan].
      destruct (matchAt noFlags wordRe i pv (String c (p ++ word ++ post))) as [mr|] eqn:M.
      * cbn [matchesOf]. right.
        destruct (matchAt_steps noFlags _ _ _ _ _ M) as (y & w & St & R & _ & ->).
        destruct (steps_wordRe _ _ St) as (w' & R' & P' & A' & L'). cbn [rest pos] in *.
        assert (w = w').
        { apply (append_same_length w w' (rest y) (rest y)); [congruence|].
          apply (f_equal String.length) in R, R'. rewrite !length_append in *. lia. }
        subst w'. cbn [mtext].
        assert (Sh : String.length w < String.length (String c p)).
        { apply (lower_prefix_short w (rest y) (String c p) (word ++ post) A').
          - rewrite <- R. reflexivity.
          - discriminate.
          - exact B1. }
        destruct (String.length w) as [|k] eqn:Lw; [lia|].
        apply (IH (S i) (Some c) k); [exact B1 | simpl in Sh; lia].
      * cbn [matchesOf]. apply (IH (S i) (Some c) 0); [exact B1 | left; reflexivity].
    + cbn [scan]. apply (IH (S i) (Some c) k); [exact B1 | simpl in Sk; lia].
Qed.

Lemma addTerms_keeps (words : list string) (y : string) :
  forall keywords, In y keywords -> In y (addTerms words keywords).
Proof.
  intros kw H. destruct (addTerms_extends words kw) as (t & ->).
  apply in_or_app. left. exact H.
Qed.

Lemma addTerms_In (words : list string) (y : string) :
  forall keywords, In y words -> arrayIncludes appleDesignTerms y = true ->
                   In y (addTerms words keywords).
Proof.
  induction words as [|w r IH]; intros kw H T; [contradiction|].
  rewrite addTerms_cons. destruct H as [-> | H].
  - rewrite T. apply addTerms_keeps, setAdd_In.
  - apply IH; assumption.
Qed.

Lemma firstn_In_or_full (n : nat) (x : string) (l : list string) :
  In x l -> In x (firstn n l) \/ List.length (firstn n l) = n.
Proof.
  intros H. destruct (Nat.le_gt_cases (List.length l) n) as [Le | Gt].
  - left. rewrite firstn_all2 by exact Le. exact H.
  - right. apply firstn_length_le. lia.
Qed.

End KeywordsFromContent.

(** X14: no word of the vocabulary is missed: a term of [appleDesignTerms]
    made of at least three lower-case letters that stands in the lower-cased
    content as a whole word (no letter, digit or underscore on either side)
    is among the keywords, unless the limit of 20 keywords is reached. *)
Theorem vocabulary_words_become_keywords
    (content : string) (section : HIGSection) (pre word post : string) :
  toLowerCase content = pre ++ word ++ post ->
  isWordOpt (lastOr None pre) = false ->
  isWordOpt (firstChar post) = false ->
  In word appleDesignTerms ->
  allChars isLower word = true -> 3 <= String.length word ->
  In word (extractKeywords content section) \/
  List.length (extractKeywords content section) = 20.
Proof.
  intros E B1 B2 T A L. rewrite extractKeywords_unfold.
  apply firstn_In_or_full, addTerms_In.
  - unfold matchAll, scanAll. rewrite E.
    apply in_map_iff. exists (MRes (0 + String.length pre) word []).
    split; [reflexivity|].
    apply (scan_finds_word word post A L B2 pre 0 None 0 B1). left; reflexivity.
  - unfold arrayIncludes. apply existsb_eqb_In. exact T.
Qed.

Lemma vocabulary_words_become_keywords_witness :
  In "icons" (extractKeywords "Use clear Icons, always."
                (Build_HIGSection "i" "Icons" "/i" "iOS" "foundations")) \/
  List.length (extractKeywords "Use clear Icons, always."
                 (Build_HIGSection "i" "Icons" "/i" "iOS" "foundations")) = 20.
Proof.
  apply (vocabulary_words_become_keywords "Use clear Icons, always."
           (Build_HIGSection "i" "Icons" "/i" "iOS" "foundations")
           "use clear " "icons" ", always.").
  - vm_compute. reflexivity.
  - vm_compute. reflexivity.
  - vm_compute. reflexivity.
  - apply (proj1 (existsb_eqb_In _ _)). vm_compute. reflexivity.
  - vm_compute. reflexivity.
  - vm_compute. lia.
Defined.

(** X15: the keywords begin with the lower-cased title, platform and
    category of the section (each once, in this order); the words found in
    the content come after them. *)
Theorem keywords_begin_with_the_section (content : string) (section : HIGSection) :
  exists fromContent,
    extractKeywords content section = (seeds section ++ fromContent)%list /\
    (exists others, seeds section = toLowerCase (title section) :: others).
Proof.
  rewrite extractKeywords_unfold.
  destruct (addTerms_extends (matchAll noFlags wordRe (toLowerCase content)) (seeds section))
    as (t & ->).
  pose proof (seeds_length section) as L.
  rewrite firstn_app, (firstn_all2 _ L).
  eexists. split; [reflexivity|].
  unfold seeds.
  destruct (setAdd_extends (toLowerCase (category section))
              (setAdd (toLowerCase (platform section))
                 (setAdd (toLowerCase (title section)) []))) as (t2 & ->).
  destruct (setAdd_extends (toLowerCase (platform section))
              (setAdd (toLowerCase (title section)) [])) as (t1 & ->).
  cbn [setAdd existsb app]. eexists. reflexivity.
Qed.

(** ** Replacements that keep the text *)

Section SquashFacts.

Lemma squash_append (a b : string) : squash (a ++ b) = squash a ++ squash b.
Proof.
  induction a as [|c a IH]; [reflexivity|]. cbn [append squash].
  destruct (Ascii.eqb c " "); [exact IH | rewrite IH; reflexivity].
Qed.

Lemma toLowerChar_space (c : ascii) : Ascii.eqb (toLowerChar c) " " = Ascii.eqb c " ".
Proof.
  assert (H : Bool.eqb (Ascii.eqb (toLowerChar c) " ") (Ascii.eqb c " ") = true).
  { revert c.
    apply (ascii_all (fun c => Bool.eqb (Ascii.eqb (toLowerChar c) " ") (Ascii.eqb c " "))).
    vm_compute. reflexivity. }
  apply eqb_prop in H. exact H.
Qed.

Lemma squash_toLowerCase (s : string) : squash (toLowerCase s) = squash s.
Proof.
  unfold toLowerCase. induction s as [|c s IH]; [reflexivity|].
  cbn [smap squash]. rewrite toLowerChar_space, toLowerChar_idempotent, IH. reflexivity.
Qed.

(** Texts equal up to case are equal up to case and spaces. *)
Lemma squash_caseless (a b : string) : toLowerCase a = toLowerCase b -> squash a = squash b.
Proof.
  intros H. rewrite <- (squash_toLowerCase a), <- (squash_toLowerCase b), H. reflexivity.
Qed.

Lemma drop_0 (s : string) : drop 0 s = s.
Proof. destruct s; reflexivity. Qed.

End SquashFacts.

Section SquashReplace.

Variable f : flags.
Variable r : regex.

Section Pure.

Variable rep : mres -> string.

Hypothesis keeps : forall i pv s mr,
  matchAt f r i pv s = Some mr -> squash (rep mr) = squash (mtext mr).

Lemma render_scan_squash (s : string) :
  forall i pv skip,
    squash (render rep (scan f r i pv s skip)) = squash (drop skip s).
Proof.
  induction s as [|c t IH]; intros i pv skip.
  - destruct skip; cbn [scan drop]; [|reflexivity].
    destruct (matchAt f r i pv EmptyString) as [mr|] eqn:E; [|reflexivity].
    cbn [render]. rewrite append_nil_r, (keeps _ _ _ _ E).
    destruct (matchAt_prefix f r _ _ _ _ E) as (after & P).
    destruct (mtext mr); [reflexivity | discriminate].
  - destruct skip as [|k]; cbn [scan drop]; [|apply IH].
    destruct (matchAt f r i pv (String c t)) as [mr|] eqn:E.
    + cbn [render]. rewrite squash_append, (keeps _ _ _ _ E).
      destruct (matchAt_prefix f r _ _ _ _ E) as (after & P).
      destruct (mtext mr) as [|d w] eqn:W.
      * cbn [String.length render squash append].
        rewrite (IH (S i) (Some c) 0), drop_0. reflexivity.
      * cbn [String.length]. rewrite (IH (S i) (Some c) (String.length w)).
        cbn [append] in P. injection P as -> ->.
        rewrite drop_append.
        change (String d (w ++ after)) with (String d w ++ after).
        rewrite squash_append. reflexivity.
    + cbn [render squash]. rewrite (IH (S i) (Some c) 0), drop_0. reflexivity.
Qed.

Lemma replaceAll_squash (s : string) : squash (replaceAll f r rep s) = squash s.
Proof.
  unfold replaceAll, scanAll. rewrite render_scan_squash. rewrite drop_0. reflexivity.
Qed.

End Pure.

Section Callback.

Variable rep : mres -> result string.

Hypothesis keeps : forall i pv s mr,
  matchAt f r i pv s = Some mr ->
  exists v, rep mr = Ok v /\ squash v = squash (mtext mr).

Lemma renderM_scan_squash (s : string) :
  forall i pv skip, exists out,
    renderM rep (scan f r i pv s skip) = Ok out /\ squash out = squash (drop skip s).
Proof.
  induction s as [|c t IH]; intros i pv skip.
  - destruct skip; cbn [scan drop]; [|exists EmptyString; auto].
    destruct (matchAt f r i pv EmptyString) as [mr|] eqn:E; [|exists EmptyString; auto].
    destruct (keeps _ _ _ _ E) as (v & R & K).
    exists v. cbn [renderM bind]. rewrite R. cbn [bind]. rewrite append_nil_r.
    split; [reflexivity|]. rewrite K.
    destruct (matchAt_prefix f r _ _ _ _ E) as (after & P).
    destruct (mtext mr); [reflexivity | discriminate].
  - destruct skip as [|k]; cbn [scan drop]; [|apply IH].
    destruct (matchAt f r i pv (String c t)) as [mr|] eqn:E.
    + destruct (keeps _ _ _ _ E) as (v & R & K).
      destruct (matchAt_prefix f r _ _ _ _ E) as (after & P).
      cbn [renderM]. rewrite R. cbn [bind].
      destruct (mtext mr) as [|d w] eqn:W.
      * cbn [String.length renderM].
        destruct (IH (S i) (Some c) 0) as (out & -> & S0). cbn [bind].
        exists (v ++ String c out). split; [reflexivity|].
        rewrite squash_append, K. cbn [squash append]. rewrite S0, drop_0. reflexivity.
      * cbn [String.length].
        destruct (IH (S i) (Some c) (String.length w)) as (out & -> & S0). cbn [bind].
        exists (v ++ out). split; [reflexivity|].
        rewrite squash_append, K, S0.
        cbn [append] in P. injection P as -> ->.
        rewrite drop_append.
        change (String d (w ++ after)) with (String d w ++ after).
        rewrite squash_append. reflexivity.
    + cbn [renderM]. destruct (IH (S i) (Some c) 0) as (out & -> & S0). cbn [bind].
      exists (String c out). split; [reflexivity|].
      cbn [squash]. rewrite S0, drop_0. reflexivity.
Qed.

Lemma replaceAllM_squash (s : string) :
  exists out, replaceAllM f r rep s = Ok out /\ squash out = squash s.
Proof.
  unfold replaceAllM, scanAll. destruct (renderM_scan_squash s 0 None 0) as (out & E & S0).
  exists out. rewrite drop_0 in S0. auto.
Qed.

End Callback.

End SquashReplace.

(** ** fixWordConcatenation *)

Section Concatenations.

Lemma steps_grp_unit (f : flags) (i : nat) (a : regex) (q : ascii -> bool) (x y : mstate) :
  unitOf f a = Some q -> steps f (Grp i a) x y ->
  exists c, rest x = String c (rest y) /\ q c = true /\ pos y = S (pos x) /\
            caps y = (i, String c EmptyString) :: removeCap i (caps x).
Proof.
  intros U H. destruct (steps_grp_text f _ _ _ _ H) as (y0 & w & S0 & R & P & ->).
  destruct (steps_unit f _ _ _ _ U S0) as (c & t & R' & Q & ->).
  cbn [advance setCap rest pos caps] in *.
  assert (w = String c EmptyString).
  { apply (append_same_length w (String c EmptyString) t t);
      [rewrite <- R, R'; reflexivity | simpl; lia]. }
  subst w. exists c. auto.
Qed.

Lemma steps_atLeast_unit (f : flags) (a : regex) (q : ascii -> bool) (n : nat) :
  unitOf f a = Some q ->
  forall x y, steps f (atLeast n a) x y ->
  exists w, rest x = w ++ rest y /\ pos y = pos x + String.length w /\
            allChars q w = true /\ n <= String.length w /\ caps y = caps x.
Proof.
  intros U. induction n as [|n IH]; intros x y H; cbn [atLeast] in H.
  - destruct (steps_star_unit f _ _ _ _ _ U H) as (w & R & P & A & K).
    exists w. repeat split; auto; lia.
  - apply steps_seq_inv in H. destruct H as (z & H1 & H2).
    destruct (steps_unit f _ _ _ _ U H1) as (c & t & R & Q & ->).
    destruct (IH _ _ H2) as (w & R2 & P2 & A2 & L2 & K2).
    cbn [advance rest pos caps] in *.
    exists (String c w). simpl. rewrite R, R2, Q, A2. repeat split; [lia | lia | exact K2].
Qed.

(** [$1 sep $2] for two groups of one code unit each, side by side. *)
Lemma pair_match (a b : regex) (qa qb : ascii -> bool) (sep : string)
    (i : nat) (pv : option ascii) (s : string) (mr : mres) :
  unitOf noFlags a = Some qa -> unitOf noFlags b = Some qb ->
  squash sep = EmptyString ->
  matchAt noFlags (Seq (Grp 1 a) (Grp 2 b)) i pv s = Some mr ->
  squash (between12 sep mr) = squash (mtext mr).
Proof.
  intros Ua Ub Sep M.
  destruct (matchAt_steps noFlags _ _ _ _ _ M) as (y & w & St & R & _ & ->).
  apply steps_seq_inv in St. destruct St as (y1 & S1 & S2).
  destruct (steps_grp_unit noFlags 1 a qa _ _ Ua S1) as (c1 & R1 & _ & _ & K1).
  destruct (steps_grp_unit noFlags 2 b qb _ _ Ub S2) as (c2 & R2 & _ & _ & K2).
  cbn [rest caps] in *.
  assert (W : w = String c1 (String c2 EmptyString)).
  { apply (append_cancel_r _ _ (rest y)). rewrite <- R, R1, R2. reflexivity. }
  unfold between12, groupOrEmpty, group. cbn [mcaps mtext].
  rewrite K2, K1, W. cbn [removeCap getCap Nat.eqb].
  change (String c1 (String c2 EmptyString))
    with (String c1 EmptyString ++ String c2 EmptyString).
  rewrite !squash_append, Sep. reflexivity.
Qed.

(** [$1 sep $2] for two groups of one code unit with the unit [d] between. *)
Lemma triple_match (a b : regex) (qa qb : ascii -> bool) (d : ascii) (sep : string)
    (i : nat) (pv : option ascii) (s : string) (mr : mres) :
  unitOf noFlags a = Some qa -> unitOf noFlags b = Some qb ->
  squash sep = squash (String d EmptyString) ->
  matchAt noFlags (Seq (Grp 1 a) (Seq (ch d) (Grp 2 b))) i pv s = Some mr ->
  squash (between12 sep mr) = squash (mtext mr).
Proof.
  intros Ua Ub Sep M.
  destruct (matchAt_steps noFlags _ _ _ _ _ M) as (y & w & St & R & _ & ->).
  apply steps_seq_inv in St. destruct St as (y1 & S1 & St).
  apply steps_seq_inv in St. destruct St as (y2 & S2 & S3).
  destruct (steps_grp_unit noFlags 1 a qa _ _ Ua S1) as (c1 & R1 & _ & _ & K1).
  destruct (steps_ch noFlags d _ _ eq_refl S2) as (R2 & _ & K2).
  destruct (steps_grp_unit noFlags 2 b qb _ _ Ub S3) as (c2 & R3 & _ & _ & K3).
  cbn [rest caps] in *.
  assert (W : w = String c1 (String d (String c2 EmptyString))).
  { apply (append_cancel_r _ _ (rest y)). rewrite <- R, R1, R2, R3. reflexivity. }
  unfold between12, groupOrEmpty, group. cbn [mcaps mtext].
  rewrite K3, K2, K1, W. cbn [removeCap getCap Nat.eqb].
  change (String c1 (String d (String c2 EmptyString)))
    with (String c1 EmptyString ++ String d EmptyString ++ String c2 EmptyString).
  rewrite !squash_append, Sep. reflexivity.
Qed.

(** A term after a lower-case word: the word is captured and the term
    follows it, in any case. *)
Lemma prefixed_match (tns : string) (i : nat) (pv : option ascii) (s : string) (mr : mres) :
  matchAt fI (prefixedTermRe tns) i pv s = Some mr ->
  exists pfx w', group 1 mr = Some pfx /\ mtext mr = pfx ++ w' /\
                 toLowerCase w' = toLowerCase tns.
Proof.
  intros M.
  destruct (matchAt_steps fI _ _ _ _ _ M) as (y & w & St & R & _ & ->).
  apply steps_seq_inv in St. destruct St as (y1 & S1 & S2).
  destruct (steps_grp_text fI _ _ _ _ S1) as (y0 & w1 & _ & R1 & _ & ->).
  destruct (steps_lit fI _ _ _ S2) as (w' & R2 & _ & L & K).
  cbn [rest caps setCap] in *.
  exists w1, w'. unfold group. cbn [mcaps mtext]. rewrite K.
  cbn [getCap Nat.eqb]. repeat split; [|exact L].
  apply (append_cancel_r _ _ (rest y)). rewrite <- R, R1, R2, append_assoc. reflexivity.
Qed.

Lemma letters_in_line (p : ascii -> bool) :
  forallb (fun c => implb (inClass fI false p c) (negb (isLineTerminator c)))
    (map ascii_of_nat (List.seq 0 256)) = true ->
  forall c, inClass fI false p c = true -> negb (isLineTerminator c) = true.
Proof.
  intros H c. pose proof (ascii_all _ H c) as E. cbv beta in E.
  destruct (inClass fI false p c); [intros _; exact E | discriminate].
Qed.

(** A term before a capitalised word: the term, in any case, then at least
    three letters. *)
Lemma suffixed_match (tns : string) (i : nat) (pv : option ascii) (s : string) (mr : mres) :
  matchAt fI (suffixedTermRe tns) i pv s = Some mr ->
  exists w' g, mtext mr = w' ++ g /\ toLowerCase w' = toLowerCase tns /\
               allChars (fun c => negb (isLineTerminator c)) g = true /\
               3 <= String.length g.
Proof.
  intros M.
  destruct (matchAt_steps fI _ _ _ _ _ M) as (y & w & St & R & _ & ->).
  apply steps_seq_inv in St. destruct St as (y1 & S1 & S2).
  destruct (steps_lit fI _ _ _ S1) as (w' & R1 & _ & L & _).
  destruct (steps_grp_text fI _ _ _ _ S2) as (y0 & g & S3 & R2 & P2 & ->).
  apply steps_seq_inv in S3. destruct S3 as (y2 & S3 & S4).
  destruct (steps_unit fI (cls isUpper) _ _ _ eq_refl S3) as (c & t & R3 & Q3 & ->).
  destruct (steps_atLeast_unit fI (cls isLower) _ 2 eq_refl _ _ S4)
    as (w2 & R4 & P4 & A4 & L4 & _).
  cbn [rest pos caps setCap advance] in *.
  assert (G : g = String c w2).
  { apply (append_same_length g (String c w2) (rest y0) (rest y0)).
    - rewrite <- R2, R3, R4. reflexivity.
    - simpl. lia. }
  exists w', g. cbn [mtext]. repeat split.
  - apply (append_cancel_r _ _ (rest y0)). rewrite <- R, R1, R2, append_assoc. reflexivity.
  - exact L.
  - rewrite G. cbn [allChars].
    rewrite (letters_in_line isUpper ltac:(vm_compute; reflexivity) c Q3). cbn [andb].
    revert A4. apply allChars_ext. apply letters_in_line. vm_compute. reflexivity.
  - rewrite G. simpl. lia.
Qed.

Lemma inClass_isChar_fI (a c : ascii) :
  toLowerChar c = toLowerChar a -> inClass fI false (isChar a) c = true.
Proof.
  assert (H : forallb (fun a => forallb (fun c =>
                implb (Ascii.eqb (toLowerChar c) (toLowerChar a))
                      (inClass fI false (isChar a) c))
                (map ascii_of_nat (List.seq 0 256)))
              (map ascii_of_nat (List.seq 0 256)) = true) by (vm_compute; reflexivity).
  pose proof (ascii_all _ H a) as Ha. cbv beta in Ha.
  pose proof (ascii_all _ Ha c) as Hc. cbv beta in Hc.
  intros E. rewrite E, Ascii.eqb_refl in Hc. exact Hc.
Qed.

(** Under the i flag a literal matches every text equal to it up to case. *)
Lemma m_lit_fI (w : string) :
  forall w' r i pv cs k,
    toLowerCase w' = toLowerCase w ->
    m fI (lit w) (MState i pv (w' ++ r) cs) k =
    k (MState (i + String.length w') (lastOr pv w') r cs).
Proof.
  induction w as [|a t IH]; intros w' r i pv cs k E.
  - destruct w'; [|discriminate]. cbn. rewrite Nat.add_0_r. reflexivity.
  - destruct w' as [|c t']; [discriminate|].
    unfold toLowerCase in E. cbn [smap] in E. injection E as Ec Et.
    pose proof (inClass_isChar_fI a c Ec) as C.
    destruct t as [|b t2].
    + destruct t'; [|discriminate].
      cbn [lit ch m rest append]. rewrite C. unfold advance.
      cbn [pos caps String.length lastOr]. rewrite Nat.add_1_r. reflexivity.
    + change (lit (String a (String b t2))) with (Seq (ch a) (lit (String b t2))).
      cbn [m ch rest append]. rewrite C. unfold advance. cbn [pos caps].
      rewrite (IH t' r (S i) (Some c) cs k Et).
      cbn [String.length lastOr]. rewrite Nat.add_succ_r. reflexivity.
Qed.

Lemma dot_single (f : flags) (x : mstate) (k : cont) :
  m f Dot x k =
  match rest x with
  | String c t => if dotMatches f c then k (advance c t x) else None
  | EmptyString => None
  end.
Proof. reflexivity. Qed.

Lemma take_all (g : string) : take (String.length g) g = g.
Proof. rewrite <- (append_nil_r g) at 2. apply take_append. Qed.

Lemma search_head (f : flags) (r : regex) (i : nat) (pv : option ascii) (s : string)
    (mr : mres) :
  matchAt f r i pv s = Some mr ->
  search f r i pv s = Some (EmptyString, mr, drop (String.length (mtext mr)) s).
Proof. intros H. destruct s; cbn [search]; rewrite H; reflexivity. Qed.

(** The second look at a match: the term is found at its start and the rest
    of the match is captured. *)
Lemma exec_termSuffix (tns w' g : string) :
  toLowerCase w' = toLowerCase tns ->
  allChars (fun c => negb (isLineTerminator c)) g = true -> 1 <= String.length g ->
  exists sm, exec fI (termSuffixRe tns) (w' ++ g) = Some sm /\ group 1 sm = Some g.
Proof.
  intros L A N.
  assert (M : matchAt fI (termSuffixRe tns) 0 None (w' ++ g) =
              Some (MRes 0 (w' ++ g) [(1, g)])).
  { unfold matchAt, termSuffixRe. cbn [m].
    rewrite (m_lit_fI tns w' g 0 None [] _ L). cbn [pos rest].
    change (plus Dot) with (atLeast 1 Dot).
    rewrite (m_atLeast_all fI Dot (dotMatches fI) (dot_single fI) eq_refl _ 1 g
               (0 + String.length w') (lastOr None w') []);
      [| | exact N | discriminate].
    2:{ revert A. apply allChars_ext. intros c H. unfold dotMatches. rewrite H.
        apply orb_true_r. }
    cbn [setCap pos caps removeCap].
    replace (0 + String.length w' + String.length g - (0 + String.length w'))
      with (String.length g) by lia.
    replace (0 + String.length w' + String.length g - 0)
      with (String.length (w' ++ g)) by (rewrite length_append; lia).
    rewrite !take_all. reflexivity. }
  unfold exec. rewrite (search_head _ _ _ _ _ _ M).
  eexists. split; reflexivity.
Qed.

Lemma fixTerm_squash (fixed term : string) :
  squash (replaceAll noFlags (plus ws) empty term) = squash term ->
  exists out, fixTerm fixed term = Ok out /\ squash out = squash fixed.
Proof.
  intros T. unfold fixTerm.
  set (tns := replaceAll noFlags (plus ws) empty term) in *.
  match goal with
  | |- context [replaceAllM fI (prefixedTermRe tns) ?rep fixed] =>
      destruct (replaceAllM_squash fI (prefixedTermRe tns) rep) with (s := fixed)
        as (out1 & -> & S1)
  end.
  { intros i pv s mr M.
    destruct (prefixed_match _ _ _ _ _ M) as (pfx & w' & -> & E & L). cbn [defined bind].
    destruct (Nat.ltb (String.length pfx) 3); eexists; (split; [reflexivity|]);
      [reflexivity|].
    rewrite E, !squash_append. cbn [squash Ascii.eqb]. cbn [append].
    rewrite (squash_caseless _ _ L), T. reflexivity. }
  cbn [bind].
  match goal with
  | |- context [replaceAllM fI (suffixedTermRe tns) ?rep out1] =>
      destruct (replaceAllM_squash fI (suffixedTermRe tns) rep) with (s := out1)
        as (out2 & -> & S2)
  end.
  { intros i pv s mr M.
    destruct (suffixed_match _ _ _ _ _ M) as (w' & g & E & L & A & N).
    destruct (exec_termSuffix tns w' g L A ltac:(lia)) as (sm & X & G).
    rewrite E, X, G. cbn [defined bind].
    destruct (Nat.ltb_spec 2 (String.length g)) as [_|B]; [|lia].
    eexists. split; [reflexivity|].
    rewrite !squash_append. cbn [squash Ascii.eqb]. cbn [append].
    rewrite (squash_caseless _ _ L), T. reflexivity. }
  exists out2. split; [reflexivity | congruence].
Qed.

Lemma fixTerms_squash (terms : list string) :
  (forall term, In term terms ->
     squash (replaceAll noFlags (plus ws) empty term) = squash term) ->
  forall fixed, exists out, fixTerms fixed terms = Ok out /\ squash out = squash fixed.
Proof.
  induction terms as [|t r IH]; intros H fixed; cbn [fixTerms].
  - exists fixed. auto.
  - destruct (fixTerm_squash fixed t (H t (or_introl eq_refl))) as (o1 & -> & S1).
    cbn [bind].
    destruct (IH (fun term Hin => H term (or_intror Hin)) o1) as (o2 & -> & S2).
    exists o2. split; [reflexivity | congruence].
Qed.

Lemma higTerms_spaced (term : string) :
  In term higTerms -> squash (replaceAll noFlags (plus ws) empty term) = squash term.
Proof.
  intros H. unfold higTerms in H. cbn [In] in H.
  repeat (destruct H as [<- | H]; [vm_compute; reflexivity|]). contradiction.
Qed.

End Concatenations.


(** ** The lines of the front matter *)

Section FrontMatterLines.

Lemma noNL_append (a b : string) : noNL (a ++ b) = (noNL a && noNL b)%bool.
Proof. apply allChars_append. Qed.

Lemma noNL_take (n : nat) (s : string) : noNL s = true -> noNL (take n s) = true.
Proof.
  unfold noNL. revert n. induction s as [|c s IH]; intros [|n] H; try reflexivity.
  simpl in *. apply andb_true_iff in H. destruct H as [H1 H2]. rewrite H1, (IH n H2).
  reflexivity.
Qed.

Lemma noNL_drop (n : nat) (s : string) : noNL s = true -> noNL (drop n s) = true.
Proof.
  unfold noNL. revert n. induction s as [|c s IH]; intros [|n] H; try exact H.
  simpl in *. apply andb_true_iff in H. destruct H as [_ H2]. exact (IH n H2).
Qed.

Lemma noNL_repeat (s : string) (n : nat) : noNL s = true -> noNL (JS.repeat s n) = true.
Proof.
  intros H. induction n as [|n IH]; [reflexivity|].
  cbn [JS.repeat]. rewrite noNL_append, H, IH. reflexivity.
Qed.

Lemma digit_noNL (n : Z) : negb (Ascii.eqb (digit (Z.modulo n 10)) NL) = true.
Proof.
  pose proof (Z.mod_pos_bound n 10 ltac:(lia)) as B.
  assert (E : exists k, Z.modulo n 10 = Z.of_nat k /\ k < 10).
  { exists (Z.to_nat (Z.modulo n 10)). lia. }
  destruct E as (k & -> & Lk).
  do 10 (destruct k as [|k]; [reflexivity|]). lia.
Qed.

Lemma digitsAux_noNL (fuel : nat) :
  forall n acc, noNL acc = true -> noNL (digitsAux fuel n acc) = true.
Proof.
  induction fuel as [|fuel IH]; intros n acc H; [exact H|].
  cbn [digitsAux].
  assert (H' : noNL (String (digit (Z.modulo n 10)) acc) = true).
  { unfold noNL in *. cbn [allChars]. rewrite digit_noNL, H. reflexivity. }
  destruct (Z.ltb n 10); [exact H' | apply IH, H'].
Qed.

Lemma digits_noNL (n : Z) : noNL (digits n) = true.
Proof. apply digitsAux_noNL. reflexivity. Qed.

Lemma pad_noNL (w : nat) (n : Z) : noNL (pad w n) = true.
Proof.
  unfold pad. rewrite noNL_append, digits_noNL, noNL_repeat; reflexivity.
Qed.

Ltac lines :=
  repeat first
    [ rewrite noNL_append
    | rewrite pad_noNL
    | rewrite digits_noNL
    | rewrite noNL_repeat by reflexivity
    | rewrite noNL_take by apply pad_noNL
    | rewrite noNL_drop by apply pad_noNL ];
  try reflexivity.

Lemma formatDigits_noNL (k : nat) (sd n : Z) : noNL (formatDigits k sd n) = true.
Proof.
  unfold formatDigits.
  destruct (_ && _)%bool; [lines|].
  destruct (_ && _)%bool; [lines|].
  destruct (_ && _)%bool; [lines|].
  destruct (Nat.eqb k 1); destruct (Z.ltb (n - 1) 0); lines.
Qed.

Lemma numberToString_noNL (x : float) : noNL (numberToString x) = true.
Proof.
  unfold numberToString.
  destruct (PrimFloat.is_nan x); [reflexivity|].
  destruct (PrimFloat.is_zero x); [reflexivity|].
  destruct (PrimFloat.is_infinity x); [destruct (PrimFloat.get_sign x); reflexivity|].
  destruct (toFraction (PrimFloat.abs x)) as [fx|]; [|reflexivity].
  destruct (shortest 20 1 (decimalExponent fx) (PrimFloat.abs x) fx) as [[k sd] n].
  rewrite noNL_append, formatDigits_noNL.
  destruct (PrimFloat.ltb x 0); reflexivity.
Qed.

Lemma toISOString_noNL (tv : Z) : noNL (toISOString tv) = true.
Proof.
  unfold toISOString. cbv zeta.
  repeat match goal with
         | |- context [if ?b then _ else _] => destruct b
         end; lines.
Qed.

Lemma jsonEscape_noNL (c : ascii) : noNL (jsonEscape c) = true.
Proof. revert c. apply ascii_all. vm_compute. reflexivity. Qed.

Lemma jsonEscapeAll_noNL (s : string) : noNL (jsonEscapeAll s) = true.
Proof.
  induction s as [|c s IH]; [reflexivity|].
  cbn [jsonEscapeAll]. rewrite noNL_append, jsonEscape_noNL, IH. reflexivity.
Qed.

Lemma jsonStringify_noNL (l : list string) : noNL (jsonStringify l) = true.
Proof.
  unfold jsonStringify.
  assert (J : noNL (join "," (map jsonString l)) = true).
  { induction l as [|x l IH]; [reflexivity|].
    assert (X : noNL (jsonString x) = true).
    { unfold jsonString, noNL. cbn [allChars].
      change (allChars (fun c => negb (Ascii.eqb c NL))) with noNL.
      rewrite noNL_append, jsonEscapeAll_noNL. reflexivity. }
    destruct l as [|y l]; [exact X|].
    change (join "," (map jsonString (x :: y :: l)))
      with (jsonString x ++ "," ++ join "," (map jsonString (y :: l))).
    rewrite !noNL_append, X, IH. reflexivity. }
  rewrite !noNL_append, J. reflexivity.
Qed.

End FrontMatterLines.

(** X17: when the title, platform, category and URL of the section hold no
    line feed, the front matter is fifteen lines: the opening line of three
    dashes, the eleven fields in their order, each on its own line, the closing
    dashes and two empty lines; no quality value, timestamp or keyword can
    break a line. *)
Theorem frontMatter_lines
    (now : Z) (section : HIGSection) (quality : ContentQualityMetrics)
    (keywords : list string) :
  noNL (title section) = true -> noNL (platform section) = true ->
  noNL (category section) = true -> noNL (url section) = true ->
  splitLines (generateFrontMatter now section quality keywords) =
  [ "---";
    "title: " ++ title section;
    "platform: " ++ platform section;
    "category: " ++ category section;
    "url: " ++ url section;
    "quality_score: " ++ numberToString (mathRound (score quality * 100) / 100)%float;
    "content_length: " ++ natToString (length quality);
    "last_updated: " ++ toISOString now;
    "keywords: " ++ jsonStringify keywords;
    "has_code_examples: " ++ boolToString (PrimFloat.ltb 0 (codeExamplesCount quality));
    "has_images: " ++ boolToString (Nat.ltb 0 (imageReferencesCount quality));
    "is_fallback: " ++ boolToString (isFallbackContent quality);
    "---"; ""; "" ].
Proof.
  intros T P C U.
  match goal with |- _ = ?l => rewrite <- (splitLines_join l) end.
  - f_equal. unfold generateFrontMatter. cbn [map fst snd join nl].
    rewrite ?append_assoc. cbn [append]. rewrite ?append_assoc. reflexivity.
  - discriminate.
  - intros x Hx. cbn [In] in Hx.
    destruct Hx as [<- | [<- | [<- | [<- | [<- | [<- | [<- | [<- | Hx]]]]]]]];
      [ reflexivity
      | rewrite noNL_append, T; reflexivity
      | rewrite noNL_append, P; reflexivity
      | rewrite noNL_append, C; reflexivity
      | rewrite noNL_append, U; reflexivity
      | rewrite noNL_append, numberToString_noNL; reflexivity
      | rewrite noNL_append; unfold natToString; rewrite digits_noNL; reflexivity
      | rewrite noNL_append, toISOString_noNL; reflexivity
      | ].
    destruct Hx as [<- | [<- | [<- | [<- | [<- | [<- | [<- | []]]]]]]];
      [ rewrite noNL_append, jsonStringify_noNL; reflexivity
      | destruct (PrimFloat.ltb 0 (codeExamplesCount quality)); reflexivity
      | destruct (Nat.ltb 0 (imageReferencesCount quality)); reflexivity
      | destruct (isFallbackContent quality); reflexivity
      | reflexivity | reflexivity | reflexivity ].
Qed.

Lemma frontMatter_lines_witness :
  List.length
    (splitLines
       (generateFrontMatter 0 (Build_HIGSection "b" "Buttons" "/b" "iOS" "controls")
          (calculateQualityMetrics "Use buttons." None) ["buttons"; "ios"])) = 15.
Proof.
  rewrite (frontMatter_lines 0 (Build_HIGSection "b" "Buttons" "/b" "iOS" "controls")
             (calculateQualityMetrics "Use buttons." None) ["buttons"; "ios"]);
    [cbn [List.length]; reflexivity | | | |]; vm_compute; reflexivity.
Defined.

(** ** removeAppleSPAMetadata *)

Section Erasing.

Lemma Erased_refl (s : string) : Erased s s.
Proof. induction s; constructor; assumption. Qed.

Lemma Erased_trans (a b c : string) : Erased a b -> Erased b c -> Erased a c.
Proof.
  intros H1 H2. revert a H1. induction H2; intros a H1.
  - exact H1.
  - inversion H1; subst; constructor; auto.
  - constructor. auto.
Qed.

Lemma Erased_nil (s : string) : Erased EmptyString s.
Proof. induction s; constructor; assumption. Qed.

Lemma Erased_drop (n : nat) (out s : string) : Erased out (drop n s) -> Erased out s.
Proof.
  revert n. induction s as [|c s IH]; intros [|n] H; try exact H.
  constructor. exact (IH n H).
Qed.

(** Replacing every match by the empty string only takes code units out. *)
Lemma render_scan_erased (f : flags) (r : regex) (s : string) :
  forall i pv skip, Erased (render empty (scan f r i pv s skip)) s.
Proof.
  induction s as [|c t IH]; intros i pv skip.
  - destruct skip; cbn [scan]; [|constructor].
    destruct (matchAt f r i pv EmptyString); constructor.
  - destruct skip as [|k]; cbn [scan]; [|constructor; apply IH].
    destruct (matchAt f r i pv (String c t)) as [mr|].
    + cbn [render empty append].
      destruct (String.length (mtext mr)); [|constructor; apply IH].
      cbn [render]. constructor. apply IH.
    + cbn [render]. constructor. apply IH.
Qed.

Lemma replaceAll_erased (f : flags) (r : regex) (s : string) :
  Erased (replaceAll f r empty s) s.
Proof. apply render_scan_erased. Qed.

End Erasing.

(** X18: [removeAppleSPAMetadata] only takes text out: its result is the
    content with some code units removed, the others in their order; nothing
    is added or rewritten. *)
Theorem removeAppleSPAMetadata_only_erases (content : string) :
  Erased (removeAppleSPAMetadata content) content.
Proof.
  unfold removeAppleSPAMetadata.
  eapply Erased_trans; [apply replaceAll_erased|].
  eapply Erased_trans; [apply replaceAll_erased|].
  apply replaceAll_erased.
Qed.

(** X19: content that mentions (in any case) neither platform
    considerations, nor the current page, nor supported platforms passes
    [removeAppleSPAMetadata] unchanged. *)
Theorem removeAppleSPAMetadata_keeps_plain_content (content : string) :
  includes (toLowerCase content) "platform considerations" = false ->
  includes (toLowerCase content) "current page is " = false ->
  includes (toLowerCase content) "supported platforms" = false ->
  removeAppleSPAMetadata content = content.
Proof.
  intros H1 H2 H3. apply removeAppleSPAMetadata_nomatch.
  - apply (matchAll_needs fI _ "platform considerations"); [|exact H1].
    apply (needs_lit fI "platform considerations").
  - apply (matchAll_needs fI _ "current page is "); [|exact H2].
    apply (needs_lit fI "current page is ").
  - apply (matchAll_needs fI _ "supported platforms"); [|exact H3].
    apply (needs_lit fI "supported platforms").
Qed.

Lemma removeAppleSPAMetadata_keeps_plain_content_witness :
  removeAppleSPAMetadata "Buttons start actions. Supported on every platform."
  = "Buttons start actions. Supported on every platform.".
Proof.
  apply removeAppleSPAMetadata_keeps_plain_content; vm_compute; reflexivity.
Defined.

(** ** The rule smartWhitespace *)

Section SmartWhitespace.

Lemma blank_single (x : mstate) (k : cont) :
  m noFlags blank x k =
  match rest x with
  | String c t => if isBlank c then k (advance c t x) else None
  | EmptyString => None
  end.
Proof.
  unfold blank, cls. cbn [m]. destruct (rest x) as [|c t]; [reflexivity|].
  rewrite (inClass_plain noFlags eq_refl). reflexivity.
Qed.

Lemma nl_single (x : mstate) (k : cont) :
  m noFlags (ch NL) x k =
  match rest x with
  | String c t => if Ascii.eqb c NL then k (advance c t x) else None
  | EmptyString => None
  end.
Proof.
  unfold ch. cbn [m]. destruct (rest x) as [|c t]; [reflexivity|].
  rewrite (inClass_plain noFlags eq_refl). unfold isChar. rewrite Ascii.eqb_sym. reflexivity.
Qed.

Lemma blank_not_NL (c : ascii) : isBlank c = true -> Ascii.eqb c NL = false.
Proof.
  intros H. destruct (Ascii.eqb_spec c NL) as [->|]; [discriminate H | reflexivity].
Qed.

(** *** The blanks after a line feed *)

Lemma dropAfterNL_run (w r : string) :
  allChars isBlank w = true -> endsRun isBlank r ->
  dropAfterNL true (w ++ r) = dropAfterNL false r.
Proof.
  induction w as [|c w IH]; intros A R.
  - destruct r as [|c t]; [reflexivity|]. simpl in R. cbn [append dropAfterNL].
    rewrite R. reflexivity.
  - simpl in A. apply andb_true_iff in A. destruct A as [Qc A].
    cbn [append dropAfterNL]. rewrite Qc. apply IH; assumption.
Qed.

Lemma matchAt_nl_blanks (i : nat) (pv : option ascii) (c : ascii) (t : string) :
  matchAt noFlags (Seq (ch NL) (plus blank)) i pv (String c t) =
  if Ascii.eqb c NL then
    match fst (spanRun isBlank t) with
    | EmptyString => None
    | w => Some (MRes i (String c w) [])
    end
  else None.
Proof.
  unfold matchAt. cbn [m]. rewrite nl_single. cbn [rest].
  destruct (Ascii.eqb c NL); [|reflexivity].
  unfold advance. cbn [pos caps].
  destruct (spanRun_spec isBlank t) as (E & A & R).
  destruct (spanRun isBlank t) as [w r]. cbn [fst snd] in *. subst t.
  destruct w as [|d w].
  - cbn [append]. rewrite (m_plus_none noFlags blank isBlank blank_single); [reflexivity|].
    exact R.
  - change (plus blank) with (atLeast 1 blank).
    rewrite (m_atLeast_run noFlags blank isBlank blank_single eq_refl (fun y => Some y) 1
               (String d w) r (S i) (Some c) [] A R);
      [|simpl; lia | discriminate].
    cbn [pos caps].
    replace (S i + String.length (String d w) - i) with (S (String.length (String d w)))
      by lia.
    cbn [take]. rewrite take_append. reflexivity.
Qed.

Lemma render_nl_blanks (s : string) :
  forall i pv skip,
    render (fun _ => nl) (scan noFlags (Seq (ch NL) (plus blank)) i pv s skip) =
    dropAfterNL false (drop skip s).
Proof.
  induction s as [|c t IH]; intros i pv skip.
  - destruct skip; reflexivity.
  - destruct skip as [|k]; cbn [scan drop]; [|apply IH].
    rewrite matchAt_nl_blanks. cbn [dropAfterNL andb].
    destruct (Ascii.eqb c NL) eqn:C.
    + destruct (spanRun_spec isBlank t) as (E & A & R).
      destruct (spanRun isBlank t) as [w r]. cbn [fst snd] in *.
      destruct w as [|d w].
      * cbn [render]. rewrite IH, drop_0. f_equal.
        rewrite E. symmetry. apply (dropAfterNL_run EmptyString r); [reflexivity | exact R].
      * cbn [render mtext String.length]. rewrite IH.
        apply Ascii.eqb_eq in C. subst c. cbn [nl append]. f_equal.
        rewrite E at 1 2. change (S (String.length w)) with (String.length (String d w)).
        rewrite drop_append. symmetry. apply dropAfterNL_run; assumption.
    + cbn [render]. rewrite IH, drop_0. reflexivity.
Qed.

(** *** The blanks before a line feed *)

Lemma blanksThenNL_run (w r : string) :
  allChars isBlank w = true -> blanksThenNL (w ++ r) = blanksThenNL r.
Proof.
  induction w as [|c w IH]; intros A; [reflexivity|].
  simpl in A. apply andb_true_iff in A. destruct A as [Qc A].
  cbn [append blanksThenNL]. rewrite Qc. apply IH, A.
Qed.

Lemma dropBeforeNL_run (w r : string) :
  allChars isBlank w = true ->
  dropBeforeNL (w ++ String NL r) = String NL (dropBeforeNL r).
Proof.
  induction w as [|c w IH]; intros A; [reflexivity|].
  simpl in A. apply andb_true_iff in A. destruct A as [Qc A].
  cbn [append dropBeforeNL]. rewrite Qc, (blanksThenNL_run w _ A).
  cbn [blanksThenNL andb]. rewrite Ascii.eqb_refl.
  replace (isBlank NL) with false by reflexivity. apply IH, A.
Qed.

Lemma nl_fails_on_blank (y : mstate) (c : ascii) (t : string) :
  rest y = String c t -> isBlank c = true -> m noFlags (ch NL) y (fun z => Some z) = None.
Proof. intros R Q. rewrite nl_single, R, (blank_not_NL _ Q). reflexivity. Qed.

Lemma matchAt_blanks_nl (i : nat) (pv : option ascii) (s : string) :
  matchAt noFlags (Seq (plus blank) (ch NL)) i pv s =
  match spanRun isBlank s with
  | (String c w, String d r) =>
      if Ascii.eqb d NL then Some (MRes i (String c w ++ String d EmptyString) []) else None
  | _ => None
  end.
Proof.
  unfold matchAt. cbn [m].
  destruct (spanRun_spec isBlank s) as (E & A & R).
  destruct (spanRun isBlank s) as [w r]. cbn [fst snd] in *. subst s.
  destruct w as [|c w].
  - cbn [append]. rewrite (m_plus_none noFlags blank isBlank blank_single); [reflexivity|].
    exact R.
  - simpl in A. apply andb_true_iff in A. destruct A as [Qc A]. cbn [append].
    rewrite (m_plus_strict noFlags blank isBlank blank_single eq_refl _ nl_fails_on_blank
               c w r i pv [] Qc A R).
    rewrite nl_single. cbn [rest].
    destruct r as [|d r]; [reflexivity|].
    destruct (Ascii.eqb d NL); [|reflexivity].
    unfold advance. cbn [pos caps].
    replace (S (i + S (String.length w)) - i)
      with (String.length (String c w ++ String d EmptyString))
      by (rewrite length_append; cbn [String.length]; lia).
    change (String c (w ++ String d r)) with (String c w ++ String d r).
    replace (String c w ++ String d r) with ((String c w ++ String d EmptyString) ++ r)
      by (rewrite append_assoc; reflexivity).
    rewrite take_append. reflexivity.
Qed.

Lemma render_blanks_nl (s : string) :
  forall i pv skip,
    render (fun _ => nl) (scan noFlags (Seq (plus blank) (ch NL)) i pv s skip) =
    dropBeforeNL (drop skip s).
Proof.
  induction s as [|c t IH]; intros i pv skip.
  - destruct skip; reflexivity.
  - destruct skip as [|k]; cbn [scan drop]; [|apply IH].
    rewrite matchAt_blanks_nl. cbn [spanRun dropBeforeNL].
    destruct (spanRun_spec isBlank t) as (E & A & R).
    destruct (spanRun isBlank t) as [w r]. cbn [fst snd] in *. subst t.
    rewrite (blanksThenNL_run w r A).
    destruct (isBlank c) eqn:Qc; cbn [andb].
    + destruct r as [|d r].
      * cbn [render blanksThenNL]. rewrite IH, drop_0. reflexivity.
      * simpl in R. cbn [blanksThenNL]. rewrite R.
        destruct (Ascii.eqb d NL) eqn:D.
        -- cbn [render mtext]. rewrite length_append. cbn [String.length].
           replace (S (String.length w) + 1) with (S (S (String.length w))) by lia.
           rewrite IH. apply Ascii.eqb_eq in D. subst d. cbn [nl append].
           rewrite (dropBeforeNL_run w r A). f_equal.
           replace (w ++ String NL r) with ((w ++ String NL EmptyString) ++ r)
             by (rewrite append_assoc; reflexivity).
           replace (S (String.length w)) with (String.length (w ++ String NL EmptyString))
             by (rewrite length_append; cbn [String.length]; lia).
           rewrite drop_append. reflexivity.
        -- cbn [render]. rewrite IH, drop_0. reflexivity.
    + cbn [render]. rewrite IH, drop_0. reflexivity.
Qed.

(** The rule as three passes over the code units. *)
Lemma smartWhitespace_passes (content : string) :
  smartWhitespace content =
  dropBeforeNL (dropAfterNL false (collapseRuns isBlank content false)).
Proof.
  unfold smartWhitespace.
  rewrite (replaceAll_plus noFlags blank isBlank blank_single eq_refl).
  unfold replaceAll, scanAll. rewrite render_blanks_nl, render_nl_blanks, !drop_0.
  reflexivity.
Qed.

(** *** What the passes leave *)

Lemma spaced_collapseRuns (q : ascii -> bool) (s : string) :
  q " "%char = true -> forall b, spaced q b (collapseRuns q s b) = true.
Proof.
  intros Q. induction s as [|c t IH]; intros b; [reflexivity|].
  cbn [collapseRuns]. destruct (q c) eqn:Qc.
  - destruct b; [apply IH|]. cbn [spaced]. rewrite Q, IH. reflexivity.
  - cbn [spaced]. rewrite Qc. apply IH.
Qed.

Lemma spaced_weaken (q : ascii -> bool) (s : string) :
  spaced q true s = true -> spaced q false s = true.
Proof.
  destruct s as [|c t]; [reflexivity|]. cbn [spaced].
  destruct (q c); [|auto]. rewrite andb_false_r. discriminate.
Qed.

Lemma spaced_dropAfterNL (s : string) :
  forall a b, spaced isBlank b s = true -> spaced isBlank b (dropAfterNL a s) = true.
Proof.
  induction s as [|c t IH]; intros a b H; [reflexivity|].
  cbn [dropAfterNL]. cbn [spaced] in H.
  destruct (isBlank c) eqn:Qc.
  - apply andb_true_iff in H. destruct H as [H H3].
    apply andb_true_iff in H. destruct H as [H1 H2].
    destruct b; [discriminate|].
    destruct a; cbn [andb].
    + apply IH, spaced_weaken, H3.
    + cbn [spaced]. rewrite Qc, H1, (IH _ _ H3). reflexivity.
  - rewrite andb_false_r. cbn [spaced]. rewrite Qc. apply IH, H.
Qed.

Lemma spaced_dropBeforeNL (s : string) :
  forall b, spaced isBlank b s = true -> spaced isBlank b (dropBeforeNL s) = true.
Proof.
  induction s as [|c t IH]; intros b H; [reflexivity|].
  cbn [dropBeforeNL]. cbn [spaced] in H.
  destruct (isBlank c) eqn:Qc.
  - apply andb_true_iff in H. destruct H as [H H3].
    apply andb_true_iff in H. destruct H as [H1 H2].
    destruct b; [discriminate|].
    destruct (blanksThenNL t); cbn [andb].
    + apply IH, spaced_weaken, H3.
    + cbn [spaced]. rewrite Qc, H1, (IH _ H3). reflexivity.
  - cbn [andb spaced]. rewrite Qc. apply IH, H.
Qed.

Lemma spaced_no_double (s : string) :
  forall b, spaced isBlank b s = true -> includes s "  " = false.
Proof.
  induction s as [|c t IH]; intros b H; [reflexivity|].
  rewrite includes_unfold. cbn [spaced] in H. destruct (isBlank c) eqn:Q.
  - apply andb_true_iff in H. destruct H as [H H3].
    rewrite (IH _ H3), orb_false_r.
    cbn [startsWith]. destruct t as [|d u]; [apply andb_false_r|].
    cbn [spaced] in H3. cbn [startsWith].
    destruct (Ascii.eqb " " d) eqn:D.
    + apply Ascii.eqb_eq in D. subst d. discriminate.
    + simpl. apply andb_false_r.
  - rewrite (IH _ H), orb_false_r. cbn [startsWith].
    destruct (Ascii.eqb " " c) eqn:D; [|reflexivity].
    apply Ascii.eqb_eq in D. subst c. discriminate.
Qed.

Lemma spaced_no_tab (s : string) :
  forall b, spaced isBlank b s = true ->
            allChars (fun c => negb (Ascii.eqb c TAB)) s = true.
Proof.
  induction s as [|c t IH]; intros b H; [reflexivity|].
  cbn [spaced allChars] in *. destruct (isBlank c) eqn:Q.
  - apply andb_true_iff in H. destruct H as [H H3].
    apply andb_true_iff in H. destruct H as [H1 _].
    apply Ascii.eqb_eq in H1. subst c. rewrite (IH _ H3). reflexivity.
  - rewrite (IH _ H), andb_true_r.
    destruct (Ascii.eqb_spec c TAB) as [->|]; [discriminate Q | reflexivity].
Qed.

Lemma noBlankAfterNL_dropAfterNL (s : string) :
  forall a, noBlankAfterNL a (dropAfterNL a s) = true.
Proof.
  induction s as [|c t IH]; intros a; [reflexivity|].
  cbn [dropAfterNL]. destruct (a && isBlank c)%bool eqn:D.
  - apply andb_true_iff in D. destruct D as [-> _]. apply IH.
  - cbn [noBlankAfterNL]. rewrite D, IH. reflexivity.
Qed.

Lemma noBlankAfterNL_dropBeforeNL (s : string) :
  forall a, noBlankAfterNL a s = true -> noBlankAfterNL a (dropBeforeNL s) = true.
Proof.
  induction s as [|c t IH]; intros a H; [reflexivity|].
  cbn [dropBeforeNL]. cbn [noBlankAfterNL] in H.
  apply andb_true_iff in H. destruct H as [H1 H2].
  destruct (isBlank c && blanksThenNL t)%bool eqn:D.
  - apply andb_true_iff in D. destruct D as [Qc _].
    rewrite Qc, andb_true_r in H1. apply negb_true_iff in H1. subst a.
    rewrite (blank_not_NL _ Qc) in H2. apply IH, H2.
  - cbn [noBlankAfterNL]. rewrite H1, (IH _ H2). reflexivity.
Qed.

Lemma dropBeforeNL_head (t : string) :
  match dropBeforeNL t with String d _ => Ascii.eqb d NL | EmptyString => false end
  = blanksThenNL t.
Proof.
  induction t as [|c t IH]; [reflexivity|].
  cbn [dropBeforeNL blanksThenNL]. destruct (isBlank c) eqn:Qc; cbn [andb].
  - destruct (blanksThenNL t); [exact IH|]. apply blank_not_NL, Qc.
  - reflexivity.
Qed.

Lemma noBlankBeforeNL_dropBeforeNL (s : string) : noBlankBeforeNL (dropBeforeNL s) = true.
Proof.
  induction s as [|c t IH]; [reflexivity|].
  cbn [dropBeforeNL]. destruct (isBlank c && blanksThenNL t)%bool eqn:D; [exact IH|].
  cbn [noBlankBeforeNL]. rewrite dropBeforeNL_head, D, IH. reflexivity.
Qed.

Lemma noBlankAfterNL_includes (s : string) :
  forall a, noBlankAfterNL a s = true -> includes s (nl ++ " ") = false.
Proof.
  induction s as [|c t IH]; intros a H; [reflexivity|].
  rewrite includes_unfold. cbn [noBlankAfterNL] in H.
  apply andb_true_iff in H. destruct H as [_ H2].
  rewrite (IH _ H2), orb_false_r. cbn [nl append startsWith].
  destruct (Ascii.eqb_spec NL c) as [<-|]; [|reflexivity]. cbn [andb].
  destruct t as [|d u]; [reflexivity|]. cbn [noBlankAfterNL] in H2.
  rewrite Ascii.eqb_refl in H2. cbn [andb] in H2.
  apply andb_true_iff in H2. destruct H2 as [H2 _]. apply negb_true_iff in H2.
  cbn [startsWith]. destruct (Ascii.eqb_spec " "%char d) as [<-|]; [discriminate H2|].
  reflexivity.
Qed.

Lemma noBlankBeforeNL_includes (s : string) :
  noBlankBeforeNL s = true -> includes s (" " ++ nl) = false.
Proof.
  induction s as [|c t IH]; intros H; [reflexivity|].
  rewrite includes_unfold. cbn [noBlankBeforeNL] in H.
  apply andb_true_iff in H. destruct H as [H1 H2].
  rewrite (IH H2), orb_false_r. cbn [nl append startsWith].
  destruct (Ascii.eqb_spec " "%char c) as [<-|]; [|reflexivity]. cbn [andb].
  destruct t as [|d u]; [reflexivity|]. unfold nl. cbn [startsWith].
  replace (isBlank " ") with true in H1 by reflexivity. cbn [andb] in H1.
  apply negb_true_iff in H1. rewrite Ascii.eqb_sym, H1. reflexivity.
Qed.

End SmartWhitespace.

(** X20: whatever the text, the rule [smartWhitespace] returns a text
    without tab, without two spaces in a row, and without a space next to a
    line feed, on either side. *)
Theorem smartWhitespace_tidy (content : string) :
  allChars (fun c => negb (Ascii.eqb c TAB)) (smartWhitespace content) = true /\
  includes (smartWhitespace content) "  " = false /\
  includes (smartWhitespace content) (nl ++ " ") = false /\
  includes (smartWhitespace content) (" " ++ nl) = false.
Proof.
  rewrite smartWhitespace_passes.
  set (s1 := collapseRuns isBlank content false).
  assert (S1 : spaced isBlank false s1 = true) by (apply spaced_collapseRuns; reflexivity).
  assert (S3 : spaced isBlank false (dropBeforeNL (dropAfterNL false s1)) = true)
    by (apply spaced_dropBeforeNL, spaced_dropAfterNL, S1).
  split; [exact (spaced_no_tab _ _ S3)|].
  split; [exact (spaced_no_double _ _ S3)|].
  split.
  - apply (noBlankAfterNL_includes _ false), noBlankAfterNL_dropBeforeNL,
      noBlankAfterNL_dropAfterNL.
  - apply noBlankBeforeNL_includes, noBlankBeforeNL_dropBeforeNL.
Qed.

(** ** Code units that no stage brings in *)

Section Preserved.

Variable p : ascii -> bool.

Lemma allChars_take (n : nat) (s : string) : allChars p s = true -> allChars p (take n s) = true.
Proof.
  revert n. induction s as [|c s IH]; intros [|n] H; try reflexivity.
  simpl in *. apply andb_true_iff in H. destruct H as [H1 H2]. rewrite H1, (IH n H2).
  reflexivity.
Qed.

Lemma Erased_allChars (out s : string) :
  Erased out s -> allChars p s = true -> allChars p out = true.
Proof.
  induction 1 as [|c out s _ IH|c out s _ IH]; intros H; [reflexivity| |];
    simpl in *; apply andb_true_iff in H; destruct H as [H1 H2].
  - rewrite H1, (IH H2). reflexivity.
  - exact (IH H2).
Qed.

Lemma getCap_removeCap_same (i : nat) (l : list (nat * string)) :
  getCap i (removeCap i l) = None.
Proof.
  induction l as [|[k s] l IH]; simpl; [reflexivity|].
  destruct (Nat.eqb_spec i k) as [->|ne]; [exact IH|].
  simpl. destruct (Nat.eqb_spec i k); [contradiction | exact IH].
Qed.

Lemma capsAll_removeCap (j : nat) (l : list (nat * string)) :
  capsAll p l -> capsAll p (removeCap j l).
Proof.
  intros H i g E. destruct (Nat.eq_dec i j) as [->|ne].
  - rewrite getCap_removeCap_same in E. discriminate.
  - rewrite getCap_removeCap_neq in E by exact ne. exact (H _ _ E).
Qed.

Lemma capsAll_clear (gs : list nat) (l : list (nat * string)) :
  capsAll p l -> capsAll p (fold_right removeCap l gs).
Proof.
  intros H. induction gs as [|j gs IH]; [exact H|]. simpl. apply capsAll_removeCap, IH.
Qed.

Lemma capsAll_set (i : nat) (w : string) (l : list (nat * string)) :
  allChars p w = true -> capsAll p l -> capsAll p ((i, w) :: removeCap i l).
Proof.
  intros W H j g E. simpl in E. destruct (Nat.eqb j i).
  - injection E as <-. exact W.
  - exact (capsAll_removeCap i l H _ _ E).
Qed.

Lemma capsAll_nil : capsAll p [].
Proof. intros i g E. discriminate. Qed.

(** A match reads the input only: what is left of the input and what the
    groups capture have the code units of the input. *)
Lemma steps_allChars (f : flags) (r : regex) (x y : mstate) :
  steps f r x y -> allChars p (rest x) = true -> capsAll p (caps x) ->
  allChars p (rest y) = true /\ capsAll p (caps y).
Proof.
  induction 1 as [ x | inv q x c t R C | x c t R C | a b x y z _ IH1 _ IH2
                 | a b x y _ IH | a b x y _ IH | g a x | g a x y z _ IH1 ne _ IH2
                 | i a x y _ IH | x | x | x | a x ]; intros A K; auto.
  - rewrite R in A. simpl in A. apply andb_true_iff in A. destruct A as [_ A]. auto.
  - rewrite R in A. simpl in A. apply andb_true_iff in A. destruct A as [_ A]. auto.
  - destruct (IH1 A K) as (A1 & K1). exact (IH2 A1 K1).
  - destruct (IH1 A (capsAll_clear _ _ K)) as (A1 & K1). exact (IH2 A1 K1).
  - destruct (IH A K) as (A1 & K1). split; [exact A1|].
    cbn [setCap caps]. apply capsAll_set; [apply allChars_take, A | exact K1].
Qed.

Lemma matchAt_allChars (f : flags) (r : regex) (i : nat) (pv : option ascii) (s : string)
    (mr : mres) :
  matchAt f r i pv s = Some mr -> allChars p s = true ->
  allChars p (mtext mr) = true /\ capsAll p (mcaps mr).
Proof.
  intros M A. destruct (matchAt_steps f _ _ _ _ _ M) as (y & w & St & R & _ & ->).
  destruct (steps_allChars _ _ _ _ St A capsAll_nil) as (_ & K).
  split; [|exact K]. cbn [mtext]. rewrite R, allChars_append in A.
  apply andb_true_iff in A. tauto.
Qed.

Lemma groupOrEmpty_allChars (i : nat) (mr : mres) :
  capsAll p (mcaps mr) -> allChars p (groupOrEmpty i mr) = true.
Proof.
  intros K. unfold groupOrEmpty, group.
  destruct (getCap i (mcaps mr)) as [g|] eqn:E; [exact (K _ _ E) | reflexivity].
Qed.

Lemma between12_allChars (sep : string) (mr : mres) :
  allChars p sep = true -> capsAll p (mcaps mr) -> allChars p (between12 sep mr) = true.
Proof.
  intros S K. unfold between12.
  rewrite !allChars_append, S, !groupOrEmpty_allChars by exact K. reflexivity.
Qed.

Section Replace.

Variable f : flags.
Variable r : regex.

Lemma render_allChars (rep : mres -> string) :
  (forall mr, allChars p (mtext mr) = true -> capsAll p (mcaps mr) ->
              allChars p (rep mr) = true) ->
  forall s i pv skip, allChars p s = true ->
                      allChars p (render rep (scan f r i pv s skip)) = true.
Proof.
  intros H. induction s as [|c t IH]; intros i pv skip A.
  - destruct skip; cbn [scan]; [|reflexivity].
    destruct (matchAt f r i pv EmptyString) as [mr|] eqn:E; [|reflexivity].
    destruct (matchAt_allChars _ _ _ _ _ _ E A) as (A1 & K1).
    cbn [render]. rewrite allChars_append, (H _ A1 K1). reflexivity.
  - assert (At : allChars p t = true).
    { simpl in A. apply andb_true_iff in A. tauto. }
    assert (Ac : p c = true).
    { simpl in A. apply andb_true_iff in A. tauto. }
    destruct skip as [|k]; cbn [scan]; [|apply IH, At].
    destruct (matchAt f r i pv (String c t)) as [mr|] eqn:E.
    + destruct (matchAt_allChars _ _ _ _ _ _ E A) as (A1 & K1).
      cbn [render]. rewrite allChars_append, (H _ A1 K1). cbn [andb].
      destruct (String.length (mtext mr)); [|apply IH, At].
      cbn [render allChars]. rewrite Ac, (IH _ _ _ At). reflexivity.
    + cbn [render allChars]. rewrite Ac, (IH _ _ _ At). reflexivity.
Qed.

Lemma replaceAll_allChars (rep : mres -> string) (s : string) :
  (forall mr, allChars p (mtext mr) = true -> capsAll p (mcaps mr) ->
              allChars p (rep mr) = true) ->
  allChars p s = true -> allChars p (replaceAll f r rep s) = true.
Proof. intros H A. apply render_allChars; assumption. Qed.

Lemma renderM_allChars (rep : mres -> result string) :
  (forall mr v, allChars p (mtext mr) = true -> capsAll p (mcaps mr) ->
                rep mr = Ok v -> allChars p v = true) ->
  forall s i pv skip out, allChars p s = true ->
    renderM rep (scan f r i pv s skip) = Ok out -> allChars p out = true.
Proof.
  intros H. induction s as [|c t IH]; intros i pv skip out A.
  - destruct skip; cbn [scan]; [|intros E; apply Ok_inj in E; subst; reflexivity].
    destruct (matchAt f r i pv EmptyString) as [mr|] eqn:E;
      [|intros E'; apply Ok_inj in E'; subst; reflexivity].
    destruct (matchAt_allChars _ _ _ _ _ _ E A) as (A1 & K1).
    cbn [renderM]. destruct (rep mr) as [v|e] eqn:R; cbn [bind]; [|discriminate].
    intros E'. apply Ok_inj in E'. subst out.
    rewrite allChars_append, (H _ _ A1 K1 R). reflexivity.
  - assert (At : allChars p t = true).
    { simpl in A. apply andb_true_iff in A. tauto. }
    assert (Ac : p c = true).
    { simpl in A. apply andb_true_iff in A. tauto. }
    destruct skip as [|k]; cbn [scan]; [|apply IH, At].
    destruct (matchAt f r i pv (String c t)) as [mr|] eqn:E.
    + destruct (matchAt_allChars _ _ _ _ _ _ E A) as (A1 & K1).
      cbn [renderM]. destruct (rep mr) as [v|e] eqn:R; cbn [bind]; [|discriminate].
      pose proof (H _ _ A1 K1 R) as Av.
      destruct (String.length (mtext mr)).
      * cbn [renderM].
        destruct (renderM rep (scan f r (S i) (Some c) t 0)) as [o|e] eqn:R2; cbn [bind];
          [|discriminate].
        intros E'. apply Ok_inj in E'. subst out.
        rewrite allChars_append, Av. cbn [andb allChars].
        rewrite Ac, (IH _ _ _ _ At R2). reflexivity.
      * destruct (renderM rep (scan f r (S i) (Some c) t n)) as [o|e] eqn:R2; cbn [bind];
          [|discriminate].
        intros E'. apply Ok_inj in E'. subst out.
        rewrite allChars_append, Av, (IH _ _ _ _ At R2). reflexivity.
    + cbn [renderM].
      destruct (renderM rep (scan f r (S i) (Some c) t 0)) as [o|e] eqn:R2; cbn [bind];
        [|discriminate].
      intros E'. apply Ok_inj in E'. subst out.
      cbn [allChars]. rewrite Ac, (IH _ _ _ _ At R2). reflexivity.
Qed.

Lemma replaceAllM_allChars (rep : mres -> result string) (s out : string) :
  (forall mr v, allChars p (mtext mr) = true -> capsAll p (mcaps mr) ->
                rep mr = Ok v -> allChars p v = true) ->
  allChars p s = true -> replaceAllM f r rep s = Ok out -> allChars p out = true.
Proof. intros H A E. exact (renderM_allChars rep H s 0 None 0 out A E). Qed.

End Replace.

End Preserved.

Section NoTab.

Lemma Erased_trimStart (s : string) : Erased (trimStart s) s.
Proof.
  induction s as [|c t IH]; [constructor|]. cbn [trimStart].
  destruct (isSpace c); [constructor; exact IH | apply Erased_refl].
Qed.

Lemma Erased_trimEnd (s : string) : Erased (trimEnd s) s.
Proof.
  induction s as [|c t IH]; [constructor|]. cbn [trimEnd].
  destruct (trimEnd t) as [|d r].
  - destruct (isSpace c); [constructor; exact IH | constructor; exact IH].
  - constructor. exact IH.
Qed.

Lemma Erased_trim (s : string) : Erased (trim s) s.
Proof.
  unfold trim. eapply Erased_trans; [apply Erased_trimEnd | apply Erased_trimStart].
Qed.

Lemma fold_replaceAll_erased (f : flags) (patterns : list regex) :
  forall content,
    Erased (fold_left (fun cleaned pattern => replaceAll f pattern empty cleaned)
              patterns content) content.
Proof.
  induction patterns as [|pt r IH]; intros content; [apply Erased_refl|].
  cbn [fold_left]. eapply Erased_trans; [apply IH | apply replaceAll_erased].
Qed.

Lemma removeTrailingMetadata_erased (content : string) :
  Erased (removeTrailingMetadata content) content.
Proof.
  unfold removeTrailingMetadata.
  eapply Erased_trans; [apply Erased_trim | apply fold_replaceAll_erased].
Qed.

Lemma higTerms_notTab (term : string) : In term higTerms -> allChars notTab term = true.
Proof.
  intros H. unfold higTerms in H. cbn [In] in H.
  repeat (destruct H as [<- | H]; [vm_compute; reflexivity|]). contradiction.
Qed.

Lemma fixTerm_notTab (fixed term out : string) :
  allChars notTab term = true -> allChars notTab fixed = true ->
  fixTerm fixed term = Ok out -> allChars notTab out = true.
Proof.
  intros T A. unfold fixTerm.
  set (tns := replaceAll noFlags (plus ws) empty term).
  match goal with
  | |- context [replaceAllM fI (prefixedTermRe tns) ?rep fixed] =>
      destruct (replaceAllM fI (prefixedTermRe tns) rep fixed) as [o1|e] eqn:E1;
      cbn [bind]; [|discriminate];
      assert (A1 : allChars notTab o1 = true)
  end.
  { refine (replaceAllM_allChars notTab _ _ _ _ _ _ A E1).
    intros mr v Am Km R.
    destruct (group 1 mr) as [g|] eqn:G; cbn [defined bind] in R; [|discriminate].
    destruct (Nat.ltb (String.length g) 3); apply Ok_inj in R; subst v; [exact Am|].
    rewrite !allChars_append, (Km _ _ G), T. reflexivity. }
  intros E2. refine (replaceAllM_allChars notTab _ _ _ _ _ _ A1 E2).
  intros mr v Am Km R.
  destruct (exec fI (termSuffixRe tns) (mtext mr)) as [sm|] eqn:X;
    [|apply Ok_inj in R; subst v; exact Am].
  destruct (exec_parts fI _ _ _ X) as (before & after & i' & pv' & M & E).
  assert (As : allChars notTab (mtext sm ++ after) = true).
  { rewrite E, allChars_append in Am. apply andb_true_iff in Am. tauto. }
  destruct (matchAt_allChars notTab _ _ _ _ _ _ M As) as (_ & Ks).
  destruct (group 1 sm) as [g|] eqn:G; cbn [defined bind] in R; [|discriminate].
  destruct (Nat.ltb 2 (String.length g)); apply Ok_inj in R; subst v; [|exact Am].
  rewrite !allChars_append, (Ks _ _ G), T. reflexivity.
Qed.

Lemma fixTerms_notTab (terms : list string) :
  (forall term, In term terms -> allChars notTab term = true) ->
  forall fixed out, allChars notTab fixed = true ->
    fixTerms fixed terms = Ok out -> allChars notTab out = true.
Proof.
  induction terms as [|t r IH]; intros H fixed out A E; cbn [fixTerms] in E.
  - apply Ok_inj in E. subst out. exact A.
  - destruct (fixTerm fixed t) as [o1|e] eqn:E1; cbn [bind] in E; [|discriminate].
    apply (IH (fun term Hin => H term (or_intror Hin)) o1 out); [|exact E].
    exact (fixTerm_notTab _ _ _ (H t (or_introl eq_refl)) A E1).
Qed.

Ltac by_groups := intros mr _ K; apply between12_allChars; [reflexivity | exact K].

Lemma fixWordConcatenation_notTab (content out : string) :
  allChars notTab content = true ->
  fixWordConcatenation content = Ok out -> allChars notTab out = true.
Proof.
  intros A. unfold fixWordConcatenation.
  match goal with
  | |- context [fixTerms ?x higTerms] =>
      assert (A1 : allChars notTab x = true)
        by (apply replaceAll_allChars; [by_groups | exact A]);
      destruct (fixTerms x higTerms) as [o|e] eqn:E; cbn [bind]; [|discriminate];
      pose proof (fixTerms_notTab higTerms higTerms_notTab x o A1 E) as A2
  end.
  intros R. apply Ok_inj in R. subst out.
  repeat (apply replaceAll_allChars; [by_groups|]). exact A2.
Qed.

End NoTab.

(** X21: the normalized Markdown has no tab: whatever the input,
    [cleanMarkdown] returns a text without the tab character; the blanks are
    collapsed to spaces and no later stage brings a tab in. *)
Theorem cleanMarkdown_has_no_tab (markdown : string) :
  exists out, cleanMarkdown markdown = Ok out /\ allChars notTab out = true.
Proof.
  destruct (cleanMarkdown_ok markdown) as (out & E). exists out. split; [exact E|].
  revert E. unfold cleanMarkdown.
  match goal with |- context [removeRepeatedTitles ?x] =>
    destruct (removeRepeatedTitles x) as [y1|e] end; cbn [bind]; [|discriminate].
  match goal with
  | |- context [replaceAll noFlags (plus blank) space ?x] =>
      assert (A : allChars notTab (replaceAll noFlags (plus blank) space x) = true);
      [|set (s10 := replaceAll noFlags (plus blank) space x) in *]
  end.
  { rewrite (replaceAll_plus noFlags blank isBlank blank_single eq_refl).
    apply (spaced_no_tab _ false), spaced_collapseRuns. reflexivity. }
  match goal with
  | |- context [fixWordConcatenation ?x] =>
      assert (A1 : allChars notTab x = true);
      [|destruct (fixWordConcatenation x) as [y2|e] eqn:F; cbn [bind]; [|discriminate];
        pose proof (fixWordConcatenation_notTab _ _ A1 F) as A2]
  end.
  { apply replaceAll_allChars; [intros; reflexivity|].
    apply replaceAll_allChars; [intros; reflexivity|].
    apply replaceAll_allChars; [intros mr _ K; apply groupOrEmpty_allChars, K|].
    apply replaceAll_allChars;
      [intros mr _ K; apply between12_allChars; [reflexivity | exact K]|].
    apply replaceAll_allChars;
      [intros mr _ K; apply between12_allChars; [reflexivity | exact K]|].
    exact A. }
  intros R. apply Ok_inj in R. subst out.
  apply (Erased_allChars notTab _ y2); [|exact A2].
  eapply Erased_trans; [apply Erased_trim | apply removeTrailingMetadata_erased].
Qed.

(** ** Image references *)

Section ImageReferences.

Lemma close_single (x : mstate) (k : cont) :
  m noFlags (ch "]") x k =
  match rest x with
  | String c t => if Ascii.eqb c "]" then k (advance c t x) else None
  | EmptyString => None
  end.
Proof.
  unfold ch. cbn [m]. destruct (rest x) as [|c t]; [reflexivity|].
  rewrite (inClass_plain noFlags eq_refl). unfold isChar. rewrite Ascii.eqb_sym. reflexivity.
Qed.

(** The lazy run stops at a closing bracket of the line, when what follows
    the run accepts one. *)
Lemma lazy_finds_close (k : cont) (w post : string) :
  (forall y t, rest y = String "]" t -> k y <> None) ->
  allChars (fun c => negb (isLineTerminator c)) w = true ->
  forall n i pv cs, String.length w <= n ->
    starLoop (m noFlags Dot) false [] k n (MState i pv (w ++ String "]" post) cs) <> None.
Proof.
  intros Hk. induction w as [|c w IH]; intros A n i pv cs L.
  - pose proof (Hk (MState i pv (String "]" post) cs) post eq_refl) as K.
    destruct n; cbn [starLoop append];
      destruct (k (MState i pv (String "]" post) cs)); cbn [orElse]; congruence.
  - simpl in A. apply andb_true_iff in A. destruct A as [Ac A].
    destruct n as [|n]; [simpl in L; lia|]. simpl in L.
    cbn [starLoop append].
    destruct (k (MState i pv (String c (w ++ String "]" post)) cs)); [discriminate|].
    cbn [orElse m clearCaps fold_right rest]. unfold dotMatches. rewrite Ac, orb_true_r.
    cbn [advance pos caps clearCaps fold_right prev rest].
    assert (N : Nat.eqb (S i) i = false) by (apply Nat.eqb_neq; lia).
    rewrite N. unfold advance, clearCaps. cbn [pos prev rest caps fold_right].
    apply IH; [exact A | lia].
Qed.

Lemma ch_step (c : ascii) (i : nat) (pv : option ascii) (t : string)
    (cs : list (nat * string)) (k : cont) :
  m noFlags (ch c) (MState i pv (String c t) cs) k = k (MState (S i) (Some c) t cs).
Proof.
  unfold ch. cbn [m rest]. rewrite (inClass_plain noFlags eq_refl). unfold isChar.
  rewrite Ascii.eqb_refl. reflexivity.
Qed.

Lemma lazy_reaches_close (k : cont) (w post : string) (i : nat) (pv : option ascii)
    (cs : list (nat * string)) :
  (forall y t, rest y = String "]" t -> k y <> None) ->
  allChars (fun c => negb (isLineTerminator c)) w = true ->
  m noFlags (lazy Dot) (MState i pv (w ++ String "]" post) cs) k <> None.
Proof.
  intros Hk A.
  refine (lazy_finds_close k w post Hk A _ i pv cs _).
  cbn [rest]. rewrite length_append. lia.
Qed.

Lemma matchAt_image (w post : string) (i : nat) (pv : option ascii) :
  allChars (fun c => negb (isLineTerminator c)) w = true ->
  matchAt noFlags imageRe i pv ("![" ++ w ++ "]" ++ post) <> None.
Proof.
  intros A. unfold matchAt.
  set (k := fun y : mstate => Some y).
  change (m noFlags imageRe (MState i pv ("![" ++ w ++ "]" ++ post) []) k)
    with (m noFlags (ch "!") (MState i pv (String "!" (String "[" (w ++ String "]" post))) [])
            (fun y1 => m noFlags (ch "[") y1
               (fun y2 => m noFlags (lazy Dot) y2 (fun y3 => m noFlags (ch "]") y3 k)))).
  rewrite !ch_step.
  match goal with
  | |- match ?e with _ => _ end <> None =>
      assert (N : e <> None); [| destruct e; [discriminate | contradiction]]
  end.
  apply lazy_reaches_close; [|exact A].
  intros y t R. destruct y as [j q r cs]. cbn [rest] in R. subst r.
  rewrite ch_step. unfold k. discriminate.
Qed.

Lemma scan_finds_image (w post : string) :
  allChars (fun c => negb (isLineTerminator c)) w = true ->
  forall pre i pv, matchesOf (scan noFlags imageRe i pv (pre ++ "![" ++ w ++ "]" ++ post) 0) <> [].
Proof.
  intros A. induction pre as [|c pre IH]; intros i pv.
  - cbn [append scan].
    pose proof (matchAt_image w post i pv A) as M. cbn [append] in M.
    destruct (matchAt _ _ _ _ _); [discriminate | contradiction].
  - cbn [append scan].
    destruct (matchAt noFlags imageRe i pv _); [discriminate|].
    cbn [matchesOf]. apply IH.
Qed.

Lemma image_match (x y : mstate) :
  steps noFlags imageRe x y ->
  exists w, rest x = "![" ++ w ++ "]" ++ rest y /\
            allChars (fun c => negb (isLineTerminator c)) w = true.
Proof.
  unfold imageRe. cbn [seq lit]. intros H.
  apply steps_seq_inv in H. destruct H as (y1 & H1 & H).
  apply steps_seq_inv in H1. destruct H1 as (y0 & H0 & H1).
  apply steps_seq_inv in H. destruct H as (y2 & H2 & H3).
  destruct (steps_ch noFlags _ _ _ eq_refl H0) as (R0 & _).
  destruct (steps_ch noFlags _ _ _ eq_refl H1) as (R1 & _).
  destruct (steps_star_unit noFlags false Dot _ _ _ eq_refl H2) as (w & R2 & _ & A2 & _).
  destruct (steps_ch noFlags _ _ _ eq_refl H3) as (R3 & _).
  exists w. rewrite R0, R1, R2, R3. split; [reflexivity|].
  revert A2. apply allChars_ext. intros c. unfold dotMatches. simpl. auto.
Qed.

End ImageReferences.

(** X22: on content of code units below 256, the content has an image
    reference (and the front matter says has_images: true) exactly when an
    exclamation mark and an opening bracket are followed by a closing
    bracket with no line feed or carriage return before it. *)
Theorem has_images_iff (content : string) (originalContent : option string) :
  0 < imageReferencesCount (calculateQualityMetrics content originalContent) <->
  exists pre w post,
    content = pre ++ "![" ++ w ++ "]" ++ post /\
    allChars (fun c => negb (isLineTerminator c)) w = true.
Proof.
  unfold calculateQualityMetrics. cbn [imageReferencesCount].
  unfold countMatches, matchAll, scanAll. rewrite length_map. split.
  - intros H.
    destruct (matchesOf (scan noFlags imageRe 0 None content 0)) as [|mr l] eqn:E;
      [simpl in H; lia|].
    destruct (scan_matchAt_suffix noFlags imageRe mr content 0 None 0)
      as (pre & s' & i' & pv' & -> & M); [rewrite E; left; reflexivity|].
    destruct (matchAt_steps noFlags _ _ _ _ _ M) as (y & w0 & St & _).
    destruct (image_match _ _ St) as (w & R & A). cbn [rest] in R.
    exists pre, w, (rest y). rewrite R. auto.
  - intros (pre & w & post & -> & A).
    pose proof (scan_finds_image w post A pre 0 None) as H.
    destruct (matchesOf _); [contradiction | simpl; lia].
Qed.

(** ** Texts that need only their spacing put right *)

Section Avoiding.

Lemma prefixes_In (u post : string) : In u (prefixes (u ++ post)).
Proof.
  induction u as [|c u IH]; cbn [append prefixes].
  - destruct post; left; reflexivity.
  - right. apply in_map, IH.
Qed.

Lemma suffixes_In (pre t : string) : In t (suffixes (pre ++ t)).
Proof.
  induction pre as [|c pre IH]; cbn [append].
  - destruct t; left; reflexivity.
  - right. exact IH.
Qed.

Lemma avoidsB_sound (bad : string -> bool) (s : string) :
  avoidsB bad s = true -> avoids bad s.
Proof.
  unfold avoidsB, avoids. intros H pre u post ->.
  rewrite forallb_forall in H. specialize (H _ (suffixes_In pre (u ++ post))).
  rewrite forallb_forall in H. specialize (H _ (prefixes_In u post)).
  apply negb_true_iff in H. exact H.
Qed.

Lemma avoids_substring (bad : string -> bool) (a s b : string) :
  avoids bad (a ++ s ++ b) -> avoids bad s.
Proof.
  intros H pre u post ->. apply (H (a ++ pre) u (post ++ b)).
  rewrite !append_assoc. reflexivity.
Qed.

Lemma includes_avoids (s p : string) : includes s p = false -> avoids (String.eqb p) s.
Proof.
  intros H pre u post ->. destruct (String.eqb_spec p u) as [->|]; [|reflexivity].
  rewrite includes_middle in H. discriminate.
Qed.

Lemma trimStart_parts (s : string) : exists a, s = a ++ trimStart s.
Proof.
  induction s as [|c t (a & IH)]; [exists EmptyString; reflexivity|].
  cbn [trimStart]. destruct (isSpace c).
  - exists (String c a). cbn [append]. rewrite <- IH. reflexivity.
  - exists EmptyString. reflexivity.
Qed.

Lemma trimEnd_parts (s : string) : exists b, s = trimEnd s ++ b.
Proof.
  induction s as [|c t (b & IH)]; [exists EmptyString; reflexivity|].
  cbn [trimEnd]. destruct (trimEnd t) as [|d r].
  - cbn [append] in IH. subst b. destruct (isSpace c).
    + exists (String c t). reflexivity.
    + exists t. reflexivity.
  - exists b. cbn [append] in *. rewrite <- IH. reflexivity.
Qed.

Lemma trim_parts (s : string) : exists a b, s = a ++ trim s ++ b.
Proof.
  unfold trim. destruct (trimStart_parts s) as (a & Ea).
  destruct (trimEnd_parts (trimStart s)) as (b & Eb).
  exists a, b. rewrite <- Eb. exact Ea.
Qed.

Lemma avoids_trim (bad : string -> bool) (s : string) : avoids bad s -> avoids bad (trim s).
Proof.
  intros H. destruct (trim_parts s) as (a & b & E). rewrite E in H.
  exact (avoids_substring _ _ _ _ H).
Qed.

End Avoiding.

Section WithoutSpace.

Lemma squashW_append (a b : string) : squashW (a ++ b) = squashW a ++ squashW b.
Proof.
  induction a as [|c a IH]; [reflexivity|].
  cbn [append squashW]. destruct (isSpace c); [exact IH | cbn [append]; rewrite IH; reflexivity].
Qed.

Lemma toLowerChar_isSpace (c : ascii) : isSpace (toLowerChar c) = isSpace c.
Proof.
  apply eqb_prop. revert c.
  apply (ascii_all (fun c => Bool.eqb (isSpace (toLowerChar c)) (isSpace c))).
  vm_compute. reflexivity.
Qed.

Lemma blank_isSpace (c : ascii) : isBlank c = true -> isSpace c = true.
Proof.
  intros H. assert (I : implb (isBlank c) (isSpace c) = true).
  { revert c H. intros c _. revert c.
    apply (ascii_all (fun c => implb (isBlank c) (isSpace c))). vm_compute. reflexivity. }
  rewrite H in I. exact I.
Qed.

Lemma squashW_toLowerCase (s : string) : squashW (toLowerCase s) = squashW s.
Proof.
  induction s as [|c t IH]; [reflexivity|].
  unfold toLowerCase in *. cbn [smap squashW].
  rewrite toLowerChar_isSpace, toLowerChar_idempotent, IH. reflexivity.
Qed.

Lemma includes_squashW (s p : string) :
  includes (toLowerCase s) p = true -> includes (squashW s) (squashW p) = true.
Proof.
  intros H. destruct (includes_parts _ _ H) as (pre & post & E).
  rewrite <- squashW_toLowerCase, E, !squashW_append. apply includes_middle.
Qed.

Lemma squashW_trimStart (s : string) : squashW (trimStart s) = squashW s.
Proof.
  induction s as [|c t IH]; [reflexivity|].
  cbn [trimStart squashW]. destruct (isSpace c) eqn:Sp; [exact IH|].
  cbn [squashW]. rewrite Sp. reflexivity.
Qed.

Lemma squashW_trimEnd (s : string) : squashW (trimEnd s) = squashW s.
Proof.
  induction s as [|c t IH]; [reflexivity|].
  cbn [trimEnd squashW]. destruct (trimEnd t) as [|d r].
  - cbn [squashW] in IH. rewrite <- IH.
    destruct (isSpace c) eqn:Sp; cbn [squashW]; [|rewrite Sp]; reflexivity.
  - change (squashW (String c (String d r)))
      with (if isSpace c then squashW (String d r)
            else String (toLowerChar c) (squashW (String d r))).
    rewrite IH. reflexivity.
Qed.

Lemma squashW_trim (s : string) : squashW (trim s) = squashW s.
Proof. unfold trim. rewrite squashW_trimEnd. apply squashW_trimStart. Qed.

Lemma squashW_collapseRuns (s : string) :
  forall b, squashW (collapseRuns isBlank s b) = squashW s.
Proof.
  induction s as [|c t IH]; intros b; [reflexivity|].
  cbn [collapseRuns squashW]. destruct (isBlank c) eqn:Bc.
  - rewrite (blank_isSpace _ Bc). destruct b; [apply IH|].
    cbn [squashW]. change (isSpace " ") with true. cbv iota. apply IH.
  - cbn [squashW]. rewrite IH. reflexivity.
Qed.

End WithoutSpace.

Section Collapsing.

Lemma collapse_prefix :
  forall u t post,
    allChars (fun c => negb (isBlank c)) u = true ->
    collapseRuns isBlank t false = u ++ post ->
    exists post', t = u ++ post'.
Proof.
  induction u as [|d u IH]; intros t post A H.
  - exists t. reflexivity.
  - cbn [allChars] in A. apply andb_true_iff in A. destruct A as [Ad A].
    cbn [append] in H. destruct t as [|c t]; [discriminate|].
    cbn [collapseRuns] in H. destruct (isBlank c) eqn:Bc.
    + injection H as H1 _. subst d. discriminate.
    + injection H as H1 H2. subst d.
      destruct (IH _ _ A H2) as (post' & ->). exists post'. reflexivity.
Qed.

(** A piece of the collapsed text that holds no space lies in the text as
    it was. *)
Lemma collapse_substring :
  forall s b pre u post,
    u <> EmptyString -> allChars (fun c => negb (isBlank c)) u = true ->
    collapseRuns isBlank s b = pre ++ u ++ post ->
    exists pre' post', s = pre' ++ u ++ post'.
Proof.
  induction s as [|c t IH]; intros b pre u post Nu A H.
  - destruct pre; [|discriminate]. destruct u; [congruence | discriminate].
  - cbn [collapseRuns] in H. destruct (isBlank c) eqn:Bc; [destruct b|].
    + destruct (IH _ _ _ _ Nu A H) as (p' & q' & ->). exists (String c p'), q'. reflexivity.
    + destruct pre as [|p0 pre]; cbn [append] in H.
      * destruct u as [|d u]; [congruence|]. cbn [append] in H.
        injection H as H1 _. subst d. discriminate.
      * injection H as _ H.
        destruct (IH _ _ _ _ Nu A H) as (p' & q' & ->). exists (String c p'), q'. reflexivity.
    + destruct pre as [|p0 pre]; cbn [append] in H.
      * destruct u as [|d u]; [congruence|]. cbn [append] in H.
        injection H as H1 H2. subst d.
        cbn [allChars] in A. apply andb_true_iff in A. destruct A as [_ A].
        destruct (collapse_prefix u t post A H2) as (q' & ->).
        exists EmptyString, q'. reflexivity.
      * injection H as _ H.
        destruct (IH _ _ _ _ Nu A H) as (p' & q' & ->). exists (String c p'), q'. reflexivity.
Qed.

Lemma collapse_head :
  forall t d post,
    collapseRuns isBlank t true = String d post ->
    exists run t', t = run ++ String d t' /\ allChars isBlank run = true.
Proof.
  induction t as [|c t IH]; intros d post H; [discriminate|].
  cbn [collapseRuns] in H. destruct (isBlank c) eqn:Bc.
  - destruct (IH _ _ H) as (run & t' & -> & A).
    exists (String c run), t'. cbn [allChars append]. rewrite Bc. auto.
  - injection H as H1 _. subst d. exists EmptyString, t. auto.
Qed.

Lemma run_last (q : ascii -> bool) (w : string) :
  w <> EmptyString -> allChars q w = true ->
  exists init l, w = init ++ String l EmptyString /\ q l = true.
Proof.
  induction w as [|c w IH]; intros N A; [congruence|].
  cbn [allChars] in A. apply andb_true_iff in A. destruct A as [Qc A].
  destruct w as [|d w].
  - exists EmptyString, c. auto.
  - destruct (IH ltac:(discriminate) A) as (init & l & E & Ql).
    exists (String c init), l. cbn [append]. rewrite <- E. auto.
Qed.

(** Two neighbours of the collapsed text were neighbours before, a space
    standing for the last space or tab of its run. *)
Lemma collapse_pair :
  forall s b pre c d post,
    collapseRuns isBlank s b = pre ++ String c (String d post) ->
    exists pre' c' d' post',
      s = pre' ++ String c' (String d' post') /\ collapsesTo c' c /\ collapsesTo d' d.
Proof.
  induction s as [|c0 t IH]; intros b pre c d post H.
  - destruct pre; discriminate.
  - cbn [collapseRuns] in H. destruct (isBlank c0) eqn:B0; [destruct b|].
    + destruct (IH _ _ _ _ _ H) as (p' & c' & d' & q' & -> & Kc & Kd).
      exists (String c0 p'), c', d', q'. auto.
    + destruct pre as [|p0 pre]; cbn [append] in H.
      * injection H as H1 H2. subst c.
        destruct (collapse_head _ _ _ H2) as (run & t' & -> & A).
        destruct (run_last isBlank (String c0 run)) as (init & l & E & Bl);
          [discriminate | cbn [allChars]; rewrite B0; exact A |].
        exists init, l, d, t'. split; [|split].
        -- change (String c0 (run ++ String d t')) with (String c0 run ++ String d t').
           rewrite E, append_assoc. reflexivity.
        -- right. auto.
        -- left. reflexivity.
      * injection H as _ H.
        destruct (IH _ _ _ _ _ H) as (p' & c' & d' & q' & -> & Kc & Kd).
        exists (String c0 p'), c', d', q'. auto.
    + destruct pre as [|p0 pre]; cbn [append] in H.
      * injection H as H1 H2. subst c.
        destruct t as [|d0 t']; [discriminate|].
        cbn [collapseRuns] in H2. destruct (isBlank d0) eqn:Bd.
        -- injection H2 as H3 _. subst d.
           exists EmptyString, c0, d0, t'. split; [reflexivity|].
           split; [left; reflexivity | right; auto].
        -- injection H2 as H3 _. subst d.
           exists EmptyString, c0, d0, t'. split; [reflexivity|].
           split; left; reflexivity.
      * injection H as _ H.
        destruct (IH _ _ _ _ _ H) as (p' & c' & d' & q' & -> & Kc & Kd).
        exists (String c0 p'), c', d', q'. auto.
Qed.

Lemma avoids_collapse (bad : string -> bool) (s : string) (b : bool) :
  (forall u, bad u = true ->
             u <> EmptyString /\ allChars (fun c => negb (isBlank c)) u = true) ->
  avoids bad s -> avoids bad (collapseRuns isBlank s b).
Proof.
  intros Hb A pre u post E. destruct (bad u) eqn:Bu; [|reflexivity].
  destruct (Hb u Bu) as (Nu & Au).
  destruct (collapse_substring s b pre u post Nu Au E) as (p' & q' & E').
  rewrite <- Bu. exact (A p' u q' E').
Qed.

Lemma avoids_pair_collapse (p q : ascii -> bool) (s : string) (b : bool) :
  (forall a c, collapsesTo a c -> p c = true -> p a = true) ->
  (forall a c, collapsesTo a c -> q c = true -> q a = true) ->
  avoids (isPair p q) s -> avoids (isPair p q) (collapseRuns isBlank s b).
Proof.
  intros Hp Hq A pre u post E.
  destruct u as [|c [|d [|e u]]]; try reflexivity.
  cbn [isPair]. destruct (p c && q d)%bool eqn:PQ; [|reflexivity].
  apply andb_true_iff in PQ. destruct PQ as [Pc Qd]. cbn [append] in E.
  destruct (collapse_pair s b pre c d post E) as (pre' & c' & d' & post' & -> & Kc & Kd).
  specialize (A pre' (String c' (String d' EmptyString)) post' eq_refl).
  cbn [isPair] in A. rewrite (Hp _ _ Kc Pc), (Hq _ _ Kd Qd) in A. discriminate.
Qed.

Lemma collapseRuns_spaced (q : ascii -> bool) (s : string) :
  forall b, spaced q b s = true -> collapseRuns q s b = s.
Proof.
  induction s as [|c t IH]; intros b H; [reflexivity|].
  cbn [spaced collapseRuns] in *. destruct (q c).
  - apply andb_true_iff in H. destruct H as [H H3].
    apply andb_true_iff in H. destruct H as [H1 H2].
    apply Ascii.eqb_eq in H1. subst c. destruct b; [discriminate|].
    rewrite (IH true H3). reflexivity.
  - rewrite (IH false H). reflexivity.
Qed.

Lemma spaced_trimStart (q : ascii -> bool) (s : string) :
  forall b, spaced q b s = true -> spaced q false (trimStart s) = true.
Proof.
  induction s as [|c t IH]; intros b H; [reflexivity|].
  cbn [trimStart]. destruct (isSpace c).
  - cbn [spaced] in H. destruct (q c).
    + apply andb_true_iff in H. destruct H as [_ H]. exact (IH true H).
    + exact (IH false H).
  - destruct b; [apply spaced_weaken|]; exact H.
Qed.

Lemma spaced_trimEnd (q : ascii -> bool) (s : string) :
  forall b, spaced q b s = true -> spaced q b (trimEnd s) = true.
Proof.
  induction s as [|c t IH]; intros b H; [reflexivity|].
  cbn [trimEnd]. cbn [spaced] in H.
  destruct (trimEnd t) as [|d r] eqn:E.
  - destruct (isSpace c); [reflexivity|]. cbn [spaced].
    destruct (q c); [|reflexivity].
    apply andb_true_iff in H. destruct H as [H _]. rewrite H. reflexivity.
  - cbn [spaced]. destruct (q c).
    + apply andb_true_iff in H. destruct H as [H1 H2]. rewrite H1.
      exact (IH true H2).
    + exact (IH false H).
Qed.

Lemma spaced_trim (q : ascii -> bool) (s : string) :
  spaced q false s = true -> spaced q false (trim s) = true.
Proof.
  intros H. unfold trim. apply spaced_trimEnd. exact (spaced_trimStart q s false H).
Qed.

Lemma trimEnd_last (s : string) :
  forall pv,
    trimEnd s = EmptyString \/
    exists c, lastOr pv (trimEnd s) = Some c /\ isSpace c = false.
Proof.
  induction s as [|c t IH]; intros pv; [left; reflexivity|].
  cbn [trimEnd]. destruct (trimEnd t) as [|d r] eqn:E.
  - destruct (isSpace c) eqn:Sp; [left; reflexivity|].
    right. exists c. auto.
  - right. destruct (IH (Some c)) as [H | H]; [discriminate | exact H].
Qed.

Lemma endsBlank_trim (s : string) : endsBlank (trim s) = false.
Proof.
  unfold endsBlank, trim.
  destruct (trimEnd_last (trimStart s) None) as [-> | (c & -> & Sp)]; [reflexivity|].
  destruct (isBlank c) eqn:Bc; [|reflexivity].
  rewrite (blank_isSpace _ Bc) in Sp. discriminate.
Qed.

End Collapsing.

(** ** Passes that find nothing *)

Section NothingToFind.

Lemma matchAll_none (f : flags) (r : regex) (s : string) :
  (forall pre s' i pv mr, s = pre ++ s' -> matchAt f r i pv s' = Some mr -> False) ->
  matchAll f r s = [].
Proof.
  intros H. unfold matchAll, scanAll.
  destruct (matchesOf (scan f r 0 None s 0)) as [|mr l] eqn:E; [reflexivity|].
  exfalso.
  destruct (scan_matchAt_suffix f r mr s 0 None 0) as (pre & s' & i' & pv' & Es & M);
    [rewrite E; left; reflexivity|].
  exact (H pre s' i' pv' mr Es M).
Qed.

Lemma prefix_same_length (a b r1 r2 : string) :
  a ++ r1 = b ++ r2 -> String.length a = String.length b -> a = b.
Proof.
  intros E L. rewrite <- (take_append a r1), <- (take_append b r2), E, L. reflexivity.
Qed.

Lemma append_same_rest (a b r : string) : a ++ r = b ++ r -> a = b.
Proof.
  intros E. apply (prefix_same_length a b r r E).
  apply (f_equal String.length) in E. rewrite !length_append in E. lia.
Qed.

(** A pattern whose every match holds a piece that [bad] recognises finds
    nothing in a text that avoids [bad]. *)
Lemma matchAll_avoided (f : flags) (r : regex) (bad : string -> bool) (s : string) :
  (forall i pv s' mr, matchAt f r i pv s' = Some mr ->
                      exists a u b, mtext mr = a ++ u ++ b /\ bad u = true) ->
  avoids bad s -> matchAll f r s = [].
Proof.
  intros Hb A. apply matchAll_none. intros pre s' i pv mr E M.
  destruct (Hb _ _ _ _ M) as (a & u & b & Et & B).
  destruct (matchAt_steps f _ _ _ _ _ M) as (y & w & _ & Es & _ & ->).
  cbn [mtext] in Et. subst w.
  rewrite (A (pre ++ a) u (b ++ rest y)) in B; [discriminate|].
  rewrite E, Es, !append_assoc. reflexivity.
Qed.

Lemma needs_first (f : flags) (a b : regex) (p : string) :
  needs f a p -> needs f (Seq a b) p.
Proof.
  intros N x y H. apply steps_seq_inv in H. destruct H as (y1 & H1 & _).
  exact (N _ _ H1).
Qed.

Lemma needs_grp (f : flags) (i : nat) (a : regex) (p : string) :
  needs f a p -> needs f (Grp i a) p.
Proof.
  intros N x y H. apply steps_grp_inv in H. destruct H as (y0 & H0 & _).
  exact (N _ _ H0).
Qed.

Lemma needs_hashes (f : flags) (b : regex) : needs f (Seq (plus (ch "#")) b) "#".
Proof. apply needs_first. exact (needs_lit f "#" (Star true (ch "#"))). Qed.

Lemma includes_substring (a s b p : string) :
  includes s p = true -> includes (a ++ s ++ b) p = true.
Proof. intros H. apply includes_append_l, includes_append_r, H. Qed.

Lemma markerFree_substring (a s b : string) :
  markerFree (a ++ s ++ b) = true -> markerFree s = true.
Proof.
  unfold markerFree. rewrite !forallb_forall. intros H p I. specialize (H p I).
  apply negb_true_iff in H. apply negb_true_iff.
  destruct (includes (squashW s) p) eqn:E; [|reflexivity].
  rewrite !squashW_append, (includes_substring _ _ _ _ E) in H. discriminate.
Qed.

Lemma marker_absent (p s : string) :
  In (squashW p) markers -> markerFree s = true -> includes (toLowerCase s) p = false.
Proof.
  intros I M. destruct (includes (toLowerCase s) p) eqn:E; [|reflexivity].
  apply includes_squashW in E. unfold markerFree in M. rewrite forallb_forall in M.
  specialize (M _ I). rewrite E in M. discriminate.
Qed.

Lemma marker_nomatch (f : flags) (r : regex) (p s : string) :
  needs f r p -> In (squashW p) markers -> markerFree s = true -> matchAll f r s = [].
Proof. intros N I M. exact (matchAll_needs f r p s N (marker_absent p s I M)). Qed.

Lemma marker_noexec (f : flags) (r : regex) (p s : string) :
  needs f r p -> In (squashW p) markers -> markerFree s = true -> exec f r s = None.
Proof. intros N I M. exact (exec_needs f r p s N (marker_absent p s I M)). Qed.

Lemma join_parts (l : list string) (line : string) :
  In line l -> exists a b, join nl l = a ++ line ++ b.
Proof.
  induction l as [|x r IH]; intros I; [destruct I|].
  destruct r as [|x2 r].
  - destruct I as [<- | []]. exists EmptyString, EmptyString.
    cbn [join append]. rewrite append_nil_r. reflexivity.
  - change (join nl (x :: x2 :: r)) with (x ++ nl ++ join nl (x2 :: r)).
    destruct I as [<- | I].
    + exists EmptyString, (nl ++ join nl (x2 :: r)). reflexivity.
    + destruct (IH I) as (a & b & E). exists (x ++ nl ++ a), b.
      rewrite E, !append_assoc. reflexivity.
Qed.

Lemma removeRepeatedTitles_plain (s : string) :
  markerFree s = true -> removeRepeatedTitles s = Ok s.
Proof.
  intros M. apply removeRepeatedTitles_nomatch. intros line I.
  destruct (join_parts _ _ I) as (a & b & E). rewrite join_splitLines in E.
  rewrite E in M. apply markerFree_substring in M.
  apply (marker_noexec noFlags titleRe "#"); [|vm_compute; repeat (first [left; reflexivity | right]) | exact M].
  unfold titleRe. cbn [seq]. apply needs_later, needs_hashes.
Qed.

Lemma removeAppleSPAMetadata_plain (s : string) :
  markerFree s = true -> removeAppleSPAMetadata s = s.
Proof.
  intros M. apply removeAppleSPAMetadata_nomatch.
  - apply (marker_nomatch fI _ "platform considerations"); [|vm_compute; repeat (first [left; reflexivity | right]) | exact M].
    apply (needs_lit fI "platform considerations").
  - apply (marker_nomatch fI _ "current page is "); [|vm_compute; repeat (first [left; reflexivity | right]) | exact M].
    apply (needs_lit fI "current page is ").
  - apply (marker_nomatch fI _ "supported platforms"); [|vm_compute; repeat (first [left; reflexivity | right]) | exact M].
    apply (needs_lit fI "supported platforms").
Qed.

Lemma removeTrailingMetadata_plain (s : string) :
  markerFree s = true -> removeTrailingMetadata s = trim s.
Proof.
  intros M. apply removeTrailingMetadata_nomatch.
  intros pattern Hin. unfold trailingSections in Hin. cbn [seq In] in Hin.
  destruct Hin as [<- | [<- | [<- | [<- | []]]]].
  - apply (marker_nomatch fIS _ "change log"); [|vm_compute; repeat (first [left; reflexivity | right]) | exact M].
    do 5 apply needs_later. apply (needs_lit fIS "change log").
  - apply (marker_nomatch fIS _ "change log"); [|vm_compute; repeat (first [left; reflexivity | right]) | exact M].
    apply (needs_lit fIS "change log").
  - apply (marker_nomatch fIS _ "discoverable design"); [|vm_compute; repeat (first [left; reflexivity | right]) | exact M].
    do 2 apply needs_later. apply (needs_lit fIS "discoverable design").
  - apply (marker_nomatch fIS _ "platform considerations"); [|vm_compute; repeat (first [left; reflexivity | right]) | exact M].
    apply (needs_lit fIS "platform considerations").
Qed.

(** The passes about the banner and the skip link. *)
Lemma banners_plain (s : string) :
  markerFree s = true ->
  exec fIS leadingBannerRe s = None /\
  exec fIS standaloneBannerRe s = None /\
  matchAll fIM bannerHeaderRe s = [] /\
  matchAll fIM turnOnRe s = [] /\
  matchAll fI skipNavigationRe s = [].
Proof.
  intros M. repeat split.
  - apply (marker_noexec fIS _ jsBanner); [|vm_compute; repeat (first [left; reflexivity | right]) | exact M].
    unfold leadingBannerRe. cbn [seq]. do 2 apply needs_later. apply (needs_lit fIS jsBanner).
  - apply (marker_noexec fIS _ jsBanner); [|vm_compute; repeat (first [left; reflexivity | right]) | exact M].
    unfold standaloneBannerRe. cbn [seq]. do 3 apply needs_later.
    apply (needs_lit fIS jsBanner).
  - apply (marker_nomatch fIM _ jsBanner); [|vm_compute; repeat (first [left; reflexivity | right]) | exact M].
    unfold bannerHeaderRe. cbn [seq]. do 3 apply needs_later. apply (needs_lit fIM jsBanner).
  - apply (marker_nomatch fIM _ "please turn on javascript"); [|vm_compute; repeat (first [left; reflexivity | right]) | exact M].
    apply (needs_lit fIM "please turn on javascript").
  - apply (marker_nomatch fI _ "skip navigation"); [|vm_compute; repeat (first [left; reflexivity | right]) | exact M].
    apply (needs_lit fI "skip navigation").
Qed.

(** The passes about headings and empty links. *)
Lemma headers_plain (s : string) :
  markerFree s = true ->
  matchAll noFlags beforeHeaderRe s = [] /\
  matchAll noFlags afterHeaderRe s = [] /\
  matchAll noFlags emptyLinkRe s = [] /\
  matchAll fM emptyHeaderRe s = [].
Proof.
  intros M. repeat split.
  - apply (marker_nomatch noFlags _ "#"); [|vm_compute; repeat (first [left; reflexivity | right]) | exact M].
    unfold beforeHeaderRe. apply needs_later, needs_grp, needs_hashes.
  - apply (marker_nomatch noFlags _ "#"); [|vm_compute; repeat (first [left; reflexivity | right]) | exact M].
    unfold afterHeaderRe. cbn [seq]. apply needs_first, needs_grp, needs_hashes.
  - apply (marker_nomatch noFlags _ "]()"); [|vm_compute; repeat (first [left; reflexivity | right]) | exact M].
    unfold emptyLinkRe. cbn [seq]. do 2 apply needs_later. apply (needs_lit_end noFlags "]()").
  - apply (marker_nomatch fM _ "#"); [|vm_compute; repeat (first [left; reflexivity | right]) | exact M].
    unfold emptyHeaderRe. cbn [seq]. apply needs_later, needs_hashes.
Qed.

Lemma isChar_eq (a c : ascii) : inClass noFlags false (isChar a) c = true -> c = a.
Proof.
  rewrite (inClass_plain noFlags eq_refl). unfold isChar. intros H.
  apply Ascii.eqb_eq in H. auto.
Qed.

(** Three line feeds or more. *)
Lemma lineFeeds_nomatch (s : string) :
  includes s (nl ++ nl ++ nl) = false ->
  matchAll noFlags (atLeast 3 (ch NL)) (s) = [].
Proof.
  intros N. apply (matchAll_avoided noFlags _ (String.eqb (nl ++ nl ++ nl)));
    [|apply includes_avoids, N].
  intros i pv s' mr M.
  destruct (matchAt_steps noFlags _ _ _ _ _ M) as (y & w & St & Es & P & ->).
  destruct (steps_atLeast_unit noFlags (ch NL) _ 3 eq_refl _ _ St) as (w0 & R & _ & A & L & _).
  cbn [rest] in R. rewrite R in Es. apply append_same_rest in Es. subst w0.
  destruct w as [|a [|b [|c w]]]; try (simpl in L; lia).
  cbn [allChars] in A.
  apply andb_true_iff in A. destruct A as [Qa A].
  apply andb_true_iff in A. destruct A as [Qb A].
  apply andb_true_iff in A. destruct A as [Qc A].
  apply isChar_eq in Qa, Qb, Qc. subst a b c.
  exists EmptyString, (nl ++ nl ++ nl), w. split; [reflexivity|]. apply String.eqb_refl.
Qed.

Lemma lastOr_last (pv : option ascii) (a : string) (l : ascii) :
  lastOr pv (a ++ String l EmptyString) = Some l.
Proof. rewrite lastOr_append. reflexivity. Qed.

(** Spaces and tabs at the end of a line. *)
Lemma trailingBlanks_nomatch (s : string) :
  avoids blankAtEol s -> endsBlank s = false ->
  matchAll fM (Seq (plus blank) Eol) s = [].
Proof.
  intros A E. apply matchAll_none. intros pre s' i pv mr Es M.
  destruct (matchAt_steps fM _ _ _ _ _ M) as (y & w & St & _ & _ & _).
  apply steps_seq_inv in St. destruct St as (y1 & S1 & S2).
  destruct (steps_plus_unit fM blank _ _ _ eq_refl S1) as (w1 & R & _ & A1 & _ & N1).
  cbn [rest] in R.
  apply steps_eol_inv in S2. destruct S2 as [_ Eol].
  destruct (run_last _ w1 N1 A1) as (init & l & -> & Bl).
  rewrite (inClass_plain fM eq_refl) in Bl.
  unfold atEol in Eol. destruct (rest y1) as [|d t] eqn:Ry.
  - rewrite append_nil_r in R. subst s' s.
    unfold endsBlank in E. rewrite <- append_assoc, lastOr_last, Bl in E. discriminate.
  - cbn [multiline fM andb] in Eol.
    specialize (A (pre ++ init) (String l (String d EmptyString)) t).
    unfold blankAtEol in A. cbn [isPair] in A. rewrite Bl, Eol in A.
    assert (X : true = false); [|discriminate].
    apply A. subst s' s. rewrite !append_assoc. reflexivity.
Qed.

(** The list markers. *)
Lemma bullets_nomatch (s : string) :
  avoids bulletPlace s -> matchAll fM bulletRe s = [].
Proof.
  apply matchAll_avoided. intros i pv s' mr M.
  destruct (matchAt_steps fM _ _ _ _ _ M) as (y & w & St & Es & _ & ->).
  unfold bulletRe in St. cbn [seq] in St.
  apply steps_seq_inv in St. destruct St as (y0 & S0 & St).
  apply steps_bol_inv in S0. destruct S0 as [-> _].
  apply steps_seq_inv in St. destruct St as (y1 & S1 & St).
  apply steps_seq_inv in St. destruct St as (y2 & S2 & S3).
  destruct (steps_star_unit fM true ws _ _ _ eq_refl S1) as (w1 & R1 & _).
  destruct (steps_unit fM (cls isBullet) _ _ _ eq_refl S2) as (c & t & R2 & Qc & ->).
  destruct (steps_unit fM ws _ _ _ eq_refl S3) as (d & t' & R3 & Qd & ->).
  cbn [rest advance] in *. subst t.
  rewrite (inClass_plain fM eq_refl) in Qc, Qd.
  rewrite R1, R2 in Es.
  assert (W : w = w1 ++ String c (String d EmptyString)).
  { apply (append_same_rest _ _ t'). rewrite <- Es, !append_assoc. reflexivity. }
  exists w1, (String c (String d EmptyString)), EmptyString.
  split; [rewrite W; reflexivity|]. unfold bulletPlace. cbn [isPair]. rewrite Qc, Qd. reflexivity.
Qed.

End NothingToFind.

(** ** Words that are not run together *)

Section SeparateWords.

Lemma letter_caseless (c : ascii) :
  inClass fI false isLower c = isLetter c /\ inClass fI false isUpper c = isLetter c.
Proof.
  assert (H : (Bool.eqb (inClass fI false isLower c) (isLetter c) &&
               Bool.eqb (inClass fI false isUpper c) (isLetter c))%bool = true).
  { revert c.
    apply (ascii_all (fun c => (Bool.eqb (inClass fI false isLower c) (isLetter c) &&
                                Bool.eqb (inClass fI false isUpper c) (isLetter c))%bool)).
    vm_compute. reflexivity. }
  apply andb_true_iff in H. destruct H as [H1 H2].
  split; apply eqb_prop; assumption.
Qed.

Lemma letters_caseless (w : string) :
  allChars (inClass fI false isLower) w = true -> allChars isLetter w = true.
Proof.
  apply allChars_ext. intros c H. rewrite <- (proj1 (letter_caseless c)). exact H.
Qed.

Lemma splitPlace_pair (u : string) :
  (isPair isLower isUpper u || isPair isDigit isLetter u || isPair isLetter isDigit u)%bool
  = true -> splitPlace u = true.
Proof.
  unfold splitPlace. intros H.
  apply orb_true_iff in H. destruct H as [H | H];
    [apply orb_true_iff in H; destruct H as [H | H]|];
    rewrite H; rewrite ?orb_true_r; reflexivity.
Qed.

Lemma splitPlace_triple (u : string) :
  (isTriple isLower "." isUpper u || isTriple isLower "!" isUpper u ||
   isTriple isLower "?" isUpper u)%bool = true -> splitPlace u = true.
Proof.
  unfold splitPlace. intros H.
  apply orb_true_iff in H. destruct H as [H | H];
    [apply orb_true_iff in H; destruct H as [H | H]|];
    rewrite H; rewrite ?orb_true_r; reflexivity.
Qed.

Lemma splitPlace_term (t u : string) :
  In t termsNoSpaces -> (afterLetters t u || beforeLetters t u)%bool = true ->
  splitPlace u = true.
Proof.
  intros I H. unfold splitPlace.
  assert (E : existsb (fun t => afterLetters t u || beforeLetters t u)%bool termsNoSpaces = true)
    by (apply existsb_exists; exists t; auto).
  rewrite E. apply orb_true_r.
Qed.

(** A match of two captured code units is a pair. *)
Lemma pair_place (p q : ascii -> bool) (i : nat) (pv : option ascii) (s : string) (mr : mres) :
  matchAt noFlags (Seq (Grp 1 (cls p)) (Grp 2 (cls q))) i pv s = Some mr ->
  isPair p q (mtext mr) = true.
Proof.
  intros M.
  destruct (matchAt_steps noFlags _ _ _ _ _ M) as (y & w & St & Es & _ & ->).
  apply steps_seq_inv in St. destruct St as (y1 & S1 & S2).
  destruct (steps_grp_unit noFlags 1 (cls p) _ _ _ eq_refl S1) as (c & R1 & Qc & _).
  destruct (steps_grp_unit noFlags 2 (cls q) _ _ _ eq_refl S2) as (d & R2 & Qd & _).
  cbn [rest] in R1. rewrite R1, R2 in Es.
  assert (W : w = String c (String d EmptyString))
    by (apply (append_same_rest _ _ (rest y)); rewrite <- Es; reflexivity).
  rewrite (inClass_plain noFlags eq_refl) in Qc, Qd.
  cbn [mtext]. rewrite W. cbn [isPair]. rewrite Qc, Qd. reflexivity.
Qed.

Lemma triple_place (p q : ascii -> bool) (d : ascii) (i : nat) (pv : option ascii)
    (s : string) (mr : mres) :
  matchAt noFlags (seq [Grp 1 (cls p); ch d; Grp 2 (cls q)]) i pv s = Some mr ->
  isTriple p d q (mtext mr) = true.
Proof.
  intros M.
  destruct (matchAt_steps noFlags _ _ _ _ _ M) as (y & w & St & Es & _ & ->).
  cbn [seq] in St.
  apply steps_seq_inv in St. destruct St as (y1 & S1 & St).
  apply steps_seq_inv in St. destruct St as (y2 & S2 & S3).
  destruct (steps_grp_unit noFlags 1 (cls p) _ _ _ eq_refl S1) as (a & R1 & Qa & _).
  destruct (steps_ch noFlags _ _ _ eq_refl S2) as (R2 & _).
  destruct (steps_grp_unit noFlags 2 (cls q) _ _ _ eq_refl S3) as (c & R3 & Qc & _).
  cbn [rest] in R1. rewrite R1, R2, R3 in Es.
  assert (W : w = String a (String d (String c EmptyString)))
    by (apply (append_same_rest _ _ (rest y)); rewrite <- Es; reflexivity).
  rewrite (inClass_plain noFlags eq_refl) in Qa, Qc.
  cbn [mtext]. rewrite W. cbn [isTriple]. rewrite Qa, Qc, Ascii.eqb_refl. reflexivity.
Qed.

Lemma lower_same_length (a b : string) :
  toLowerCase a = toLowerCase b -> String.length a = String.length b.
Proof.
  intros E. rewrite <- (toLowerCase_length a), <- (toLowerCase_length b), E. reflexivity.
Qed.

(** A match of the pattern for a term with letters before it. *)
Lemma prefixed_place (tns : string) (i : nat) (pv : option ascii) (s : string) (mr : mres) :
  matchAt fI (prefixedTermRe tns) i pv s = Some mr -> afterLetters tns (mtext mr) = true.
Proof.
  intros M.
  destruct (matchAt_steps fI _ _ _ _ _ M) as (y & w & St & Es & _ & ->).
  unfold prefixedTermRe in St.
  apply steps_seq_inv in St. destruct St as (y1 & S1 & S2).
  apply steps_grp_inv in S1. destruct S1 as (y0 & S0 & ->).
  destruct (steps_atLeast_unit fI (cls isLower) _ 2 eq_refl _ _ S0) as (w1 & R1 & _ & A1 & L1 & _).
  destruct (steps_lit fI tns _ _ S2) as (w' & R2 & _ & E2 & _).
  cbn [rest] in R1. change (rest (setCap 1 _ y0)) with (rest y0) in R2.
  rewrite R1, R2 in Es.
  assert (W : w = w1 ++ w')
    by (apply (append_same_rest _ _ (rest y)); rewrite <- Es, append_assoc; reflexivity).
  cbn [mtext]. rewrite W. unfold afterLetters.
  rewrite length_append, <- (lower_same_length _ _ E2).
  replace (String.length w1 + String.length w' - String.length w') with (String.length w1)
    by lia.
  rewrite take_append, drop_append, E2, String.eqb_refl, (letters_caseless _ A1).
  destruct (Nat.leb_spec 2 (String.length w1)); [reflexivity | lia].
Qed.

(** A match of the pattern for a term with a word after it. *)
Lemma suffixed_place (tns : string) (i : nat) (pv : option ascii) (s : string) (mr : mres) :
  matchAt fI (suffixedTermRe tns) i pv s = Some mr -> beforeLetters tns (mtext mr) = true.
Proof.
  intros M.
  destruct (matchAt_steps fI _ _ _ _ _ M) as (y & w & St & Es & _ & ->).
  unfold suffixedTermRe in St.
  apply steps_seq_inv in St. destruct St as (y1 & S1 & S2).
  destruct (steps_lit fI tns _ _ S1) as (w' & R1 & _ & E1 & _).
  apply steps_grp_inv in S2. destruct S2 as (y0 & S0 & ->).
  apply steps_seq_inv in S0. destruct S0 as (y2 & S2 & S3).
  destruct (steps_unit fI (cls isUpper) _ _ _ eq_refl S2) as (c & t & R2 & Qc & ->).
  destruct (steps_atLeast_unit fI (cls isLower) _ 2 eq_refl _ _ S3) as (w2 & R3 & _ & A3 & L3 & _).
  cbn [rest advance] in *. change (rest (setCap 1 _ y0)) with (rest y0) in Es.
  rewrite R1, R2, R3 in Es.
  assert (W : w = w' ++ String c w2)
    by (apply (append_same_rest _ _ (rest y0)); rewrite <- Es, append_assoc; reflexivity).
  cbn [mtext]. rewrite W. unfold beforeLetters.
  rewrite <- (lower_same_length _ _ E1), take_append, drop_append, E1, String.eqb_refl.
  cbn [allChars String.length].
  rewrite <- (proj2 (letter_caseless c)), Qc, (letters_caseless _ A3).
  destruct (Nat.leb_spec 3 (S (String.length w2))); [reflexivity | lia].
Qed.

Lemma whole_match (mr : mres) : mtext mr = EmptyString ++ mtext mr ++ EmptyString.
Proof. cbn [append]. rewrite append_nil_r. reflexivity. Qed.

Lemma fixTerm_separate (fixed term : string) :
  In term higTerms -> avoids splitPlace fixed -> fixTerm fixed term = Ok fixed.
Proof.
  intros I A. unfold fixTerm.
  set (tns := replaceAll noFlags (plus ws) empty term).
  assert (It : In tns termsNoSpaces)
    by (unfold termsNoSpaces; exact (in_map (fun t => replaceAll noFlags (plus ws) empty t) _ _ I)).
  rewrite (replaceAllM_nomatch fI (prefixedTermRe tns)).
  - cbn [bind]. apply replaceAllM_nomatch.
    apply (matchAll_avoided fI _ splitPlace); [|exact A].
    intros i pv s' mr M. exists EmptyString, (mtext mr), EmptyString.
    split; [apply whole_match|].
    apply (splitPlace_term tns _ It). rewrite (suffixed_place _ _ _ _ _ M). apply orb_true_r.
  - apply (matchAll_avoided fI _ splitPlace); [|exact A].
    intros i pv s' mr M. exists EmptyString, (mtext mr), EmptyString.
    split; [apply whole_match|].
    apply (splitPlace_term tns _ It). rewrite (prefixed_place _ _ _ _ _ M). reflexivity.
Qed.

Lemma fixTerms_separate (terms : list string) (fixed : string) :
  (forall term, In term terms -> In term higTerms) ->
  avoids splitPlace fixed -> fixTerms fixed terms = Ok fixed.
Proof.
  intros H A. induction terms as [|term r IH]; [reflexivity|].
  cbn [fixTerms]. rewrite (fixTerm_separate fixed term (H _ (or_introl eq_refl)) A).
  cbn [bind]. apply IH. intros t I. apply H. right. exact I.
Qed.

Lemma pairs_nomatch (p q : ascii -> bool) (s : string) :
  (forall u, isPair p q u = true -> splitPlace u = true) ->
  avoids splitPlace s ->
  matchAll noFlags (Seq (Grp 1 (cls p)) (Grp 2 (cls q))) s = [].
Proof.
  intros H A. apply (matchAll_avoided noFlags _ splitPlace); [|exact A].
  intros i pv s' mr M. exists EmptyString, (mtext mr), EmptyString.
  split; [apply whole_match|]. apply H. exact (pair_place _ _ _ _ _ _ M).
Qed.

Lemma triples_nomatch (d : ascii) (s : string) :
  (forall u, isTriple isLower d isUpper u = true -> splitPlace u = true) ->
  avoids splitPlace s ->
  matchAll noFlags (seq [Grp 1 (cls isLower); ch d; Grp 2 (cls isUpper)]) s = [].
Proof.
  intros H A. apply (matchAll_avoided noFlags _ splitPlace); [|exact A].
  intros i pv s' mr M. exists EmptyString, (mtext mr), EmptyString.
  split; [apply whole_match|]. apply H. exact (triple_place _ _ _ _ _ _ _ M).
Qed.

(** The word repair leaves a text as it is when no words are run together. *)
Lemma fixWordConcatenation_separate (s : string) :
  avoids splitPlace s -> fixWordConcatenation s = Ok s.
Proof.
  intros A. unfold fixWordConcatenation.
  rewrite (replaceAll_nomatch noFlags _ (between12 " ") s
             (pairs_nomatch isLower isUpper s
                (fun u H => splitPlace_pair u ltac:(rewrite H; reflexivity)) A)).
  rewrite (fixTerms_separate higTerms s (fun _ I => I) A). cbn [bind].
  rewrite (replaceAll_nomatch noFlags _ (between12 ". ") s
             (triples_nomatch "." s
                (fun u H => splitPlace_triple u ltac:(rewrite H; reflexivity)) A)).
  rewrite (replaceAll_nomatch noFlags _ (between12 "! ") s
             (triples_nomatch "!" s
                (fun u H => splitPlace_triple u ltac:(rewrite H; rewrite ?orb_true_r; reflexivity)) A)).
  rewrite (replaceAll_nomatch noFlags _ (between12 "? ") s
             (triples_nomatch "?" s
                (fun u H => splitPlace_triple u ltac:(rewrite H; rewrite ?orb_true_r; reflexivity)) A)).
  rewrite (replaceAll_nomatch noFlags _ (between12 " ") s
             (pairs_nomatch isDigit isLetter s
                (fun u H => splitPlace_pair u ltac:(rewrite H; rewrite ?orb_true_r; reflexivity)) A)).
  rewrite (replaceAll_nomatch noFlags _ (between12 " ") s
             (pairs_nomatch isLetter isDigit s
                (fun u H => splitPlace_pair u ltac:(rewrite H; rewrite ?orb_true_r; reflexivity)) A)).
  reflexivity.
Qed.

End SeparateWords.

(** ** The normalizer on texts that need only their spacing put right *)

Section OnlySpacing.

Lemma class_noSpace (p : ascii -> bool) :
  forallb (fun c => implb (p c) (negb (isSpace c))) (map ascii_of_nat (List.seq 0 256)) = true ->
  forall c, p c = true -> negb (isSpace c) = true.
Proof.
  intros H c Pc. pose proof (ascii_all _ H c) as I. cbv beta in I.
  rewrite Pc in I. exact I.
Qed.

Lemma letter_noSpace (c : ascii) : isLetter c = true -> negb (isSpace c) = true.
Proof. apply class_noSpace. vm_compute. reflexivity. Qed.

Lemma lower_noSpace (c : ascii) : isLower c = true -> negb (isSpace c) = true.
Proof. apply class_noSpace. vm_compute. reflexivity. Qed.

Lemma upper_noSpace (c : ascii) : isUpper c = true -> negb (isSpace c) = true.
Proof. apply class_noSpace. vm_compute. reflexivity. Qed.

Lemma digit_noSpace (c : ascii) : isDigit c = true -> negb (isSpace c) = true.
Proof. apply class_noSpace. vm_compute. reflexivity. Qed.

Lemma isPair_noSpace (p q : ascii -> bool) (u : string) :
  (forall c, p c = true -> negb (isSpace c) = true) ->
  (forall c, q c = true -> negb (isSpace c) = true) ->
  isPair p q u = true ->
  u <> EmptyString /\ allChars (fun c => negb (isSpace c)) u = true.
Proof.
  intros Hp Hq H. destruct u as [|c [|d [|e u]]]; try discriminate.
  cbn [isPair] in H. apply andb_true_iff in H. destruct H as [Pc Qd].
  split; [discriminate|]. cbn [allChars]. rewrite (Hp _ Pc), (Hq _ Qd). reflexivity.
Qed.

Lemma isTriple_noSpace (d : ascii) (u : string) :
  negb (isSpace d) = true ->
  isTriple isLower d isUpper u = true ->
  u <> EmptyString /\ allChars (fun c => negb (isSpace c)) u = true.
Proof.
  intros Hd H. destruct u as [|a [|b [|c [|e u]]]]; try discriminate.
  cbn [isTriple] in H. apply andb_true_iff in H. destruct H as [H Qc].
  apply andb_true_iff in H. destruct H as [Pa Eb]. apply Ascii.eqb_eq in Eb. subst b.
  split; [discriminate|]. cbn [allChars].
  rewrite (lower_noSpace _ Pa), Hd, (upper_noSpace _ Qc). reflexivity.
Qed.

Lemma noSpace_toLowerCase (w : string) :
  allChars (fun c => negb (isSpace c)) (toLowerCase w)
  = allChars (fun c => negb (isSpace c)) w.
Proof.
  induction w as [|c w IH]; [reflexivity|].
  unfold toLowerCase in *. cbn [smap allChars]. rewrite toLowerChar_isSpace, IH. reflexivity.
Qed.

Lemma take_drop (n : nat) (u : string) : take n u ++ drop n u = u.
Proof.
  revert u. induction n as [|n IH]; intros u; [destruct u; reflexivity|].
  destruct u as [|c u]; [reflexivity|]. cbn [take drop append]. rewrite IH. reflexivity.
Qed.

Lemma terms_noSpace (t : string) :
  In t termsNoSpaces -> allChars (fun c => negb (isSpace c)) (toLowerCase t) = true.
Proof.
  assert (H : forallb (fun t => allChars (fun c => negb (isSpace c)) (toLowerCase t))
                termsNoSpaces = true) by (vm_compute; reflexivity).
  rewrite forallb_forall in H. exact (H t).
Qed.

Lemma caseless_noSpace (t w : string) :
  In t termsNoSpaces -> String.eqb (toLowerCase w) (toLowerCase t) = true ->
  allChars (fun c => negb (isSpace c)) w = true.
Proof.
  intros I E. apply String.eqb_eq in E.
  rewrite <- noSpace_toLowerCase, E. exact (terms_noSpace t I).
Qed.

Lemma letters_noSpace (w : string) :
  allChars isLetter w = true -> allChars (fun c => negb (isSpace c)) w = true.
Proof. apply allChars_ext. exact letter_noSpace. Qed.

Lemma afterLetters_noSpace (t u : string) :
  In t termsNoSpaces -> afterLetters t u = true ->
  u <> EmptyString /\ allChars (fun c => negb (isSpace c)) u = true.
Proof.
  intros I H. unfold afterLetters in H.
  apply andb_true_iff in H. destruct H as [H E].
  apply andb_true_iff in H. destruct H as [L A].
  apply Nat.leb_le in L. split.
  - intros ->. simpl in L. lia.
  - rewrite <- (take_drop (String.length u - String.length t) u), allChars_append.
    rewrite (letters_noSpace _ A), (caseless_noSpace t _ I E). reflexivity.
Qed.

Lemma beforeLetters_noSpace (t u : string) :
  In t termsNoSpaces -> beforeLetters t u = true ->
  u <> EmptyString /\ allChars (fun c => negb (isSpace c)) u = true.
Proof.
  intros I H. unfold beforeLetters in H.
  apply andb_true_iff in H. destruct H as [H A].
  apply andb_true_iff in H. destruct H as [E L].
  apply Nat.leb_le in L. split.
  - intros ->. replace (drop (String.length t) EmptyString) with EmptyString in L
      by (destruct (String.length t); reflexivity).
    simpl in L. lia.
  - rewrite <- (take_drop (String.length t) u), allChars_append.
    rewrite (caseless_noSpace t _ I E), (letters_noSpace _ A). reflexivity.
Qed.

(** What the word repair looks for holds no white space. *)
Lemma splitPlace_noSpace (u : string) :
  splitPlace u = true ->
  u <> EmptyString /\ allChars (fun c => negb (isSpace c)) u = true.
Proof.
  unfold splitPlace. intros H.
  destruct (isPair isLower isUpper u) eqn:H1;
    [exact (isPair_noSpace _ _ u lower_noSpace upper_noSpace H1)|].
  destruct (isTriple isLower "." isUpper u) eqn:H2;
    [exact (isTriple_noSpace "." u eq_refl H2)|].
  destruct (isTriple isLower "!" isUpper u) eqn:H3;
    [exact (isTriple_noSpace "!" u eq_refl H3)|].
  destruct (isTriple isLower "?" isUpper u) eqn:H4;
    [exact (isTriple_noSpace "?" u eq_refl H4)|].
  destruct (isPair isDigit isLetter u) eqn:H5;
    [exact (isPair_noSpace _ _ u digit_noSpace letter_noSpace H5)|].
  destruct (isPair isLetter isDigit u) eqn:H6;
    [exact (isPair_noSpace _ _ u letter_noSpace digit_noSpace H6)|].
  cbn [orb] in H. apply existsb_exists in H. destruct H as (t & I & H).
  apply orb_true_iff in H. destruct H as [H | H].
  - exact (afterLetters_noSpace t u I H).
  - exact (beforeLetters_noSpace t u I H).
Qed.

Lemma noSpace_notBlank (u : string) :
  allChars (fun c => negb (isSpace c)) u = true ->
  allChars (fun c => negb (isBlank c)) u = true.
Proof.
  apply allChars_ext. intros c H. destruct (isBlank c) eqn:B; [|reflexivity].
  rewrite (blank_isSpace _ B) in H. discriminate.
Qed.

Lemma splitPlace_notBlank (u : string) :
  splitPlace u = true ->
  u <> EmptyString /\ allChars (fun c => negb (isBlank c)) u = true.
Proof.
  intros H. destruct (splitPlace_noSpace u H) as (N & A).
  split; [exact N | exact (noSpace_notBlank u A)].
Qed.

Lemma markerFree_same (a b : string) :
  squashW a = squashW b -> markerFree a = markerFree b.
Proof. unfold markerFree. intros ->. reflexivity. Qed.

Lemma avoids_includes (s p : string) : avoids (String.eqb p) s -> includes s p = false.
Proof.
  intros A. destruct (includes s p) eqn:E; [|reflexivity].
  destruct (includes_parts _ _ E) as (pre & post & Es).
  rewrite <- (A pre p post Es). symmetry. apply String.eqb_refl.
Qed.

Lemma bullet_before (a c : ascii) : collapsesTo a c -> isBullet c = true -> isBullet a = true.
Proof. intros [-> | [_ ->]] H; [exact H | discriminate]. Qed.

Lemma space_before (a c : ascii) : collapsesTo a c -> isSpace c = true -> isSpace a = true.
Proof. intros [-> | [B _]] H; [exact H | exact (blank_isSpace _ B)]. Qed.

Lemma blank_before (a c : ascii) : collapsesTo a c -> isBlank c = true -> isBlank a = true.
Proof. intros [-> | [B _]] H; [exact H | exact B]. Qed.

Lemma lineTerminator_before (a c : ascii) :
  collapsesTo a c -> isLineTerminator c = true -> isLineTerminator a = true.
Proof. intros [-> | [_ ->]] H; [exact H | discriminate]. Qed.

Lemma cleanMarkdown_spacing (s : string) :
  onlySpacing s -> cleanMarkdown s = Ok (trim (collapseRuns isBlank s false)).
Proof.
  intros (M & A & B & E & N & T). unfold cleanMarkdown. cbv zeta.
  destruct (banners_plain s M) as (B1 & B2 & B3 & B4 & B5).
  rewrite (replaceFirst_nomatch _ _ _ _ B1), (replaceFirst_nomatch _ _ _ _ B2),
    (replaceAll_nomatch _ _ _ _ B3), (replaceAll_nomatch _ _ _ _ B4),
    (replaceAll_nomatch _ _ _ _ B5).
  rewrite (removeAppleSPAMetadata_plain s M), (removeRepeatedTitles_plain s M). cbn [bind].
  rewrite (replaceAll_nomatch _ _ _ _ (lineFeeds_nomatch s N)).
  rewrite (replaceAll_nomatch _ _ _ _ (trailingBlanks_nomatch s E T)).
  rewrite (replaceAll_plus noFlags blank isBlank blank_single eq_refl).
  set (t := collapseRuns isBlank s false).
  assert (Mt : markerFree t = true)
    by (rewrite (markerFree_same t s (squashW_collapseRuns s false)); exact M).
  destruct (headers_plain t Mt) as (H1 & H2 & H3 & H4).
  rewrite (replaceAll_nomatch _ _ _ _ H1), (replaceAll_nomatch _ _ _ _ H2),
    (replaceAll_nomatch _ _ _ _ H3), (replaceAll_nomatch _ _ _ _ H4).
  rewrite (replaceAll_nomatch _ _ _ _
             (bullets_nomatch t (avoids_pair_collapse _ _ s false bullet_before space_before B))).
  rewrite (fixWordConcatenation_separate t (avoids_collapse _ s false splitPlace_notBlank A)).
  cbn [bind].
  rewrite (removeTrailingMetadata_plain t Mt). apply f_equal, trim_idempotent.
Qed.

End OnlySpacing.

(** ** The passes on line feeds and on the ends of lines, unit by unit *)

Section GreedyCounts.

Variable f : flags.
Variable a : regex.
Variable q : ascii -> bool.

Hypothesis single : forall x k,
  m f a x k = match rest x with
              | String c t => if q c then k (advance c t x) else None
              | EmptyString => None
              end.
Hypothesis groupless : groups a = [].

Lemma m_atLeast_short (k : cont) (n : nat) :
  forall w r i pv cs,
    allChars q w = true -> endsRun q r -> String.length w < n ->
    m f (atLeast n a) (MState i pv (w ++ r) cs) k = None.
Proof.
  induction n as [|n IH]; intros w r i pv cs A R L; [lia|].
  cbn [atLeast m]. rewrite single. cbn [rest].
  destruct w as [|c w].
  - cbn [append]. destruct r as [|c t]; [reflexivity|]. simpl in R. rewrite R. reflexivity.
  - simpl in A. apply andb_true_iff in A. destruct A as [Qc A].
    cbn [append]. rewrite Qc. unfold advance. cbn [pos caps].
    apply IH; [exact A | exact R | simpl in L; lia].
Qed.

(** At least [n] units of the class: the whole run, when it is long enough. *)
Lemma matchAt_atLeast (n i : nat) (pv : option ascii) (s : string) :
  matchAt f (atLeast n a) i pv s =
  if Nat.leb n (String.length (fst (spanRun q s)))
  then Some (MRes i (fst (spanRun q s)) []) else None.
Proof.
  unfold matchAt.
  destruct (spanRun_spec q s) as (E & A & R).
  destruct (spanRun q s) as [w r]. cbn [fst snd] in *. subst s.
  destruct (Nat.leb_spec n (String.length w)) as [L|L].
  - rewrite (m_atLeast_run f a q single groupless (fun y => Some y) n w r i pv [] A R L)
      by discriminate.
    cbn [pos caps]. replace (i + String.length w - i) with (String.length w) by lia.
    rewrite take_append. reflexivity.
  - rewrite (m_atLeast_short (fun y => Some y) n w r i pv [] A R L). reflexivity.
Qed.

End GreedyCounts.

Section LineFeeds.

Lemma take_short (n : nat) (w : string) : String.length w <= n -> take n w = w.
Proof.
  revert n. induction w as [|c w IH]; intros n L; [destruct n; reflexivity|].
  destruct n as [|n]; [simpl in L; lia|]. cbn [take]. rewrite IH; [reflexivity|].
  simpl in L. lia.
Qed.

Lemma squeezeNL_run (w r : string) :
  endsRun (fun c => Ascii.eqb c NL) r ->
  allChars (fun c => Ascii.eqb c NL) w = true ->
  forall n, squeezeNL (w ++ r) n = take (2 - n) w ++ squeezeNL r 0.
Proof.
  intros R. induction w as [|c w IH]; intros A n.
  - replace (take (2 - n) EmptyString) with EmptyString by (destruct (2 - n); reflexivity).
    cbn [append]. destruct r as [|c t]; [reflexivity|].
    cbn [endsRun] in R. cbn [squeezeNL]. rewrite R. reflexivity.
  - cbn [allChars] in A. apply andb_true_iff in A. destruct A as [Qc A].
    cbn [append squeezeNL]. rewrite Qc, (IH A).
    destruct n as [|[|n]]; reflexivity.
Qed.

(** Three line feeds or more replaced by two. *)
Lemma render_lineFeeds (s : string) :
  forall i pv skip,
    render (fun _ => nl ++ nl) (scan noFlags (atLeast 3 (ch NL)) i pv s skip) =
    squeezeNL (drop skip s) 0.
Proof.
  induction s as [|c t IH]; intros i pv skip.
  - destruct skip; [|reflexivity]. cbn [scan].
    rewrite (matchAt_atLeast noFlags (ch NL) _ nl_single eq_refl). reflexivity.
  - destruct skip as [|k]; cbn [scan drop]; [|apply IH].
    rewrite (matchAt_atLeast noFlags (ch NL) _ nl_single eq_refl). cbn [spanRun squeezeNL].
    destruct (Ascii.eqb c NL) eqn:Q.
    + destruct (spanRun_spec (fun c => Ascii.eqb c NL) t) as (E & A & R).
      destruct (spanRun (fun c => Ascii.eqb c NL) t) as [w r]. cbn [fst snd] in *.
      apply Ascii.eqb_eq in Q. subst c.
      cbn [String.length]. change (Nat.ltb 0 2) with true. cbv iota.
      destruct (Nat.leb_spec 3 (S (String.length w))) as [L|L].
      * cbn [render mtext String.length]. rewrite IH.
        rewrite E at 1 2. rewrite drop_append, (squeezeNL_run w r R A 1).
        destruct w as [|d w]; [simpl in L; lia|].
        cbn [allChars] in A. apply andb_true_iff in A. destruct A as [Qd _].
        apply Ascii.eqb_eq in Qd. subst d. reflexivity.
      * cbn [render]. rewrite IH, drop_0. f_equal.
        rewrite E, (squeezeNL_run w r R A 0), (squeezeNL_run w r R A 1).
        rewrite (take_short (2 - 0) w), (take_short (2 - 1) w) by (simpl; lia).
        reflexivity.
    + cbn [fst String.length]. change (Nat.leb 3 0) with false. cbv iota.
      cbn [render]. rewrite IH, drop_0. reflexivity.
Qed.

Lemma lineFeeds_pass (s : string) :
  replaceAll noFlags (atLeast 3 (ch NL)) (fun _ => nl ++ nl) s = squeezeNL s 0.
Proof. unfold replaceAll, scanAll. rewrite render_lineFeeds. reflexivity. Qed.

End LineFeeds.

Section LineEnds.

Lemma blank_single_m (x : mstate) (k : cont) :
  m fM blank x k =
  match rest x with
  | String c t => if isBlank c then k (advance c t x) else None
  | EmptyString => None
  end.
Proof.
  unfold blank, cls. cbn [m]. destruct (rest x) as [|c t]; [reflexivity|].
  rewrite (inClass_plain fM eq_refl). reflexivity.
Qed.

Lemma eol_fails_on_blank (y : mstate) (c : ascii) (t : string) :
  rest y = String c t -> isBlank c = true ->
  (fun z : mstate => if atEol fM z then Some z else None) y = None.
Proof.
  intros R Q. cbv beta. unfold atEol. rewrite R.
  replace (isLineTerminator c) with false; [reflexivity|].
  revert Q. generalize c.
  assert (H : forall c0, implb (isBlank c0) (negb (isLineTerminator c0)) = true).
  { apply (ascii_all (fun c0 => implb (isBlank c0) (negb (isLineTerminator c0)))).
    vm_compute. reflexivity. }
  intros c0 Q. specialize (H c0). rewrite Q in H. cbn [implb] in H.
  apply negb_true_iff in H. auto.
Qed.

Lemma matchAt_blanks_eol (i : nat) (pv : option ascii) (s : string) :
  matchAt fM (Seq (plus blank) Eol) i pv s =
  match spanRun isBlank s with
  | (String c w, r) => if atEolOf r then Some (MRes i (String c w) []) else None
  | _ => None
  end.
Proof.
  unfold matchAt. cbn [m].
  destruct (spanRun_spec isBlank s) as (E & A & R).
  destruct (spanRun isBlank s) as [w r]. cbn [fst snd] in *. subst s.
  destruct w as [|c w].
  - cbn [append]. rewrite (m_plus_none fM blank isBlank blank_single_m); [reflexivity|].
    exact R.
  - simpl in A. apply andb_true_iff in A. destruct A as [Qc A]. cbn [append].
    rewrite (m_plus_strict fM blank isBlank blank_single_m eq_refl
               (fun z : mstate => if atEol fM z then Some z else None) eol_fails_on_blank
               c w r i pv [] Qc A R).
    unfold atEol, atEolOf. cbn [rest multiline fM andb].
    destruct (match r with EmptyString => true | String c0 _ => isLineTerminator c0 end);
      [|reflexivity].
    cbn [pos caps].
    replace (i + S (String.length w) - i) with (String.length (String c w))
      by (cbn [String.length]; lia).
    change (String c (w ++ r)) with (String c w ++ r).
    rewrite take_append. reflexivity.
Qed.

Lemma blanksThenEol_run (w r : string) :
  allChars isBlank w = true -> blanksThenEol (w ++ r) = blanksThenEol r.
Proof.
  induction w as [|c w IH]; intros A; [reflexivity|].
  simpl in A. apply andb_true_iff in A. destruct A as [Qc A].
  cbn [append blanksThenEol]. rewrite Qc. apply IH, A.
Qed.

Lemma blanksThenEol_end (r : string) : endsRun isBlank r -> blanksThenEol r = atEolOf r.
Proof.
  destruct r as [|c t]; [reflexivity|]. cbn [endsRun blanksThenEol atEolOf].
  intros ->. reflexivity.
Qed.

Lemma stripEol_run (w r : string) :
  allChars isBlank w = true -> blanksThenEol r = true -> stripEol (w ++ r) = stripEol r.
Proof.
  induction w as [|c w IH]; intros A B; [reflexivity|].
  simpl in A. apply andb_true_iff in A. destruct A as [Qc A].
  cbn [append stripEol]. rewrite Qc, (blanksThenEol_run w r A), B. cbn [andb].
  apply IH; assumption.
Qed.

(** The spaces and tabs at the ends of the lines removed. *)
Lemma render_lineEnds (s : string) :
  forall i pv skip,
    render empty (scan fM (Seq (plus blank) Eol) i pv s skip) = stripEol (drop skip s).
Proof.
  induction s as [|c t IH]; intros i pv skip.
  - destruct skip; reflexivity.
  - destruct skip as [|k]; cbn [scan drop]; [|apply IH].
    rewrite matchAt_blanks_eol. cbn [spanRun stripEol].
    destruct (spanRun_spec isBlank t) as (E & A & R).
    destruct (spanRun isBlank t) as [w r]. cbn [fst snd] in *. subst t.
    rewrite (blanksThenEol_run w r A), (blanksThenEol_end r R).
    destruct (isBlank c) eqn:Qc; cbn [andb].
    + destruct (atEolOf r) eqn:Er.
      * cbn [render mtext String.length empty append]. rewrite IH, drop_append.
        symmetry. apply stripEol_run; [exact A|].
        rewrite (blanksThenEol_end r R). exact Er.
      * cbn [render]. rewrite IH, drop_0. reflexivity.
    + cbn [render]. rewrite IH, drop_0. reflexivity.
Qed.

Lemma lineEnds_pass (s : string) :
  replaceAll fM (Seq (plus blank) Eol) empty s = stripEol s.
Proof. unfold replaceAll, scanAll. rewrite render_lineEnds. reflexivity. Qed.

End LineEnds.

(** ** What the passes on line feeds and line ends keep *)

Section LineFeedsKeep.

Lemma squashW_squeezeNL (s : string) :
  forall n, squashW (squeezeNL s n) = squashW s.
Proof.
  induction s as [|c t IH]; intros n; [reflexivity|].
  cbn [squeezeNL]. destruct (Ascii.eqb c NL) eqn:Q.
  - apply Ascii.eqb_eq in Q. subst c.
    change (squashW (String NL t)) with (squashW t).
    destruct (Nat.ltb n 2); [|apply IH].
    change (squashW (String NL (squeezeNL t (S n)))) with (squashW (squeezeNL t (S n))).
    apply IH.
  - cbn [squashW]. rewrite IH. reflexivity.
Qed.

Lemma noSpace_notNL (u : string) :
  allChars (fun c => negb (isSpace c)) u = true ->
  allChars (fun c => negb (Ascii.eqb c NL)) u = true.
Proof.
  apply allChars_ext. intros c H. destruct (Ascii.eqb_spec c NL) as [->|]; [|reflexivity].
  discriminate H.
Qed.

Lemma squeeze_prefix :
  forall u t post,
    allChars (fun c => negb (Ascii.eqb c NL)) u = true ->
    squeezeNL t 0 = u ++ post ->
    exists post', t = u ++ post'.
Proof.
  induction u as [|d u IH]; intros t post A H.
  - exists t. reflexivity.
  - cbn [allChars] in A. apply andb_true_iff in A. destruct A as [Ad A].
    cbn [append] in H. destruct t as [|c t]; [discriminate|].
    cbn [squeezeNL] in H. destruct (Ascii.eqb c NL) eqn:Q.
    + change (Nat.ltb 0 2) with true in H. cbv iota in H.
      injection H as H1 _. subst d. rewrite Q in Ad. discriminate.
    + injection H as H1 H2. subst d.
      destruct (IH _ _ A H2) as (post' & ->). exists post'. reflexivity.
Qed.

(** A piece of the squeezed text without a line feed lies in the text as
    it was. *)
Lemma squeeze_substring :
  forall s n pre u post,
    u <> EmptyString -> allChars (fun c => negb (Ascii.eqb c NL)) u = true ->
    squeezeNL s n = pre ++ u ++ post ->
    exists pre' post', s = pre' ++ u ++ post'.
Proof.
  induction s as [|c t IH]; intros n pre u post Nu A H.
  - destruct pre; [|discriminate]. destruct u; [congruence | discriminate].
  - cbn [squeezeNL] in H. destruct (Ascii.eqb c NL) eqn:Q; [destruct (Nat.ltb n 2)|].
    + destruct pre as [|p0 pre]; cbn [append] in H.
      * destruct u as [|d u]; [congruence|]. cbn [append] in H.
        injection H as H1 _. subst d. cbn [allChars] in A. rewrite Q in A. discriminate.
      * injection H as _ H.
        destruct (IH _ _ _ _ Nu A H) as (p' & q' & ->). exists (String c p'), q'. reflexivity.
    + destruct (IH _ _ _ _ Nu A H) as (p' & q' & ->). exists (String c p'), q'. reflexivity.
    + destruct pre as [|p0 pre]; cbn [append] in H.
      * destruct u as [|d u]; [congruence|]. cbn [append] in H.
        injection H as H1 H2. subst d.
        cbn [allChars] in A. apply andb_true_iff in A. destruct A as [_ A].
        destruct (squeeze_prefix u t post A H2) as (q' & ->).
        exists EmptyString, q'. reflexivity.
      * injection H as _ H.
        destruct (IH _ _ _ _ Nu A H) as (p' & q' & ->). exists (String c p'), q'. reflexivity.
Qed.

Lemma squeeze_head :
  forall t n d post,
    squeezeNL t n = String d post ->
    exists run t', t = run ++ String d t' /\ allChars (fun c => Ascii.eqb c NL) run = true.
Proof.
  induction t as [|c t IH]; intros n d post H; [discriminate|].
  cbn [squeezeNL] in H. destruct (Ascii.eqb c NL) eqn:Q; [destruct (Nat.ltb n 2)|].
  - injection H as H1 _. subst d. exists EmptyString, t. auto.
  - destruct (IH _ _ _ H) as (run & t' & -> & A).
    exists (String c run), t'. cbn [allChars append]. rewrite Q. auto.
  - injection H as H1 _. subst d. exists EmptyString, t. auto.
Qed.

(** Two neighbours of the squeezed text were neighbours before. *)
Lemma squeeze_pair :
  forall s n pre c d post,
    squeezeNL s n = pre ++ String c (String d post) ->
    exists pre' post', s = pre' ++ String c (String d post').
Proof.
  induction s as [|c0 t IH]; intros n pre c d post H.
  - destruct pre; discriminate.
  - cbn [squeezeNL] in H. destruct (Ascii.eqb c0 NL) eqn:Q; [destruct (Nat.ltb n 2)|].
    + destruct pre as [|p0 pre]; cbn [append] in H.
      * injection H as H1 H2. subst c.
        destruct (squeeze_head _ _ _ _ H2) as (run & t' & -> & A).
        destruct (run_last (fun c => Ascii.eqb c NL) (String c0 run)) as (init & l & E & Ql);
          [discriminate | cbn [allChars]; rewrite Q; exact A |].
        apply Ascii.eqb_eq in Ql, Q. subst l c0.
        exists init, t'.
        change (String NL (run ++ String d t')) with (String NL run ++ String d t').
        rewrite E, append_assoc. reflexivity.
      * injection H as _ H.
        destruct (IH _ _ _ _ _ H) as (p' & q' & ->). exists (String c0 p'), q'. reflexivity.
    + destruct (IH _ _ _ _ _ H) as (p' & q' & ->). exists (String c0 p'), q'. reflexivity.
    + destruct pre as [|p0 pre]; cbn [append] in H.
      * injection H as H1 H2. subst c.
        destruct t as [|e t']; [discriminate|].
        cbn [squeezeNL] in H2. change (Nat.ltb 0 2) with true in H2.
        destruct (Ascii.eqb e NL); cbv iota in H2; injection H2 as H3 _; subst d;
          exists EmptyString, t'; reflexivity.
      * injection H as _ H.
        destruct (IH _ _ _ _ _ H) as (p' & q' & ->). exists (String c0 p'), q'. reflexivity.
Qed.

Lemma avoids_squeeze (bad : string -> bool) (s : string) (n : nat) :
  (forall u, bad u = true ->
             u <> EmptyString /\ allChars (fun c => negb (isSpace c)) u = true) ->
  avoids bad s -> avoids bad (squeezeNL s n).
Proof.
  intros Hb A pre u post E. destruct (bad u) eqn:Bu; [|reflexivity].
  destruct (Hb u Bu) as (Nu & Au).
  destruct (squeeze_substring s n pre u post Nu (noSpace_notNL u Au) E) as (p' & q' & E').
  rewrite <- Bu. exact (A p' u q' E').
Qed.

Lemma avoids_pair_squeeze (p q : ascii -> bool) (s : string) (n : nat) :
  avoids (isPair p q) s -> avoids (isPair p q) (squeezeNL s n).
Proof.
  intros A pre u post E.
  destruct u as [|c [|d [|e u]]]; try reflexivity.
  cbn [append] in E.
  destruct (squeeze_pair s n pre c d post E) as (pre' & post' & E').
  exact (A pre' (String c (String d EmptyString)) post' E').
Qed.

Lemma noTripleNL_weaken (s : string) :
  forall n, noTripleNL (S n) s = true -> noTripleNL n s = true.
Proof.
  induction s as [|c t IH]; intros n H; [reflexivity|].
  cbn [noTripleNL] in *. destruct (Ascii.eqb c NL); [|exact H].
  apply andb_true_iff in H. destruct H as [L H].
  apply Nat.ltb_lt in L.
  rewrite (IH _ H). replace (Nat.ltb n 2) with true; [reflexivity|].
  symmetry. apply Nat.ltb_lt. lia.
Qed.

(** The squeezed text has no three line feeds in a row. *)
Lemma noTripleNL_squeeze (s : string) :
  forall n, noTripleNL n (squeezeNL s n) = true.
Proof.
  induction s as [|c t IH]; intros n; [reflexivity|].
  cbn [squeezeNL]. destruct (Ascii.eqb c NL) eqn:Q; [destruct (Nat.ltb n 2) eqn:L|].
  - cbn [noTripleNL]. rewrite Q, L, IH. reflexivity.
  - apply noTripleNL_weaken, IH.
  - cbn [noTripleNL]. rewrite Q. apply IH.
Qed.

Lemma blanksThenNL_squeeze (t : string) :
  blanksThenNL (squeezeNL t 0) = blanksThenNL t.
Proof.
  induction t as [|c t IH]; [reflexivity|].
  cbn [squeezeNL]. destruct (Ascii.eqb c NL) eqn:Q.
  - change (Nat.ltb 0 2) with true. cbv iota. cbn [blanksThenNL]. rewrite Q.
    destruct (isBlank c) eqn:B; [|reflexivity].
    rewrite (blank_not_NL _ B) in Q. discriminate.
  - cbn [blanksThenNL]. rewrite IH. reflexivity.
Qed.

Lemma noBlankLine_squeeze (s : string) :
  forall n, noBlankLine (Nat.ltb 0 n) s = true ->
            noBlankLine (Nat.ltb 0 n) (squeezeNL s n) = true.
Proof.
  induction s as [|c t IH]; intros n H; [reflexivity|].
  cbn [noBlankLine] in H. apply andb_true_iff in H. destruct H as [H1 H2].
  cbn [squeezeNL]. destruct (Ascii.eqb c NL) eqn:Q; [destruct (Nat.ltb n 2) eqn:L|].
  - cbn [noBlankLine]. rewrite Q. apply Ascii.eqb_eq in Q. subst c.
    change (isBlank NL) with false. rewrite andb_false_r. cbn [andb negb].
    exact (IH (S n) H2).
  - assert (P : Nat.ltb 0 n = true) by (apply Nat.ltb_lt; apply Nat.ltb_ge in L; lia).
    rewrite P. exact (IH (S n) H2).
  - cbn [noBlankLine]. rewrite Q, blanksThenNL_squeeze, H1. cbn [andb].
    exact (IH 0 H2).
Qed.

Lemma noTripleNL_includes (s : string) :
  forall n, noTripleNL n s = true -> includes s (nl ++ nl ++ nl) = false.
Proof.
  induction s as [|c t IH]; intros n H; [reflexivity|].
  rewrite includes_unfold. apply orb_false_iff. split.
  - destruct (startsWith (String c t) (nl ++ nl ++ nl)) eqn:S3; [|reflexivity].
    exfalso. unfold nl in S3. cbn [append startsWith] in S3.
    destruct t as [|c2 [|c3 t]]; cbn [startsWith] in S3;
      try (rewrite ?andb_false_r in S3; discriminate).
    apply andb_true_iff in S3. destruct S3 as [E1 S3].
    apply andb_true_iff in S3. destruct S3 as [E2 S3].
    apply andb_true_iff in S3. destruct S3 as [E3 _].
    apply Ascii.eqb_eq in E1, E2, E3. subst c c2 c3.
    cbn [noTripleNL] in H. rewrite Ascii.eqb_refl in H.
    apply andb_true_iff in H. destruct H as [_ H].
    apply andb_true_iff in H. destruct H as [_ H].
    apply andb_true_iff in H. destruct H as [L _]. discriminate L.
  - cbn [noTripleNL] in H. destruct (Ascii.eqb c NL).
    + apply andb_true_iff in H. destruct H as [_ H]. exact (IH _ H).
    + exact (IH _ H).
Qed.

End LineFeedsKeep.

Section LineEndsKeep.

Lemma blank_not_lineTerminator (c : ascii) :
  isBlank c = true -> isLineTerminator c = false.
Proof.
  intros Q.
  assert (H : implb (isBlank c) (negb (isLineTerminator c)) = true).
  { revert c Q. intros c _. revert c.
    apply (ascii_all (fun c0 => implb (isBlank c0) (negb (isLineTerminator c0)))).
    vm_compute. reflexivity. }
  rewrite Q in H. cbn [implb] in H. apply negb_true_iff in H. exact H.
Qed.

Lemma lineTerminator_isSpace (c : ascii) : isLineTerminator c = true -> isSpace c = true.
Proof.
  intros Q.
  assert (H : implb (isLineTerminator c) (isSpace c) = true).
  { revert c Q. intros c _. revert c.
    apply (ascii_all (fun c0 => implb (isLineTerminator c0) (isSpace c0))).
    vm_compute. reflexivity. }
  rewrite Q in H. exact H.
Qed.

Lemma squashW_stripEol (s : string) : squashW (stripEol s) = squashW s.
Proof.
  induction s as [|c t IH]; [reflexivity|].
  cbn [stripEol]. destruct (isBlank c) eqn:B; cbn [andb].
  - destruct (blanksThenEol t); cbn [squashW]; rewrite (blank_isSpace _ B); exact IH.
  - cbn [squashW]. rewrite IH. reflexivity.
Qed.

(** What is left after the blanks at the end of a line begins with the
    line break, or is empty. *)
Lemma strip_head_eol (t : string) : blanksThenEol t = true -> atEolOf (stripEol t) = true.
Proof.
  induction t as [|c t IH]; [reflexivity|].
  cbn [blanksThenEol stripEol]. destruct (isBlank c) eqn:B; intros H.
  - rewrite H. cbn [andb]. exact (IH H).
  - cbn [andb atEolOf]. exact H.
Qed.

Lemma strip_head_inv (s : string) (d : ascii) (post : string) :
  stripEol s = String d post -> isLineTerminator d = true -> blanksThenEol s = true.
Proof.
  revert d post. induction s as [|c t IH]; intros d post H L; [reflexivity|].
  cbn [stripEol] in H. cbn [blanksThenEol].
  destruct (isBlank c) eqn:B; cbn [andb] in H.
  - destruct (blanksThenEol t) eqn:Bt; [reflexivity|].
    injection H as H1 _. subst d. rewrite (blank_not_lineTerminator _ B) in L. discriminate.
  - injection H as H1 _. subst d. exact L.
Qed.

Lemma strip_prefix :
  forall u t post,
    allChars (fun c => negb (isSpace c)) u = true ->
    stripEol t = u ++ post ->
    exists post', t = u ++ post'.
Proof.
  induction u as [|d u IH]; intros t post A H.
  - exists t. reflexivity.
  - cbn [allChars] in A. apply andb_true_iff in A. destruct A as [Ad A].
    cbn [append] in H. destruct t as [|c t]; [discriminate|].
    cbn [stripEol] in H. destruct (isBlank c && blanksThenEol t)%bool eqn:D.
    + apply andb_true_iff in D. destruct D as [_ Bt].
      pose proof (strip_head_eol t Bt) as Hd. rewrite H in Hd. cbn [atEolOf] in Hd.
      rewrite (lineTerminator_isSpace _ Hd) in Ad. discriminate.
    + injection H as H1 H2. subst d.
      destruct (IH _ _ A H2) as (post' & ->). exists post'. reflexivity.
Qed.

(** A piece of the stripped text without white space lies in the text as
    it was. *)
Lemma strip_substring :
  forall s pre u post,
    u <> EmptyString -> allChars (fun c => negb (isSpace c)) u = true ->
    stripEol s = pre ++ u ++ post ->
    exists pre' post', s = pre' ++ u ++ post'.
Proof.
  induction s as [|c t IH]; intros pre u post Nu A H.
  - destruct pre; [|discriminate]. destruct u; [congruence | discriminate].
  - cbn [stripEol] in H. destruct (isBlank c && blanksThenEol t)%bool eqn:D.
    + destruct (IH _ _ _ Nu A H) as (p' & q' & ->). exists (String c p'), q'. reflexivity.
    + destruct pre as [|p0 pre]; cbn [append] in H.
      * destruct u as [|d u]; [congruence|]. cbn [append] in H.
        injection H as H1 H2. subst d.
        cbn [allChars] in A. apply andb_true_iff in A. destruct A as [_ A].
        destruct (strip_prefix u t post A H2) as (q' & ->).
        exists EmptyString, q'. reflexivity.
      * injection H as _ H.
        destruct (IH _ _ _ Nu A H) as (p' & q' & ->). exists (String c p'), q'. reflexivity.
Qed.

(** Two neighbours of the stripped text were neighbours before, or the
    second is a line break that had blanks before it. *)
Lemma strip_pair :
  forall s pre c d post,
    stripEol s = pre ++ String c (String d post) ->
    exists pre' post',
      s = pre' ++ String c (String d post') \/
      exists b, isBlank b = true /\ s = pre' ++ String c (String b post').
Proof.
  induction s as [|c0 t IH]; intros pre c d post H.
  - destruct pre; discriminate.
  - cbn [stripEol] in H. destruct (isBlank c0 && blanksThenEol t)%bool eqn:D.
    + destruct (IH _ _ _ _ H) as (p' & q' & [-> | (b & B & ->)]);
        exists (String c0 p'), q'; [left | right; exists b]; auto.
    + destruct pre as [|p0 pre]; cbn [append] in H.
      * injection H as H1 H2. subst c.
        destruct t as [|e t']; [discriminate|].
        cbn [stripEol] in H2. destruct (isBlank e && blanksThenEol t')%bool eqn:D2.
        -- apply andb_true_iff in D2. destruct D2 as [Be _].
           exists EmptyString, t'. right. exists e. auto.
        -- injection H2 as H3 _. subst d. exists EmptyString, t'. left. reflexivity.
      * injection H as _ H.
        destruct (IH _ _ _ _ H) as (p' & q' & [-> | (b & B & ->)]);
          exists (String c0 p'), q'; [left | right; exists b]; auto.
Qed.

Lemma avoids_strip (bad : string -> bool) (s : string) :
  (forall u, bad u = true ->
             u <> EmptyString /\ allChars (fun c => negb (isSpace c)) u = true) ->
  avoids bad s -> avoids bad (stripEol s).
Proof.
  intros Hb A pre u post E. destruct (bad u) eqn:Bu; [|reflexivity].
  destruct (Hb u Bu) as (Nu & Au).
  destruct (strip_substring s pre u post Nu Au E) as (p' & q' & E').
  rewrite <- Bu. exact (A p' u q' E').
Qed.

Lemma avoids_bullet_strip (s : string) :
  avoids bulletPlace s -> avoids bulletPlace (stripEol s).
Proof.
  intros A pre u post E.
  destruct u as [|c [|d [|e u]]]; try reflexivity.
  unfold bulletPlace. cbn [isPair].
  destruct (isBullet c) eqn:Pc; [|reflexivity]. cbn [andb].
  destruct (isSpace d) eqn:Qd; [|reflexivity]. exfalso.
  cbn [append] in E.
  destruct (strip_pair s pre c d post E) as (pre' & post' & [E' | (b & B & E')]).
  - specialize (A pre' (String c (String d EmptyString)) post' E').
    unfold bulletPlace in A. cbn [isPair] in A. rewrite Pc, Qd in A. discriminate.
  - specialize (A pre' (String c (String b EmptyString)) post' E').
    unfold bulletPlace in A. cbn [isPair] in A.
    rewrite Pc, (blank_isSpace _ B) in A. discriminate.
Qed.

(** The stripped text has no blank before a line break. *)
Lemma strip_no_blank_eol (s : string) : avoids blankAtEol (stripEol s).
Proof.
  intros pre u post E.
  destruct u as [|c [|d [|e u]]]; try reflexivity.
  unfold blankAtEol. cbn [isPair].
  destruct (isBlank c) eqn:Bc; [|reflexivity]. cbn [andb].
  destruct (isLineTerminator d) eqn:Ld; [|reflexivity]. exfalso.
  cbn [append] in E. revert pre E.
  induction s as [|c0 t IH]; intros pre E.
  - destruct pre; discriminate.
  - cbn [stripEol] in E. destruct (isBlank c0 && blanksThenEol t)%bool eqn:D.
    + exact (IH pre E).
    + destruct pre as [|p0 pre]; cbn [append] in E.
      * injection E as E1 E2. subst c0. rewrite Bc in D. cbn [andb] in D.
        rewrite (strip_head_inv t d post E2 Ld) in D. discriminate.
      * injection E as _ E. exact (IH pre E).
Qed.

(** Stripping the ends of the lines brings no three line feeds together
    when no line holds blanks only. *)
Lemma noTripleNL_strip (s : string) :
  forall n, noTripleNL n s = true -> noBlankLine (Nat.ltb 0 n) s = true ->
            noTripleNL n (stripEol s) = true.
Proof.
  induction s as [|c t IH]; intros n T B; [reflexivity|].
  cbn [noTripleNL] in T. cbn [noBlankLine] in B.
  apply andb_true_iff in B. destruct B as [B1 B2].
  cbn [stripEol]. destruct (isBlank c) eqn:Bc; cbn [andb].
  - rewrite (blank_not_NL _ Bc) in T, B2. rewrite andb_true_r in B1.
    destruct (blanksThenEol t) eqn:Bt.
    + apply IH.
      * destruct t as [|d t']; [reflexivity|].
        cbn [noTripleNL] in T |- *. cbn [blanksThenNL] in B1.
        destruct (Ascii.eqb d NL) eqn:Qd; [|exact T].
        apply Ascii.eqb_eq in Qd. subst d.
        change (isBlank NL) with false in B1. cbv iota in B1.
        rewrite ?Ascii.eqb_refl, andb_true_r in B1. apply negb_true_iff in B1.
        apply Nat.ltb_ge in B1.
        replace n with 0 by lia. exact T.
      * destruct t as [|d t']; [reflexivity|].
        cbn [noBlankLine] in B2 |- *. cbn [blanksThenNL] in B1.
        apply andb_true_iff in B2. destruct B2 as [_ B2]. rewrite B2, andb_true_r.
        destruct (isBlank d) eqn:Bd; [|rewrite andb_false_r; reflexivity].
        rewrite andb_true_r. exact B1.
    + cbn [noTripleNL]. rewrite (blank_not_NL _ Bc). exact (IH 0 T B2).
  - cbn [noTripleNL]. destruct (Ascii.eqb c NL) eqn:Q.
    + apply andb_true_iff in T. destruct T as [L T]. rewrite L. cbn [andb].
      exact (IH (S n) T B2).
    + exact (IH 0 T B2).
Qed.

End LineEndsKeep.

(** ** The normalizer as a white-space normalizer *)

Section WhiteSpaceOnly.

Lemma separateWords_squeeze (s : string) (n : nat) :
  separateWords s -> separateWords (squeezeNL s n).
Proof.
  intros (M & A & B). split; [|split].
  - rewrite (markerFree_same _ s (squashW_squeezeNL s n)). exact M.
  - apply avoids_squeeze; [exact splitPlace_noSpace | exact A].
  - unfold bulletPlace in *. exact (avoids_pair_squeeze _ _ s n B).
Qed.

Lemma separateWords_strip (s : string) : separateWords s -> separateWords (stripEol s).
Proof.
  intros (M & A & B). split; [|split].
  - rewrite (markerFree_same _ s (squashW_stripEol s)). exact M.
  - apply avoids_strip; [exact splitPlace_noSpace | exact A].
  - exact (avoids_bullet_strip s B).
Qed.

Lemma separateWords_collapse (s : string) (b : bool) :
  separateWords s -> separateWords (collapseRuns isBlank s b).
Proof.
  intros (M & A & B). split; [|split].
  - rewrite (markerFree_same _ s (squashW_collapseRuns s b)). exact M.
  - apply avoids_collapse; [exact splitPlace_notBlank | exact A].
  - unfold bulletPlace in *.
    exact (avoids_pair_collapse _ _ s b bullet_before space_before B).
Qed.

Lemma separateWords_trim (s : string) : separateWords s -> separateWords (trim s).
Proof.
  intros (M & A & B). split; [|split].
  - rewrite (markerFree_same _ s (squashW_trim s)). exact M.
  - apply avoids_trim, A.
  - apply avoids_trim, B.
Qed.

(** On a text whose words the passes leave alone, the normalizer squeezes
    the line feeds, strips the ends of the lines, collapses the spaces and
    tabs and trims. *)
Lemma cleanMarkdown_whiteSpace (s : string) :
  separateWords s ->
  cleanMarkdown s = Ok (trim (collapseRuns isBlank (stripEol (squeezeNL s 0)) false)).
Proof.
  intros K. pose proof K as (M & A & B). unfold cleanMarkdown. cbv zeta.
  destruct (banners_plain s M) as (B1 & B2 & B3 & B4 & B5).
  rewrite (replaceFirst_nomatch _ _ _ _ B1), (replaceFirst_nomatch _ _ _ _ B2),
    (replaceAll_nomatch _ _ _ _ B3), (replaceAll_nomatch _ _ _ _ B4),
    (replaceAll_nomatch _ _ _ _ B5).
  rewrite (removeAppleSPAMetadata_plain s M), (removeRepeatedTitles_plain s M). cbn [bind].
  rewrite lineFeeds_pass, lineEnds_pass.
  rewrite (replaceAll_plus noFlags blank isBlank blank_single eq_refl).
  set (t := collapseRuns isBlank (stripEol (squeezeNL s 0)) false).
  assert (Kt : separateWords t)
    by (apply separateWords_collapse, separateWords_strip, separateWords_squeeze, K).
  destruct Kt as (Mt & At & Bt).
  destruct (headers_plain t Mt) as (H1 & H2 & H3 & H4).
  rewrite (replaceAll_nomatch _ _ _ _ H1), (replaceAll_nomatch _ _ _ _ H2),
    (replaceAll_nomatch _ _ _ _ H3), (replaceAll_nomatch _ _ _ _ H4).
  rewrite (replaceAll_nomatch _ _ _ _ (bullets_nomatch t Bt)).
  rewrite (fixWordConcatenation_separate t At). cbn [bind].
  rewrite (removeTrailingMetadata_plain t Mt). apply f_equal, trim_idempotent.
Qed.

(** The result is a text that the white-space passes leave as it is. *)
Lemma whiteSpace_result (s : string) :
  separateWords s -> noBlankLine false s = true ->
  onlySpacing (trim (collapseRuns isBlank (stripEol (squeezeNL s 0)) false)) /\
  spaced isBlank false (trim (collapseRuns isBlank (stripEol (squeezeNL s 0)) false)) = true.
Proof.
  intros K L. set (u := stripEol (squeezeNL s 0)).
  assert (Ku : separateWords (trim (collapseRuns isBlank u false)))
    by (apply separateWords_trim, separateWords_collapse, separateWords_strip,
          separateWords_squeeze, K).
  destruct Ku as (M & A & B).
  split; [split; [exact M | split; [exact A | split; [exact B | split; [|split]]]]|].
  - apply avoids_trim. unfold blankAtEol.
    apply avoids_pair_collapse; [exact blank_before | exact lineTerminator_before |].
    exact (strip_no_blank_eol (squeezeNL s 0)).
  - apply avoids_includes, avoids_trim, avoids_collapse.
    + intros w Hw. apply String.eqb_eq in Hw. subst w. split; [discriminate | reflexivity].
    + apply includes_avoids, (noTripleNL_includes u 0).
      apply noTripleNL_strip; [apply noTripleNL_squeeze|].
      exact (noBlankLine_squeeze s 0 L).
  - apply endsBlank_trim.
  - apply spaced_trim, spaced_collapseRuns. reflexivity.
Qed.

End WhiteSpaceOnly.


